(** * The Hungarian assignment solver of hungarian.h, over multiarray.h

    A shallow embedding of [class Hungarian] (the version that stores its
    data in [MultiArray]) and of the parts of [MultiArray] it uses.

    - [double] values are exact rationals ([Q]): every comparison and every
      subtraction of the source is performed without rounding.  The constant
      [POSITIVE_INFINITY] is the source's [numeric_limits<double>::max()].
    - [uint32_t] values are [N]; [UNASSIGNED] is [2^32 - 1]; the index
      arithmetic of [MultiArray] wraps modulo [2^32] as in the source.
    - A heap array is a [list]; reading or writing outside of it is undefined
      behaviour in C++ and is the outcome [Fault] here.
    - [new T[extent]] leaves its cells indeterminate: the content such an
      allocation starts with is a parameter ([Indeterminate]).
    - [while (true)] loops take a fuel argument; running out of it is the
      outcome [OutOfFuel]. *)

From Stdlib Require Import QArith NArith Arith PeanoNat List Permutation FinFun
  Lia Lqa Bool.
From Stdlib Require Ascii.
Import ListNotations.


(** ** Outcomes *)

Inductive outcome (A : Type) : Type :=
| Done (a : A)
| Fault
| OutOfFuel.

Arguments Done {A} a.
Arguments Fault {A}.
Arguments OutOfFuel {A}.

Definition bind {A B : Type} (m : outcome A) (k : A -> outcome B) : outcome B :=
  match m with
  | Done a => k a
  | Fault => Fault
  | OutOfFuel => OutOfFuel
  end.

Notation "x <- m ;; k" := (bind m (fun x => k))
  (at level 61, m at next level, right associativity).
Notation "' p <- m ;; k" := (bind m (fun x => let p := x in k))
  (at level 61, p pattern, m at next level, right associativity).

(** ** Machine integers and the two constants of the class *)

Definition wrap32 (x : N) : N := (x mod 4294967296)%N.

Definition UNASSIGNED : N := 4294967295%N.

Definition POSITIVE_INFINITY : Q := inject_Z (2 ^ 1024 - 2 ^ 971).

Definition Qltb (a b : Q) : bool := negb (Qle_bool b a).

(** ** Heap arrays *)

Definition get {T : Type} (a : list T) (i : N) : outcome T :=
  match nth_error a (N.to_nat i) with
  | Some v => Done v
  | None => Fault
  end.

Fixpoint update {T : Type} (a : list T) (i : nat) (v : T) : list T :=
  match a, i with
  | [], _ => []
  | _ :: a', O => v :: a'
  | x :: a', S i' => x :: update a' i' v
  end.

Definition set {T : Type} (a : list T) (i : N) (v : T) : outcome (list T) :=
  if (i <? N.of_nat (length a))%N then Done (update a (N.to_nat i) v) else Fault.

(** [for (i = lo; i < hi; ++i) body] *)
Fixpoint for_loop {S : Type} (n : nat) (i : N) (body : N -> S -> outcome S)
  (s : S) : outcome S :=
  match n with
  | O => Done s
  | S n' => s' <- body i s ;; for_loop n' (N.succ i) body s'
  end.

Definition for_range {S : Type} (lo hi : N) (body : N -> S -> outcome S)
  (s : S) : outcome S :=
  for_loop (N.to_nat (hi - lo)) lo body s.

(** What the cells of a [new T[extent]] allocation hold before the first
    write, per allocation ([slot]) and cell. *)
Record Indeterminate : Type := {
  ind_double : N -> N -> Q;
  ind_uint32 : N -> N -> N;
  ind_bool : N -> N -> bool
}.

(** [MultiArray<T, 1>::MultiArray(uint32_t extent)]: [new T[extent]] and
    nothing else. *)
Definition new_array {T : Type} (cells : N -> T) (extent : N) : list T :=
  map (fun i => cells (N.of_nat i)) (seq 0 (N.to_nat extent)).

(** ** [MultiArray<double, 2>] *)

Record MultiArray2 : Type := {
  extent0 : N;
  extent1 : N;
  array : list Q
}.

(** [MultiArray<T, 2>::MultiArray(uint32_t extent, ...)]: the flat array is
    zeroed with [memset]. *)
Definition new_array2 (e0 e1 : N) : MultiArray2 :=
  {| extent0 := e0; extent1 := e1; array := repeat 0 (N.to_nat (e0 * e1)) |}.

(** [multiplier[0]] of a rank 2 array is [extent[1]]. *)
Definition flat_index (m : MultiArray2) (i j : N) : N :=
  wrap32 (wrap32 (i * extent1 m) + j).

Definition get2 (m : MultiArray2) (i j : N) : outcome Q :=
  get (array m) (flat_index m i j).

Definition set2 (m : MultiArray2) (i j : N) (v : Q) : outcome MultiArray2 :=
  a <- set (array m) (flat_index m i j) v ;;
  Done {| extent0 := extent0 m; extent1 := extent1 m; array := a |}.

(** ** The solver object *)

Record Hungarian : Type := {
  rows_ : N;
  cols_ : N;
  dim_ : N;
  cost_matrix_ : MultiArray2;
  label_by_worker_ : list Q;
  label_by_job_ : list Q;
  min_slack_by_job_ : list Q;
  min_slack_worker_by_job_ : list N;
  match_job_by_worker_ : list N;
  match_worker_by_job_ : list N;
  parent_worker_by_committed_job_ : list N;
  committed_workers_ : list bool
}.

Definition with_cost_matrix (h : Hungarian) (v : MultiArray2) : Hungarian :=
  {| rows_ := rows_ h; cols_ := cols_ h; dim_ := dim_ h; cost_matrix_ := v;
     label_by_worker_ := label_by_worker_ h; label_by_job_ := label_by_job_ h;
     min_slack_by_job_ := min_slack_by_job_ h;
     min_slack_worker_by_job_ := min_slack_worker_by_job_ h;
     match_job_by_worker_ := match_job_by_worker_ h;
     match_worker_by_job_ := match_worker_by_job_ h;
     parent_worker_by_committed_job_ := parent_worker_by_committed_job_ h;
     committed_workers_ := committed_workers_ h |}.

Definition with_label_by_worker (h : Hungarian) (v : list Q) : Hungarian :=
  {| rows_ := rows_ h; cols_ := cols_ h; dim_ := dim_ h;
     cost_matrix_ := cost_matrix_ h;
     label_by_worker_ := v; label_by_job_ := label_by_job_ h;
     min_slack_by_job_ := min_slack_by_job_ h;
     min_slack_worker_by_job_ := min_slack_worker_by_job_ h;
     match_job_by_worker_ := match_job_by_worker_ h;
     match_worker_by_job_ := match_worker_by_job_ h;
     parent_worker_by_committed_job_ := parent_worker_by_committed_job_ h;
     committed_workers_ := committed_workers_ h |}.

Definition with_label_by_job (h : Hungarian) (v : list Q) : Hungarian :=
  {| rows_ := rows_ h; cols_ := cols_ h; dim_ := dim_ h;
     cost_matrix_ := cost_matrix_ h;
     label_by_worker_ := label_by_worker_ h; label_by_job_ := v;
     min_slack_by_job_ := min_slack_by_job_ h;
     min_slack_worker_by_job_ := min_slack_worker_by_job_ h;
     match_job_by_worker_ := match_job_by_worker_ h;
     match_worker_by_job_ := match_worker_by_job_ h;
     parent_worker_by_committed_job_ := parent_worker_by_committed_job_ h;
     committed_workers_ := committed_workers_ h |}.

Definition with_min_slack_by_job (h : Hungarian) (v : list Q) : Hungarian :=
  {| rows_ := rows_ h; cols_ := cols_ h; dim_ := dim_ h;
     cost_matrix_ := cost_matrix_ h;
     label_by_worker_ := label_by_worker_ h; label_by_job_ := label_by_job_ h;
     min_slack_by_job_ := v;
     min_slack_worker_by_job_ := min_slack_worker_by_job_ h;
     match_job_by_worker_ := match_job_by_worker_ h;
     match_worker_by_job_ := match_worker_by_job_ h;
     parent_worker_by_committed_job_ := parent_worker_by_committed_job_ h;
     committed_workers_ := committed_workers_ h |}.

Definition with_min_slack_worker_by_job (h : Hungarian) (v : list N) : Hungarian :=
  {| rows_ := rows_ h; cols_ := cols_ h; dim_ := dim_ h;
     cost_matrix_ := cost_matrix_ h;
     label_by_worker_ := label_by_worker_ h; label_by_job_ := label_by_job_ h;
     min_slack_by_job_ := min_slack_by_job_ h;
     min_slack_worker_by_job_ := v;
     match_job_by_worker_ := match_job_by_worker_ h;
     match_worker_by_job_ := match_worker_by_job_ h;
     parent_worker_by_committed_job_ := parent_worker_by_committed_job_ h;
     committed_workers_ := committed_workers_ h |}.

Definition with_match_job_by_worker (h : Hungarian) (v : list N) : Hungarian :=
  {| rows_ := rows_ h; cols_ := cols_ h; dim_ := dim_ h;
     cost_matrix_ := cost_matrix_ h;
     label_by_worker_ := label_by_worker_ h; label_by_job_ := label_by_job_ h;
     min_slack_by_job_ := min_slack_by_job_ h;
     min_slack_worker_by_job_ := min_slack_worker_by_job_ h;
     match_job_by_worker_ := v;
     match_worker_by_job_ := match_worker_by_job_ h;
     parent_worker_by_committed_job_ := parent_worker_by_committed_job_ h;
     committed_workers_ := committed_workers_ h |}.

Definition with_match_worker_by_job (h : Hungarian) (v : list N) : Hungarian :=
  {| rows_ := rows_ h; cols_ := cols_ h; dim_ := dim_ h;
     cost_matrix_ := cost_matrix_ h;
     label_by_worker_ := label_by_worker_ h; label_by_job_ := label_by_job_ h;
     min_slack_by_job_ := min_slack_by_job_ h;
     min_slack_worker_by_job_ := min_slack_worker_by_job_ h;
     match_job_by_worker_ := match_job_by_worker_ h;
     match_worker_by_job_ := v;
     parent_worker_by_committed_job_ := parent_worker_by_committed_job_ h;
     committed_workers_ := committed_workers_ h |}.

Definition with_parent_worker_by_committed_job (h : Hungarian) (v : list N)
  : Hungarian :=
  {| rows_ := rows_ h; cols_ := cols_ h; dim_ := dim_ h;
     cost_matrix_ := cost_matrix_ h;
     label_by_worker_ := label_by_worker_ h; label_by_job_ := label_by_job_ h;
     min_slack_by_job_ := min_slack_by_job_ h;
     min_slack_worker_by_job_ := min_slack_worker_by_job_ h;
     match_job_by_worker_ := match_job_by_worker_ h;
     match_worker_by_job_ := match_worker_by_job_ h;
     parent_worker_by_committed_job_ := v;
     committed_workers_ := committed_workers_ h |}.

Definition with_committed_workers (h : Hungarian) (v : list bool) : Hungarian :=
  {| rows_ := rows_ h; cols_ := cols_ h; dim_ := dim_ h;
     cost_matrix_ := cost_matrix_ h;
     label_by_worker_ := label_by_worker_ h; label_by_job_ := label_by_job_ h;
     min_slack_by_job_ := min_slack_by_job_ h;
     min_slack_worker_by_job_ := min_slack_worker_by_job_ h;
     match_job_by_worker_ := match_job_by_worker_ h;
     match_worker_by_job_ := match_worker_by_job_ h;
     parent_worker_by_committed_job_ := parent_worker_by_committed_job_ h;
     committed_workers_ := v |}.

(** ** The member functions *)

(** [Hungarian::Hungarian(const MultiArray<double, 2>& cost_matrix)].
    The rank 1 members are allocated by [new T[dim_]] (slots 0-2 of the
    doubles, 0-3 of the integers, 0 of the booleans, in declaration order)
    and only the two matching vectors are filled. *)
Definition Hungarian_ctor (u : Indeterminate) (cost_matrix : MultiArray2)
  : outcome Hungarian :=
  let rows := extent0 cost_matrix in
  let cols := extent1 cost_matrix in
  let dim := N.max rows cols in
  cm <- for_range 0 dim (fun w cm =>
          if (w <? rows)%N then
            cm1 <- for_range 0 cols (fun j cm =>
                     v <- get2 cost_matrix w j ;; set2 cm w j v) cm ;;
            for_range cols dim (fun j cm => set2 cm w j 0) cm1
          else
            for_range 0 dim (fun j cm => set2 cm w j 0) cm)
        (new_array2 dim dim) ;;
  let mj0 := new_array (ind_uint32 u 1) dim in
  let mw0 := new_array (ind_uint32 u 2) dim in
  mj <- for_range 0 (N.of_nat (length mj0)) (fun w a => set a w UNASSIGNED) mj0 ;;
  mw <- for_range 0 (N.of_nat (length mw0)) (fun j a => set a j UNASSIGNED) mw0 ;;
  Done {| rows_ := rows; cols_ := cols; dim_ := dim;
          cost_matrix_ := cm;
          label_by_worker_ := new_array (ind_double u 0) dim;
          label_by_job_ := new_array (ind_double u 1) dim;
          min_slack_by_job_ := new_array (ind_double u 2) dim;
          min_slack_worker_by_job_ := new_array (ind_uint32 u 0) dim;
          match_job_by_worker_ := mj;
          match_worker_by_job_ := mw;
          parent_worker_by_committed_job_ := new_array (ind_uint32 u 3) dim;
          committed_workers_ := new_array (ind_bool u 0) dim |}.

(** [void reduce()]; the local array [min] is slot 3 of the doubles. *)
Definition reduce (u : Indeterminate) (h : Hungarian) : outcome Hungarian :=
  let dim := dim_ h in
  cm1 <- for_range 0 dim (fun w cm =>
           mn <- for_range 0 dim (fun j mn =>
                   c <- get2 cm w j ;;
                   Done (if Qltb c mn then c else mn)) POSITIVE_INFINITY ;;
           for_range 0 dim (fun j cm =>
             c <- get2 cm w j ;; set2 cm w j (c - mn)) cm)
         (cost_matrix_ h) ;;
  min1 <- for_range 0 dim (fun j a => set a j POSITIVE_INFINITY)
            (new_array (ind_double u 3) dim) ;;
  min2 <- for_range 0 dim (fun w a =>
            for_range 0 dim (fun j a =>
              c <- get2 cm1 w j ;;
              m <- get a j ;;
              if Qltb c m then set a j c else Done a) a) min1 ;;
  cm2 <- for_range 0 dim (fun w cm =>
           for_range 0 dim (fun j cm =>
             c <- get2 cm w j ;;
             m <- get min2 j ;;
             set2 cm w j (c - m)) cm) cm1 ;;
  Done (with_cost_matrix h cm2).

(** [void compute_initial_feasible_solution()] *)
Definition compute_initial_feasible_solution (h : Hungarian) : outcome Hungarian :=
  let dim := dim_ h in
  lj1 <- for_range 0 dim (fun j a => set a j POSITIVE_INFINITY) (label_by_job_ h) ;;
  lj2 <- for_range 0 dim (fun w a =>
           for_range 0 dim (fun j a =>
             c <- get2 (cost_matrix_ h) w j ;;
             l <- get a j ;;
             if Qltb c l then set a j c else Done a) a) lj1 ;;
  Done (with_label_by_job h lj2).

(** The expression
    [cost_matrix_[w][j] - label_by_worker_[w] - label_by_job_[j]],
    which the source writes out at each of its three uses. *)
Definition slack (h : Hungarian) (w j : N) : outcome Q :=
  c <- get2 (cost_matrix_ h) w j ;;
  lw <- get (label_by_worker_ h) w ;;
  lj <- get (label_by_job_ h) j ;;
  Done (c - lw - lj).

(** [void match(uint32_t w, uint32_t j)] *)
Definition match_ (w j : N) (h : Hungarian) : outcome Hungarian :=
  mj <- set (match_job_by_worker_ h) w j ;;
  mw <- set (match_worker_by_job_ h) j w ;;
  Done (with_match_worker_by_job (with_match_job_by_worker h mj) mw).

(** [void greedy_match()] *)
Definition greedy_match (h : Hungarian) : outcome Hungarian :=
  let dim := dim_ h in
  for_range 0 dim (fun w h =>
    for_range 0 dim (fun j h =>
      mj <- get (match_job_by_worker_ h) w ;;
      if (mj =? UNASSIGNED)%N then
        mw <- get (match_worker_by_job_ h) j ;;
        if (mw =? UNASSIGNED)%N then
          sl <- slack h w j ;;
          if Qeq_bool sl 0 then match_ w j h else Done h
        else Done h
      else Done h) h) h.

(** [uint32_t fetch_unmatched_worker()]: the loop leaves at the first
    unmatched worker, or runs to [dim_]. *)
Fixpoint fetch_from (n : nat) (w : N) (h : Hungarian) : outcome N :=
  match n with
  | O => Done w
  | S n' =>
      mj <- get (match_job_by_worker_ h) w ;;
      if (mj =? UNASSIGNED)%N then Done w else fetch_from n' (N.succ w) h
  end.

Definition fetch_unmatched_worker (h : Hungarian) : outcome N :=
  fetch_from (N.to_nat (dim_ h)) 0 h.

(** [void initialize_phase(uint32_t w)] *)
Definition initialize_phase (w : N) (h : Hungarian) : outcome Hungarian :=
  let dim := dim_ h in
  let h1 := with_committed_workers h
              (repeat false (length (committed_workers_ h))) in
  pw <- for_range 0 dim (fun j a => set a j UNASSIGNED)
          (parent_worker_by_committed_job_ h1) ;;
  let h2 := with_parent_worker_by_committed_job h1 pw in
  cw <- set (committed_workers_ h2) w true ;;
  let h3 := with_committed_workers h2 cw in
  for_range 0 dim (fun j h =>
    sl <- slack h w j ;;
    ms <- set (min_slack_by_job_ h) j sl ;;
    msw <- set (min_slack_worker_by_job_ h) j w ;;
    Done (with_min_slack_worker_by_job (with_min_slack_by_job h ms) msw)) h3.

(** [void update_labeling(double slack)] *)
Definition update_labeling (delta : Q) (h : Hungarian) : outcome Hungarian :=
  let dim := dim_ h in
  h1 <- for_range 0 dim (fun w h =>
          c <- get (committed_workers_ h) w ;;
          if c : bool then
            l <- get (label_by_worker_ h) w ;;
            lw <- set (label_by_worker_ h) w (l + delta) ;;
            Done (with_label_by_worker h lw)
          else Done h) h ;;
  for_range 0 dim (fun j h =>
    p <- get (parent_worker_by_committed_job_ h) j ;;
    if negb (p =? UNASSIGNED)%N then
      l <- get (label_by_job_ h) j ;;
      lj <- set (label_by_job_ h) j (l - delta) ;;
      Done (with_label_by_job h lj)
    else
      m <- get (min_slack_by_job_ h) j ;;
      ms <- set (min_slack_by_job_ h) j (m - delta) ;;
      Done (with_min_slack_by_job h ms)) h1.

(** The first loop of an iteration of [execute_phase]: the triple
    [(min_slack_worker, min_slack_job, min_slack_value)]. *)
Definition select_min_slack (h : Hungarian) : outcome (N * N * Q) :=
  for_range 0 (dim_ h) (fun j sel =>
    p <- get (parent_worker_by_committed_job_ h) j ;;
    if (p =? UNASSIGNED)%N then
      v <- get (min_slack_by_job_ h) j ;;
      if Qltb v (snd sel) then
        w <- get (min_slack_worker_by_job_ h) j ;;
        Done (w, j, v)
      else Done sel
    else Done sel) (UNASSIGNED, UNASSIGNED, POSITIVE_INFINITY).

(** One turn of the inner [while (true)] of [execute_phase]: flip one edge
    of the augmenting path; [None] when the loop breaks. *)
Definition augment_step (committed_job parent_worker : N) (h : Hungarian)
  : outcome (Hungarian * option (N * N)) :=
  temp <- get (match_job_by_worker_ h) parent_worker ;;
  h1 <- match_ parent_worker committed_job h ;;
  if (temp =? UNASSIGNED)%N then Done (h1, None)
  else
    p <- get (parent_worker_by_committed_job_ h1) temp ;;
    Done (h1, Some (temp, p)).

Fixpoint augment (fuel : nat) (committed_job parent_worker : N) (h : Hungarian)
  : outcome Hungarian :=
  match fuel with
  | O => OutOfFuel
  | S fuel' =>
      r <- augment_step committed_job parent_worker h ;;
      match snd r with
      | None => Done (fst r)
      | Some (j, p) => augment fuel' j p (fst r)
      end
  end.

(** The slack update of the [else] branch of [execute_phase]. *)
Definition update_slack (worker : N) (h : Hungarian) : outcome Hungarian :=
  for_range 0 (dim_ h) (fun j h =>
    p <- get (parent_worker_by_committed_job_ h) j ;;
    if (p =? UNASSIGNED)%N then
      sl <- slack h worker j ;;
      m <- get (min_slack_by_job_ h) j ;;
      if Qltb sl m then
        ms <- set (min_slack_by_job_ h) j sl ;;
        msw <- set (min_slack_worker_by_job_ h) j worker ;;
        Done (with_min_slack_worker_by_job (with_min_slack_by_job h ms) msw)
      else Done h
    else Done h) h.

(** The part of an iteration of the outer [while (true)] of [execute_phase]
    up to and including the commitment of [min_slack_job]. *)
Definition commit_min_slack_job (h : Hungarian) : outcome (N * Hungarian) :=
  sel <- select_min_slack h ;;
  let min_slack_worker := fst (fst sel) in
  let min_slack_job := snd (fst sel) in
  let min_slack_value := snd sel in
  h1 <- (if Qltb 0 min_slack_value then update_labeling min_slack_value h
         else Done h) ;;
  pw <- set (parent_worker_by_committed_job_ h1) min_slack_job min_slack_worker ;;
  Done (min_slack_job, with_parent_worker_by_committed_job h1 pw).

(** One iteration of the outer loop; [true] when the function returns. *)
Definition execute_phase_step (fuel : nat) (h : Hungarian)
  : outcome (bool * Hungarian) :=
  c <- commit_min_slack_job h ;;
  let min_slack_job := fst c in
  let h2 := snd c in
  m <- get (match_worker_by_job_ h2) min_slack_job ;;
  if (m =? UNASSIGNED)%N then
    parent_worker <- get (parent_worker_by_committed_job_ h2) min_slack_job ;;
    h3 <- augment fuel min_slack_job parent_worker h2 ;;
    Done (true, h3)
  else
    cw <- set (committed_workers_ h2) m true ;;
    h4 <- update_slack m (with_committed_workers h2 cw) ;;
    Done (false, h4).

(** [void execute_phase()] *)
Fixpoint execute_phase_loop (fuel wfuel : nat) (h : Hungarian) : outcome Hungarian :=
  match fuel with
  | O => OutOfFuel
  | S fuel' =>
      r <- execute_phase_step wfuel h ;;
      if fst r then Done (snd r) else execute_phase_loop fuel' wfuel (snd r)
  end.

(** Both [while (true)] loops get [dim_ + 1] turns. *)
Definition loop_fuel (h : Hungarian) : nat := S (N.to_nat (dim_ h)).

Definition execute_phase (h : Hungarian) : outcome Hungarian :=
  execute_phase_loop (loop_fuel h) (loop_fuel h) h.

(** The [while (w < dim_)] loop of [execute]. *)
Fixpoint phases (fuel : nat) (w : N) (h : Hungarian) : outcome Hungarian :=
  match fuel with
  | O => OutOfFuel
  | S fuel' =>
      if (w <? dim_ h)%N then
        h1 <- initialize_phase w h ;;
        h2 <- execute_phase h1 ;;
        w' <- fetch_unmatched_worker h2 ;;
        phases fuel' w' h2
      else Done h
  end.

(** The end of [execute]: [memcpy] of the first [rows_] cells, then the
    indices of padding columns become [UNASSIGNED]. *)
Definition project_result (h : Hungarian) : outcome (list N) :=
  for_range 0 (rows_ h) (fun w r =>
    v <- get r w ;;
    if (cols_ h <=? v)%N then set r w UNASSIGNED else Done r)
  (firstn (N.to_nat (rows_ h)) (match_job_by_worker_ h)).

(** [void execute(uint32_t result[])] *)
Definition execute (u : Indeterminate) (h : Hungarian) : outcome (list N) :=
  h1 <- reduce u h ;;
  h2 <- compute_initial_feasible_solution h1 ;;
  h3 <- greedy_match h2 ;;
  w <- fetch_unmatched_worker h3 ;;
  h4 <- phases (loop_fuel h3) w h3 ;;
  project_result h4.

(** Construction followed by [execute], as every caller does. *)
Definition solve (u : Indeterminate) (cost_matrix : MultiArray2) : outcome (list N) :=
  h <- Hungarian_ctor u cost_matrix ;;
  execute u h.

(** Storage that happens to be all zero. *)
Definition zeroed : Indeterminate :=
  {| ind_double := fun _ _ => 0; ind_uint32 := fun _ _ => 0%N;
     ind_bool := fun _ _ => false |}.

Definition matrix (rows cols : N) (cells : list Q) : MultiArray2 :=
  {| extent0 := rows; extent1 := cols; array := cells |}.

(** * Specification vocabulary *)

Open Scope N_scope.

(** ** Shapes *)

Definition uint32 (x : N) : Prop := x <= UNASSIGNED.

(** A [MultiArray<double, 2>] as its constructors build it: two [uint32_t]
    extents and a flat array of [extent0 * extent1] cells. *)
Definition well_formed (m : MultiArray2) : Prop :=
  uint32 (extent0 m) /\ uint32 (extent1 m) /\
  length (array m) = N.to_nat (extent0 m * extent1 m).

(** The 32 bit index arithmetic of the [dim x dim] working matrix does not
    wrap around. *)
Definition no_wrap (dim : N) : Prop := dim * dim <= 4294967296.

(** The padded matrix the solver works on, as a function of the caller's. *)
Definition cost_at (m : MultiArray2) (w j : N) : Q :=
  if (w <? extent0 m) && (j <? extent1 m)
  then nth (N.to_nat (w * extent1 m + j)) (array m) 0%Q
  else 0%Q.

(** The rank 1 members have [dim_] cells each. *)
Definition vectors_ok (h : Hungarian) : Prop :=
  uint32 (dim_ h) /\
  length (label_by_worker_ h) = N.to_nat (dim_ h) /\
  length (label_by_job_ h) = N.to_nat (dim_ h) /\
  length (min_slack_by_job_ h) = N.to_nat (dim_ h) /\
  length (min_slack_worker_by_job_ h) = N.to_nat (dim_ h) /\
  length (match_job_by_worker_ h) = N.to_nat (dim_ h) /\
  length (match_worker_by_job_ h) = N.to_nat (dim_ h) /\
  length (parent_worker_by_committed_job_ h) = N.to_nat (dim_ h) /\
  length (committed_workers_ h) = N.to_nat (dim_ h).

Definition matrix_ok (dim : N) (m : MultiArray2) : Prop :=
  extent0 m = dim /\ extent1 m = dim /\
  length (array m) = N.to_nat (dim * dim) /\ no_wrap dim.

(** ** The matching *)

(** [match_job_by_worker_[w] == j] with [j != UNASSIGNED] if and only if
    [match_worker_by_job_[j] == w] with [w != UNASSIGNED]. *)
Definition mutual_inverse (h : Hungarian) : Prop :=
  forall w j,
    (get (match_job_by_worker_ h) w = Done j /\ j <> UNASSIGNED) <->
    (get (match_worker_by_job_ h) j = Done w /\ w <> UNASSIGNED).

Definition assigned (x : N) : bool := negb (x =? UNASSIGNED).

(** The number of matched pairs: the workers that have a job. *)
Definition matching_size (h : Hungarian) : nat :=
  length (filter assigned (match_job_by_worker_ h)).

Definition worker_matched (h : Hungarian) (w : N) : Prop :=
  exists j, get (match_job_by_worker_ h) w = Done j /\ j <> UNASSIGNED.

Definition job_matched (h : Hungarian) (j : N) : Prop :=
  exists w, get (match_worker_by_job_ h) j = Done w /\ w <> UNASSIGNED.

Definition job_committed (h : Hungarian) (j : N) : Prop :=
  exists p, get (parent_worker_by_committed_job_ h) j = Done p /\ p <> UNASSIGNED.

(** ** The points of a run

    The places between the statements of [execute], at the head of the two
    [while (true)] loops of [execute_phase], and after a phase. *)

Inductive stage : Type :=
| Constructed
| Reduced
| Labelled
| BetweenPhases
| InPhase
| Flipping (committed_job parent_worker : N).

Inductive reaches (u : Indeterminate) (cost_matrix : MultiArray2)
  : stage -> Hungarian -> Prop :=
| reaches_ctor h :
    Hungarian_ctor u cost_matrix = Done h ->
    reaches u cost_matrix Constructed h
| reaches_reduce h h' :
    reaches u cost_matrix Constructed h ->
    reduce u h = Done h' ->
    reaches u cost_matrix Reduced h'
| reaches_labels h h' :
    reaches u cost_matrix Reduced h ->
    compute_initial_feasible_solution h = Done h' ->
    reaches u cost_matrix Labelled h'
| reaches_greedy h h' :
    reaches u cost_matrix Labelled h ->
    greedy_match h = Done h' ->
    reaches u cost_matrix BetweenPhases h'
| reaches_init h w h' :
    reaches u cost_matrix BetweenPhases h ->
    fetch_unmatched_worker h = Done w ->
    w < dim_ h ->
    initialize_phase w h = Done h' ->
    reaches u cost_matrix InPhase h'
| reaches_commit h j h2 m cw h4 :
    reaches u cost_matrix InPhase h ->
    commit_min_slack_job h = Done (j, h2) ->
    get (match_worker_by_job_ h2) j = Done m ->
    m <> UNASSIGNED ->
    set (committed_workers_ h2) m true = Done cw ->
    update_slack m (with_committed_workers h2 cw) = Done h4 ->
    reaches u cost_matrix InPhase h4
| reaches_path h j h2 p :
    reaches u cost_matrix InPhase h ->
    commit_min_slack_job h = Done (j, h2) ->
    get (match_worker_by_job_ h2) j = Done UNASSIGNED ->
    get (parent_worker_by_committed_job_ h2) j = Done p ->
    reaches u cost_matrix (Flipping j p) h2
| reaches_flip h j p h1 j' p' :
    reaches u cost_matrix (Flipping j p) h ->
    augment_step j p h = Done (h1, Some (j', p')) ->
    reaches u cost_matrix (Flipping j' p') h1
| reaches_grown h j p h1 :
    reaches u cost_matrix (Flipping j p) h ->
    augment_step j p h = Done (h1, None) ->
    reaches u cost_matrix BetweenPhases h1.

Definition flipping (st : stage) : bool :=
  match st with Flipping _ _ => true | _ => false end.

(** ** What a member function leaves alone *)

Definition same_shape (h h' : Hungarian) : Prop :=
  rows_ h' = rows_ h /\ cols_ h' = cols_ h /\ dim_ h' = dim_ h /\
  length (label_by_worker_ h') = length (label_by_worker_ h) /\
  length (label_by_job_ h') = length (label_by_job_ h) /\
  length (min_slack_by_job_ h') = length (min_slack_by_job_ h) /\
  length (min_slack_worker_by_job_ h') = length (min_slack_worker_by_job_ h) /\
  length (match_job_by_worker_ h') = length (match_job_by_worker_ h) /\
  length (match_worker_by_job_ h') = length (match_worker_by_job_ h) /\
  length (parent_worker_by_committed_job_ h') =
    length (parent_worker_by_committed_job_ h) /\
  length (committed_workers_ h') = length (committed_workers_ h).

Definition same_matching (h h' : Hungarian) : Prop :=
  match_job_by_worker_ h' = match_job_by_worker_ h /\
  match_worker_by_job_ h' = match_worker_by_job_ h.

Definition same_cost (h h' : Hungarian) : Prop :=
  cost_matrix_ h' = cost_matrix_ h.

Definition same_labels (h h' : Hungarian) : Prop :=
  label_by_worker_ h' = label_by_worker_ h /\
  label_by_job_ h' = label_by_job_ h.

Definition same_parents (h h' : Hungarian) : Prop :=
  parent_worker_by_committed_job_ h' = parent_worker_by_committed_job_ h.

Definition same_committed (h h' : Hungarian) : Prop :=
  committed_workers_ h' = committed_workers_ h.

Definition same_slacks (h h' : Hungarian) : Prop :=
  min_slack_by_job_ h' = min_slack_by_job_ h /\
  min_slack_worker_by_job_ h' = min_slack_worker_by_job_ h.

(** The relation between the object before and after a call: the members
    whose flag is set are unchanged. *)
Record kept (cost labels matching parents committed slacks : bool)
  (h h' : Hungarian) : Prop := {
  kept_shape : same_shape h h';
  kept_cost : cost = true -> same_cost h h';
  kept_labels : labels = true -> same_labels h h';
  kept_matching : matching = true -> same_matching h h';
  kept_parents : parents = true -> same_parents h h';
  kept_committed : committed = true -> same_committed h h';
  kept_slacks : slacks = true -> same_slacks h h'
}.


(** The state of the matching while the augmenting path is flipped, with
    [j] the job that is about to be given to its parent worker: every
    worker's job points back at it, every job but [j] that names a worker is
    that worker's job, and no worker has [j]. *)
Definition walk_inv (h : Hungarian) (j : N) : Prop :=
  (forall w k, get (match_job_by_worker_ h) w = Done k -> k <> UNASSIGNED ->
               get (match_worker_by_job_ h) k = Done w) /\
  (forall k w, k <> j -> get (match_worker_by_job_ h) k = Done w ->
               w <> UNASSIGNED -> get (match_job_by_worker_ h) w = Done k) /\
  (forall w, get (match_job_by_worker_ h) w <> Done j).

(** What holds of the matching vectors at a point of a run. *)
Definition matching_state (st : stage) (h : Hungarian) : Prop :=
  match st with
  | Flipping j _ => walk_inv h j
  | _ => mutual_inverse h
  end.


(** What the last loop of [execute] does to an entry. *)
Definition project (cols : N) (v : N) : N :=
  if cols <=? v then UNASSIGNED else v.


(** ** The shape of a result *)

(** The indices [0, ..., n - 1]. *)
Definition iota (n : N) : list N := map N.of_nat (seq 0 (N.to_nat n)).

Definition unassigned_count (r : list N) : nat :=
  length (filter (fun x => x =? UNASSIGNED) r).

(** ** Reading the arrays as total functions *)

Definition qsel (a : list Q) (i : N) : Q := nth (N.to_nat i) a 0%Q.
Definition nsel (a : list N) (i : N) : N := nth (N.to_nat i) a UNASSIGNED.
Definition bsel (a : list bool) (i : N) : bool := nth (N.to_nat i) a false.

(** The cell [(w, j)] of a matrix whose index arithmetic does not wrap. *)
Definition entry (m : MultiArray2) (w j : N) : Q :=
  qsel (array m) (w * extent1 m + j).

(** The value a minimum search that starts from [POSITIVE_INFINITY] holds
    after it has seen [f 0], ..., [f (n - 1)]. *)
Fixpoint min_upto (f : N -> Q) (n : nat) : Q :=
  match n with
  | O => POSITIVE_INFINITY
  | S n' =>
      let r := min_upto f n' in
      if Qltb (f (N.of_nat n')) r then f (N.of_nat n') else r
  end.

(** The matrix [reduce] leaves, as a function of the one it finds. *)
Definition row_min (m : MultiArray2) (dim w : N) : Q :=
  min_upto (entry m w) (N.to_nat dim).

Definition row_reduced (m : MultiArray2) (dim w j : N) : Q :=
  (entry m w j - row_min m dim w)%Q.

Definition col_min (m : MultiArray2) (dim j : N) : Q :=
  min_upto (fun w => row_reduced m dim w j) (N.to_nat dim).

Definition reduced (m : MultiArray2) (dim w j : N) : Q :=
  (row_reduced m dim w j - col_min m dim j)%Q.

(** The value of the expression [slack] when its indices are in range. *)
Definition slack_value (h : Hungarian) (w j : N) : Q :=
  (entry (cost_matrix_ h) w j - qsel (label_by_worker_ h) w
   - qsel (label_by_job_ h) j)%Q.

(** The object has the shape the constructor gave it. *)
Definition state_ok (h : Hungarian) : Prop :=
  vectors_ok h /\ matrix_ok (dim_ h) (cost_matrix_ h).

(** ** The alternating tree of a phase *)

(** [p] is a committed worker: the root of the phase (it has no job) or the
    worker of a job of [L]. *)
Definition parent_ok (h : Hungarian) (p : N) (L : list N) : Prop :=
  p < dim_ h /\
  (get (match_job_by_worker_ h) p = Done UNASSIGNED \/
   exists k, get (match_job_by_worker_ h) p = Done k /\ In k L).

(** [L] lists committed jobs, the latest first: the parent of each is a
    committed worker that was committed before the job was. *)
Definition tree (h : Hungarian) (L : list N) : Prop :=
  NoDup L /\
  forall L1 j L2, L = L1 ++ j :: L2 ->
    exists p, get (parent_worker_by_committed_job_ h) j = Done p /\
              parent_ok h p L2.

(** What holds at the head of the outer loop of [execute_phase], with [L]
    the committed jobs. *)
Definition phase_inv (h : Hungarian) (L : list N) : Prop :=
  tree h L /\
  (forall j, job_committed h j <-> In j L) /\
  (forall j w, get (min_slack_worker_by_job_ h) j = Done w -> parent_ok h w L) /\
  (forall j, In j L -> job_matched h j).

(** What holds at the head of the inner loop, where [committed_job] is to be
    given to [parent_worker]. *)
Definition flip_inv (h : Hungarian) (j p : N) (L : list N) : Prop :=
  tree h (j :: L) /\
  get (parent_worker_by_committed_job_ h) j = Done p.

Definition structure (st : stage) (h : Hungarian) : Prop :=
  match st with
  | InPhase => exists L, phase_inv h L
  | Flipping j p => exists L, flip_inv h j p L
  | _ => True
  end.

(** ** Magnitudes *)

(** The label a worker starts with: whatever the allocation of
    [label_by_worker_] held, since nothing writes it before it is read. *)
Definition initial_label (u : Indeterminate) (w : N) : Q := ind_double u 0 w.

(** No entry of the padded matrix exceeds [POSITIVE_INFINITY], and within a
    row two entries differ by less than [POSITIVE_INFINITY] once the initial
    label of the row is taken off. *)
Definition bounded (u : Indeterminate) (m : MultiArray2) : Prop :=
  let dim := N.max (extent0 m) (extent1 m) in
  forall w j j', w < dim -> j < dim -> j' < dim ->
    (cost_at m w j <= POSITIVE_INFINITY)%Q /\
    (cost_at m w j - cost_at m w j' - initial_label u w < POSITIVE_INFINITY)%Q.

Definition labels_inv (u : Indeterminate) (h : Hungarian) : Prop :=
  (forall w j, w < dim_ h -> j < dim_ h ->
     (entry (cost_matrix_ h) w j - initial_label u w < POSITIVE_INFINITY)%Q) /\
  (forall w, w < dim_ h ->
     (initial_label u w <= qsel (label_by_worker_ h) w)%Q) /\
  (forall j, j < dim_ h ->
     get (match_worker_by_job_ h) j = Done UNASSIGNED ->
     (0 <= qsel (label_by_job_ h) j)%Q).

(** [r] is the root of the running phase: committed, without a job, and the
    recorded slack of an uncommitted job is at most its slack to [r]. *)
Definition root_inv (h : Hungarian) (r : N) : Prop :=
  r < dim_ h /\
  bsel (committed_workers_ h) r = true /\
  get (match_job_by_worker_ h) r = Done UNASSIGNED /\
  forall j, j < dim_ h ->
    nsel (parent_worker_by_committed_job_ h) j = UNASSIGNED ->
    (qsel (min_slack_by_job_ h) j <= slack_value h r j)%Q.

Definition numbers (u : Indeterminate) (m : MultiArray2) (st : stage)
  (h : Hungarian) : Prop :=
  state_ok h /\
  match st with
  | Constructed =>
      (forall w j, w < dim_ h -> j < dim_ h ->
         entry (cost_matrix_ h) w j = cost_at m w j) /\
      (forall w, w < dim_ h -> qsel (label_by_worker_ h) w = initial_label u w)
  | Reduced =>
      (forall w j, w < dim_ h -> j < dim_ h ->
         (0 <= entry (cost_matrix_ h) w j)%Q /\
         (entry (cost_matrix_ h) w j - initial_label u w < POSITIVE_INFINITY)%Q) /\
      (forall w, w < dim_ h -> qsel (label_by_worker_ h) w = initial_label u w)
  | InPhase => labels_inv u h /\ exists r, root_inv h r
  | _ => labels_inv u h
  end.

(** ** Assignments and their cost *)

(** The cost of an assignment of the caller's matrix: the sum of
    [cost[w][result[w]]] over the workers [w, w + 1, ...] that have a job. *)
Fixpoint cost_from (m : MultiArray2) (w : N) (result : list N) : Q :=
  match result with
  | [] => 0%Q
  | j :: rest =>
      ((if j =? UNASSIGNED then 0 else cost_at m w j)
       + cost_from m (N.succ w) rest)%Q
  end.

Definition total_cost (m : MultiArray2) (result : list N) : Q :=
  cost_from m 0 result.

(** One entry per worker, a job index or [UNASSIGNED]; no job twice;
    [min(rows, cols)] pairs. *)
Definition assignment (m : MultiArray2) (a : list N) : Prop :=
  length a = N.to_nat (extent0 m) /\
  (forall j, In j a -> j = UNASSIGNED \/ j < extent1 m) /\
  NoDup (filter assigned a) /\
  length (filter assigned a) = N.to_nat (N.min (extent0 m) (extent1 m)).

(** Dual feasibility: no edge of the working matrix has negative slack. *)
Definition dual_feasible (h : Hungarian) : Prop :=
  forall w j v, w < dim_ h -> j < dim_ h -> slack h w j = Done v -> (0 <= v)%Q.

(** The magnitudes [reduce] needs: no entry of the padded matrix above
    [POSITIVE_INFINITY] and no row of it whose entries are further apart than
    [POSITIVE_INFINITY]. *)
Definition in_range (m : MultiArray2) : Prop :=
  let dim := N.max (extent0 m) (extent1 m) in
  forall w j j', w < dim -> j < dim -> j' < dim ->
    (cost_at m w j <= POSITIVE_INFINITY)%Q /\
    (cost_at m w j - cost_at m w j' <= POSITIVE_INFINITY)%Q.

(** The shape of a result for a [rows x cols] matrix. *)
Definition result_shape (rows cols : N) (r : list N) : Prop :=
  length r = N.to_nat rows /\
  (forall j, In j r -> j = UNASSIGNED \/ j < cols) /\
  NoDup (filter assigned r) /\
  (cols < rows -> unassigned_count r = (N.to_nat rows - N.to_nat cols)%nat) /\
  (rows < cols -> ~ In UNASSIGNED r) /\
  (rows = cols -> Permutation r (iota rows)).

(** ** Worked inputs *)

(** Storage whose [label_by_worker_] cells hold [lw] and whose other cells
    are zero. *)
Definition stale (lw : list Q) : Indeterminate :=
  {| ind_double := fun slot i => if slot =? 0 then qsel lw i else 0%Q;
     ind_uint32 := fun _ _ => 0;
     ind_bool := fun _ _ => false |}.

(** The object a step leaves, for worked runs. *)
Definition after (o : outcome Hungarian) (otherwise : Hungarian) : Hungarian :=
  match o with Done h => h | _ => otherwise end.

Definition blank : Hungarian :=
  {| rows_ := 0; cols_ := 0; dim_ := 0; cost_matrix_ := new_array2 0 0;
     label_by_worker_ := []; label_by_job_ := []; min_slack_by_job_ := [];
     min_slack_worker_by_job_ := []; match_job_by_worker_ := [];
     match_worker_by_job_ := []; parent_worker_by_committed_job_ := [];
     committed_workers_ := [] |}.

(** The matrices of the test suite. *)
Definition test1 : MultiArray2 :=
  matrix 3 3 [4; 3#2; 4;  4; 9#2; 6;  3; 9#4; 3]%Q.
Definition test2 : MultiArray2 :=
  matrix 3 3 [1; 1; 8#10;  9#10; 8#10; 1#10;  9#10; 7#10; 4#10]%Q.
Definition test3 : MultiArray2 :=
  matrix 4 4 [6; 0; 7; 5;  2; 6; 2; 6;  2; 7; 2; 1;  9; 4; 7; 1]%Q.
Definition test_unassigned_job : MultiArray2 :=
  matrix 4 5 [6; 0; 7; 5; 2;  2; 6; 2; 6; 7;  2; 7; 2; 1; 1;  9; 4; 7; 1; 0]%Q.
Definition test_unassigned_worker : MultiArray2 :=
  matrix 5 4 [6; 0; 7; 5;  2; 6; 2; 6;  2; 7; 2; 1;  9; 4; 7; 1;  0; 0; 0; 0]%Q.

(** A 2 x 2 matrix whose cheapest assignment is [[1; 0]], of cost 0. *)
Definition square2 : MultiArray2 := matrix 2 2 [0; 0; 0; 5]%Q.

(** Its run on zeroed storage, point by point: after the greedy seed worker
    1 has no job; the phase rooted at it commits job 0 (of worker 0), then
    the free job 1, and flips the path 1 - 0 - 0 - 1. *)
Definition square2_ctor : Hungarian :=
  Eval vm_compute in after (Hungarian_ctor zeroed square2) blank.
Definition square2_reduced : Hungarian :=
  Eval vm_compute in after (reduce zeroed square2_ctor) blank.
Definition square2_labelled : Hungarian :=
  Eval vm_compute in after (compute_initial_feasible_solution square2_reduced) blank.
Definition square2_seeded : Hungarian :=
  Eval vm_compute in after (greedy_match square2_labelled) blank.
Definition square2_phase : Hungarian :=
  Eval vm_compute in after (initialize_phase 1 square2_seeded) blank.
Definition square2_commit0 : Hungarian :=
  Eval vm_compute in
    after (c <- commit_min_slack_job square2_phase ;; Done (snd c)) blank.
Definition square2_grown : Hungarian :=
  Eval vm_compute in
    after (cw <- set (committed_workers_ square2_commit0) 0 true ;;
           update_slack 0 (with_committed_workers square2_commit0 cw)) blank.
Definition square2_commit1 : Hungarian :=
  Eval vm_compute in
    after (c <- commit_min_slack_job square2_grown ;; Done (snd c)) blank.
Definition square2_flipped : Hungarian :=
  Eval vm_compute in
    after (r <- augment_step 1 0 square2_commit1 ;; Done (fst r)) blank.
Definition square2_done : Hungarian :=
  Eval vm_compute in after (execute_phase square2_phase) blank.

(** A 1 x 1 matrix, and storage that is not zero. *)
Definition single : MultiArray2 := matrix 1 1 [0]%Q.
Definition single_labelled : Hungarian :=
  Eval vm_compute in
    after (h <- Hungarian_ctor (stale [1%Q]) single ;;
           h1 <- reduce (stale [1%Q]) h ;;
           compute_initial_feasible_solution h1) blank.

(** A matrix with entries equal to [POSITIVE_INFINITY]. *)
Definition collide : MultiArray2 :=
  matrix 3 3 [0; POSITIVE_INFINITY; POSITIVE_INFINITY;
              0; POSITIVE_INFINITY; POSITIVE_INFINITY;
              0; 0; 0]%Q.
Definition collide_ctor : Hungarian :=
  Eval vm_compute in after (Hungarian_ctor zeroed collide) blank.
Definition collide_reduced : Hungarian :=
  Eval vm_compute in after (reduce zeroed collide_ctor) blank.
Definition collide_labelled : Hungarian :=
  Eval vm_compute in after (compute_initial_feasible_solution collide_reduced) blank.
Definition collide_seeded : Hungarian :=
  Eval vm_compute in after (greedy_match collide_labelled) blank.
Definition collide_phase : Hungarian :=
  Eval vm_compute in after (initialize_phase 1 collide_seeded) blank.
Definition collide_commit0 : Hungarian :=
  Eval vm_compute in
    after (c <- commit_min_slack_job collide_phase ;; Done (snd c)) blank.
Definition collide_grown : Hungarian :=
  Eval vm_compute in
    after (cw <- set (committed_workers_ collide_commit0) 0 true ;;
           update_slack 0 (with_committed_workers collide_commit0 cw)) blank.

(** A matrix whose rows spread over twice [POSITIVE_INFINITY]. *)
Definition wide : MultiArray2 :=
  matrix 2 2 [POSITIVE_INFINITY; - POSITIVE_INFINITY;
              POSITIVE_INFINITY; - POSITIVE_INFINITY]%Q.
Definition wide_ctor : Hungarian :=
  Eval vm_compute in after (Hungarian_ctor zeroed wide) blank.
Definition wide_reduced : Hungarian :=
  Eval vm_compute in after (reduce zeroed wide_ctor) blank.

Definition empty : MultiArray2 := matrix 0 0 [].

(** ** Labels as a dual solution *)

(** No edge of the working matrix has negative slack. *)
Definition feasible (h : Hungarian) : Prop :=
  forall w j, w < dim_ h -> j < dim_ h -> (0 <= slack_value h w j)%Q.

(** The edge from a worker to its job has no slack. *)
Definition tight (h : Hungarian) : Prop :=
  forall w j,
    get (match_job_by_worker_ h) w = Done j -> j <> UNASSIGNED ->
    (slack_value h w j == 0)%Q.

(** The parent of a committed job is a committed worker, and the edge
    between them has no slack. *)
Definition tree_tight (h : Hungarian) : Prop :=
  forall j p,
    get (parent_worker_by_committed_job_ h) j = Done p -> p <> UNASSIGNED ->
    bsel (committed_workers_ h) p = true /\ (slack_value h p j == 0)%Q.

(** [min_slack_by_job_[j]] is the least slack from a committed worker to the
    uncommitted job [j], and [min_slack_worker_by_job_[j]] attains it. *)
Definition slack_rec (h : Hungarian) : Prop :=
  forall j, j < dim_ h ->
    nsel (parent_worker_by_committed_job_ h) j = UNASSIGNED ->
    (forall w, w < dim_ h -> bsel (committed_workers_ h) w = true ->
       (qsel (min_slack_by_job_ h) j <= slack_value h w j)%Q) /\
    bsel (committed_workers_ h) (nsel (min_slack_worker_by_job_ h) j) = true /\
    (qsel (min_slack_by_job_ h) j ==
     slack_value h (nsel (min_slack_worker_by_job_ h) j) j)%Q.

(** A worker and its job are committed together; [except] is the job
    committed last, whose worker is still to be committed. *)
Definition balanced (h : Hungarian) (except : N) : Prop :=
  forall w j,
    get (match_job_by_worker_ h) w = Done j -> j <> UNASSIGNED -> j <> except ->
    (bsel (committed_workers_ h) w = true <->
     nsel (parent_worker_by_committed_job_ h) j <> UNASSIGNED).

(** What holds of the labels at a point of a run whose worker labels
    started out non-positive. *)
Definition duals (st : stage) (h : Hungarian) : Prop :=
  match st with
  | Constructed | Reduced => True
  | Labelled | BetweenPhases => feasible h /\ tight h
  | InPhase =>
      feasible h /\ tight h /\ tree_tight h /\ slack_rec h /\
      balanced h UNASSIGNED
  | Flipping _ _ => feasible h /\ tight h /\ tree_tight h
  end.

(** ** Sums over index lists *)

Definition qsum (f : N -> Q) (l : list N) : Q :=
  fold_right (fun x acc => (f x + acc)%Q) 0%Q l.

(** The indices that are not in [l]. *)
Definition outside (l : list N) (x : N) : bool :=
  negb (existsb (N.eqb x) l).

(** The term a worker adds to the cost of an assignment. *)
Definition cost_of (m : MultiArray2) (a : list N) (w : N) : Q :=
  if nsel a w =? UNASSIGNED then 0%Q else cost_at m w (nsel a w).

(** The working matrix is the padded matrix with [R w] taken off row [w] and
    [C j] off column [j]. *)
Definition shifted (m : MultiArray2) (h : Hungarian) (R C : N -> Q) : Prop :=
  forall w j, w < dim_ h -> j < dim_ h ->
    (entry (cost_matrix_ h) w j == cost_at m w j - R w - C j)%Q.

(** An assignment of least total cost. *)
Definition optimal (m : MultiArray2) (r : list N) : Prop :=
  assignment m r /\
  forall a, assignment m a -> (total_cost m r <= total_cost m a)%Q.

(** * More of the code: vocabulary *)

(** ** [MultiArray<T, 2>] of any shape *)

(** A rank 2 array as its constructor leaves it: [r * c] cells, and
    extents whose index arithmetic does not wrap. *)
Definition rectangular (r c : N) (m : MultiArray2) : Prop :=
  extent0 m = r /\ extent1 m = c /\
  length (array m) = N.to_nat (r * c) /\ r * c <= 4294967296.

(** ** Complete assignments of the working matrix *)

(** The cost of giving job [sigma[w]] to worker [w], for every worker. *)
Definition assignment_cost (m : MultiArray2) (sigma : list N) : Q :=
  qsum (fun w => entry m w (nsel sigma w)) (iota (N.of_nat (length sigma))).

(** ** [MultiArray<T, 2>] for any element type

    [damerau_levenshtein.h] keeps its table in a [MultiArray<int32_t, 2>],
    and the tests build arrays of [int] and of [double]. *)

Record Array2 (T : Type) : Type := {
  ext0 : N;
  ext1 : N;
  cells : list T
}.

Arguments ext0 {T} _.
Arguments ext1 {T} _.
Arguments cells {T} _.

(** The cell that [a[i][j]] names: [index * multiplier[0] + i], in
    [uint32_t]. *)
Definition index2 {T : Type} (a : Array2 T) (i j : N) : N :=
  wrap32 (wrap32 (i * ext1 a) + j).

(** [a[i][j]] and [a[i][j] = v] as [multiarray.h] has them: no index is
    checked. *)
Definition read2 {T : Type} (a : Array2 T) (i j : N) : outcome T :=
  get (cells a) (index2 a i j).

Definition write2 {T : Type} (a : Array2 T) (i j : N) (v : T)
  : outcome (Array2 T) :=
  c <- set (cells a) (index2 a i j) v ;;
  Done {| ext0 := ext0 a; ext1 := ext1 a; cells := c |}.

(** ** The [MultiArray] that checks its indices

    The tests come with a later [multiarray.h]: its constructors take
    initializer lists, and every [operator[]] throws [std::out_of_range]
    when its index is not below the extent. *)

Inductive exception : Type :=
| out_of_range        (* std::out_of_range("i >= extent") *)
| invalid_argument    (* throw "Invalid Argument" *)
| failed_assertion.   (* ASSERT_TRUE(false) *)

Inductive raised (A : Type) : Type :=
| Returns (a : A)
| Throws (e : exception).

Arguments Returns {A} a.
Arguments Throws {A} e.

(** [MultiArray::operator[]] followed by [MultiArrayView::operator[]]. *)
Definition at2 {T : Type} (a : Array2 T) (i j : N) : outcome (raised T) :=
  if ext0 a <=? i then Done (Throws out_of_range)
  else if ext1 a <=? j then Done (Throws out_of_range)
  else v <- get (cells a) (index2 a i j) ;; Done (Returns v).

(** [InitializerHelper<T, 1>::populate_elements]: [*(array++) = *iter] for
    every element of a row; the state is the heap array and the pointer. *)
Definition populate_row {T : Type} (row : list T) (st : list T * N)
  : outcome (list T * N) :=
  fold_left (fun acc x =>
               st <- acc ;;
               a <- set (fst st) (snd st) x ;;
               Done (a, N.succ (snd st)))
            row (Done st).

(** [InitializerHelper<T, 2>::populate_elements]: row after row. *)
Definition populate_elements {T : Type} (rows : list (list T))
  (st : list T * N) : outcome (list T * N) :=
  fold_left (fun acc row => st <- acc ;; populate_row row st) rows (Done st).

(** [MultiArray(const InitializerHelper<T, 2>::Type& initializer)]: the
    extents are the number of rows and the length of the first row
    ([*initializer.begin()], undefined when there is no row), the array is
    [new T[total]]. *)
Definition from_rows {T : Type} (fresh : N -> T) (rows : list (list T))
  : outcome (Array2 T) :=
  match rows with
  | [] => Fault
  | first :: _ =>
      let e0 := wrap32 (N.of_nat (length rows)) in
      let e1 := wrap32 (N.of_nat (length first)) in
      st <- populate_elements rows (new_array fresh (e0 * e1), 0) ;;
      Done {| ext0 := e0; ext1 := e1; cells := fst st |}
  end.

(** ** [int32_t], [uint32_t] and [size_t] arithmetic

    [int] is 32 bits wide and [size_t] 64.  Signed values are [Z], unsigned
    ones [N].  Signed overflow is undefined ([Fault]); unsigned arithmetic
    wraps; a conversion to a narrower or to a signed type keeps the value
    modulo the width of the target. *)

Definition int32_MAX : Z := 2147483647.
Definition uint32_MAX : N := 4294967295.

Definition in_int32 (z : Z) : bool :=
  ((-2147483648 <=? z) && (z <=? 2147483647))%Z.

(** [a + b] and [a * b] on [int]. *)
Definition add32 (a b : Z) : outcome Z :=
  if in_int32 (a + b) then Done (a + b)%Z else Fault.

Definition mul32 (a b : Z) : outcome Z :=
  if in_int32 (a * b) then Done (a * b)%Z else Fault.

(** Conversions: to [int32_t], to [uint32_t], to [size_t]. *)
Definition to_int32 (z : Z) : Z :=
  ((z + 2147483648) mod 4294967296 - 2147483648)%Z.

Definition to_uint32 (z : Z) : N := Z.to_N (z mod 4294967296).

Definition to_size_t (z : Z) : N := Z.to_N (z mod 18446744073709551616).

Definition wrap64 (x : N) : N := x mod 18446744073709551616.

(** [a + b], [a - b] and [a * b] on [uint32_t]. *)
Definition uadd (a b : N) : N := wrap32 (a + b).
Definition usub (a b : N) : N := wrap32 (a + 4294967296 - wrap32 b).
Definition umul (a b : N) : N := wrap32 (a * b).

(** ** [class DamerauLevenshtein] *)

Record DamerauLevenshtein : Type := {
  insert_cost : Z;
  delete_cost : Z;
  replace_cost : Z;
  swap_cost : Z
}.

(** [DamerauLevenshtein(insertCost, deleteCost, replaceCost, swapCost)] *)
Definition DamerauLevenshtein_ctor (insertCost deleteCost replaceCost
  swapCost : Z) : outcome (raised DamerauLevenshtein) :=
  twice <- mul32 2 swapCost ;;
  both <- add32 insertCost deleteCost ;;
  if (twice <? both)%Z then Done (Throws invalid_argument)
  else Done (Returns {| insert_cost := insertCost;
                        delete_cost := deleteCost;
                        replace_cost := replaceCost;
                        swap_cost := swapCost |}).

(** [std::string]: [size()] and [operator[]], which reads the terminating
    zero at [size()]. *)
Definition size (s : list Ascii.ascii) : N := N.of_nat (length s).

Definition char_at (s : list Ascii.ascii) (i : N) : Ascii.ascii :=
  nth (N.to_nat i) s Ascii.zero.

(** [std::tr1::unordered_map<char, uint32_t>]: [find] and
    [operator[]] followed by an assignment. *)
Definition index_by_char : Type := Ascii.ascii -> option N.

Definition no_index : index_by_char := fun _ => None.

Definition remember (m : index_by_char) (c : Ascii.ascii) (i : N)
  : index_by_char :=
  fun c' => if Ascii.eqb c' c then Some i else m c'.

(** [MultiArray<int32_t, 2> table(e0, e1)]: the extents are taken as
    [uint32_t], and [memset] clears the [e1 * e0] cells. *)
Definition new_table (e0 e1 : N) : Array2 Z :=
  {| ext0 := wrap32 e0;
     ext1 := wrap32 e1;
     cells := repeat 0%Z (N.to_nat (wrap32 e1 * wrap32 e0)) |}.

(** [for (uint32_t i = lo; i < size; ++i)] against a [size_t]: the counter
    wraps at [2^32], so it never reaches a size of [2^32] or more; what the
    code does after the counter has wrapped is left open. *)
Definition for_size {S : Type} (lo size : N) (body : N -> S -> outcome S)
  (s : S) : outcome S :=
  if size <? 4294967296 then for_range lo size body s
  else _ <- for_range lo 4294967296 body s ;; OutOfFuel.

(** The body of the first loop: column 0, for row [i >= 1]. *)
Definition first_column (dl : DamerauLevenshtein)
  (source target : list Ascii.ascii) (i : N) (table : Array2 Z)
  : outcome (Array2 Z) :=
  above <- read2 table (i - 1) 0 ;;
  del <- add32 above (delete_cost dl) ;;
  let ins := to_int32 (Z.of_N
    (uadd (umul (uadd i 1) (to_uint32 (delete_cost dl)))
          (to_uint32 (insert_cost dl)))) in
  let repl := to_int32 (Z.of_N
    (uadd (umul i (to_uint32 (delete_cost dl)))
          (to_uint32 (if Ascii.eqb (char_at source i) (char_at target 0)
                      then 0%Z else replace_cost dl)))) in
  write2 table i 0 (Z.min del (Z.min ins repl)).

(** The body of the second loop: row 0, for column [j >= 1]. *)
Definition first_row (dl : DamerauLevenshtein)
  (source target : list Ascii.ascii) (j : N) (table : Array2 Z)
  : outcome (Array2 Z) :=
  left <- read2 table 0 (j - 1) ;;
  del <- add32 left (insert_cost dl) ;;
  let ins := to_int32 (Z.of_N
    (uadd (umul (uadd j 1) (to_uint32 (insert_cost dl)))
          (to_uint32 (delete_cost dl)))) in
  let repl := to_int32 (Z.of_N
    (uadd (umul j (to_uint32 (insert_cost dl)))
          (to_uint32 (if Ascii.eqb (char_at source 0) (char_at target j)
                      then 0%Z else replace_cost dl)))) in
  write2 table 0 j (Z.min del (Z.min ins repl)).

(** The cost of reaching cell [(i, j)] by a swap: [pre_swap_cost] and the
    sum are [uint32_t], the result becomes an [int32_t]. *)
Definition swap_candidate (dl : DamerauLevenshtein) (table : Array2 Z)
  (found : option N) (i j j_swap : N) : outcome Z :=
  match found with
  | Some i_swap =>
      if negb (j_swap =? uint32_MAX) then
        pre_swap_cost <-
          (if (i_swap =? 0) && (j_swap =? 0) then Done 0
           else v <- read2 table (if i_swap =? 0 then 0 else i_swap - 1)
                                 (if j_swap =? 0 then 0 else j_swap - 1) ;;
                Done (to_uint32 v)) ;;
        Done (to_int32 (Z.of_N
          (uadd (uadd (uadd pre_swap_cost
                            (umul (usub (usub i i_swap) 1)
                                  (to_uint32 (delete_cost dl))))
                      (umul (usub (usub j j_swap) 1)
                            (to_uint32 (insert_cost dl))))
                (to_uint32 (swap_cost dl)))))
      else Done int32_MAX
  | None => Done int32_MAX
  end.

(** The body of the inner loop of the third: cell [(i, j)], both at least
    1.  The state is the table and [max_source_letter_match_index]. *)
Definition inner_body (dl : DamerauLevenshtein)
  (source target : list Ascii.ascii) (source_index_by_char : index_by_char)
  (i j : N) (st : Array2 Z * N) : outcome (Array2 Z * N) :=
  let table := fst st in
  let j_swap := snd st in
  above <- read2 table (i - 1) j ;;
  del <- add32 above (delete_cost dl) ;;
  left <- read2 table i (j - 1) ;;
  ins <- add32 left (insert_cost dl) ;;
  diagonal <- read2 table (i - 1) (j - 1) ;;
  rm <- (if negb (Ascii.eqb (char_at source i) (char_at target j))
         then r <- add32 diagonal (replace_cost dl) ;; Done (r, snd st)
         else Done (diagonal, j)) ;;
  swap <- swap_candidate dl table (source_index_by_char (char_at target j))
                         i j j_swap ;;
  table' <- write2 table i j (Z.min swap (Z.min del (Z.min ins (fst rm)))) ;;
  Done (table', snd rm).

(** The body of the third loop: row [i >= 1].  The state is the table and
    [source_index_by_char]. *)
Definition outer_body (dl : DamerauLevenshtein)
  (source target : list Ascii.ascii) (i : N)
  (st : Array2 Z * index_by_char) : outcome (Array2 Z * index_by_char) :=
  let max_source_letter_match_index :=
    if Ascii.eqb (char_at source i) (char_at target 0) then 0
    else uint32_MAX in
  r <- for_size 1 (size target)
         (inner_body dl source target (snd st) i)
         (fst st, max_source_letter_match_index) ;;
  Done (fst r, remember (snd st) (char_at source i) i).

(** [int32_t execute(const std::string &source, const std::string &target)] *)
Definition DamerauLevenshtein_execute (dl : DamerauLevenshtein)
  (source target : list Ascii.ascii) : outcome Z :=
  if size source =? 0 then
    Done (to_int32 (Z.of_N
      (wrap64 (size target * to_size_t (insert_cost dl)))))
  else if size target =? 0 then
    Done (to_int32 (Z.of_N
      (wrap64 (size source * to_size_t (delete_cost dl)))))
  else
    let table := new_table (size source) (size target) in
    first <- (if Ascii.eqb (char_at source 0) (char_at target 0) then Done 0%Z
              else both <- add32 (insert_cost dl) (delete_cost dl) ;;
                   Done (Z.min both (replace_cost dl))) ;;
    table <- write2 table 0 0 first ;;
    let source_index_by_char := remember no_index (char_at source 0) 0 in
    table <- for_size 1 (size source) (first_column dl source target) table ;;
    table <- for_size 1 (size target) (first_row dl source target) table ;;
    r <- for_size 1 (size source) (outer_body dl source target)
           (table, source_index_by_char) ;;
    read2 (fst r) (wrap32 (size source - 1)) (wrap32 (size target - 1)).

(** ** The table of [DamerauLevenshtein::execute] *)

(** An array of [r] rows and [c] columns whose index arithmetic does not
    wrap. *)
Definition shape {T : Type} (r c : N) (a : Array2 T) : Prop :=
  ext0 a = r /\ ext1 a = c /\
  length (cells a) = N.to_nat (r * c) /\ r * c <= 4294967296.

(** The content of cell [(i, j)]. *)
Definition cell (a : Array2 Z) (i j : N) : Z :=
  nth (N.to_nat (i * ext1 a + j)) (cells a) 0%Z.

(** The cost of rewriting [n] characters into [m] without looking at them:
    the common length is replaced, or deleted and inserted, whichever is
    cheaper, and the rest is deleted or inserted. *)
Definition rewrite_cost (dl : DamerauLevenshtein) (n m : N) : Z :=
  (Z.of_N (N.min n m) * Z.min (replace_cost dl) (insert_cost dl + delete_cost dl)
   + Z.of_N (n - m) * delete_cost dl
   + Z.of_N (m - n) * insert_cost dl)%Z.

(** [rewrite_cost] for prefixes of [i + 1] and [j + 1] characters, with
    costs that are natural numbers. *)
Definition cell_bound (cI cD cR : N) (i j : N) : N :=
  N.min (i + 1) (j + 1) * N.min cR (cI + cD) + (i - j) * cD + (j - i) * cI.

(** Costs and lengths that keep every sum of [execute] within [int32_t] and
    every index within the table. *)
Definition modest (dl : DamerauLevenshtein) (n m : N) : Prop :=
  (0 <= insert_cost dl /\ 0 <= delete_cost dl /\
   0 <= replace_cost dl /\ 0 <= swap_cost dl /\
   Z.of_N n * delete_cost dl + Z.of_N m * insert_cost dl
     + replace_cost dl + swap_cost dl <= int32_MAX)%Z /\
  n * m < 4294967296.

(** The number of positions below [k] at which two strings differ, and
    the number of all positions at which they do. *)
Fixpoint mismatches (source target : list Ascii.ascii) (k : nat) : N :=
  match k with
  | O => 0
  | S k' =>
      mismatches source target k' +
      (if Ascii.eqb (char_at source (N.of_nat k')) (char_at target (N.of_nat k'))
       then 0 else 1)
  end.

Definition differing (source target : list Ascii.ascii) : N :=
  mismatches source target (length source).

(** What [execute] keeps true of its table: its shape; every cell between
    0 and the cost of rewriting the prefixes it stands for; and on the
    diagonal, at most one replacement for each position at which the
    strings have differed so far. *)
Definition table_ok (dl : DamerauLevenshtein)
  (source target : list Ascii.ascii) (a : Array2 Z) : Prop :=
  shape (size source) (size target) a /\
  (forall i j, i < size source -> j < size target ->
     (0 <= cell a i j <= rewrite_cost dl (i + 1) (j + 1))%Z) /\
  (forall k, k < size source -> k < size target ->
     (cell a k k <=
      replace_cost dl * Z.of_N (mismatches source target (S (N.to_nat k))))%Z).

(** What [swap_candidate] computes when nothing wraps. *)
Definition swap_value (cI cD cS : N) (a : Array2 Z) (found : option N)
  (i j j_swap : N) : Z :=
  match found with
  | Some i_swap =>
      if j_swap =? uint32_MAX then int32_MAX
      else Z.of_N
        ((if (i_swap =? 0) && (j_swap =? 0) then 0
          else Z.to_N (cell a (if i_swap =? 0 then 0 else i_swap - 1)
                              (if j_swap =? 0 then 0 else j_swap - 1)))
         + (i - i_swap - 1) * cD + (j - j_swap - 1) * cI + cS)
  | None => int32_MAX
  end.

(** ** [class KnuthMorrisPratt] *)

(** [s[i]] on a [std::string]: the terminating zero at [size()], and
    nothing beyond it. *)
Definition char_of (s : list Ascii.ascii) (i : N) : outcome Ascii.ascii :=
  if i <=? size s then Done (char_at s i) else Fault.

Record KnuthMorrisPratt : Type := {
  needle_ : list Ascii.ascii;
  state_transition_table_ : list N
}.

Definition NOT_FOUND : N := 4294967295.

(** The body of the constructor's loop.  The state is the table and
    [state]. *)
Definition table_step (needle : list Ascii.ascii) (i : N) (st : list N * N)
  : outcome (list N * N) :=
  let table := fst st in
  let state := snd st in
  at_transition <- char_of needle state ;;
  at_i <- char_of needle i ;;
  transition <- (if Ascii.eqb at_transition at_i then get table state
                 else Done state) ;;
  table <- set table i transition ;;
  at_state <- char_of needle state ;;
  Done (table, if Ascii.eqb at_i at_state then uadd state 1 else 0).

(** [KnuthMorrisPratt(const std::string& needle)]: the table is a
    [new uint32_t[needle.size()]]. *)
Definition KnuthMorrisPratt_ctor (u : Indeterminate)
  (needle : list Ascii.ascii) : outcome KnuthMorrisPratt :=
  let table := new_array (ind_uint32 u 0) (size needle) in
  table <- set table 0 NOT_FOUND ;;
  r <- for_size 1 (size needle) (table_step needle) (table, 0) ;;
  Done {| needle_ := needle; state_transition_table_ := fst r |}.

(** The [do ... while] loop of [execute], for the character [c] of the
    haystack. *)
Fixpoint fall_back (fuel : nat) (k : KnuthMorrisPratt) (c : Ascii.ascii)
  (state : N) : outcome N :=
  match fuel with
  | O => OutOfFuel
  | S fuel' =>
      state <- get (state_transition_table_ k) state ;;
      if state =? NOT_FOUND then Done state
      else
        at_state <- char_of (needle_ k) state ;;
        if negb (Ascii.eqb c at_state) then fall_back fuel' k c state
        else Done state
  end.

(** [n] rounds of the [for] loop of [execute], from position [i]: the index
    the loop returns, or [None] when it runs to its end. *)
Fixpoint scan (n : nat) (k : KnuthMorrisPratt) (haystack : list Ascii.ascii)
  (i state : N) : outcome (option N) :=
  match n with
  | O => Done None
  | S n' =>
      at_i <- char_of haystack i ;;
      at_state <- char_of (needle_ k) state ;;
      if Ascii.eqb at_i at_state then
        let state := uadd state 1 in
        if state =? size (needle_ k) then
          Done (Some (wrap32 (wrap64
            (wrap64 (i + 18446744073709551616 - size (needle_ k)) + 1))))
        else scan n' k haystack (uadd i 1) state
      else
        state <- fall_back (S (N.to_nat state)) k at_i state ;;
        scan n' k haystack (uadd i 1) (uadd state 1)
  end.

(** [uint32_t execute(std::string& haystack, uint32_t index)].  The
    counter is a [uint32_t]: in a haystack of [2^32] characters or more it
    wraps before it reaches the length, and what happens then is left
    open. *)
Definition KnuthMorrisPratt_execute (k : KnuthMorrisPratt)
  (haystack : list Ascii.ascii) (index : N) : outcome N :=
  if size haystack <? 4294967296 then
    r <- scan (N.to_nat (size haystack - index)) k haystack index 0 ;;
    Done (match r with Some found => found | None => NOT_FOUND end)
  else
    r <- scan (N.to_nat (4294967296 - index)) k haystack index 0 ;;
    match r with Some found => Done found | None => OutOfFuel end.

(** The needle stands in the haystack at position [r]. *)
Definition occurs_at (needle haystack : list Ascii.ascii) (r : N) : Prop :=
  r + size needle <= size haystack /\
  forall j, j < size needle -> char_at haystack (r + j) = char_at needle j.

(** The first [b] characters of the needle are also the last [b] of its
    first [i]. *)
Definition border (needle : list Ascii.ascii) (b i : N) : Prop :=
  b <= i /\ forall j, j < b -> char_at needle j = char_at needle (i - b + j).

(** A table whose entries lead from a state to a shorter border, or
    nowhere. *)
Definition falls_back (needle : list Ascii.ascii) (table : list N) (i : N)
  : Prop :=
  forall q, q < i ->
    exists t, nth_error table (N.to_nat q) = Some t /\
              (t = NOT_FOUND \/ (t < q /\ border needle t q)).

(** The two strings are the same up to and including position [k]. *)
Definition agree (source target : list Ascii.ascii) (k : N) : Prop :=
  forall k', k' <= k -> char_at source k' = char_at target k'.

(** The cheapest of the four edits. *)
Definition least_cost (dl : DamerauLevenshtein) : Z :=
  Z.min (insert_cost dl)
        (Z.min (delete_cost dl) (Z.min (replace_cost dl) (swap_cost dl))).

(** A cell holds the price of one edit at least, unless it stands for two
    prefixes that are the same. *)
Definition apart (dl : DamerauLevenshtein) (source target : list Ascii.ascii)
  (a : Array2 Z) (i j : N) : Prop :=
  (i = j /\ agree source target i) \/ (least_cost dl <= cell a i j)%Z.

(** [apart] for the cells that [execute] has filled in so far. *)
Definition low (dl : DamerauLevenshtein) (source target : list Ascii.ascii)
  (filled : N -> N -> Prop) (a : Array2 Z) : Prop :=
  forall i j, i < size source -> j < size target -> filled i j ->
              apart dl source target a i j.

(** ** The table of [KnuthMorrisPratt], when it is the right one *)

(** The value of [state] after [k] rounds of the constructor's loop, that
    is when the loop counter is [k + 1]. *)
Fixpoint state_after (needle : list Ascii.ascii) (k : nat) : N :=
  match k with
  | O => 0
  | S k' =>
      let state := state_after needle k' in
      if Ascii.eqb (char_at needle (N.of_nat k' + 1)) (char_at needle state)
      then state + 1 else 0
  end.

(** The needles on which the constructor does not lose track: in every
    round, [state] is the length of the longest border of the characters
    before the loop counter. *)
Definition regular (needle : list Ascii.ascii) : Prop :=
  forall k b, N.of_nat k + 1 < size needle ->
    b < N.of_nat k + 1 -> border needle b (N.of_nat k + 1) ->
    b <= state_after needle k.

(** An entry [t] for state [q] that skips no border worth trying: every
    border of the first [q] characters longer than [t] is followed by the
    same character as the [q] characters are. *)
Definition strict (needle : list Ascii.ascii) (q t : N) : Prop :=
  (t = NOT_FOUND /\
   forall b, b < q -> border needle b q ->
             char_at needle b = char_at needle q) \/
  (t < q /\ border needle t q /\ char_at needle t <> char_at needle q /\
   forall b, t < b -> b < q -> border needle b q ->
             char_at needle b = char_at needle q).

Definition exact_table (needle : list Ascii.ascii) (table : list N) (i : N)
  : Prop :=
  forall q, q < i ->
    exists t, nth_error table (N.to_nat q) = Some t /\ strict needle q t.

(** The first [s] characters of the needle stand in the haystack right
    before position [i], not before [index]. *)
Definition matched (needle haystack : list Ascii.ascii) (index s i : N)
  : Prop :=
  index + s <= i /\
  forall j, j < s -> char_at needle j = char_at haystack (i - s + j).

(** * [RedBlackTree<T, Node<T>>] of red_black_tree.h

    The nodes live in the free store and point at one another, their
    parents included, so the embedding keeps a store of nodes by address.
    - A [NodeType*] is [nullptr] or an address; [new NodeType(value)] takes
      the next address that was never used, [delete] leaves the cell empty.
    - Going through [nullptr] or through the address of a deleted node is
      undefined behaviour in C++ and the outcome [Fault] here.
    - [compare_] returns an [int], of which the class looks at the sign only.
    - The loops take a fuel argument.
    - With [NodeType = Node<T>] the hooks [post_insert], [post_delete] and
      [post_exchange_values] do nothing, and [predecessor_impl] and
      [successor_impl] are [predecessor_internal] and
      [successor_internal]. *)

Module red_black_tree.

Inductive NodeColor : Type := RED | BLACK.

Definition is_red (c : NodeColor) : bool :=
  match c with RED => true | BLACK => false end.

Definition is_black (c : NodeColor) : bool :=
  match c with RED => false | BLACK => true end.

Definition pointer : Type := option nat.

Definition nullptr : pointer := None.

Definition is_null (p : pointer) : bool :=
  match p with None => true | Some _ => false end.

(** [p == q] on two pointers. *)
Definition same (p q : pointer) : bool :=
  match p, q with
  | None, None => true
  | Some a, Some b => Nat.eqb a b
  | _, _ => false
  end.

Section Class.
Context {T : Type}.

(** ** [class Node] *)

Record Node : Type := {
  color_ : NodeColor;
  left_ : pointer;
  right_ : pointer;
  parent_ : pointer;
  value_ : T
}.

(** [Node(T value)] *)
Definition Node_ctor (value : T) : Node :=
  {| color_ := BLACK; left_ := nullptr; right_ := nullptr;
     parent_ := nullptr; value_ := value |}.

(** The tree object, and the nodes in the free store. *)
Record RedBlackTree : Type := {
  compare_ : T -> T -> Z;
  root_ : pointer;
  size_ : N;
  nodes : list (option Node)
}.

(** The constructor [RedBlackTree(compare)], in a store that holds no node
    yet. *)
Definition RedBlackTree_ctor (compare : T -> T -> Z) : RedBlackTree :=
  {| compare_ := compare; root_ := nullptr; size_ := 0; nodes := [] |}.

Definition with_nodes (t : RedBlackTree) (ns : list (option Node))
  : RedBlackTree :=
  {| compare_ := compare_ t; root_ := root_ t; size_ := size_ t;
     nodes := ns |}.

Definition with_root (t : RedBlackTree) (p : pointer) : RedBlackTree :=
  {| compare_ := compare_ t; root_ := p; size_ := size_ t;
     nodes := nodes t |}.

Definition with_size (t : RedBlackTree) (n : N) : RedBlackTree :=
  {| compare_ := compare_ t; root_ := root_ t; size_ := n;
     nodes := nodes t |}.

(** [*p] *)
Definition deref (t : RedBlackTree) (p : pointer) : outcome Node :=
  match p with
  | None => Fault
  | Some a =>
      match nth_error (nodes t) a with
      | Some (Some n) => Done n
      | _ => Fault
      end
  end.

(** [*p = n] *)
Definition assign (t : RedBlackTree) (p : pointer) (n : Node)
  : outcome RedBlackTree :=
  match p with
  | None => Fault
  | Some a =>
      match nth_error (nodes t) a with
      | Some (Some _) => Done (with_nodes t (update (nodes t) a (Some n)))
      | _ => Fault
      end
  end.

(** [new NodeType(value)] *)
Definition new_node (t : RedBlackTree) (value : T)
  : RedBlackTree * pointer :=
  (with_nodes t (nodes t ++ [Some (Node_ctor value)]),
   Some (length (nodes t))).

(** [delete p], for a [p] that is not [nullptr]. *)
Definition delete (t : RedBlackTree) (p : pointer) : outcome RedBlackTree :=
  match p with
  | None => Fault
  | Some a =>
      match nth_error (nodes t) a with
      | Some (Some _) => Done (with_nodes t (update (nodes t) a None))
      | _ => Fault
      end
  end.

(** The accessors of [Node], called as [p->left()] and so on. *)
Definition node_color (t : RedBlackTree) (p : pointer) : outcome NodeColor :=
  n <- deref t p ;; Done (color_ n).

Definition left (t : RedBlackTree) (p : pointer) : outcome pointer :=
  n <- deref t p ;; Done (left_ n).

Definition right (t : RedBlackTree) (p : pointer) : outcome pointer :=
  n <- deref t p ;; Done (right_ n).

Definition parent (t : RedBlackTree) (p : pointer) : outcome pointer :=
  n <- deref t p ;; Done (parent_ n).

Definition value (t : RedBlackTree) (p : pointer) : outcome T :=
  n <- deref t p ;; Done (value_ n).

Definition set_left (t : RedBlackTree) (p q : pointer)
  : outcome RedBlackTree :=
  n <- deref t p ;;
  assign t p {| color_ := color_ n; left_ := q; right_ := right_ n;
                parent_ := parent_ n; value_ := value_ n |}.

Definition set_right (t : RedBlackTree) (p q : pointer)
  : outcome RedBlackTree :=
  n <- deref t p ;;
  assign t p {| color_ := color_ n; left_ := left_ n; right_ := q;
                parent_ := parent_ n; value_ := value_ n |}.

Definition set_parent (t : RedBlackTree) (p q : pointer)
  : outcome RedBlackTree :=
  n <- deref t p ;;
  assign t p {| color_ := color_ n; left_ := left_ n; right_ := right_ n;
                parent_ := q; value_ := value_ n |}.

Definition set_value (t : RedBlackTree) (p : pointer) (v : T)
  : outcome RedBlackTree :=
  n <- deref t p ;;
  assign t p {| color_ := color_ n; left_ := left_ n; right_ := right_ n;
                parent_ := parent_ n; value_ := v |}.

Definition node_set_color (t : RedBlackTree) (p : pointer) (c : NodeColor)
  : outcome RedBlackTree :=
  n <- deref t p ;;
  assign t p {| color_ := c; left_ := left_ n; right_ := right_ n;
                parent_ := parent_ n; value_ := value_ n |}.

(** ** The private helpers of [RedBlackTree] *)

(** [set_color(node, color)]: nothing for [nullptr]. *)
Definition set_color (t : RedBlackTree) (node : pointer) (c : NodeColor)
  : outcome RedBlackTree :=
  if is_null node then Done t else node_set_color t node c.

(** [color(node)]: [nullptr] is black. *)
Definition color (t : RedBlackTree) (node : pointer) : outcome NodeColor :=
  if is_null node then Done BLACK else node_color t node.

(** [right_rotate(node)] *)
Definition right_rotate (t : RedBlackTree) (node : pointer)
  : outcome RedBlackTree :=
  temp <- left t node ;;
  temp_right <- right t temp ;;
  t <- set_left t node temp_right ;;
  temp_right <- right t temp ;;
  t <- (if is_null temp_right then Done t
        else temp_right <- right t temp ;; set_parent t temp_right node) ;;
  node_parent <- parent t node ;;
  t <- set_parent t temp node_parent ;;
  node_parent <- parent t node ;;
  t <- (if is_null node_parent then Done (with_root t temp)
        else
          node_parent <- parent t node ;;
          parent_right <- right t node_parent ;;
          if same node parent_right then
            node_parent <- parent t node ;;
            set_right t node_parent temp
          else
            node_parent <- parent t node ;;
            set_left t node_parent temp) ;;
  t <- set_right t temp node ;;
  set_parent t node temp.

(** [left_rotate(node)] *)
Definition left_rotate (t : RedBlackTree) (node : pointer)
  : outcome RedBlackTree :=
  temp <- right t node ;;
  temp_left <- left t temp ;;
  t <- set_right t node temp_left ;;
  temp_left <- left t temp ;;
  t <- (if is_null temp_left then Done t
        else temp_left <- left t temp ;; set_parent t temp_left node) ;;
  node_parent <- parent t node ;;
  t <- set_parent t temp node_parent ;;
  node_parent <- parent t node ;;
  t <- (if is_null node_parent then Done (with_root t temp)
        else
          node_parent <- parent t node ;;
          parent_left <- left t node_parent ;;
          if same node parent_left then
            node_parent <- parent t node ;;
            set_left t node_parent temp
          else
            node_parent <- parent t node ;;
            set_right t node_parent temp) ;;
  t <- set_left t temp node ;;
  set_parent t node temp.

(** [node->parent()->parent()] *)
Definition grandparent (t : RedBlackTree) (node : pointer)
  : outcome pointer :=
  node_parent <- parent t node ;; parent t node_parent.

(** [fix_after_insertion(node)] *)
Fixpoint fix_after_insertion (fuel : nat) (t : RedBlackTree) (node : pointer)
  : outcome RedBlackTree :=
  match fuel with
  | O => OutOfFuel
  | S fuel' =>
      node_parent <- parent t node ;;
      parent_color <- color t node_parent ;;
      if is_red parent_color then
        node_parent <- parent t node ;;
        grand <- grandparent t node ;;
        grand_left <- left t grand ;;
        if same node_parent grand_left then
          grand <- grandparent t node ;;
          temp <- right t grand ;;
          temp_color <- color t temp ;;
          if is_red temp_color then
            node_parent <- parent t node ;;
            t <- set_color t node_parent BLACK ;;
            t <- set_color t temp BLACK ;;
            grand <- grandparent t node ;;
            t <- set_color t grand RED ;;
            node <- grandparent t node ;;
            fix_after_insertion fuel' t node
          else
            node_parent <- parent t node ;;
            parent_right <- right t node_parent ;;
            '(t, node) <- (if same node parent_right then
                             node <- parent t node ;;
                             t <- left_rotate t node ;;
                             Done (t, node)
                           else Done (t, node)) ;;
            node_parent <- parent t node ;;
            t <- set_color t node_parent BLACK ;;
            grand <- grandparent t node ;;
            t <- set_color t grand RED ;;
            grand <- grandparent t node ;;
            t <- right_rotate t grand ;;
            fix_after_insertion fuel' t node
        else
          grand <- grandparent t node ;;
          temp <- left t grand ;;
          temp_color <- color t temp ;;
          if is_red temp_color then
            node_parent <- parent t node ;;
            t <- set_color t node_parent BLACK ;;
            t <- set_color t temp BLACK ;;
            grand <- grandparent t node ;;
            t <- set_color t grand RED ;;
            node <- grandparent t node ;;
            fix_after_insertion fuel' t node
          else
            node_parent <- parent t node ;;
            parent_left <- left t node_parent ;;
            '(t, node) <- (if same node parent_left then
                             node <- parent t node ;;
                             t <- right_rotate t node ;;
                             Done (t, node)
                           else Done (t, node)) ;;
            node_parent <- parent t node ;;
            t <- set_color t node_parent BLACK ;;
            grand <- grandparent t node ;;
            t <- set_color t grand RED ;;
            grand <- grandparent t node ;;
            t <- left_rotate t grand ;;
            fix_after_insertion fuel' t node
      else set_color t (root_ t) BLACK
  end.

(** [fix_after_removal(node)] *)
Fixpoint fix_after_removal (fuel : nat) (t : RedBlackTree) (node : pointer)
  : outcome RedBlackTree :=
  match fuel with
  | O => OutOfFuel
  | S fuel' =>
      again <- (if negb (same node (root_ t)) then
                  node_color <- color t node ;; Done (is_black node_color)
                else Done false) ;;
      if (again : bool) then
        node_parent <- parent t node ;;
        parent_left <- left t node_parent ;;
        on_the_left <-
          (if same node parent_left then Done true
           else
             node_parent <- parent t node ;;
             parent_right <- right t node_parent ;;
             if negb (is_null parent_right) then
               node_parent <- parent t node ;;
               parent_right <- right t node_parent ;;
               Done (negb (same node parent_right))
             else Done false) ;;
        if (on_the_left : bool) then
          node_parent <- parent t node ;;
          temp <- right t node_parent ;;
          temp_color <- color t temp ;;
          '(t, temp) <-
            (if is_red temp_color then
               t <- set_color t temp BLACK ;;
               node_parent <- parent t node ;;
               t <- set_color t node_parent RED ;;
               node_parent <- parent t node ;;
               t <- left_rotate t node_parent ;;
               node_parent <- parent t node ;;
               temp <- right t node_parent ;;
               Done (t, temp)
             else Done (t, temp)) ;;
          temp_left <- left t temp ;;
          left_color <- color t temp_left ;;
          both_black <-
            (if is_black left_color then
               temp_right <- right t temp ;;
               right_color <- color t temp_right ;;
               Done (is_black right_color)
             else Done false) ;;
          if (both_black : bool) then
            t <- set_color t temp RED ;;
            node <- parent t node ;;
            fix_after_removal fuel' t node
          else
            temp_right <- right t temp ;;
            right_color <- color t temp_right ;;
            '(t, temp) <-
              (if is_black right_color then
                 temp_left <- left t temp ;;
                 t <- set_color t temp_left BLACK ;;
                 t <- set_color t temp RED ;;
                 t <- right_rotate t temp ;;
                 node_parent <- parent t node ;;
                 temp <- right t node_parent ;;
                 Done (t, temp)
               else Done (t, temp)) ;;
            node_parent <- parent t node ;;
            parent_color <- color t node_parent ;;
            t <- set_color t temp parent_color ;;
            node_parent <- parent t node ;;
            t <- set_color t node_parent BLACK ;;
            temp_right <- right t temp ;;
            t <- set_color t temp_right BLACK ;;
            node_parent <- parent t node ;;
            t <- left_rotate t node_parent ;;
            fix_after_removal fuel' t (root_ t)
        else
          node_parent <- parent t node ;;
          temp <- left t node_parent ;;
          temp_color <- color t temp ;;
          '(t, temp) <-
            (if is_red temp_color then
               t <- set_color t temp BLACK ;;
               node_parent <- parent t node ;;
               t <- set_color t node_parent RED ;;
               node_parent <- parent t node ;;
               t <- right_rotate t node_parent ;;
               node_parent <- parent t node ;;
               temp <- left t node_parent ;;
               Done (t, temp)
             else Done (t, temp)) ;;
          temp_right <- right t temp ;;
          right_color <- color t temp_right ;;
          both_black <-
            (if is_black right_color then
               temp_left <- left t temp ;;
               left_color <- color t temp_left ;;
               Done (is_black left_color)
             else Done false) ;;
          if (both_black : bool) then
            t <- set_color t temp RED ;;
            node <- parent t node ;;
            fix_after_removal fuel' t node
          else
            temp_left <- left t temp ;;
            left_color <- color t temp_left ;;
            '(t, temp) <-
              (if is_black left_color then
                 temp_right <- right t temp ;;
                 t <- set_color t temp_right BLACK ;;
                 t <- set_color t temp RED ;;
                 t <- left_rotate t temp ;;
                 node_parent <- parent t node ;;
                 temp <- left t node_parent ;;
                 Done (t, temp)
               else Done (t, temp)) ;;
            node_parent <- parent t node ;;
            parent_color <- color t node_parent ;;
            t <- set_color t temp parent_color ;;
            node_parent <- parent t node ;;
            t <- set_color t node_parent BLACK ;;
            temp_left <- left t temp ;;
            t <- set_color t temp_left BLACK ;;
            node_parent <- parent t node ;;
            t <- right_rotate t node_parent ;;
            fix_after_removal fuel' t (root_ t)
      else set_color t node BLACK
  end.

(** [exchange_values(n, successor)] *)
Definition exchange_values (t : RedBlackTree) (n successor : pointer)
  : outcome RedBlackTree :=
  tempValue <- value t successor ;;
  n_value <- value t n ;;
  t <- set_value t successor n_value ;;
  set_value t n tempValue.

(** [get_node_impl(value)] *)
Fixpoint get_node_impl (fuel : nat) (t : RedBlackTree) (node : pointer)
  (v : T) : outcome pointer :=
  if is_null node then Done node
  else
    match fuel with
    | O => OutOfFuel
    | S fuel' =>
        node_value <- value t node ;;
        let delta := compare_ t node_value v in
        if (delta <? 0)%Z then
          node <- right t node ;; get_node_impl fuel' t node v
        else if (delta >? 0)%Z then
          node <- left t node ;; get_node_impl fuel' t node v
        else Done node
    end.

(** [node(value)] *)
Definition node (fuel : nat) (t : RedBlackTree) (v : T) : outcome pointer :=
  get_node_impl fuel t (root_ t) v.

(** [contains(value)] *)
Definition contains (fuel : nat) (t : RedBlackTree) (v : T) : outcome bool :=
  p <- node fuel t v ;; Done (negb (is_null p)).

(** [size()] *)
Definition size (t : RedBlackTree) : N := size_ t.

(** [root()] *)
Definition root (t : RedBlackTree) : pointer := root_ t.

(** [while (result->left() != nullptr) result = result->left();] *)
Fixpoint leftmost (fuel : nat) (t : RedBlackTree) (result : pointer)
  : outcome pointer :=
  match fuel with
  | O => OutOfFuel
  | S fuel' =>
      result_left <- left t result ;;
      if is_null result_left then Done result
      else result <- left t result ;; leftmost fuel' t result
  end.

(** [while (result->right() != nullptr) result = result->right();] *)
Fixpoint rightmost (fuel : nat) (t : RedBlackTree) (result : pointer)
  : outcome pointer :=
  match fuel with
  | O => OutOfFuel
  | S fuel' =>
      result_right <- right t result ;;
      if is_null result_right then Done result
      else result <- right t result ;; rightmost fuel' t result
  end.

(** [getFirstNodeImpl()] and [getLastNodeImpl()], as they stand in the
    earlier version of the header, where [root] is the member that the later
    version calls [root_]. *)
Definition getFirstNodeImpl (fuel : nat) (t : RedBlackTree)
  : outcome pointer :=
  let result := root_ t in
  if negb (is_null result) then leftmost fuel t result else Done result.

Definition getLastNodeImpl (fuel : nat) (t : RedBlackTree)
  : outcome pointer :=
  let result := root_ t in
  if negb (is_null result) then rightmost fuel t result else Done result.

(** [while (temp != nullptr && result == temp->left())] of
    [predecessor_internal]. *)
Fixpoint climb_from_left (fuel : nat) (t : RedBlackTree)
  (result temp : pointer) : outcome pointer :=
  match fuel with
  | O => OutOfFuel
  | S fuel' =>
      if is_null temp then Done temp
      else
        temp_left <- left t temp ;;
        if same result temp_left then
          next <- parent t temp ;; climb_from_left fuel' t temp next
        else Done temp
  end.

(** [while (temp != nullptr && node == temp->right())] of
    [successor_internal]. *)
Fixpoint climb_from_right (fuel : nat) (t : RedBlackTree)
  (node temp : pointer) : outcome pointer :=
  match fuel with
  | O => OutOfFuel
  | S fuel' =>
      if is_null temp then Done temp
      else
        temp_right <- right t temp ;;
        if same node temp_right then
          next <- parent t temp ;; climb_from_right fuel' t temp next
        else Done temp
  end.

(** [predecessor_internal(node)] *)
Definition predecessor_internal (fuel : nat) (t : RedBlackTree)
  (node : pointer) : outcome pointer :=
  if is_null node then Done nullptr
  else
    let result := node in
    result_left <- left t result ;;
    if negb (is_null result_left) then
      result <- left t result ;; rightmost fuel t result
    else
      temp <- parent t result ;; climb_from_left fuel t result temp.

(** [successor_internal(node)] *)
Definition successor_internal (fuel : nat) (t : RedBlackTree)
  (node : pointer) : outcome pointer :=
  if is_null node then Done nullptr
  else
    let result := node in
    result_right <- right t result ;;
    if negb (is_null result_right) then
      result <- right t result ;; leftmost fuel t result
    else
      temp <- parent t result ;; climb_from_right fuel t node temp.

(** [predecessor(node)] and [successor(node)], for [Node<T>]. *)
Definition predecessor (fuel : nat) (t : RedBlackTree) (node : pointer)
  : outcome pointer :=
  predecessor_internal fuel t node.

Definition successor (fuel : nat) (t : RedBlackTree) (node : pointer)
  : outcome pointer :=
  successor_internal fuel t node.

(** The [while (parent != nullptr)] loop of [insert]: [None] when the loop
    returns [false], and else the tree and [node] at the end of the loop. *)
Fixpoint insert_loop (fuel : nat) (t : RedBlackTree) (node parent : pointer)
  (v : T) : outcome (option (RedBlackTree * pointer)) :=
  if is_null parent then Done (Some (t, node))
  else
    match fuel with
    | O => OutOfFuel
    | S fuel' =>
        parent_value <- value t parent ;;
        let delta := compare_ t parent_value v in
        if (delta <? 0)%Z then
          parent_right <- right t parent ;;
          if is_null parent_right then
            let '(t, node) := new_node t v in
            t <- set_right t parent node ;;
            t <- set_parent t node parent ;;
            insert_loop fuel' t node nullptr v
          else
            parent <- right t parent ;;
            insert_loop fuel' t node parent v
        else if (delta >? 0)%Z then
          parent_left <- left t parent ;;
          if is_null parent_left then
            let '(t, node) := new_node t v in
            t <- set_left t parent node ;;
            t <- set_parent t node parent ;;
            insert_loop fuel' t node nullptr v
          else
            parent <- left t parent ;;
            insert_loop fuel' t node parent v
        else Done None
    end.

(** [insert(value)] *)
Definition insert (fuel : nat) (t : RedBlackTree) (v : T)
  : outcome (RedBlackTree * bool) :=
  r <- insert_loop fuel t nullptr (root_ t) v ;;
  match r with
  | None => Done (t, false)
  | Some (t, node) =>
      let '(t, node) :=
        if is_null node then
          let '(t, node) := new_node t v in (with_root t node, node)
        else (t, node) in
      t <- set_color t node RED ;;
      t <- fix_after_insertion fuel t node ;;
      let t := with_size t (wrap32 (size_ t + 1)) in
      Done (t, true)
  end.

(** [remove(value)] *)
Definition remove (fuel : nat) (t : RedBlackTree) (v : T)
  : outcome (RedBlackTree * bool) :=
  node <- node fuel t v ;;
  if is_null node then Done (t, false)
  else
    node_left <- left t node ;;
    two_children <-
      (if is_null node_left then Done false
       else node_right <- right t node ;; Done (negb (is_null node_right))) ;;
    '(t, node) <-
      (if (two_children : bool) then
         successor <- successor fuel t node ;;
         t <- exchange_values t node successor ;;
         Done (t, successor)
       else Done (t, node)) ;;
    node_left <- left t node ;;
    swap <- (if negb (is_null node_left) then left t node
             else right t node) ;;
    t <- (if negb (is_null swap) then
            node_parent <- parent t node ;; set_parent t swap node_parent
          else Done t) ;;
    node_parent <- parent t node ;;
    t <- (if is_null node_parent then Done (with_root t swap)
          else
            node_parent <- parent t node ;;
            parent_left <- left t node_parent ;;
            if same node parent_left then
              node_parent <- parent t node ;;
              set_left t node_parent swap
            else
              node_parent <- parent t node ;;
              set_right t node_parent swap) ;;
    node_color <- node_color t node ;;
    t <- (if is_black node_color then
            if negb (is_null (root_ t)) then
              fix_after_removal fuel t (if is_null swap then node else swap)
            else Done t
          else Done t) ;;
    let t := with_size t (wrap32 (size_ t + 4294967295)) in
    let result := negb (is_null node) in
    t <- delete t node ;;
    Done (t, result).

(** The loop of [~RedBlackTree()], on the queue [q]. *)
Fixpoint destroy (fuel : nat) (t : RedBlackTree) (q : list pointer)
  : outcome RedBlackTree :=
  match q with
  | [] => Done t
  | node :: q =>
      match fuel with
      | O => OutOfFuel
      | S fuel' =>
          node_left <- left t node ;;
          q <- (if negb (is_null node_left) then
                  node_left <- left t node ;; Done (q ++ [node_left])
                else Done q) ;;
          node_right <- right t node ;;
          q <- (if negb (is_null node_right) then
                  node_right <- right t node ;; Done (q ++ [node_right])
                else Done q) ;;
          t <- delete t node ;;
          destroy fuel' t q
      end
  end.

(** [~RedBlackTree()] *)
Definition RedBlackTree_dtor (fuel : nat) (t : RedBlackTree)
  : outcome RedBlackTree :=
  destroy fuel t (if negb (is_null (root_ t)) then [root_ t] else []).

End Class.

Arguments Node T : clear implicits.
Arguments RedBlackTree T : clear implicits.

End red_black_tree.

(** * Reasoning principles *)

(** ** Outcomes *)

Lemma bind_Done {A B : Type} (m : outcome A) (k : A -> outcome B) (b : B) :
  bind m k = Done b -> exists a, m = Done a /\ k a = Done b.
Proof. destruct m; simpl; intros H; try discriminate. eauto. Qed.

Lemma bind_OutOfFuel {A B : Type} (m : outcome A) (k : A -> outcome B) :
  bind m k = OutOfFuel ->
  m = OutOfFuel \/ exists a, m = Done a /\ k a = OutOfFuel.
Proof. destruct m; simpl; intros H; try discriminate; eauto. Qed.

(** Takes a hypothesis [bind m k = Done b] apart, repeatedly. *)
Ltac inv_bind H :=
  let a := fresh "x" in
  let Ha := fresh "E" in
  apply bind_Done in H; destruct H as (a & Ha & H).

Ltac inv_Done H := injection H as H; try subst.

(** ** Comparisons of [Q] *)

Lemma Qltb_true (a b : Q) : Qltb a b = true <-> (a < b)%Q.
Proof.
  unfold Qltb. rewrite negb_true_iff.
  split; intros H.
  - apply Qnot_le_lt. intros Hle. apply Qle_bool_iff in Hle. congruence.
  - destruct (Qle_bool b a) eqn:E; auto.
    apply Qle_bool_iff in E. apply Qle_not_lt in E. contradiction.
Qed.

Lemma Qltb_false (a b : Q) : Qltb a b = false <-> (b <= a)%Q.
Proof.
  unfold Qltb. rewrite negb_false_iff. apply Qle_bool_iff.
Qed.

Lemma POSITIVE_INFINITY_pos : (0 < POSITIVE_INFINITY)%Q.
Proof. reflexivity. Qed.

(** ** Arrays *)

Lemma length_update {T : Type} (a : list T) (i : nat) (v : T) :
  length (update a i v) = length a.
Proof.
  revert i; induction a as [|x a IH]; intros [|i]; simpl; auto.
Qed.

Lemma nth_error_update_eq {T : Type} (a : list T) (i : nat) (v : T) :
  (i < length a)%nat -> nth_error (update a i v) i = Some v.
Proof.
  revert i; induction a as [|x a IH]; intros [|i]; simpl; intros H;
    try lia; auto.
  apply IH; lia.
Qed.

Lemma nth_error_update_neq {T : Type} (a : list T) (i k : nat) (v : T) :
  i <> k -> nth_error (update a i v) k = nth_error a k.
Proof.
  revert i k; induction a as [|x a IH]; intros [|i] [|k]; simpl; intros H;
    auto; try lia.
Qed.

Lemma get_lt {T : Type} (a : list T) (i : N) (v : T) :
  get a i = Done v -> i < N.of_nat (length a).
Proof.
  unfold get. destruct (nth_error a (N.to_nat i)) eqn:E; try discriminate.
  intros _. assert (N.to_nat i < length a)%nat by (apply nth_error_Some; congruence).
  lia.
Qed.

Lemma get_total {T : Type} (a : list T) (i : N) :
  i < N.of_nat (length a) -> exists v, get a i = Done v.
Proof.
  intros H. unfold get.
  destruct (nth_error a (N.to_nat i)) eqn:E; eauto.
  apply nth_error_None in E. lia.
Qed.

Lemma get_not_OutOfFuel {T : Type} (a : list T) (i : N) : get a i <> OutOfFuel.
Proof. unfold get. destruct (nth_error a (N.to_nat i)); discriminate. Qed.

Lemma set_not_OutOfFuel {T : Type} (a : list T) (i : N) (v : T) :
  set a i v <> OutOfFuel.
Proof. unfold set. destruct (i <? _); discriminate. Qed.

Lemma set_total {T : Type} (a : list T) (i : N) (v : T) :
  i < N.of_nat (length a) -> set a i v = Done (update a (N.to_nat i) v).
Proof.
  intros H. unfold set. apply N.ltb_lt in H. rewrite H. reflexivity.
Qed.

Lemma set_Done {T : Type} (a a' : list T) (i : N) (v : T) :
  set a i v = Done a' ->
  i < N.of_nat (length a) /\ a' = update a (N.to_nat i) v.
Proof.
  unfold set. destruct (i <? _) eqn:E; try discriminate.
  apply N.ltb_lt in E. intros H; inv_Done H. auto.
Qed.

Lemma set_length {T : Type} (a a' : list T) (i : N) (v : T) :
  set a i v = Done a' -> length a' = length a.
Proof.
  intros H. apply set_Done in H as [_ ->]. apply length_update.
Qed.

Lemma get_set_eq {T : Type} (a a' : list T) (i : N) (v : T) :
  set a i v = Done a' -> get a' i = Done v.
Proof.
  intros H. apply set_Done in H as [Hi ->]. unfold get.
  rewrite nth_error_update_eq by lia. reflexivity.
Qed.

Lemma get_set_neq {T : Type} (a a' : list T) (i k : N) (v : T) :
  set a i v = Done a' -> i <> k -> get a' k = get a k.
Proof.
  intros H Hne. apply set_Done in H as [Hi ->]. unfold get.
  rewrite nth_error_update_neq by lia. reflexivity.
Qed.

Lemma get_set {T : Type} (a a' : list T) (i k : N) (v : T) :
  set a i v = Done a' ->
  get a' k = if k =? i then Done v else get a k.
Proof.
  intros H. destruct (N.eqb_spec k i) as [->|Hne].
  - eapply get_set_eq; eauto.
  - eapply get_set_neq; eauto.
Qed.

Lemma length_new_array {T : Type} (cells : N -> T) (extent : N) :
  length (new_array cells extent) = N.to_nat extent.
Proof. unfold new_array. rewrite length_map, length_seq. reflexivity. Qed.

Lemma get_new_array {T : Type} (cells : N -> T) (extent i : N) :
  i < extent -> get (new_array cells extent) i = Done (cells i).
Proof.
  intros H. unfold get, new_array.
  rewrite nth_error_map, nth_error_seq.
  destruct (Nat.ltb_spec (N.to_nat i) (N.to_nat extent)); try lia.
  simpl. rewrite N2Nat.id. reflexivity.
Qed.

Lemma get_repeat {T : Type} (x : T) (n : nat) (i : N) :
  i < N.of_nat n -> get (repeat x n) i = Done x.
Proof.
  intros H. unfold get. rewrite nth_error_repeat by lia. reflexivity.
Qed.

(** ** [for] loops *)

Section ForLoop.
Context {S : Type}.
Variable body : N -> S -> outcome S.

(** Partial correctness: an invariant indexed by the loop counter. *)
Lemma for_loop_inv (P : N -> S -> Prop) (n : nat) (i : N) (s r : S) :
  P i s ->
  (forall k s s', i <= k < i + N.of_nat n -> P k s -> body k s = Done s' ->
                  P (N.succ k) s') ->
  for_loop n i body s = Done r ->
  P (i + N.of_nat n) r.
Proof.
  revert i s. induction n as [|n IH]; intros i s H0 Hstep Hrun;
    cbn [for_loop] in Hrun.
  - inv_Done Hrun. replace (i + N.of_nat 0) with i by lia. exact H0.
  - inv_bind Hrun.
    replace (i + N.of_nat (Datatypes.S n)) with (N.succ i + N.of_nat n) by lia.
    apply IH with (s := x); auto.
    + apply Hstep with (s := s); auto. lia.
    + intros k t t' Hk. apply Hstep. lia.
Qed.

(** Total correctness: the body succeeds under the invariant. *)
Lemma for_loop_total (P : N -> S -> Prop) (n : nat) (i : N) (s : S) :
  P i s ->
  (forall k s, i <= k < i + N.of_nat n -> P k s ->
               exists s', body k s = Done s' /\ P (N.succ k) s') ->
  exists r, for_loop n i body s = Done r /\ P (i + N.of_nat n) r.
Proof.
  revert i s. induction n as [|n IH]; intros i s H0 Hstep; cbn [for_loop].
  - exists s. split; [reflexivity|].
    replace (i + N.of_nat 0) with i by lia. exact H0.
  - destruct (Hstep i s) as (s' & Hb & Hs'); auto; try lia.
    rewrite Hb. simpl bind.
    replace (i + N.of_nat (Datatypes.S n)) with (N.succ i + N.of_nat n) by lia.
    apply IH; auto.
    intros k t Hk. apply Hstep. lia.
Qed.

Lemma for_loop_not_OutOfFuel (n : nat) (i : N) (s : S) :
  (forall k s, body k s <> OutOfFuel) ->
  for_loop n i body s <> OutOfFuel.
Proof.
  intros Hb. revert i s. induction n as [|n IH]; intros i s; cbn [for_loop].
  - discriminate.
  - intros H. apply bind_OutOfFuel in H as [H|(a & _ & H)].
    + eapply Hb; eauto.
    + eapply IH; eauto.
Qed.

Lemma for_range_inv (P : N -> S -> Prop) (lo hi : N) (s r : S) :
  lo <= hi ->
  P lo s ->
  (forall k s s', lo <= k < hi -> P k s -> body k s = Done s' ->
                  P (N.succ k) s') ->
  for_range lo hi body s = Done r ->
  P hi r.
Proof.
  intros Hle H0 Hstep Hrun. unfold for_range in Hrun.
  assert (E : hi = lo + N.of_nat (N.to_nat (hi - lo))) by lia.
  rewrite E. apply for_loop_inv with (s := s); auto.
  intros k t t' Hk. apply Hstep. lia.
Qed.

Lemma for_range_total (P : N -> S -> Prop) (lo hi : N) (s : S) :
  lo <= hi ->
  P lo s ->
  (forall k s, lo <= k < hi -> P k s ->
               exists s', body k s = Done s' /\ P (N.succ k) s') ->
  exists r, for_range lo hi body s = Done r /\ P hi r.
Proof.
  intros Hle H0 Hstep. unfold for_range.
  assert (E : hi = lo + N.of_nat (N.to_nat (hi - lo))) by lia.
  destruct (@for_loop_total P (N.to_nat (hi - lo)) lo s H0) as (r & Hr & HP).
  - intros k t Hk. apply Hstep. lia.
  - exists r. split; auto. rewrite E. exact HP.
Qed.

Lemma for_range_not_OutOfFuel (lo hi : N) (s : S) :
  (forall k s, body k s <> OutOfFuel) ->
  for_range lo hi body s <> OutOfFuel.
Proof. apply for_loop_not_OutOfFuel. Qed.
End ForLoop.

(** Case analysis on every comparison of indices in the goal. *)
Ltac cases :=
  repeat match goal with
  | |- context [N.ltb ?a ?b] => destruct (N.ltb_spec a b)
  | |- context [N.leb ?a ?b] => destruct (N.leb_spec a b)
  | |- context [N.eqb ?a ?b] => destruct (N.eqb_spec a b)
  end;
  cbn [andb orb negb]; try subst; try lia; auto.

(** * What each member function leaves alone *)

Ltac inv_run :=
  repeat match goal with
  | H : bind _ _ = Done _ |- _ => inv_bind H
  | H : Done _ = Done _ |- _ => inv_Done H
  | H : Fault = Done _ |- _ => discriminate H
  | H : OutOfFuel = Done _ |- _ => discriminate H
  | H : (if ?c then _ else _) = Done _ |- _ => destruct c eqn:?
  end.

Ltac unfold_same :=
  unfold same_shape, same_matching, same_cost, same_labels, same_parents,
    same_committed, same_slacks in *.

Lemma for_loop_rel {S : Type} (R : S -> S -> Prop) (body : N -> S -> outcome S) :
  (forall s, R s s) ->
  (forall a b c, R a b -> R b c -> R a c) ->
  (forall k s s', body k s = Done s' -> R s s') ->
  forall n i s r, for_loop n i body s = Done r -> R s r.
Proof.
  intros Hrefl Htrans Hbody. induction n as [|n IH]; intros i s r H;
    cbn [for_loop] in H.
  - inv_Done H. apply Hrefl.
  - inv_bind H. eapply Htrans; eauto.
Qed.

Lemma for_range_rel {S : Type} (R : S -> S -> Prop) (body : N -> S -> outcome S) :
  (forall s, R s s) ->
  (forall a b c, R a b -> R b c -> R a c) ->
  (forall k s s', body k s = Done s' -> R s s') ->
  forall lo hi s r, for_range lo hi body s = Done r -> R s r.
Proof.
  intros Hrefl Htrans Hbody lo hi s r H. unfold for_range in H.
  eapply for_loop_rel; eauto.
Qed.

Lemma for_range_set_length {T : Type} (f : N -> T) (lo hi : N) (a r : list T) :
  for_range lo hi (fun j a => set a j (f j)) a = Done r -> length r = length a.
Proof.
  apply (for_range_rel (fun a r : list T => length r = length a)); try congruence.
  intros k s s' H. eapply set_length; eauto.
Qed.

Lemma kept_refl c l m p w s h : kept c l m p w s h h.
Proof. constructor; unfold_same; intuition. Qed.

Lemma kept_trans c l m p w s h1 h2 h3 :
  kept c l m p w s h1 h2 -> kept c l m p w s h2 h3 -> kept c l m p w s h1 h3.
Proof.
  intros [A1 A2 A3 A4 A5 A6 A7] [B1 B2 B3 B4 B5 B6 B7].
  constructor; intros; unfold_same;
    repeat match goal with
    | H : ?b = true -> _, E : ?b = true |- _ => specialize (H E)
    end; intuition congruence.
Qed.

Ltac kept_tac :=
  constructor; unfold_same; simpl; intros;
  repeat match goal with
  | H : set _ _ _ = Done _ |- _ => apply set_length in H
  end;
  try discriminate; intuition congruence.

Lemma reduce_kept u h h' :
  reduce u h = Done h' -> kept false true true true true true h h'.
Proof. unfold reduce. intros H. inv_run. kept_tac. Qed.

Lemma compute_initial_feasible_solution_kept h h' :
  compute_initial_feasible_solution h = Done h' ->
  kept true false true true true true h h' /\
  label_by_worker_ h' = label_by_worker_ h.
Proof.
  unfold compute_initial_feasible_solution. intros H. inv_run.
  apply for_range_set_length in E.
  assert (L : length x0 = length x).
  { revert E0. apply (for_range_rel (fun a r : list Q => length r = length a));
      try congruence.
    intros k s s'. apply (for_range_rel (fun a r : list Q => length r = length a));
      try congruence.
    intros j a a' H. inv_run; auto. eapply set_length; eauto. }
  split; [|reflexivity]. kept_tac.
Qed.

Lemma match_kept w j h h' :
  match_ w j h = Done h' -> kept true true false true true true h h'.
Proof. unfold match_. intros H. inv_run. kept_tac. Qed.

Lemma greedy_match_kept h h' :
  greedy_match h = Done h' -> kept true true false true true true h h'.
Proof.
  unfold greedy_match.
  apply for_range_rel; [apply kept_refl | apply kept_trans |].
  intros w s s'.
  apply for_range_rel; [apply kept_refl | apply kept_trans |].
  intros j t t' H. inv_run; try apply kept_refl.
  eapply match_kept; eauto.
Qed.

Lemma initialize_phase_kept w h h' :
  initialize_phase w h = Done h' -> kept true true true false false false h h'.
Proof.
  unfold initialize_phase. intros H. inv_run.
  apply for_range_set_length in E.
  eapply kept_trans with
    (h2 := with_committed_workers
             (with_parent_worker_by_committed_job
                (with_committed_workers h (repeat false (length (committed_workers_ h))))
                x) x0).
  - simpl in *. constructor; unfold_same; simpl; intros; try discriminate;
      apply set_length in E0; rewrite ?repeat_length in *; intuition congruence.
  - revert H. apply for_range_rel; [apply kept_refl | apply kept_trans |].
    intros j t t' H. inv_run. kept_tac.
Qed.

Lemma update_labeling_kept delta h h' :
  update_labeling delta h = Done h' -> kept true false true true true false h h' /\
  min_slack_worker_by_job_ h' = min_slack_worker_by_job_ h.
Proof.
  unfold update_labeling. intros H. inv_run.
  assert (K1 : kept true false true true true true h x /\
               min_slack_worker_by_job_ x = min_slack_worker_by_job_ h).
  { revert E.
    apply (for_range_rel (fun h x => kept true false true true true true h x /\
               min_slack_worker_by_job_ x = min_slack_worker_by_job_ h)).
    - intros; split; [apply kept_refl | reflexivity].
    - intros a b c [] []; split; [eapply kept_trans; eauto | congruence].
    - intros k s s' H1. inv_run; split; try apply kept_refl; try reflexivity.
      kept_tac. }
  assert (K2 : kept true false true true true false x h' /\
               min_slack_worker_by_job_ h' = min_slack_worker_by_job_ x).
  { revert H.
    apply (for_range_rel (fun h x => kept true false true true true false h x /\
               min_slack_worker_by_job_ x = min_slack_worker_by_job_ h)).
    - intros; split; [apply kept_refl | reflexivity].
    - intros a b c [] []; split; [eapply kept_trans; eauto | congruence].
    - intros k s s' H1. inv_run; split; try reflexivity; kept_tac. }
  destruct K1 as [K1 M1], K2 as [K2 M2]. split; [|congruence].
  eapply kept_trans; [|exact K2].
  destruct K1; constructor; auto; intros; discriminate.
Qed.

Lemma update_slack_kept worker h h' :
  update_slack worker h = Done h' -> kept true true true true true false h h'.
Proof.
  unfold update_slack.
  apply for_range_rel; [apply kept_refl | apply kept_trans |].
  intros j t t' H. inv_run; try apply kept_refl. kept_tac.
Qed.

Lemma commit_min_slack_job_kept h j h' :
  commit_min_slack_job h = Done (j, h') ->
  kept true false true false true false h h' /\
  min_slack_worker_by_job_ h' = min_slack_worker_by_job_ h.
Proof.
  unfold commit_min_slack_job. intros H. inv_run.
  - apply update_labeling_kept in E0 as [K M].
    split; [|simpl; congruence].
    eapply kept_trans with (h2 := x0).
    + destruct K; constructor; auto; intros; discriminate.
    + kept_tac.
  - split; [|reflexivity]. kept_tac.
Qed.

Lemma augment_step_kept j p h h' next :
  augment_step j p h = Done (h', next) -> kept true true false true true true h h'.
Proof.
  unfold augment_step. intros H. inv_run; eapply match_kept; eauto.
Qed.

Lemma augment_kept fuel : forall j p h h',
  augment fuel j p h = Done h' -> kept true true false true true true h h'.
Proof.
  induction fuel as [|fuel IH]; intros j p h h' H; cbn [augment] in H.
  - discriminate.
  - inv_bind H. destruct x as [h1 [[j' p']|]]; simpl in H.
    + eapply kept_trans; [eapply augment_step_kept; eauto | eauto].
    + inv_Done H. eapply augment_step_kept; eauto.
Qed.

(** * The matching vectors *)

Lemma match_get w j h h' :
  match_ w j h = Done h' ->
  (forall k, get (match_job_by_worker_ h') k =
             if k =? w then Done j else get (match_job_by_worker_ h) k) /\
  (forall k, get (match_worker_by_job_ h') k =
             if k =? j then Done w else get (match_worker_by_job_ h) k) /\
  w < N.of_nat (length (match_job_by_worker_ h)) /\
  j < N.of_nat (length (match_worker_by_job_ h)).
Proof.
  unfold match_. intros H. inv_run. simpl.
  repeat split.
  - intros k. eapply get_set; eauto.
  - intros k. eapply get_set; eauto.
  - apply set_Done in E. tauto.
  - apply set_Done in E0. tauto.
Qed.

Lemma filter_update_length {T : Type} (f : T -> bool) (a : list T) (i : nat)
  (old v : T) :
  nth_error a i = Some old ->
  (length (filter f (update a i v)) + (if f old then 1 else 0) =
   length (filter f a) + (if f v then 1 else 0))%nat.
Proof.
  revert i. induction a as [|x a IH]; intros [|i] H; simpl in *; try discriminate.
  - injection H as ->. destruct (f old), (f v); simpl; lia.
  - specialize (IH i H). destruct (f x); simpl; lia.
Qed.

Lemma match_size w j h h' old :
  match_ w j h = Done h' ->
  get (match_job_by_worker_ h) w = Done old ->
  (matching_size h' + (if assigned old then 1 else 0) =
   matching_size h + (if assigned j then 1 else 0))%nat.
Proof.
  unfold match_, matching_size. intros H G. inv_run. simpl.
  apply set_Done in E as [_ ->].
  apply filter_update_length.
  unfold get in G. destruct (nth_error _ _); congruence.
Qed.

Lemma assigned_true x : assigned x = true <-> x <> UNASSIGNED.
Proof. unfold assigned. rewrite negb_true_iff. apply N.eqb_neq. Qed.

Lemma assigned_lt x n : x < n -> uint32 n -> assigned x = true.
Proof. unfold uint32. intros. apply assigned_true. lia. Qed.

Lemma match_worker_matched w j h h' v :
  match_ w j h = Done h' ->
  uint32 (N.of_nat (length (match_worker_by_job_ h))) ->
  worker_matched h v -> worker_matched h' v.
Proof.
  intros H U (k & G & Hk). apply match_get in H as (Hj & _ & _ & Hlt).
  unfold worker_matched. rewrite Hj.
  destruct (v =? w); eauto.
  exists j. split; auto. unfold uint32 in U. lia.
Qed.

(** The walk along the augmenting path adds one pair and keeps every
    matched worker matched. *)
Lemma augment_size fuel : forall j p h h',
  augment fuel j p h = Done h' ->
  uint32 (N.of_nat (length (match_worker_by_job_ h))) ->
  matching_size h' = S (matching_size h) /\
  forall w, worker_matched h w -> worker_matched h' w.
Proof.
  induction fuel as [|fuel IH]; intros j p h h' H U; cbn [augment] in H.
  - discriminate.
  - apply bind_Done in H as ([h1 next] & E & H). unfold augment_step in E.
    apply bind_Done in E as (temp & G & E).
    apply bind_Done in E as (hm & M & E).
    pose proof (match_size _ _ _ _ _ M G) as Hs.
    pose proof (match_get _ _ _ _ M) as (_ & _ & _ & Hlt).
    rewrite (assigned_lt _ _ Hlt U) in Hs.
    destruct (N.eqb_spec temp UNASSIGNED) as [->|Hne].
    + (* the path ends at [p] *)
      inv_Done E. simpl in H. inv_Done H.
      change (assigned UNASSIGNED) with false in Hs. cbv iota in Hs.
      split; [lia|]. intros w. eapply match_worker_matched; eauto.
    + apply assigned_true in Hne. rewrite Hne in Hs.
      apply bind_Done in E as (p' & G' & E). inv_Done E. simpl in H.
      pose proof (match_kept _ _ _ _ M) as K. destruct K as [Sh _ _ _ _ _ _].
      assert (U1 : uint32 (N.of_nat (length (match_worker_by_job_ h1)))).
      { unfold same_shape in Sh. intuition congruence. }
      destruct (IH _ _ _ _ H U1) as [Hsz Hw]. cbv iota in Hs.
      split; [lia|]. intros w Hm. apply Hw. eapply match_worker_matched; eauto.
Qed.

Lemma execute_phase_step_matching fuel h b h' :
  execute_phase_step fuel h = Done (b, h') ->
  uint32 (N.of_nat (length (match_worker_by_job_ h))) ->
  if b then
    matching_size h' = S (matching_size h) /\
    forall w, worker_matched h w -> worker_matched h' w
  else same_matching h h'.
Proof.
  unfold execute_phase_step. intros H U. inv_bind H. destruct x as [j h2].
  apply commit_min_slack_job_kept in E as [K _].
  pose proof (kept_matching _ _ _ _ _ _ _ _ K eq_refl) as [M1 M2]. simpl in H.
  inv_run.
  - apply augment_size in E1.
    + unfold matching_size, worker_matched in *. rewrite M1 in E1. exact E1.
    + rewrite M2. exact U.
  - apply update_slack_kept in E1.
    pose proof (kept_matching _ _ _ _ _ _ _ _ E1 eq_refl) as [N1 N2]. simpl in N1, N2.
    split; congruence.
Qed.

Lemma execute_phase_loop_matching fuel wfuel : forall h h',
  execute_phase_loop fuel wfuel h = Done h' ->
  uint32 (N.of_nat (length (match_worker_by_job_ h))) ->
  matching_size h' = S (matching_size h) /\
  forall w, worker_matched h w -> worker_matched h' w.
Proof.
  induction fuel as [|fuel IH]; intros h h' H U; cbn [execute_phase_loop] in H.
  - discriminate.
  - inv_bind H. destruct x as [b h1]. simpl in H.
    pose proof (execute_phase_step_matching _ _ _ _ E U) as S1.
    destruct b.
    + inv_Done H. exact S1.
    + destruct S1 as [M1 M2].
      destruct (IH _ _ H) as [Hs Hw]; [rewrite M2; exact U|].
      unfold matching_size, worker_matched in *. rewrite M1 in *. auto.
Qed.

Lemma vectors_ok_kept c l m p w s h h' :
  kept c l m p w s h h' -> vectors_ok h -> vectors_ok h'.
Proof.
  intros [Sh _ _ _ _ _ _]. unfold same_shape, vectors_ok in *.
  intuition congruence.
Qed.

(** ** Mutual inverses *)

Lemma walk_inv_start h j :
  vectors_ok h -> mutual_inverse h ->
  get (match_worker_by_job_ h) j = Done UNASSIGNED ->
  walk_inv h j.
Proof.
  intros V MI G. unfold walk_inv. repeat split.
  - intros w k Gw Hk. apply MI. auto.
  - intros k w _ Gk Hw. apply MI. auto.
  - intros w Gw.
    assert (Hj : j <> UNASSIGNED).
    { apply get_lt in G. unfold vectors_ok, uint32 in V. lia. }
    destruct (proj1 (MI w j) (conj Gw Hj)) as [G' Hw]. congruence.
Qed.

Lemma walk_inv_done h j p h1 :
  vectors_ok h -> walk_inv h j ->
  augment_step j p h = Done (h1, None) ->
  mutual_inverse h1.
Proof.
  intros V (F & B & C) H. unfold augment_step in H.
  apply bind_Done in H as (temp & G & H).
  apply bind_Done in H as (hm & M & H).
  destruct (N.eqb_spec temp UNASSIGNED) as [->|Hne].
  2:{ apply bind_Done in H as (? & _ & H). discriminate. }
  inv_Done H.
  pose proof (match_get _ _ _ _ M) as (Gj & Gw & Hp & Hj).
  assert (Hj' : j <> UNASSIGNED) by (unfold vectors_ok, uint32 in V; lia).
  assert (Hp' : p <> UNASSIGNED) by (unfold vectors_ok, uint32 in V; lia).
  intros w k. rewrite Gj, Gw.
  destruct (N.eqb_spec w p) as [->|Hwp], (N.eqb_spec k j) as [->|Hkj].
  - tauto.
  - split.
    + intros [Hw Hk]. inv_Done Hw. congruence.
    + intros [Hk Hw]. exfalso.
      assert (Gk : get (match_job_by_worker_ h) p = Done k) by (apply B; auto).
      rewrite G in Gk. inv_Done Gk.
      apply get_lt in Hk. unfold vectors_ok, uint32 in V. lia.
  - split.
    + intros [Hw Hk]. exfalso. eapply C; eauto.
    + intros [Hk Hw]. inv_Done Hk. congruence.
  - split.
    + intros [Hw Hk]. split; [apply F; auto|].
      apply get_lt in Hw. unfold vectors_ok, uint32 in V. lia.
    + intros [Hk Hw]. split; [apply B; auto|].
      apply get_lt in Hk. unfold vectors_ok, uint32 in V. lia.
Qed.

Lemma walk_inv_step h j p h1 j' p' :
  vectors_ok h -> walk_inv h j ->
  augment_step j p h = Done (h1, Some (j', p')) ->
  walk_inv h1 j' /\
  get (match_job_by_worker_ h) p = Done j' /\ j' <> UNASSIGNED /\
  get (parent_worker_by_committed_job_ h) j' = Done p'.
Proof.
  intros V (F & B & C) H. unfold augment_step in H.
  apply bind_Done in H as (temp & G & H).
  apply bind_Done in H as (hm & M & H).
  destruct (N.eqb_spec temp UNASSIGNED) as [->|Hne]; [discriminate|].
  apply bind_Done in H as (q & Gq & H). inv_Done H.
  pose proof (match_get _ _ _ _ M) as (Gj & Gw & Hp & Hj).
  pose proof (kept_parents _ _ _ _ _ _ _ _ (match_kept _ _ _ _ M) eq_refl) as Pa.
  unfold same_parents in Pa. rewrite Pa in Gq.
  assert (Hj' : j <> UNASSIGNED) by (unfold vectors_ok, uint32 in V; lia).
  assert (Hjt : j <> j') by (intros ->; eapply C; eauto).
  split; [|auto]. unfold walk_inv. repeat split.
  - intros w k. rewrite Gj, Gw.
    destruct (N.eqb_spec w p) as [->|Hwp], (N.eqb_spec k j) as [->|Hkj];
      intros Hw Hk; auto.
    + inv_Done Hw. congruence.
    + exfalso. eapply C; eauto.
  - intros k w Hk. rewrite Gj, Gw.
    destruct (N.eqb_spec w p) as [->|Hwp], (N.eqb_spec k j) as [->|Hkj];
      intros Gk Hw; auto.
    + exfalso.
      assert (Gk' : get (match_job_by_worker_ h) p = Done k) by (apply B; auto).
      rewrite G in Gk'. inv_Done Gk'. congruence.
    + inv_Done Gk. congruence.
  - intros w. rewrite Gj. destruct (N.eqb_spec w p) as [->|Hwp].
    + intros E. inv_Done E. congruence.
    + intros Gw'. apply F in Gw'; auto.
      apply F in G; auto. rewrite G in Gw'. inv_Done Gw'. congruence.
Qed.

(** [match(w, j)] on an unmatched worker and an unmatched job. *)
Lemma match_unmatched w j h h' :
  vectors_ok h -> mutual_inverse h ->
  get (match_job_by_worker_ h) w = Done UNASSIGNED ->
  get (match_worker_by_job_ h) j = Done UNASSIGNED ->
  match_ w j h = Done h' ->
  mutual_inverse h'.
Proof.
  intros V MI Gw Gj M.
  apply walk_inv_done with (h := h) (j := j) (p := w); auto.
  - apply walk_inv_start; auto.
  - unfold augment_step. rewrite Gw. simpl. rewrite M. reflexivity.
Qed.

Lemma mutual_inverse_same h h' :
  same_matching h h' -> mutual_inverse h -> mutual_inverse h'.
Proof. intros [E1 E2]. unfold mutual_inverse. rewrite E1, E2. auto. Qed.

Lemma greedy_match_inverse h h' :
  vectors_ok h -> mutual_inverse h ->
  greedy_match h = Done h' ->
  vectors_ok h' /\ mutual_inverse h'.
Proof.
  intros V MI H.
  cut (vectors_ok h /\ mutual_inverse h -> vectors_ok h' /\ mutual_inverse h');
    [tauto|].
  revert H. unfold greedy_match.
  apply (for_range_rel (fun a b => vectors_ok a /\ mutual_inverse a ->
                                   vectors_ok b /\ mutual_inverse b));
    auto.
  intros w s s'.
  apply (for_range_rel (fun a b => vectors_ok a /\ mutual_inverse a ->
                                   vectors_ok b /\ mutual_inverse b));
    auto.
  intros j t t' H [Vt MIt]. inv_run; auto.
  apply N.eqb_eq in Heqb, Heqb0. subst.
  split.
  - eapply vectors_ok_kept; [eapply match_kept|]; eauto.
  - eapply match_unmatched; eauto.
Qed.

(** * Filling loops and the constructor *)

Lemma fill_loop {T : Type} (f : N -> T) (n : N) (a r : list T) :
  for_range 0 n (fun j a => set a j (f j)) a = Done r ->
  length r = length a /\
  (forall k, k < n -> get r k = Done (f k)) /\
  (forall k, n <= k -> get r k = get a k).
Proof.
  intros H.
  apply (@for_range_inv _ _ (fun i r =>
           length r = length a /\
           (forall k, k < i -> get r k = Done (f k)) /\
           (forall k, i <= k -> get r k = get a k))) in H; auto; try lia.
  - repeat split; auto. intros k Hk. lia.
  - intros i s s' Hi (L & Lo & Hi') Hs. repeat split.
    + apply set_length in Hs. congruence.
    + intros k Hk. rewrite (get_set _ _ _ _ _ Hs).
      destruct (N.eqb_spec k i) as [->|Hne]; auto. apply Lo. lia.
    + intros k Hk. rewrite (get_set _ _ _ _ _ Hs).
      destruct (N.eqb_spec k i) as [->|Hne]; try lia. apply Hi'. lia.
Qed.

Lemma fill_loop_total {T : Type} (f : N -> T) (n : N) (a : list T) :
  n <= N.of_nat (length a) ->
  exists r, for_range 0 n (fun j a => set a j (f j)) a = Done r.
Proof.
  intros Hn.
  destruct (@for_range_total _ (fun j a => set a j (f j))
              (fun _ r => length r = length a) 0 n a) as (r & Hr & _);
    eauto; try lia.
  intros k s Hk L. rewrite set_total by lia.
  eexists; split; eauto. rewrite length_update. exact L.
Qed.

Lemma Hungarian_ctor_shape u m h :
  Hungarian_ctor u m = Done h ->
  rows_ h = extent0 m /\ cols_ h = extent1 m /\
  dim_ h = N.max (extent0 m) (extent1 m) /\
  length (label_by_worker_ h) = N.to_nat (dim_ h) /\
  length (label_by_job_ h) = N.to_nat (dim_ h) /\
  length (min_slack_by_job_ h) = N.to_nat (dim_ h) /\
  length (min_slack_worker_by_job_ h) = N.to_nat (dim_ h) /\
  length (match_job_by_worker_ h) = N.to_nat (dim_ h) /\
  length (match_worker_by_job_ h) = N.to_nat (dim_ h) /\
  length (parent_worker_by_committed_job_ h) = N.to_nat (dim_ h) /\
  length (committed_workers_ h) = N.to_nat (dim_ h) /\
  (forall w, w < dim_ h -> get (match_job_by_worker_ h) w = Done UNASSIGNED) /\
  (forall j, j < dim_ h -> get (match_worker_by_job_ h) j = Done UNASSIGNED) /\
  (forall w, w < dim_ h ->
             get (label_by_worker_ h) w = Done (ind_double u 0 w)).
Proof.
  unfold Hungarian_ctor. intros H.
  apply bind_Done in H as (cm & _ & H).
  apply bind_Done in H as (mj & Hmj & H).
  apply bind_Done in H as (mw & Hmw & H).
  inv_Done H. simpl.
  apply fill_loop in Hmj as (L1 & G1 & _).
  apply fill_loop in Hmw as (L2 & G2 & _).
  rewrite length_new_array in L1, G1, L2, G2.
  repeat split; auto using length_new_array.
  - intros w Hw. apply G1. lia.
  - intros w Hw. apply G2. lia.
  - intros w Hw. apply get_new_array. exact Hw.
Qed.

Lemma Hungarian_ctor_inverse u m h :
  well_formed m ->
  Hungarian_ctor u m = Done h ->
  vectors_ok h /\ mutual_inverse h.
Proof.
  intros (U0 & U1 & _) H.
  apply Hungarian_ctor_shape in H
    as (R & C & D & ? & ? & ? & ? & Lj & Lw & ? & ? & Gj & Gw & _).
  assert (V : vectors_ok h).
  { unfold vectors_ok. repeat split; auto. rewrite D. unfold uint32 in *. lia. }
  split; auto.
  intros w j. split; intros [G Hne]; exfalso.
  - pose proof (get_lt _ _ _ G) as Hlt. rewrite Gj in G by lia. congruence.
  - pose proof (get_lt _ _ _ G) as Hlt. rewrite Gw in G by lia. congruence.
Qed.

(** * The matching at the points of a run *)

Lemma reaches_matching u m st h :
  well_formed m ->
  reaches u m st h ->
  vectors_ok h /\ matching_state st h.
Proof.
  intros WF R. induction R; simpl.
  - eapply Hungarian_ctor_inverse; eauto.
  - destruct IHR as [V MI]. apply reduce_kept in H. split.
    + eapply vectors_ok_kept; eauto.
    + eapply mutual_inverse_same; eauto. apply (kept_matching _ _ _ _ _ _ _ _ H eq_refl).
  - destruct IHR as [V MI].
    apply compute_initial_feasible_solution_kept in H as [H _]. split.
    + eapply vectors_ok_kept; eauto.
    + eapply mutual_inverse_same; eauto. apply (kept_matching _ _ _ _ _ _ _ _ H eq_refl).
  - destruct IHR as [V MI]. eapply greedy_match_inverse; eauto.
  - destruct IHR as [V MI]. apply initialize_phase_kept in H1. split.
    + eapply vectors_ok_kept; eauto.
    + eapply mutual_inverse_same; eauto. apply (kept_matching _ _ _ _ _ _ _ _ H1 eq_refl).
  - destruct IHR as [V MI].
    apply commit_min_slack_job_kept in H as [K _].
    apply update_slack_kept in H3.
    assert (V2 : vectors_ok h2) by (eapply vectors_ok_kept; eauto).
    split.
    + eapply vectors_ok_kept; [exact H3|].
      apply set_length in H2. unfold vectors_ok in *. simpl. intuition congruence.
    + eapply mutual_inverse_same; [apply (kept_matching _ _ _ _ _ _ _ _ H3 eq_refl)|].
      eapply mutual_inverse_same; [|exact MI].
      simpl. apply (kept_matching _ _ _ _ _ _ _ _ K eq_refl).
  - destruct IHR as [V MI].
    apply commit_min_slack_job_kept in H as [K _].
    assert (V2 : vectors_ok h2) by (eapply vectors_ok_kept; eauto).
    split; auto.
    apply walk_inv_start; auto.
    eapply mutual_inverse_same; [apply (kept_matching _ _ _ _ _ _ _ _ K eq_refl)|exact MI].
  - destruct IHR as [V W]. simpl in W. split.
    + eapply vectors_ok_kept; [eapply augment_step_kept|]; eauto.
    + eapply walk_inv_step; eauto.
  - destruct IHR as [V W]. simpl in W. split.
    + eapply vectors_ok_kept; [eapply augment_step_kept|]; eauto.
    + eapply walk_inv_done; eauto.
Qed.

(** * A run of [execute] passes through the points of [reaches] *)

Section Run.
Variable u : Indeterminate.
Variable m : MultiArray2.

Lemma augment_reaches fuel : forall j p h h',
  reaches u m (Flipping j p) h ->
  augment fuel j p h = Done h' ->
  reaches u m BetweenPhases h'.
Proof.
  induction fuel as [|fuel IH]; intros j p h h' R H; cbn [augment] in H.
  - discriminate.
  - apply bind_Done in H as ([h1 [[j' p']|]] & E & H); simpl in H.
    + eapply IH; [|exact H]. eapply reaches_flip; eauto.
    + inv_Done H. eapply reaches_grown; eauto.
Qed.

Lemma execute_phase_loop_reaches fuel wfuel : forall h h',
  reaches u m InPhase h ->
  execute_phase_loop fuel wfuel h = Done h' ->
  reaches u m BetweenPhases h'.
Proof.
  induction fuel as [|fuel IH]; intros h h' R H;
    cbn [execute_phase_loop] in H.
  - discriminate.
  - apply bind_Done in H as ([b h1] & E & H). simpl in H.
    unfold execute_phase_step in E.
    apply bind_Done in E as ([j h2] & C & E). simpl in E.
    apply bind_Done in E as (w & G & E).
    destruct (N.eqb_spec w UNASSIGNED) as [->|Hne].
    + apply bind_Done in E as (p & Gp & E).
      apply bind_Done in E as (h3 & A & E). inv_Done E.
      simpl in H. inv_Done H.
      eapply augment_reaches; [|exact A].
      eapply reaches_path; eauto.
    + apply bind_Done in E as (cw & Sc & E).
      apply bind_Done in E as (h4 & Us & E). inv_Done E.
      simpl in H.
      eapply IH; [|exact H]. eapply reaches_commit; eauto.
Qed.

Lemma phases_reaches fuel : forall w h h',
  reaches u m BetweenPhases h ->
  fetch_unmatched_worker h = Done w ->
  phases fuel w h = Done h' ->
  reaches u m BetweenPhases h' /\
  exists w', fetch_unmatched_worker h' = Done w' /\ dim_ h' <= w'.
Proof.
  induction fuel as [|fuel IH]; intros w h h' R F H; cbn [phases] in H.
  - discriminate.
  - destruct (N.ltb_spec w (dim_ h)) as [Hlt|Hge].
    + apply bind_Done in H as (h1 & I & H).
      apply bind_Done in H as (h2 & P & H).
      apply bind_Done in H as (w' & F' & H).
      eapply IH; [|exact F'|exact H].
      eapply execute_phase_loop_reaches; [|exact P].
      eapply reaches_init; eauto.
    + inv_Done H. split; auto. exists w. auto.
Qed.

Lemma execute_reaches h r :
  reaches u m Constructed h ->
  execute u h = Done r ->
  exists h' w,
    reaches u m BetweenPhases h' /\
    fetch_unmatched_worker h' = Done w /\ dim_ h' <= w /\
    project_result h' = Done r.
Proof.
  intros R H. unfold execute in H.
  apply bind_Done in H as (h1 & H1 & H).
  apply bind_Done in H as (h2 & H2 & H).
  apply bind_Done in H as (h3 & H3 & H).
  apply bind_Done in H as (w & F & H).
  apply bind_Done in H as (h4 & P & H).
  destruct (phases_reaches _ _ _ _
              (reaches_greedy _ _ _ _
                 (reaches_labels _ _ _ _
                    (reaches_reduce _ _ _ _ R H1) H2) H3) F P)
    as (R4 & w' & F' & Hw').
  exists h4, w'. auto.
Qed.
End Run.

(** ** The result of [fetch_unmatched_worker] *)

Lemma fetch_from_spec h : forall n w r,
  fetch_from n w h = Done r ->
  w <= r <= w + N.of_nat n /\
  (forall k, w <= k < r -> worker_matched h k) /\
  (r < w + N.of_nat n -> get (match_job_by_worker_ h) r = Done UNASSIGNED).
Proof.
  induction n as [|n IH]; intros w r H; cbn [fetch_from] in H.
  - inv_Done H. repeat split; intros; lia.
  - apply bind_Done in H as (mj & G & H).
    destruct (N.eqb_spec mj UNASSIGNED) as [->|Hne].
    + inv_Done H. repeat split; intros; auto; lia.
    + apply IH in H as (B & M & Un). repeat split; try lia.
      * intros k Hk. destruct (N.eq_dec k w) as [->|Hkw].
        -- exists mj. auto.
        -- apply M. lia.
      * intros Hr. apply Un. lia.
Qed.

Lemma fetch_unmatched_worker_spec h w :
  fetch_unmatched_worker h = Done w ->
  w <= dim_ h /\
  (forall k, k < w -> worker_matched h k) /\
  (w < dim_ h -> get (match_job_by_worker_ h) w = Done UNASSIGNED).
Proof.
  unfold fetch_unmatched_worker. intros H.
  apply fetch_from_spec in H as (B & M & Un).
  repeat split; try lia.
  - intros k Hk. apply M. lia.
  - intros Hw. apply Un. lia.
Qed.

(** ** The end of [execute] *)

Lemma get_firstn {T : Type} (a : list T) (n : nat) (k : N) :
  (N.to_nat k < n)%nat -> get (firstn n a) k = get a k.
Proof.
  intros H. unfold get. rewrite nth_error_firstn.
  destruct (Nat.ltb_spec (N.to_nat k) n); try lia. reflexivity.
Qed.

Lemma project_result_spec h r :
  project_result h = Done r ->
  r = map (project (cols_ h))
        (firstn (N.to_nat (rows_ h)) (match_job_by_worker_ h)).
Proof.
  unfold project_result. intros H.
  set (a := firstn (N.to_nat (rows_ h)) (match_job_by_worker_ h)) in *.
  apply (for_range_inv _ (fun i r =>
           length r = length a /\
           forall k, nth_error r k =
                     if (N.of_nat k <? i)
                     then option_map (project (cols_ h)) (nth_error a k)
                     else nth_error a k)) in H; try lia.
  - destruct H as [L H].
    apply nth_error_ext. intros k. rewrite H, nth_error_map.
    destruct (N.ltb_spec (N.of_nat k) (rows_ h)) as [Hk|Hk]; auto.
    rewrite (proj2 (nth_error_None a k)); [reflexivity|].
    unfold a. rewrite length_firstn. lia.
  - split; auto. intros k.
    destruct (N.ltb_spec (N.of_nat k) 0); [lia|reflexivity].
  - intros i s s' Hi [L Hs] Hb.
    apply bind_Done in Hb as (v & G & Hb).
    assert (Gv : nth_error a (N.to_nat i) = Some v).
    { unfold get in G. rewrite Hs in G.
      destruct (N.ltb_spec (N.of_nat (N.to_nat i)) i); try lia.
      destruct (nth_error a (N.to_nat i)); congruence. }
    destruct (N.leb_spec (cols_ h) v) as [Hc|Hc].
    + apply set_Done in Hb as [Hlt ->]. split.
      * rewrite length_update. exact L.
      * intros k. destruct (Nat.eq_dec (N.to_nat i) k) as [<-|Hne].
        -- rewrite nth_error_update_eq by lia.
           destruct (N.ltb_spec (N.of_nat (N.to_nat i)) (N.succ i)); try lia.
           rewrite Gv. simpl. unfold project.
           destruct (N.leb_spec (cols_ h) v); try lia. reflexivity.
        -- rewrite nth_error_update_neq by auto. rewrite Hs.
           destruct (N.ltb_spec (N.of_nat k) i), (N.ltb_spec (N.of_nat k) (N.succ i));
             try lia; reflexivity.
    + inv_Done Hb. split; auto.
      intros k. rewrite Hs.
      destruct (N.ltb_spec (N.of_nat k) i), (N.ltb_spec (N.of_nat k) (N.succ i));
        try lia; try reflexivity.
      assert (k = N.to_nat i) by lia. subst k. rewrite Gv. simpl.
      unfold project. destruct (N.leb_spec (cols_ h) v); try lia. reflexivity.
Qed.

(** * The shape of the result *)

Lemma reaches_dims u m st h :
  reaches u m st h ->
  rows_ h = extent0 m /\ cols_ h = extent1 m /\
  dim_ h = N.max (extent0 m) (extent1 m).
Proof.
  assert (K : forall c l mt p w s a b, kept c l mt p w s a b ->
              rows_ b = rows_ a /\ cols_ b = cols_ a /\ dim_ b = dim_ a).
  { intros c l mt p w s a b [Sh _ _ _ _ _ _]. unfold same_shape in Sh. tauto. }
  intros R. induction R.
  - apply Hungarian_ctor_shape in H. tauto.
  - apply reduce_kept, K in H. intuition congruence.
  - apply compute_initial_feasible_solution_kept in H as [H _].
    apply K in H. intuition congruence.
  - apply greedy_match_kept, K in H. intuition congruence.
  - apply initialize_phase_kept, K in H1. intuition congruence.
  - apply commit_min_slack_job_kept in H as [H _].
    apply K in H. apply update_slack_kept, K in H3. simpl in H3.
    intuition congruence.
  - apply commit_min_slack_job_kept in H as [H _].
    apply K in H. intuition congruence.
  - apply augment_step_kept, K in H. intuition congruence.
  - apply augment_step_kept, K in H. intuition congruence.
Qed.

Lemma Permutation_filter_length {T : Type} (f : T -> bool) (l l' : list T) :
  Permutation l l' -> length (filter f l) = length (filter f l').
Proof.
  induction 1; simpl; auto.
  - destruct (f x); simpl; auto.
  - destruct (f x), (f y); simpl; auto.
  - congruence.
Qed.

Lemma In_iota n x : In x (iota n) <-> x < n.
Proof.
  unfold iota. rewrite in_map_iff. split.
  - intros (k & <- & Hk). apply in_seq in Hk. lia.
  - intros H. exists (N.to_nat x). split; [lia|]. apply in_seq. lia.
Qed.

Lemma NoDup_iota n : NoDup (iota n).
Proof.
  unfold iota. apply Injective_map_NoDup.
  - intros a b. lia.
  - apply seq_NoDup.
Qed.

Lemma length_iota n : length (iota n) = N.to_nat n.
Proof. unfold iota. rewrite length_map, length_seq. reflexivity. Qed.

Lemma filter_iota_ge (c : N) (n : nat) :
  length (filter (fun x => c <=? x) (map N.of_nat (seq 0 n))) =
  (n - N.to_nat c)%nat.
Proof.
  induction n as [|n IH]; auto.
  rewrite seq_S, map_app, filter_app, length_app, IH.
  cbn [Nat.add map filter].
  destruct (N.leb_spec c (N.of_nat n)); cbn [length]; lia.
Qed.

(** A duplicate-free vector of [n] indices below [n] is a permutation of
    [0, ..., n - 1]. *)
Lemma full_vector_Permutation (l : list N) (n : N) :
  NoDup l -> length l = N.to_nat n -> (forall x, In x l -> x < n) ->
  Permutation l (iota n).
Proof.
  intros ND L B. apply NoDup_Permutation_bis; auto.
  - rewrite length_iota. lia.
  - intros x Hx. apply In_iota. auto.
Qed.

(** When every worker has a job, [match_job_by_worker_] has no duplicates and
    only holds job indices. *)
Lemma complete_matching h :
  vectors_ok h -> mutual_inverse h ->
  (forall w, w < dim_ h -> worker_matched h w) ->
  NoDup (match_job_by_worker_ h) /\
  forall x, In x (match_job_by_worker_ h) -> x < dim_ h.
Proof.
  intros V MI All.
  assert (Lj : length (match_job_by_worker_ h) = N.to_nat (dim_ h))
    by (unfold vectors_ok in V; tauto).
  assert (Lw : length (match_worker_by_job_ h) = N.to_nat (dim_ h))
    by (unfold vectors_ok in V; tauto).
  assert (Back : forall i x, nth_error (match_job_by_worker_ h) i = Some x ->
                 get (match_worker_by_job_ h) x = Done (N.of_nat i)).
  { intros i x Hi.
    assert (Hlt : (i < length (match_job_by_worker_ h))%nat)
      by (apply nth_error_Some; congruence).
    destruct (All (N.of_nat i)) as (j & G & Hj); [lia|].
    unfold get in G. rewrite Nat2N.id, Hi in G. inv_Done G.
    apply MI. split; auto. unfold get. rewrite Nat2N.id, Hi. reflexivity. }
  split.
  - apply NoDup_nth_error. intros i k Hi E.
    destruct (nth_error (match_job_by_worker_ h) i) as [x|] eqn:Ei.
    + symmetry in E. apply Back in Ei. apply Back in E.
      rewrite Ei in E. inv_Done E. lia.
    + apply nth_error_None in Ei. lia.
  - intros x Hx. apply In_nth_error in Hx as (i & Hi).
    apply Back in Hi. apply get_lt in Hi. lia.
Qed.

Lemma NoDup_firstn {T : Type} (n : nat) (l : list T) :
  NoDup l -> NoDup (firstn n l).
Proof.
  intros H. rewrite <- (firstn_skipn n l) in H.
  apply NoDup_app_remove_r in H. exact H.
Qed.

Lemma In_firstn {T : Type} (n : nat) (l : list T) (x : T) :
  In x (firstn n l) -> In x l.
Proof.
  intros H. rewrite <- (firstn_skipn n l). apply in_or_app. auto.
Qed.

Lemma project_unassigned cols l :
  Forall (fun x => x <> UNASSIGNED) l ->
  unassigned_count (map (project cols) l) =
  length (filter (fun x => cols <=? x) l).
Proof.
  unfold unassigned_count. induction 1 as [|x l Hx Hl IH]; auto.
  cbn [map filter]. unfold project at 1.
  destruct (N.leb_spec cols x).
  - rewrite N.eqb_refl. cbn [length]. congruence.
  - destruct (N.eqb_spec x UNASSIGNED); [contradiction|exact IH].
Qed.

Lemma project_assigned cols l :
  Forall (fun x => x <> UNASSIGNED) l ->
  filter assigned (map (project cols) l) =
  filter (fun x => negb (cols <=? x)) l.
Proof.
  induction 1 as [|x l Hx Hl IH]; auto.
  cbn [map filter]. rewrite IH. unfold project.
  destruct (N.leb_spec cols x); cbn [negb].
  - reflexivity.
  - apply assigned_true in Hx. rewrite Hx. reflexivity.
Qed.

Lemma project_id cols l :
  Forall (fun x => x < cols) l -> map (project cols) l = l.
Proof.
  induction 1 as [|x l Hx Hl IH]; auto.
  cbn [map]. rewrite IH. unfold project.
  destruct (N.leb_spec cols x); auto. lia.
Qed.

Lemma In_project cols l j :
  In j (map (project cols) l) -> j = UNASSIGNED \/ j < cols.
Proof.
  rewrite in_map_iff. intros (x & <- & _). unfold project.
  destruct (N.leb_spec cols x); auto.
Qed.

(** The result of [execute] from a state in which every worker of the
    square problem has a job. *)
Lemma project_result_shape h r :
  vectors_ok h -> mutual_inverse h ->
  (forall w, w < dim_ h -> worker_matched h w) ->
  dim_ h = N.max (rows_ h) (cols_ h) ->
  project_result h = Done r ->
  length r = N.to_nat (rows_ h) /\
  (forall j, In j r -> j = UNASSIGNED \/ j < cols_ h) /\
  NoDup (filter assigned r) /\
  (cols_ h < rows_ h ->
   unassigned_count r = (N.to_nat (rows_ h) - N.to_nat (cols_ h))%nat) /\
  (rows_ h < cols_ h -> ~ In UNASSIGNED r) /\
  (rows_ h = cols_ h -> Permutation r (iota (rows_ h))).
Proof.
  intros V MI All D H. apply project_result_spec in H. subst r.
  destruct (complete_matching h V MI All) as [ND B].
  assert (Lj : length (match_job_by_worker_ h) = N.to_nat (dim_ h))
    by (unfold vectors_ok in V; tauto).
  assert (U : uint32 (dim_ h)) by (unfold vectors_ok in V; tauto).
  set (l := match_job_by_worker_ h) in *.
  set (l' := firstn (N.to_nat (rows_ h)) l).
  assert (B' : forall x, In x l' -> x < dim_ h)
    by (intros x Hx; apply B; eapply In_firstn; eauto).
  assert (NU : Forall (fun x => x <> UNASSIGNED) l').
  { apply Forall_forall. intros x Hx. apply B' in Hx. unfold uint32 in U. lia. }
  repeat split.
  - rewrite length_map. unfold l'. rewrite length_firstn. lia.
  - apply In_project.
  - rewrite project_assigned by exact NU.
    apply NoDup_filter. apply NoDup_firstn. exact ND.
  - intros Hrc. rewrite project_unassigned by exact NU.
    assert (E : l' = l).
    { unfold l'. apply firstn_all2. lia. }
    rewrite E.
    rewrite (Permutation_filter_length _ l (iota (dim_ h))).
    + unfold iota. rewrite filter_iota_ge. lia.
    + apply full_vector_Permutation; auto.
  - intros Hrc Hin. apply in_map_iff in Hin as (x & Hp & Hx).
    apply B' in Hx. unfold project in Hp.
    destruct (N.leb_spec (cols_ h) x); try lia. unfold uint32 in U. lia.
  - intros Hrc.
    assert (E : l' = l).
    { unfold l'. apply firstn_all2. lia. }
    rewrite E, project_id.
    + replace (rows_ h) with (dim_ h) by lia.
      apply full_vector_Permutation; auto.
    + apply Forall_forall. intros x Hx. apply B in Hx. lia.
Qed.

(** * Total views of the arrays *)

Lemma get_nth {T : Type} (d : T) (a : list T) (i : N) :
  i < N.of_nat (length a) -> get a i = Done (nth (N.to_nat i) a d).
Proof.
  intros H. unfold get.
  rewrite (nth_error_nth' a d) by lia. reflexivity.
Qed.

Lemma get_Done_nth {T : Type} (d : T) (a : list T) (i : N) (v : T) :
  get a i = Done v -> nth (N.to_nat i) a d = v.
Proof.
  intros H. pose proof (get_lt _ _ _ H) as Hlt.
  rewrite (get_nth d) in H by exact Hlt. congruence.
Qed.

Lemma nth_update {T : Type} (d : T) (a : list T) (i k : nat) (v : T) :
  (i < length a)%nat ->
  nth k (update a i v) d = if Nat.eqb k i then v else nth k a d.
Proof.
  intros H. destruct (Nat.eqb_spec k i) as [->|Hne].
  - apply nth_error_nth. apply nth_error_update_eq. exact H.
  - destruct (Nat.lt_ge_cases k (length a)) as [Hk|Hk].
    + apply nth_error_nth. rewrite nth_error_update_neq by auto.
      apply nth_error_nth'. exact Hk.
    + rewrite !nth_overflow; auto. rewrite length_update. exact Hk.
Qed.

Lemma get_qsel a i : i < N.of_nat (length a) -> get a i = Done (qsel a i).
Proof. apply get_nth. Qed.

Lemma get_nsel a i : i < N.of_nat (length a) -> get a i = Done (nsel a i).
Proof. apply get_nth. Qed.

Lemma get_bsel a i : i < N.of_nat (length a) -> get a i = Done (bsel a i).
Proof. apply get_nth. Qed.

Lemma qsel_update a i k v :
  i < N.of_nat (length a) ->
  qsel (update a (N.to_nat i) v) k = if k =? i then v else qsel a k.
Proof.
  intros H. unfold qsel. rewrite nth_update by lia.
  destruct (Nat.eqb_spec (N.to_nat k) (N.to_nat i)), (N.eqb_spec k i);
    auto; lia.
Qed.

Lemma nsel_update a i k v :
  i < N.of_nat (length a) ->
  nsel (update a (N.to_nat i) v) k = if k =? i then v else nsel a k.
Proof.
  intros H. unfold nsel. rewrite nth_update by lia.
  destruct (Nat.eqb_spec (N.to_nat k) (N.to_nat i)), (N.eqb_spec k i);
    auto; lia.
Qed.

Lemma bsel_update a i k v :
  i < N.of_nat (length a) ->
  bsel (update a (N.to_nat i) v) k = if k =? i then v else bsel a k.
Proof.
  intros H. unfold bsel. rewrite nth_update by lia.
  destruct (Nat.eqb_spec (N.to_nat k) (N.to_nat i)), (N.eqb_spec k i);
    auto; lia.
Qed.

(** * The working matrix *)

Lemma wrap32_small x : x < 4294967296 -> wrap32 x = x.
Proof. intros H. unfold wrap32. apply N.mod_small. exact H. Qed.

Lemma flat_index_small m rows cols w j :
  extent1 m = cols -> w < rows -> j < cols -> rows * cols <= 4294967296 ->
  flat_index m w j = w * cols + j /\ w * cols + j < rows * cols.
Proof.
  intros E Hw Hj Hs. unfold flat_index. rewrite E.
  assert (B : w * cols + j < rows * cols) by nia.
  rewrite (wrap32_small (w * cols)) by nia.
  rewrite wrap32_small by lia. auto.
Qed.

Lemma get2_entry dim m w j :
  matrix_ok dim m -> w < dim -> j < dim ->
  get2 m w j = Done (entry m w j).
Proof.
  intros (E0 & E1 & L & NW) Hw Hj. unfold get2, entry.
  destruct (flat_index_small m dim dim w j E1 Hw Hj NW) as [-> B].
  rewrite E1. apply get_qsel. lia.
Qed.

Lemma set2_entry dim m w j v :
  matrix_ok dim m -> w < dim -> j < dim ->
  exists m',
    set2 m w j v = Done m' /\ matrix_ok dim m' /\
    forall w' j', w' < dim -> j' < dim ->
      entry m' w' j' = if (w' =? w) && (j' =? j) then v else entry m w' j'.
Proof.
  intros (E0 & E1 & L & NW) Hw Hj. unfold set2.
  destruct (flat_index_small m dim dim w j E1 Hw Hj NW) as [-> B].
  rewrite set_total by lia. simpl.
  eexists. split; [reflexivity|]. split.
  - unfold matrix_ok. simpl. rewrite length_update. auto.
  - intros w' j' Hw' Hj'. unfold entry. simpl. rewrite E1.
    rewrite qsel_update by lia.
    destruct (N.eqb_spec (w' * dim + j') (w * dim + j)) as [E|E],
             (N.eqb_spec w' w) as [Ew|Ew], (N.eqb_spec j' j) as [Ej|Ej];
      simpl; auto; try nia.
Qed.

(** A loop that rewrites the cells [lo .. hi - 1] of row [w]. *)
Lemma row_loop dim w lo hi (F : N -> Q -> Q)
  (body : N -> MultiArray2 -> outcome MultiArray2) m :
  matrix_ok dim m -> w < dim -> lo <= hi -> hi <= dim ->
  (forall j cm, matrix_ok dim cm -> lo <= j < hi ->
                body j cm = set2 cm w j (F j (entry cm w j))) ->
  exists m',
    for_range lo hi body m = Done m' /\ matrix_ok dim m' /\
    forall w' j', w' < dim -> j' < dim ->
      entry m' w' j' =
      if (w' =? w) && (lo <=? j') && (j' <? hi)
      then F j' (entry m w' j') else entry m w' j'.
Proof.
  intros MO Hw Hlo Hhi Hbody.
  destruct (for_range_total body (fun i cm =>
              matrix_ok dim cm /\
              forall w' j', w' < dim -> j' < dim ->
                entry cm w' j' =
                if (w' =? w) && (lo <=? j') && (j' <? i)
                then F j' (entry m w' j') else entry m w' j') lo hi m)
    as (m' & Hrun & MO' & He); auto.
  - split; auto. intros w' j' Hw' Hj'.
    destruct (N.leb_spec lo j'), (N.ltb_spec j' lo); try lia;
      rewrite ?andb_false_r; reflexivity.
  - intros k cm Hk [MOk Hek]. rewrite Hbody by auto.
    destruct (set2_entry dim cm w k (F k (entry cm w k)) MOk Hw)
      as (cm' & Hs & MO' & He'); [lia|].
    exists cm'. split; auto. split; auto.
    intros w' j' Hw' Hj'. rewrite He' by auto. rewrite !Hek by lia.
    destruct (N.eqb_spec w' w) as [->|Ew], (N.eqb_spec j' k) as [->|Ej]; simpl.
    + rewrite N.eqb_refl.
      destruct (N.leb_spec lo k), (N.ltb_spec k k), (N.ltb_spec k (N.succ k));
        try lia; simpl; reflexivity.
    + destruct (N.leb_spec lo j'), (N.ltb_spec j' k), (N.ltb_spec j' (N.succ k));
        try lia; simpl; reflexivity.
    + reflexivity.
    + reflexivity.
  - exists m'. auto.
Qed.

(** * The constructor builds the padded matrix *)

Lemma entry_new_array2 dim w j :
  w < dim -> j < dim -> entry (new_array2 dim dim) w j = 0%Q.
Proof.
  intros Hw Hj. unfold entry, new_array2, qsel. simpl.
  apply nth_repeat_lt. nia.
Qed.

Lemma matrix_ok_new_array2 dim : no_wrap dim -> matrix_ok dim (new_array2 dim dim).
Proof.
  intros NW. unfold matrix_ok, new_array2. simpl.
  rewrite repeat_length. auto.
Qed.

Lemma get2_cost_at m w j :
  well_formed m -> no_wrap (N.max (extent0 m) (extent1 m)) ->
  w < extent0 m -> j < extent1 m ->
  get2 m w j = Done (cost_at m w j).
Proof.
  intros (U0 & U1 & L) NW Hw Hj. unfold get2, cost_at, no_wrap in *.
  destruct (flat_index_small m (extent0 m) (extent1 m) w j eq_refl Hw Hj)
    as [-> B]; [nia|].
  destruct (N.ltb_spec w (extent0 m)), (N.ltb_spec j (extent1 m)); try lia.
  simpl. apply get_qsel. lia.
Qed.

Lemma cost_at_outside m w j :
  extent0 m <= w \/ extent1 m <= j -> cost_at m w j = 0%Q.
Proof.
  intros H. unfold cost_at.
  destruct (N.ltb_spec w (extent0 m)), (N.ltb_spec j (extent1 m));
    simpl; auto; lia.
Qed.

Lemma Hungarian_ctor_total u m :
  well_formed m -> no_wrap (N.max (extent0 m) (extent1 m)) ->
  exists h,
    Hungarian_ctor u m = Done h /\
    matrix_ok (dim_ h) (cost_matrix_ h) /\
    forall w j, w < dim_ h -> j < dim_ h ->
                entry (cost_matrix_ h) w j = cost_at m w j.
Proof.
  intros WF NW. unfold Hungarian_ctor.
  set (rows := extent0 m). set (cols := extent1 m).
  set (dim := N.max rows cols).
  match goal with
  | |- context [bind (for_range 0 dim ?b ?s) _] => set (body := b)
  end.
  destruct (for_range_total body (fun w cm =>
              matrix_ok dim cm /\
              forall w' j', w' < dim -> j' < dim ->
                entry cm w' j' = if w' <? w then cost_at m w' j' else 0%Q)
              0 dim (new_array2 dim dim))
    as (cm & Hcm & MO & He); try lia.
  - split; [apply matrix_ok_new_array2; exact NW|].
    intros w' j' Hw' Hj'. rewrite entry_new_array2 by auto.
    destruct (N.ltb_spec w' 0); [lia|reflexivity].
  - intros w cm0 Hw [MO0 He0]. unfold body.
    destruct (N.ltb_spec w rows) as [Hr|Hr].
    + destruct (row_loop dim w 0 cols (fun j _ => cost_at m w j)
                  (fun j cm => v <- get2 m w j ;; set2 cm w j v) cm0)
        as (cm1 & H1 & MO1 & He1); auto; try lia.
      { intros j cm' _ Hj. rewrite get2_cost_at by (auto; lia). reflexivity. }
      destruct (row_loop dim w cols dim (fun _ _ => 0%Q)
                  (fun j cm => set2 cm w j 0) cm1)
        as (cm2 & H2 & MO2 & He2); auto; try lia.
      rewrite H1. simpl. exists cm2. split; auto. split; auto.
      intros w' j' Hw' Hj'. rewrite He2, He1, He0 by auto.
      cases; rewrite cost_at_outside; auto.
    + destruct (row_loop dim w 0 dim (fun _ _ => 0%Q)
                  (fun j cm => set2 cm w j 0) cm0)
        as (cm1 & H1 & MO1 & He1); auto; try lia.
      exists cm1. split; auto. split; auto.
      intros w' j' Hw' Hj'. rewrite He1, He0 by auto.
      cases; rewrite cost_at_outside; auto.
  - rewrite Hcm. simpl.
    destruct (fill_loop_total (fun _ => UNASSIGNED)
                (N.of_nat (length (new_array (ind_uint32 u 1) dim)))
                (new_array (ind_uint32 u 1) dim)) as (mj & ->); try lia.
    destruct (fill_loop_total (fun _ => UNASSIGNED)
                (N.of_nat (length (new_array (ind_uint32 u 2) dim)))
                (new_array (ind_uint32 u 2) dim)) as (mw & ->); try lia.
    simpl. eexists. split; [reflexivity|]. simpl. split; auto.
    intros w j Hw Hj. rewrite He by auto.
    destruct (N.ltb_spec w dim); [reflexivity|lia].
Qed.

(** * Minimum searches *)

Lemma min_upto_le_inf f n : (min_upto f n <= POSITIVE_INFINITY)%Q.
Proof.
  induction n as [|n IH]; simpl.
  - apply Qle_refl.
  - destruct (Qltb (f (N.of_nat n)) (min_upto f n)) eqn:E; auto.
    apply Qltb_true in E. lra.
Qed.

Lemma min_upto_le f n i :
  (i < n)%nat -> (min_upto f n <= f (N.of_nat i))%Q.
Proof.
  induction n as [|n IH]; intros Hi; [lia|]. simpl.
  destruct (Qltb (f (N.of_nat n)) (min_upto f n)) eqn:E.
  - apply Qltb_true in E.
    destruct (Nat.eq_dec i n) as [->|Hne]; [apply Qle_refl|].
    assert (min_upto f n <= f (N.of_nat i))%Q by (apply IH; lia). lra.
  - apply Qltb_false in E.
    destruct (Nat.eq_dec i n) as [->|Hne]; [exact E|]. apply IH. lia.
Qed.

Lemma min_upto_attained f n :
  min_upto f n = POSITIVE_INFINITY \/
  exists i, (i < n)%nat /\ min_upto f n = f (N.of_nat i).
Proof.
  induction n as [|n IH]; simpl; auto.
  destruct (Qltb (f (N.of_nat n)) (min_upto f n)) eqn:E.
  - right. exists n. auto.
  - destruct IH as [IH|(i & Hi & IH)]; auto.
    right. exists i. split; [lia|exact IH].
Qed.

Lemma min_upto_ext f g n :
  (forall i, (i < n)%nat -> f (N.of_nat i) = g (N.of_nat i)) ->
  min_upto f n = min_upto g n.
Proof.
  induction n as [|n IH]; intros H; simpl; auto.
  rewrite IH by (intros; apply H; lia). rewrite H by lia. reflexivity.
Qed.

(** The minimum is one of the values as soon as one of them does not exceed
    [POSITIVE_INFINITY]. *)
Lemma min_upto_is_min f n i :
  (i < n)%nat -> (f (N.of_nat i) <= POSITIVE_INFINITY)%Q ->
  exists k, (k < n)%nat /\ (min_upto f n == f (N.of_nat k))%Q.
Proof.
  intros Hi Hf. destruct (min_upto_attained f n) as [E|(k & Hk & E)].
  - exists i. split; auto. pose proof (min_upto_le f n i Hi). rewrite E in *.
    lra.
  - exists k. split; auto. rewrite E. reflexivity.
Qed.

Lemma row_min_loop dim m w :
  matrix_ok dim m -> w < dim ->
  for_range 0 dim (fun j mn =>
    c <- get2 m w j ;; Done (if Qltb c mn then c else mn)) POSITIVE_INFINITY =
  Done (row_min m dim w).
Proof.
  intros MO Hw.
  destruct (for_range_total
              (fun j mn => c <- get2 m w j ;; Done (if Qltb c mn then c else mn))
              (fun i mn => mn = min_upto (entry m w) (N.to_nat i))
              0 dim POSITIVE_INFINITY) as (r & Hr & E); try lia; auto.
  - intros k s Hk ->. rewrite (get2_entry dim) by (auto; lia). simpl.
    eexists. split; [reflexivity|].
    rewrite N2Nat.inj_succ. simpl. rewrite N2Nat.id. reflexivity.
  - rewrite Hr, E. reflexivity.
Qed.

Lemma column_min_loop dim m a :
  matrix_ok dim m -> length a = N.to_nat dim ->
  (forall j, j < dim -> qsel a j = POSITIVE_INFINITY) ->
  exists a',
    for_range 0 dim (fun w a =>
      for_range 0 dim (fun j a =>
        c <- get2 m w j ;;
        v <- get a j ;;
        if Qltb c v then set a j c else Done a) a) a = Done a' /\
    length a' = N.to_nat dim /\
    forall j, j < dim ->
      qsel a' j = min_upto (fun w => entry m w j) (N.to_nat dim).
Proof.
  intros MO L Hinf.
  apply (for_range_total _ (fun w a' =>
           length a' = N.to_nat dim /\
           forall j, j < dim ->
             qsel a' j = min_upto (fun w => entry m w j) (N.to_nat w)));
    try lia.
  - split; auto.
  - intros w s Hw [Ls Hs].
    destruct (for_range_total
                (fun j a => c <- get2 m w j ;; v <- get a j ;;
                            if Qltb c v then set a j c else Done a)
                (fun j a' =>
                   length a' = N.to_nat dim /\
                   forall j', j' < dim ->
                     qsel a' j' =
                     min_upto (fun w => entry m w j')
                       (if j' <? j then S (N.to_nat w) else N.to_nat w))
                0 dim s) as (r & Hr & Lr & Er); try lia.
    + split; auto. intros j' Hj'.
      destruct (N.ltb_spec j' 0); [lia|]. apply Hs. exact Hj'.
    + intros j t Hj [Lt Et].
      rewrite (get2_entry dim) by (auto; lia). simpl.
      rewrite get_qsel by lia. simpl.
      assert (Ej : qsel t j = min_upto (fun w => entry m w j) (N.to_nat w)).
      { rewrite Et by lia. destruct (N.ltb_spec j j); [lia|reflexivity]. }
      destruct (Qltb (entry m w j) (qsel t j)) eqn:Q.
      * rewrite set_total by lia. eexists. split; [reflexivity|].
        split; [rewrite length_update; exact Lt|].
        intros j' Hj'. rewrite qsel_update by lia.
        destruct (N.eqb_spec j' j) as [->|Hne].
        -- destruct (N.ltb_spec j (N.succ j)); [|lia].
           simpl. rewrite N2Nat.id, <- Ej, Q. reflexivity.
        -- rewrite Et by lia.
           destruct (N.ltb_spec j' j), (N.ltb_spec j' (N.succ j)); try lia;
             reflexivity.
      * exists t. split; [reflexivity|]. split; auto.
        intros j' Hj'. destruct (N.eqb_spec j' j) as [->|Hne].
        -- destruct (N.ltb_spec j (N.succ j)); [|lia].
           simpl. rewrite N2Nat.id, <- Ej, Q. reflexivity.
        -- rewrite Et by lia.
           destruct (N.ltb_spec j' j), (N.ltb_spec j' (N.succ j)); try lia;
             reflexivity.
    + exists r. split; auto. split; auto.
      intros j Hj. rewrite Er by auto.
      destruct (N.ltb_spec j dim); [|lia].
      rewrite N2Nat.inj_succ. reflexivity.
Qed.

(** * [reduce] and [compute_initial_feasible_solution] *)

Lemma fill_total {T : Type} (v : T) (dim : N) (a : list T) :
  length a = N.to_nat dim ->
  exists a', for_range 0 dim (fun j a => set a j v) a = Done a' /\
             length a' = N.to_nat dim /\
             forall j, j < dim -> get a' j = Done v.
Proof.
  intros L.
  destruct (fill_loop_total (fun _ => v) dim a) as (a' & H); [lia|].
  exists a'. split; auto.
  apply fill_loop in H as (L' & G & _). split; [congruence|auto].
Qed.

Lemma reduce_total u h :
  matrix_ok (dim_ h) (cost_matrix_ h) ->
  exists cm,
    reduce u h = Done (with_cost_matrix h cm) /\
    matrix_ok (dim_ h) cm /\
    forall w j, w < dim_ h -> j < dim_ h ->
                entry cm w j = reduced (cost_matrix_ h) (dim_ h) w j.
Proof.
  intros MO. unfold reduce.
  set (dim := dim_ h) in *. set (m := cost_matrix_ h) in *.
  (* rows *)
  match goal with
  | |- context [bind (for_range 0 dim ?b m) _] => set (body1 := b)
  end.
  destruct (for_range_total body1 (fun w cm =>
              matrix_ok dim cm /\
              forall w' j', w' < dim -> j' < dim ->
                entry cm w' j' =
                if w' <? w then row_reduced m dim w' j' else entry m w' j')
              0 dim m) as (cm1 & H1 & MO1 & E1); try lia.
  { split; auto. intros. cases. }
  { intros w cm Hw [MOc Ec]. unfold body1.
    rewrite (row_min_loop dim) by (auto; lia). simpl.
    assert (Em : row_min cm dim w = row_min m dim w).
    { unfold row_min. apply min_upto_ext. intros i Hi.
      rewrite Ec by lia. cases. }
    rewrite Em.
    destruct (row_loop dim w 0 dim (fun _ c => (c - row_min m dim w)%Q)
                (fun j cm => c <- get2 cm w j ;; set2 cm w j (c - row_min m dim w))
                cm) as (cm' & Hr & MO' & E'); auto; try lia.
    { intros j cm0 MO0 Hj. rewrite (get2_entry dim) by (auto; lia). reflexivity. }
    exists cm'. split; auto. split; auto.
    intros w' j' Hw' Hj'. rewrite E', Ec by auto. unfold row_reduced. cases. }
  rewrite H1. simpl. clear body1 H1.
  (* column minima *)
  destruct (fill_total POSITIVE_INFINITY dim (new_array (ind_double u 3) dim))
    as (min1 & F1 & L1 & G1); [apply length_new_array|].
  rewrite F1. simpl.
  destruct (column_min_loop dim cm1 min1 MO1 L1) as (min2 & F2 & L2 & E2).
  { intros j Hj. apply (get_Done_nth 0%Q). auto. }
  rewrite F2. simpl.
  (* columns *)
  match goal with
  | |- context [bind (for_range 0 dim ?b cm1) _] => set (body3 := b)
  end.
  destruct (for_range_total body3 (fun w cm =>
              matrix_ok dim cm /\
              forall w' j', w' < dim -> j' < dim ->
                entry cm w' j' =
                if w' <? w then (entry cm1 w' j' - qsel min2 j')%Q
                else entry cm1 w' j')
              0 dim cm1) as (cm3 & H3 & MO3 & E3); try lia.
  { split; auto. intros. cases. }
  { intros w cm Hw [MOc Ec]. unfold body3.
    destruct (row_loop dim w 0 dim (fun j c => (c - qsel min2 j)%Q)
                (fun j cm => c <- get2 cm w j ;; v <- get min2 j ;;
                             set2 cm w j (c - v)) cm)
      as (cm' & Hr & MO' & E'); auto; try lia.
    { intros j cm0 MO0 Hj. rewrite (get2_entry dim) by (auto; lia). simpl.
      rewrite get_qsel by lia. reflexivity. }
    exists cm'. split; auto. split; auto.
    intros w' j' Hw' Hj'. rewrite E', Ec by auto. cases. }
  rewrite H3. simpl. exists cm3. split; [reflexivity|]. split; auto.
  intros w j Hw Hj. rewrite E3, E1, E2 by auto.
  destruct (N.ltb_spec w dim); [|lia].
  unfold reduced, col_min. f_equal.
  apply min_upto_ext. intros i Hi. rewrite E1 by lia. cases.
Qed.

Lemma compute_initial_feasible_solution_total h :
  matrix_ok (dim_ h) (cost_matrix_ h) ->
  length (label_by_job_ h) = N.to_nat (dim_ h) ->
  exists lj,
    compute_initial_feasible_solution h = Done (with_label_by_job h lj) /\
    length lj = N.to_nat (dim_ h) /\
    forall j, j < dim_ h ->
      qsel lj j = min_upto (fun w => entry (cost_matrix_ h) w j)
                    (N.to_nat (dim_ h)).
Proof.
  intros MO L. unfold compute_initial_feasible_solution.
  destruct (fill_total POSITIVE_INFINITY (dim_ h) (label_by_job_ h) L)
    as (lj1 & F1 & L1 & G1).
  rewrite F1. simpl.
  destruct (column_min_loop (dim_ h) (cost_matrix_ h) lj1 MO L1)
    as (lj2 & F2 & L2 & E2).
  { intros j Hj. apply (get_Done_nth 0%Q). auto. }
  rewrite F2. simpl. exists lj2. auto.
Qed.

(** ** The reduced matrix *)

Section Reduced.
Variables (m : MultiArray2) (dim : N).

Lemma row_reduced_nonneg w j :
  w < dim -> j < dim -> (0 <= row_reduced m dim w j)%Q.
Proof.
  intros Hw Hj. unfold row_reduced, row_min.
  pose proof (min_upto_le (entry m w) (N.to_nat dim) (N.to_nat j)) as H.
  rewrite N2Nat.id in H. assert (N.to_nat j < N.to_nat dim)%nat by lia.
  specialize (H H0). lra.
Qed.

Lemma reduced_nonneg w j :
  w < dim -> j < dim -> (0 <= reduced m dim w j)%Q.
Proof.
  intros Hw Hj. unfold reduced, col_min.
  pose proof (min_upto_le (fun w => row_reduced m dim w j)
                (N.to_nat dim) (N.to_nat w)) as H.
  rewrite N2Nat.id in H. assert (N.to_nat w < N.to_nat dim)%nat by lia.
  specialize (H H0). simpl in H. lra.
Qed.

Lemma col_min_nonneg j : j < dim -> (0 <= col_min m dim j)%Q.
Proof.
  intros Hj. unfold col_min.
  destruct (min_upto_attained (fun w => row_reduced m dim w j) (N.to_nat dim))
    as [E|(i & Hi & E)]; rewrite E.
  - pose proof POSITIVE_INFINITY_pos. lra.
  - apply row_reduced_nonneg; lia.
Qed.

Lemma reduced_le_row_reduced w j :
  j < dim -> (reduced m dim w j <= row_reduced m dim w j)%Q.
Proof.
  intros Hj. unfold reduced. pose proof (col_min_nonneg j Hj). lra.
Qed.

(** A column keeps a zero when one of its row-reduced entries does not
    exceed [POSITIVE_INFINITY]. *)
Lemma reduced_column_zero j w0 :
  j < dim -> w0 < dim ->
  (row_reduced m dim w0 j <= POSITIVE_INFINITY)%Q ->
  exists w, w < dim /\ (reduced m dim w j == 0)%Q.
Proof.
  intros Hj Hw0 Hb. unfold reduced, col_min.
  destruct (min_upto_is_min (fun w => row_reduced m dim w j)
              (N.to_nat dim) (N.to_nat w0)) as (k & Hk & E); try lia.
  { rewrite N2Nat.id. exact Hb. }
  exists (N.of_nat k). split; [lia|]. rewrite E. lra.
Qed.

(** A row keeps a zero when one of its entries does not exceed
    [POSITIVE_INFINITY]. *)
Lemma reduced_row_zero w j0 :
  w < dim -> j0 < dim ->
  (entry m w j0 <= POSITIVE_INFINITY)%Q ->
  exists j, j < dim /\ (reduced m dim w j == 0)%Q.
Proof.
  intros Hw Hj0 Hb.
  destruct (min_upto_is_min (entry m w) (N.to_nat dim) (N.to_nat j0))
    as (k & Hk & E); try lia.
  { rewrite N2Nat.id. exact Hb. }
  exists (N.of_nat k). split; [lia|].
  assert (Z : (row_reduced m dim w (N.of_nat k) == 0)%Q).
  { unfold row_reduced, row_min. rewrite E. lra. }
  pose proof (reduced_nonneg w (N.of_nat k) Hw ltac:(lia)).
  pose proof (reduced_le_row_reduced w (N.of_nat k) ltac:(lia)).
  lra.
Qed.
End Reduced.

(** * The member functions succeed on a well-shaped object *)

Lemma state_ok_kept l m p w s h h' :
  kept true l m p w s h h' -> state_ok h -> state_ok h'.
Proof.
  intros K [V MO]. split; [eapply vectors_ok_kept; eauto|].
  pose proof (kept_cost _ _ _ _ _ _ _ _ K eq_refl) as C.
  destruct K as [Sh _ _ _ _ _ _]. unfold same_cost in C. unfold same_shape in Sh.
  destruct Sh as (_ & _ & -> & _). rewrite C. exact MO.
Qed.

Ltac lens V :=
  let H := fresh in
  pose proof V as H; unfold vectors_ok, uint32 in H;
  destruct H as (? & ? & ? & ? & ? & ? & ? & ? & ?).

Lemma slack_total h w j :
  state_ok h -> w < dim_ h -> j < dim_ h ->
  slack h w j = Done (slack_value h w j).
Proof.
  intros [V MO] Hw Hj. lens V. unfold slack, slack_value.
  rewrite (get2_entry (dim_ h)) by auto. simpl.
  rewrite !get_qsel by lia. reflexivity.
Qed.

Lemma match_total w j h :
  vectors_ok h -> w < dim_ h -> j < dim_ h ->
  exists h', match_ w j h = Done h'.
Proof.
  intros V Hw Hj. lens V. unfold match_.
  rewrite !set_total by lia. simpl. eauto.
Qed.

Lemma greedy_match_total h :
  state_ok h -> exists h', greedy_match h = Done h'.
Proof.
  intros OK. unfold greedy_match.
  destruct (for_range_total
              (fun w h0 => for_range 0 (dim_ h) (fun j h1 =>
                 mj <- get (match_job_by_worker_ h1) w ;;
                 if mj =? UNASSIGNED then
                   mw <- get (match_worker_by_job_ h1) j ;;
                   if mw =? UNASSIGNED then
                     sl <- slack h1 w j ;;
                     if Qeq_bool sl 0 then match_ w j h1 else Done h1
                   else Done h1
                 else Done h1) h0)
              (fun _ s => state_ok s /\ dim_ s = dim_ h) 0 (dim_ h) h)
    as (r & Hr & _).
  - lia.
  - split; auto.
  - intros w s Hw [OKs Ds].
    apply (for_range_total _ (fun _ s => state_ok s /\ dim_ s = dim_ h));
      auto; try lia.
    intros j t Hj [[Vt MOt] Dt]. lens Vt.
    assert (Keep : exists s', Done t = Done s' /\ state_ok s' /\ dim_ s' = dim_ h)
      by (exists t; split; [reflexivity|]; split; [split|]; assumption).
    rewrite get_nsel by lia. simpl.
    destruct (nsel (match_job_by_worker_ t) w =? UNASSIGNED); [|exact Keep].
    rewrite get_nsel by lia. simpl.
    destruct (nsel (match_worker_by_job_ t) j =? UNASSIGNED); [|exact Keep].
    rewrite slack_total by (try split; auto; lia). simpl.
    destruct (Qeq_bool _ _); [|exact Keep].
    destruct (match_total w j t Vt) as (t' & Ht); try lia.
    exists t'. split; auto.
    apply match_kept in Ht.
    split; [eapply state_ok_kept; eauto; split; auto|].
    destruct Ht as [Sh _ _ _ _ _ _]. unfold same_shape in Sh.
    intuition congruence.
  - exists r. exact Hr.
Qed.

Lemma fetch_from_total h : forall n w,
  w + N.of_nat n <= N.of_nat (length (match_job_by_worker_ h)) ->
  exists r, fetch_from n w h = Done r.
Proof.
  induction n as [|n IH]; intros w Hn; cbn [fetch_from]; eauto.
  rewrite get_nsel by lia. simpl.
  destruct (_ =? UNASSIGNED); eauto. apply IH. lia.
Qed.

Lemma fetch_unmatched_worker_total h :
  vectors_ok h -> exists w, fetch_unmatched_worker h = Done w.
Proof.
  intros V. lens V. apply fetch_from_total. lia.
Qed.

Lemma initialize_phase_total w h :
  state_ok h -> w < dim_ h ->
  exists h',
    initialize_phase w h = Done h' /\
    (forall j, j < dim_ h ->
       get (parent_worker_by_committed_job_ h') j = Done UNASSIGNED) /\
    (forall k, k < dim_ h -> bsel (committed_workers_ h') k = (k =? w)) /\
    (forall j, j < dim_ h ->
       qsel (min_slack_by_job_ h') j = slack_value h w j) /\
    (forall j, j < dim_ h ->
       get (min_slack_worker_by_job_ h') j = Done w).
Proof.
  intros [V MO] Hw. lens V. unfold initialize_phase.
  destruct (fill_total UNASSIGNED (dim_ h) (parent_worker_by_committed_job_ h))
    as (pw & Fp & Lp & Gp); auto.
  cbn [parent_worker_by_committed_job_ with_committed_workers]. rewrite Fp.
  cbn [bind committed_workers_ with_parent_worker_by_committed_job
       with_committed_workers].
  rewrite set_total by (rewrite repeat_length; lia). cbn [bind].
  set (cw := update (repeat false (length (committed_workers_ h))) (N.to_nat w) true).
  set (h3 := with_committed_workers _ cw).
  assert (Ecw : forall k, k < dim_ h -> bsel cw k = (k =? w)).
  { intros k Hk. unfold cw. rewrite bsel_update by (rewrite repeat_length; lia).
    destruct (k =? w); auto. unfold bsel. apply nth_repeat_lt. lia. }
  destruct (for_range_total
     (fun j h0 =>
        sl <- slack h0 w j ;;
        ms <- set (min_slack_by_job_ h0) j sl ;;
        msw <- set (min_slack_worker_by_job_ h0) j w ;;
        Done (with_min_slack_worker_by_job (with_min_slack_by_job h0 ms) msw))
     (fun k s =>
        dim_ s = dim_ h /\ cost_matrix_ s = cost_matrix_ h /\
        label_by_worker_ s = label_by_worker_ h /\
        label_by_job_ s = label_by_job_ h /\
        parent_worker_by_committed_job_ s = pw /\
        committed_workers_ s = cw /\
        length (min_slack_by_job_ s) = N.to_nat (dim_ h) /\
        length (min_slack_worker_by_job_ s) = N.to_nat (dim_ h) /\
        forall j, j < k ->
          qsel (min_slack_by_job_ s) j = slack_value h w j /\
          get (min_slack_worker_by_job_ s) j = Done w)
     0 (dim_ h) h3) as (r & Hr & D & C & LW & LJ & P & CW & _ & _ & E);
    try lia.
  - unfold h3. simpl. repeat split; auto; intros; lia.
  - intros j s Hj (D & C & LW & LJ & P & CW & L1 & L2 & E).
    unfold slack. rewrite C, LW, LJ.
    rewrite (get2_entry (dim_ h)) by (auto; lia). simpl.
    rewrite !get_qsel by lia. simpl.
    rewrite !set_total by lia. simpl.
    eexists. split; [reflexivity|]. simpl.
    rewrite !length_update. repeat split; auto.
    + rewrite qsel_update by lia. destruct (N.eqb_spec j0 j) as [->|Hne].
      * reflexivity.
      * apply E. lia.
    + unfold get. rewrite (nth_error_nth' _ UNASSIGNED)
        by (rewrite length_update; lia).
      fold (nsel (update (min_slack_worker_by_job_ s) (N.to_nat j) w) j0).
      rewrite nsel_update by lia. destruct (N.eqb_spec j0 j) as [->|Hne]; auto.
      f_equal. apply (get_Done_nth UNASSIGNED). apply E. lia.
  - exists r. split; [exact Hr|]. rewrite P, CW. repeat split; auto.
    + intros j Hj. apply E. exact Hj.
    + intros j Hj. apply E. exact Hj.
Qed.

Lemma update_labeling_total delta h :
  vectors_ok h ->
  exists h',
    update_labeling delta h = Done h' /\
    (forall i, i < dim_ h ->
       qsel (label_by_worker_ h') i =
       if bsel (committed_workers_ h) i
       then (qsel (label_by_worker_ h) i + delta)%Q
       else qsel (label_by_worker_ h) i) /\
    (forall i, i < dim_ h ->
       qsel (label_by_job_ h') i =
       if nsel (parent_worker_by_committed_job_ h) i =? UNASSIGNED
       then qsel (label_by_job_ h) i
       else (qsel (label_by_job_ h) i - delta)%Q) /\
    (forall i, i < dim_ h ->
       qsel (min_slack_by_job_ h') i =
       if nsel (parent_worker_by_committed_job_ h) i =? UNASSIGNED
       then (qsel (min_slack_by_job_ h) i - delta)%Q
       else qsel (min_slack_by_job_ h) i).
Proof.
  intros V. lens V. unfold update_labeling.
  destruct (for_range_total
     (fun w h0 =>
        c <- get (committed_workers_ h0) w ;;
        if c : bool then
          l <- get (label_by_worker_ h0) w ;;
          lw <- set (label_by_worker_ h0) w (l + delta)%Q ;;
          Done (with_label_by_worker h0 lw)
        else Done h0)
     (fun k s =>
        dim_ s = dim_ h /\ committed_workers_ s = committed_workers_ h /\
        parent_worker_by_committed_job_ s = parent_worker_by_committed_job_ h /\
        label_by_job_ s = label_by_job_ h /\
        min_slack_by_job_ s = min_slack_by_job_ h /\
        length (label_by_worker_ s) = N.to_nat (dim_ h) /\
        forall i, i < dim_ h ->
          qsel (label_by_worker_ s) i =
          if (i <? k) && bsel (committed_workers_ h) i
          then (qsel (label_by_worker_ h) i + delta)%Q
          else qsel (label_by_worker_ h) i)
     0 (dim_ h) h) as (h1 & Run1 & D1 & C1 & P1 & LJ1 & MS1 & L1 & E1); try lia.
  { repeat split; auto. intros i Hi. cases. }
  { intros k s Hk (D & C & P & LJ & MS & L & E).
    rewrite C. rewrite get_bsel by lia. simpl.
    destruct (bsel (committed_workers_ h) k) eqn:B.
    - rewrite get_qsel by lia. simpl. rewrite set_total by lia. simpl.
      eexists. split; [reflexivity|]. simpl. rewrite length_update.
      repeat split; auto.
      intros i Hi. rewrite qsel_update by lia. rewrite !E by lia.
      destruct (N.eq_dec i k) as [->|Hik]; cases; rewrite ?B; auto.
    - exists s. split; [reflexivity|]. repeat split; auto.
      intros i Hi. rewrite E by lia.
      destruct (N.eq_dec i k) as [->|Hik]; cases; rewrite ?B; auto. }
  rewrite Run1. simpl.
  destruct (for_range_total
     (fun j h0 =>
        p <- get (parent_worker_by_committed_job_ h0) j ;;
        if negb (p =? UNASSIGNED) then
          l <- get (label_by_job_ h0) j ;;
          lj <- set (label_by_job_ h0) j (l - delta)%Q ;;
          Done (with_label_by_job h0 lj)
        else
          m <- get (min_slack_by_job_ h0) j ;;
          ms <- set (min_slack_by_job_ h0) j (m - delta)%Q ;;
          Done (with_min_slack_by_job h0 ms))
     (fun k s =>
        parent_worker_by_committed_job_ s = parent_worker_by_committed_job_ h /\
        label_by_worker_ s = label_by_worker_ h1 /\
        length (label_by_job_ s) = N.to_nat (dim_ h) /\
        length (min_slack_by_job_ s) = N.to_nat (dim_ h) /\
        forall i, i < dim_ h ->
          qsel (label_by_job_ s) i =
          (if (i <? k) && negb (nsel (parent_worker_by_committed_job_ h) i =? UNASSIGNED)
           then (qsel (label_by_job_ h) i - delta)%Q
           else qsel (label_by_job_ h) i) /\
          qsel (min_slack_by_job_ s) i =
          (if (i <? k) && (nsel (parent_worker_by_committed_job_ h) i =? UNASSIGNED)
           then (qsel (min_slack_by_job_ h) i - delta)%Q
           else qsel (min_slack_by_job_ h) i))
     0 (dim_ h) h1) as (h2 & Run2 & P2 & LW2 & L2 & L2' & E2); try lia.
  { rewrite LJ1, MS1. repeat split; auto; cases. }
  { intros k s Hk (P & LW & L & L' & E).
    assert (Hk' : k < dim_ h) by lia. destruct (E k Hk') as [Ek1 Ek2].
    rewrite P. rewrite get_nsel by lia. simpl.
    destruct (nsel (parent_worker_by_committed_job_ h) k =? UNASSIGNED) eqn:B;
      simpl.
    - rewrite get_qsel by lia. simpl. rewrite set_total by lia. simpl.
      eexists. split; [reflexivity|]. simpl. rewrite length_update.
      split; auto. split; auto. split; auto. split; auto.
      intros i Hi. destruct (E i Hi) as [Ei1 Ei2]. split.
      + rewrite Ei1.
        destruct (N.eq_dec i k) as [->|Hik]; cases; rewrite ?B; auto.
      + rewrite qsel_update by lia. rewrite Ei2, Ek2.
        destruct (N.eq_dec i k) as [->|Hik]; cases; rewrite ?B; auto.
    - rewrite get_qsel by lia. simpl. rewrite set_total by lia. simpl.
      eexists. split; [reflexivity|]. simpl. rewrite length_update.
      split; auto. split; auto. split; auto. split; auto.
      intros i Hi. destruct (E i Hi) as [Ei1 Ei2]. split.
      + rewrite qsel_update by lia. rewrite Ei1, Ek1.
        destruct (N.eq_dec i k) as [->|Hik]; cases; rewrite ?B; auto.
      + rewrite Ei2.
        destruct (N.eq_dec i k) as [->|Hik]; cases; rewrite ?B; auto. }
  exists h2. split; [exact Run2|]. rewrite LW2. repeat split.
  - intros i Hi. rewrite E1 by auto. cases.
  - intros i Hi. rewrite (proj1 (E2 i Hi)).
    destruct (N.ltb_spec i (dim_ h)); [|lia].
    destruct (_ =? UNASSIGNED); reflexivity.
  - intros i Hi. rewrite (proj2 (E2 i Hi)).
    destruct (N.ltb_spec i (dim_ h)); [|lia].
    destruct (_ =? UNASSIGNED); reflexivity.
Qed.

(** The first loop of a turn of [execute_phase]: either no uncommitted job
    has a slack below [POSITIVE_INFINITY] and the three variables keep their
    initial values, or the first uncommitted job of least slack is chosen. *)
Lemma select_min_slack_total h :
  vectors_ok h ->
  exists w j v,
    select_min_slack h = Done (w, j, v) /\
    (v <= POSITIVE_INFINITY)%Q /\
    (forall j', j' < dim_ h ->
       nsel (parent_worker_by_committed_job_ h) j' = UNASSIGNED ->
       (v <= qsel (min_slack_by_job_ h) j')%Q) /\
    ((j = UNASSIGNED /\ w = UNASSIGNED /\ v = POSITIVE_INFINITY) \/
     (j < dim_ h /\
      nsel (parent_worker_by_committed_job_ h) j = UNASSIGNED /\
      v = qsel (min_slack_by_job_ h) j /\ (v < POSITIVE_INFINITY)%Q /\
      w = nsel (min_slack_worker_by_job_ h) j)).
Proof.
  intros V. lens V. unfold select_min_slack.
  destruct (for_range_total
     (fun j sel =>
        p <- get (parent_worker_by_committed_job_ h) j ;;
        if p =? UNASSIGNED then
          v <- get (min_slack_by_job_ h) j ;;
          if Qltb v (snd sel) then
            w <- get (min_slack_worker_by_job_ h) j ;;
            Done (w, j, v)
          else Done sel
        else Done sel)
     (fun k sel =>
        let w := fst (fst sel) in
        let j := snd (fst sel) in
        let v := snd sel in
        (v <= POSITIVE_INFINITY)%Q /\
        (forall j', j' < k ->
           nsel (parent_worker_by_committed_job_ h) j' = UNASSIGNED ->
           (v <= qsel (min_slack_by_job_ h) j')%Q) /\
        ((j = UNASSIGNED /\ w = UNASSIGNED /\ v = POSITIVE_INFINITY) \/
         (j < k /\
          nsel (parent_worker_by_committed_job_ h) j = UNASSIGNED /\
          v = qsel (min_slack_by_job_ h) j /\ (v < POSITIVE_INFINITY)%Q /\
          w = nsel (min_slack_worker_by_job_ h) j)))
     0 (dim_ h) (UNASSIGNED, UNASSIGNED, POSITIVE_INFINITY))
    as ([[w j] v] & Run & A & B & C); try lia.
  - simpl. split; [apply Qle_refl|]. split; [intros; lia|]. left. auto.
  - intros k [[w j] v] Hk (A & B & C). simpl in A, B, C.
    rewrite get_nsel by lia. cbn [bind].
    destruct (N.eqb_spec (nsel (parent_worker_by_committed_job_ h) k) UNASSIGNED)
      as [Ep|Ep].
    + rewrite get_qsel by lia. cbn [bind snd].
      destruct (Qltb (qsel (min_slack_by_job_ h) k) v) eqn:Q.
      * rewrite get_nsel by lia. cbn [bind].
        eexists. split; [reflexivity|]. simpl.
        apply Qltb_true in Q. split; [lra|]. split.
        -- intros j' Hj' Pj'. destruct (N.eq_dec j' k) as [->|Hne].
           ++ apply Qle_refl.
           ++ assert (v <= qsel (min_slack_by_job_ h) j')%Q by (apply B; auto; lia).
              lra.
        -- right. repeat split; auto; try lia. lra.
      * eexists. split; [reflexivity|]. simpl.
        apply Qltb_false in Q. split; auto. split.
        -- intros j' Hj' Pj'. destruct (N.eq_dec j' k) as [->|Hne]; auto.
           apply B; auto. lia.
        -- destruct C as [C|(C1 & C2 & C3 & C4 & C5)]; auto.
           right. repeat split; auto. lia.
    + eexists. split; [reflexivity|]. simpl. split; auto. split.
      * intros j' Hj' Pj'. destruct (N.eq_dec j' k) as [->|Hne]; [congruence|].
        apply B; auto. lia.
      * destruct C as [C|(C1 & C2 & C3 & C4 & C5)]; auto.
        right. repeat split; auto. lia.
  - exists w, j, v. simpl in *. auto.
Qed.

Lemma update_slack_total worker h :
  state_ok h -> worker < dim_ h ->
  exists h',
    update_slack worker h = Done h' /\
    forall j, j < dim_ h ->
      if nsel (parent_worker_by_committed_job_ h) j =? UNASSIGNED then
        (qsel (min_slack_by_job_ h') j = qsel (min_slack_by_job_ h) j /\
         nsel (min_slack_worker_by_job_ h') j = nsel (min_slack_worker_by_job_ h) j /\
         (qsel (min_slack_by_job_ h) j <= slack_value h worker j)%Q) \/
        (qsel (min_slack_by_job_ h') j = slack_value h worker j /\
         nsel (min_slack_worker_by_job_ h') j = worker /\
         (slack_value h worker j < qsel (min_slack_by_job_ h) j)%Q)
      else
        qsel (min_slack_by_job_ h') j = qsel (min_slack_by_job_ h) j /\
        nsel (min_slack_worker_by_job_ h') j = nsel (min_slack_worker_by_job_ h) j.
Proof.
  intros [V MO] Hw. lens V. unfold update_slack.
  destruct (for_range_total
     (fun j h0 =>
        p <- get (parent_worker_by_committed_job_ h0) j ;;
        if p =? UNASSIGNED then
          sl <- slack h0 worker j ;;
          m <- get (min_slack_by_job_ h0) j ;;
          if Qltb sl m then
            ms <- set (min_slack_by_job_ h0) j sl ;;
            msw <- set (min_slack_worker_by_job_ h0) j worker ;;
            Done (with_min_slack_worker_by_job (with_min_slack_by_job h0 ms) msw)
          else Done h0
        else Done h0)
     (fun k s =>
        dim_ s = dim_ h /\ cost_matrix_ s = cost_matrix_ h /\
        label_by_worker_ s = label_by_worker_ h /\
        label_by_job_ s = label_by_job_ h /\
        parent_worker_by_committed_job_ s = parent_worker_by_committed_job_ h /\
        length (min_slack_by_job_ s) = N.to_nat (dim_ h) /\
        length (min_slack_worker_by_job_ s) = N.to_nat (dim_ h) /\
        forall j, j < dim_ h ->
          if (j <? k) && (nsel (parent_worker_by_committed_job_ h) j =? UNASSIGNED)
          then
            (qsel (min_slack_by_job_ s) j = qsel (min_slack_by_job_ h) j /\
             nsel (min_slack_worker_by_job_ s) j =
               nsel (min_slack_worker_by_job_ h) j /\
             (qsel (min_slack_by_job_ h) j <= slack_value h worker j)%Q) \/
            (qsel (min_slack_by_job_ s) j = slack_value h worker j /\
             nsel (min_slack_worker_by_job_ s) j = worker /\
             (slack_value h worker j < qsel (min_slack_by_job_ h) j)%Q)
          else
            qsel (min_slack_by_job_ s) j = qsel (min_slack_by_job_ h) j /\
            nsel (min_slack_worker_by_job_ s) j =
              nsel (min_slack_worker_by_job_ h) j)
     0 (dim_ h) h) as (r & Run & _ & _ & _ & _ & _ & _ & _ & E); try lia.
  - repeat split; auto. intros j Hj. cases.
  - intros k s Hk (D & C & LW & LJ & P & L1 & L2 & E).
    assert (Hk' : k < dim_ h) by lia. pose proof (E k Hk') as Ek.
    destruct (N.ltb_spec k k); [lia|]. cbn [andb] in Ek. destruct Ek as [Ek1 Ek2].
    assert (SV : slack s worker k = Done (slack_value h worker k)).
    { unfold slack, slack_value. rewrite C, LW, LJ.
      rewrite (get2_entry (dim_ h)) by auto. simpl.
      rewrite !get_qsel by lia. reflexivity. }
    rewrite P. rewrite get_nsel by lia. cbn [bind].
    destruct (N.eqb_spec (nsel (parent_worker_by_committed_job_ h) k) UNASSIGNED)
      as [Ep|Ep].
    + rewrite SV. cbn [bind]. rewrite get_qsel by lia. cbn [bind]. rewrite Ek1.
      destruct (Qltb (slack_value h worker k) (qsel (min_slack_by_job_ h) k)) eqn:Q.
      * rewrite !set_total by lia. cbn [bind].
        eexists. split; [reflexivity|]. simpl. rewrite !length_update.
        repeat split; auto.
        intros j Hj. rewrite qsel_update, nsel_update by lia.
        specialize (E j Hj).
        destruct (N.eq_dec j k) as [->|Hne].
        -- rewrite !N.eqb_refl. destruct (N.ltb_spec k (N.succ k)); [|lia].
           rewrite Ep, N.eqb_refl. cbn [andb].
           right. apply Qltb_true in Q. auto.
        -- destruct (N.eqb_spec j k); [contradiction|].
           destruct (N.ltb_spec j k), (N.ltb_spec j (N.succ k)); try lia; exact E.
      * exists s. split; [reflexivity|]. repeat split; auto.
        intros j Hj. specialize (E j Hj).
        destruct (N.eq_dec j k) as [->|Hne].
        -- destruct (N.ltb_spec k (N.succ k)); [|lia].
           rewrite Ep, N.eqb_refl. cbn [andb].
           left. apply Qltb_false in Q. auto.
        -- destruct (N.ltb_spec j k), (N.ltb_spec j (N.succ k)); try lia; exact E.
    + exists s. split; [reflexivity|]. repeat split; auto.
      intros j Hj. specialize (E j Hj).
      destruct (N.eq_dec j k) as [->|Hne].
      * destruct (N.eqb_spec (nsel (parent_worker_by_committed_job_ h) k) UNASSIGNED);
          [contradiction|].
        rewrite andb_false_r. auto.
      * destruct (N.ltb_spec j k), (N.ltb_spec j (N.succ k)); try lia; exact E.
  - exists r. split; [exact Run|].
    intros j Hj. specialize (E j Hj).
    destruct (N.ltb_spec j (dim_ h)); [|lia]. exact E.
Qed.

Lemma project_result_total h :
  vectors_ok h -> rows_ h <= dim_ h ->
  exists r, project_result h = Done r.
Proof.
  intros V Hr. lens V. unfold project_result.
  destruct (for_range_total
     (fun w r => v <- get r w ;;
                 if cols_ h <=? v then set r w UNASSIGNED else Done r)
     (fun _ r => length r = N.to_nat (rows_ h))
     0 (rows_ h) (firstn (N.to_nat (rows_ h)) (match_job_by_worker_ h)))
    as (r & Run & _); try lia.
  - rewrite length_firstn. lia.
  - intros k s Hk L. rewrite get_nsel by lia. cbn [bind].
    destruct (cols_ h <=? nsel s k).
    + rewrite set_total by lia. eexists. split; [reflexivity|].
      rewrite length_update. exact L.
    + eauto.
  - eauto.
Qed.

(** * The alternating tree *)

Lemma tree_suffix h L1 L2 : tree h (L1 ++ L2) -> tree h L2.
Proof.
  intros [ND T]. split.
  - apply NoDup_app_remove_l in ND. exact ND.
  - intros M1 j M2 E. apply (T (L1 ++ M1) j M2). rewrite E, app_assoc. reflexivity.
Qed.

Lemma parent_ok_mono h p L L' :
  (forall k, In k L -> In k L') -> parent_ok h p L -> parent_ok h p L'.
Proof.
  intros I [Hp [G|(k & G & Hk)]]; split; auto. right. eauto.
Qed.

Lemma tree_bound h L :
  vectors_ok h -> tree h L -> (length L <= N.to_nat (dim_ h))%nat.
Proof.
  intros V [ND T]. lens V.
  rewrite <- (length_iota (dim_ h)).
  apply NoDup_incl_length; auto.
  intros j Hj. apply in_split in Hj as (L1 & L2 & ->).
  destruct (T L1 j L2 eq_refl) as (p & G & _).
  apply get_lt in G. apply In_iota. lia.
Qed.

(** Only the matching of workers that are no parent in [L] changes. *)
Lemma tree_frame h h' L :
  dim_ h' = dim_ h ->
  parent_worker_by_committed_job_ h' = parent_worker_by_committed_job_ h ->
  (forall j p, In j L -> get (parent_worker_by_committed_job_ h) j = Done p ->
               get (match_job_by_worker_ h') p = get (match_job_by_worker_ h) p) ->
  tree h L -> tree h' L.
Proof.
  intros D P M [ND T]. split; auto.
  intros L1 j L2 E. destruct (T L1 j L2 E) as (p & G & Hp & Hm).
  exists p. rewrite P. split; auto.
  assert (Hj : In j L) by (rewrite E; apply in_or_app; right; left; auto).
  unfold parent_ok. rewrite D, (M j p Hj G). auto.
Qed.

(** In a tree the job of a parent sits strictly below the child. *)
Lemma tree_parent_below h k L j p :
  vectors_ok h -> tree h (k :: L) -> In j (k :: L) ->
  get (parent_worker_by_committed_job_ h) j = Done p ->
  get (match_job_by_worker_ h) p <> Done k.
Proof.
  intros V [ND T] Hj G Gk. lens V.
  assert (Hk : k <> UNASSIGNED).
  { destruct (T [] k L eq_refl) as (q & Gq & _). apply get_lt in Gq. lia. }
  apply in_split in Hj as (L1 & L2 & E).
  destruct (T L1 j L2 E) as (p' & G' & _ & Hm).
  assert (p' = p) by congruence. subst p'.
  assert (In k L2) as Hin.
  { destruct Hm as [Hm|(k' & Hm & Hk')]; rewrite Gk in Hm.
    - congruence.
    - assert (k' = k) by congruence. subst k'. exact Hk'. }
  apply NoDup_cons_iff in ND as [Nin _]. apply Nin.
  destruct L1 as [|x L1]; simpl in E; injection E as -> ->.
  - exact Hin.
  - apply in_or_app. right. right. exact Hin.
Qed.

Lemma tree_cons h h' j w L :
  dim_ h' = dim_ h ->
  match_job_by_worker_ h' = match_job_by_worker_ h ->
  (forall k, get (parent_worker_by_committed_job_ h') k =
             if k =? j then Done w
             else get (parent_worker_by_committed_job_ h) k) ->
  ~ In j L -> parent_ok h w L ->
  tree h L -> tree h' (j :: L).
Proof.
  intros D M P Nin Hw [ND T]. split; [constructor; auto|].
  intros L1 k L2 E. unfold parent_ok. rewrite D, M.
  destruct L1 as [|x L1]; simpl in E; injection E as -> ->.
  - exists w. rewrite P, N.eqb_refl. split; auto.
  - destruct (T L1 k L2 eq_refl) as (p & G & Hp).
    exists p. rewrite P. split; auto.
    destruct (N.eqb_spec k x) as [->|Hne]; auto.
    exfalso. apply Nin. apply in_or_app. right. left. reflexivity.
Qed.

(** ** Partial descriptions of the steps of a phase *)

Lemma initialize_phase_fresh w h h' :
  vectors_ok h ->
  initialize_phase w h = Done h' ->
  (forall j p, get (parent_worker_by_committed_job_ h') j = Done p ->
               p = UNASSIGNED) /\
  (forall j v, get (min_slack_worker_by_job_ h') j = Done v -> v = w).
Proof.
  intros V H. lens V. unfold initialize_phase in H.
  apply bind_Done in H as (pw & Fp & H).
  apply bind_Done in H as (cw & Sc & H).
  cbn [parent_worker_by_committed_job_ with_committed_workers] in Fp.
  pose proof (fill_loop _ _ _ _ Fp) as (Lp & Gp & _).
  assert (Hpw : forall j p, get pw j = Done p -> p = UNASSIGNED).
  { intros j p G. pose proof (get_lt _ _ _ G) as Hj.
    rewrite Gp in G by lia. congruence. }
  apply (for_range_inv _ (fun k s =>
           parent_worker_by_committed_job_ s = pw /\
           length (min_slack_worker_by_job_ s) = N.to_nat (dim_ h) /\
           forall j v, j < k -> get (min_slack_worker_by_job_ s) j = Done v ->
                       v = w)) in H; try lia.
  - destruct H as (P & L & E). rewrite P. split; auto.
    intros j v G. apply (E j v); auto. apply get_lt in G. lia.
  - simpl. repeat split; auto. intros; lia.
  - intros k s s' Hk (P & L & E) Hb.
    apply bind_Done in Hb as (sl & _ & Hb).
    apply bind_Done in Hb as (ms & _ & Hb).
    apply bind_Done in Hb as (msw & Sw & Hb). inv_Done Hb. simpl.
    split; auto. split; [apply set_length in Sw; congruence|].
    intros j v Hj. rewrite (get_set _ _ _ _ _ Sw).
    destruct (N.eqb_spec j k) as [->|Hne].
    + congruence.
    + apply E. lia.
Qed.

Lemma update_slack_workers worker h h' :
  update_slack worker h = Done h' ->
  forall j v, get (min_slack_worker_by_job_ h') j = Done v ->
              get (min_slack_worker_by_job_ h) j = Done v \/ v = worker.
Proof.
  unfold update_slack.
  apply (for_range_rel (fun a b =>
           forall j v, get (min_slack_worker_by_job_ b) j = Done v ->
                       get (min_slack_worker_by_job_ a) j = Done v \/ v = worker)).
  - auto.
  - intros a b c Hab Hbc j v G. destruct (Hbc j v G) as [G'|]; auto.
  - intros k s s' H j v. inv_run; auto. simpl.
    rewrite (get_set _ _ _ _ _ E3).
    destruct (j =? k); auto. intros G. inv_Done G. auto.
Qed.

Lemma commit_min_slack_job_spec h j h2 :
  vectors_ok h ->
  commit_min_slack_job h = Done (j, h2) ->
  j < dim_ h /\
  get (parent_worker_by_committed_job_ h) j = Done UNASSIGNED /\
  exists w,
    get (min_slack_worker_by_job_ h) j = Done w /\
    forall k, get (parent_worker_by_committed_job_ h2) k =
              if k =? j then Done w
              else get (parent_worker_by_committed_job_ h) k.
Proof.
  intros V H. lens V. unfold commit_min_slack_job in H.
  destruct (select_min_slack_total h V) as (w & j0 & v & Sel & _ & _ & Spec).
  rewrite Sel in H. cbn [bind fst snd] in H.
  apply bind_Done in H as (h1 & U1 & H).
  apply bind_Done in H as (pw & Sp & H). inv_Done H.
  assert (P1 : parent_worker_by_committed_job_ h1 =
               parent_worker_by_committed_job_ h).
  { destruct (Qltb 0 v).
    - apply update_labeling_kept in U1 as [K _].
      apply (kept_parents _ _ _ _ _ _ _ _ K eq_refl).
    - inv_Done U1. reflexivity. }
  rewrite P1 in Sp. pose proof (set_Done _ _ _ _ Sp) as [Hj _].
  destruct Spec as [(-> & _)|(Hj' & Pj & _ & _ & ->)]; [lia|].
  split; [lia|]. split.
  - rewrite get_nsel by lia. congruence.
  - exists (nsel (min_slack_worker_by_job_ h) j). split.
    + apply get_nsel. lia.
    + intros k. simpl. apply (get_set _ _ _ _ _ Sp).
Qed.

(** * The tree along a phase *)

Lemma tree_ext h h' L :
  dim_ h' = dim_ h ->
  parent_worker_by_committed_job_ h' = parent_worker_by_committed_job_ h ->
  match_job_by_worker_ h' = match_job_by_worker_ h ->
  tree h L -> tree h' L.
Proof.
  intros D P M. apply tree_frame; auto. intros. rewrite M. reflexivity.
Qed.

Lemma parent_ok_ext h h' p L :
  dim_ h' = dim_ h ->
  match_job_by_worker_ h' = match_job_by_worker_ h ->
  parent_ok h p L -> parent_ok h' p L.
Proof. intros D M. unfold parent_ok. rewrite D, M. auto. Qed.

Lemma kept_dim c l m p w s h h' : kept c l m p w s h h' -> dim_ h' = dim_ h.
Proof. intros [Sh _ _ _ _ _ _]. unfold same_shape in Sh. tauto. Qed.

Lemma phase_inv_init w h h' :
  vectors_ok h ->
  w < dim_ h -> get (match_job_by_worker_ h) w = Done UNASSIGNED ->
  initialize_phase w h = Done h' ->
  phase_inv h' [].
Proof.
  intros V Hw Gw H.
  pose proof (initialize_phase_fresh _ _ _ V H) as [Fp Fw].
  apply initialize_phase_kept in H.
  pose proof (kept_matching _ _ _ _ _ _ _ _ H eq_refl) as [M _].
  pose proof (kept_dim _ _ _ _ _ _ _ _ H) as D.
  unfold phase_inv. split; [split|split; [|split]].
  - constructor.
  - intros L1 j L2 E. destruct L1; discriminate.
  - intros j; split; [|intros []].
    intros (p & G & Hp). apply Fp in G. contradiction.
  - intros j v G. apply Fw in G. subst v. split.
    + rewrite D. exact Hw.
    + left. rewrite M. exact Gw.
  - intros j [].
Qed.

Section Commit.
Variables (h h2 : Hungarian) (j : N) (L : list N).
Hypothesis V : vectors_ok h.
Hypothesis MI : mutual_inverse h.
Hypothesis PI : phase_inv h L.
Hypothesis C : commit_min_slack_job h = Done (j, h2).

Lemma commit_fresh : ~ In j L.
Proof.
  destruct (commit_min_slack_job_spec _ _ _ V C) as (_ & Gp & _).
  destruct PI as (_ & Com & _). intros Hin.
  apply Com in Hin as (p & G & Hp). congruence.
Qed.

Lemma commit_tree : tree h2 (j :: L).
Proof.
  destruct (commit_min_slack_job_spec _ _ _ V C) as (Hj & Gp & w & Gw & P).
  pose proof (commit_min_slack_job_kept _ _ _ C) as [K _].
  pose proof (kept_matching _ _ _ _ _ _ _ _ K eq_refl) as [M _].
  destruct PI as (T & _ & W & _).
  apply tree_cons with (h := h) (w := w); auto.
  - eapply kept_dim; eauto.
  - apply commit_fresh.
  - eapply W; eauto.
Qed.

Lemma commit_committed k : job_committed h2 k <-> In k (j :: L).
Proof.
  destruct (commit_min_slack_job_spec _ _ _ V C) as (Hj & Gp & w & Gw & P).
  destruct PI as (_ & Com & W & _).
  assert (Hw : w <> UNASSIGNED).
  { destruct (W _ _ Gw) as [Hw _]. lens V. lia. }
  unfold job_committed. simpl. split.
  - intros (p & G & Hp). rewrite P in G.
    destruct (N.eqb_spec k j) as [->|Hne]; [left; auto|].
    right. apply Com. exists p. auto.
  - intros [<-|Hin].
    + exists w. rewrite P, N.eqb_refl. auto.
    + apply Com in Hin as (p & G & Hp). exists p. rewrite P.
      destruct (N.eqb_spec k j) as [->|Hne]; auto. congruence.
Qed.

Lemma commit_path p :
  get (parent_worker_by_committed_job_ h2) j = Done p ->
  flip_inv h2 j p L.
Proof. intros G. split; auto using commit_tree. Qed.

Lemma commit_grow m cw h4 :
  get (match_worker_by_job_ h2) j = Done m -> m <> UNASSIGNED ->
  set (committed_workers_ h2) m true = Done cw ->
  update_slack m (with_committed_workers h2 cw) = Done h4 ->
  phase_inv h4 (j :: L).
Proof.
  intros Gm Hm Sc Us.
  pose proof (commit_min_slack_job_kept _ _ _ C) as [K Kw].
  pose proof (kept_matching _ _ _ _ _ _ _ _ K eq_refl) as [M Mw].
  pose proof (kept_dim _ _ _ _ _ _ _ _ K) as D.
  pose proof (update_slack_kept _ _ _ Us) as K4.
  pose proof (kept_matching _ _ _ _ _ _ _ _ K4 eq_refl) as [M4 Mw4].
  pose proof (kept_parents _ _ _ _ _ _ _ _ K4 eq_refl) as P4.
  pose proof (kept_dim _ _ _ _ _ _ _ _ K4) as D4.
  unfold same_parents in P4. simpl in M4, Mw4, P4, D4.
  destruct PI as (T & Com & W & Mat).
  assert (MI2 : mutual_inverse h2)
    by (eapply mutual_inverse_same; [split; eauto|exact MI]).
  assert (Gj : get (match_job_by_worker_ h2) m = Done j).
  { apply MI2. auto. }
  unfold phase_inv. split; [|split; [|split]].
  - apply tree_ext with (h := h2); auto. apply commit_tree.
  - intros k. split.
    + intros (p & G & Hp). apply commit_committed. exists p.
      rewrite <- P4. auto.
    + intros Hin. apply commit_committed in Hin as (p & G & Hp).
      exists p. rewrite P4. auto.
  - intros k v H.
    destruct (update_slack_workers _ _ _ Us _ _ H) as [G| ->].
    + simpl in G. rewrite Kw in G.
      apply parent_ok_ext with (h := h); try congruence.
      eapply parent_ok_mono; [|apply (W _ _ G)]. intros; right; auto.
    + split.
      * apply get_lt in Gj. lens V. rewrite D4, D. rewrite M in Gj. lia.
      * right. exists j. rewrite M4. split; auto. left. reflexivity.
  - intros k [<-|Hin].
    + exists m. rewrite Mw4. auto.
    + destruct (Mat k Hin) as (x & G & Hx). exists x. rewrite Mw4, Mw. auto.
Qed.
End Commit.

Lemma flip_progress h j p L :
  vectors_ok h -> flip_inv h j p L ->
  exists r, augment_step j p h = Done r.
Proof.
  intros V [[ND T] G]. lens V.
  destruct (T [] j L eq_refl) as (p' & G' & Hp & Hm).
  assert (p' = p) by congruence. subst p'.
  assert (Hj : j < dim_ h) by (apply get_lt in G; lia).
  destruct (match_total p j h V Hp Hj) as (h1 & M).
  pose proof (kept_parents _ _ _ _ _ _ _ _ (match_kept _ _ _ _ M) eq_refl) as Pa.
  unfold augment_step.
  destruct Hm as [Gu|(k & Gk & Hk)].
  - rewrite Gu. cbn [bind]. rewrite M. cbn [bind]. rewrite N.eqb_refl. eauto.
  - rewrite Gk. cbn [bind]. rewrite M. cbn [bind].
    destruct (k =? UNASSIGNED); [eauto|].
    apply in_split in Hk as (L1 & L2 & ->).
    destruct (T (j :: L1) k L2 eq_refl) as (q & Gq & _).
    rewrite Pa, Gq. cbn [bind]. eauto.
Qed.

Lemma flip_step h j p L h1 j' p' :
  vectors_ok h -> walk_inv h j -> flip_inv h j p L ->
  augment_step j p h = Done (h1, Some (j', p')) ->
  exists L', flip_inv h1 j' p' L' /\ (length L' < length L)%nat.
Proof.
  intros V W [T G] A.
  pose proof (walk_inv_step _ _ _ _ _ _ V W A) as (_ & Gj' & Hj' & Gp').
  pose proof (augment_step_kept _ _ _ _ _ A) as K.
  pose proof (kept_parents _ _ _ _ _ _ _ _ K eq_refl) as Pa.
  pose proof (kept_dim _ _ _ _ _ _ _ _ K) as D.
  unfold same_parents in Pa.
  assert (Hin : In j' L).
  { destruct T as [ND T]. destruct (T [] j L eq_refl) as (q & Gq & _ & Hm).
    assert (q = p) by congruence. subst q.
    destruct Hm as [Hm|(k & Hm & Hk)]; rewrite Gj' in Hm.
    - congruence.
    - assert (k = j') by congruence. subst k. exact Hk. }
  apply in_split in Hin as (L1 & L2 & ->).
  exists L2. split.
  - assert (T2 : tree h (j' :: L2))
      by (apply (tree_suffix h (j :: L1)); exact T).
    split; [|rewrite Pa; exact Gp'].
    apply tree_frame with (h := h); auto.
    intros k q Hk Gq.
    unfold augment_step in A.
    apply bind_Done in A as (temp & _ & A).
    apply bind_Done in A as (hm & M & A).
    assert (hm = h1) by (destruct (temp =? UNASSIGNED); inv_run; auto).
    subst hm. pose proof (match_get _ _ _ _ M) as (Gm & _).
    rewrite Gm. destruct (N.eqb_spec q p) as [->|Hne]; auto.
    exfalso. eapply tree_parent_below; eauto.
  - rewrite length_app. simpl. lia.
Qed.

Lemma augment_total fuel : forall h j p L,
  vectors_ok h -> walk_inv h j -> flip_inv h j p L ->
  (length L < fuel)%nat ->
  exists h', augment fuel j p h = Done h'.
Proof.
  induction fuel as [|fuel IH]; intros h j p L V W F Hf; [lia|].
  cbn [augment].
  destruct (flip_progress _ _ _ _ V F) as ([h1 [[j' p']|]] & A); rewrite A;
    cbn [bind fst snd]; eauto.
  destruct (flip_step _ _ _ _ _ _ _ V W F A) as (L' & F' & Hl).
  apply (IH h1 j' p' L'); auto; try lia.
  - eapply vectors_ok_kept; [eapply augment_step_kept|]; eauto.
  - eapply walk_inv_step; eauto.
Qed.

(** ** The structure at every point of a run *)

Lemma reaches_structure u m st h :
  well_formed m -> reaches u m st h -> structure st h.
Proof.
  intros WF R. induction R; simpl; auto.
  - (* a phase starts *)
    destruct (reaches_matching _ _ _ _ WF R) as [V _].
    exists []. eapply phase_inv_init; eauto.
    apply fetch_unmatched_worker_spec in H. apply H. exact H0.
  - (* a matched job is committed *)
    destruct (reaches_matching _ _ _ _ WF R) as [V MI].
    destruct IHR as (L & PI). exists (j :: L).
    apply (commit_grow h h2 j L V MI PI H m0 cw h4 H0 H1 H2 H3).
  - (* an unmatched job is committed *)
    destruct (reaches_matching _ _ _ _ WF R) as [V MI].
    destruct IHR as (L & PI). exists L.
    apply (commit_path h h2 j L V PI H p H1).
  - destruct (reaches_matching _ _ _ _ WF R) as [V W].
    destruct IHR as (L & F).
    destruct (flip_step _ _ _ _ _ _ _ V W F H) as (L' & F' & _). eauto.
Qed.

(** * The loops never run out of fuel *)

Lemma bind_not_OutOfFuel {A B : Type} (m : outcome A) (k : A -> outcome B) :
  m <> OutOfFuel -> (forall a, m = Done a -> k a <> OutOfFuel) ->
  bind m k <> OutOfFuel.
Proof.
  intros Hm Hk H. apply bind_OutOfFuel in H as [H|(a & Ha & H)].
  - contradiction.
  - eapply Hk; eauto.
Qed.

Ltac no_oof :=
  repeat first
    [ apply get_not_OutOfFuel
    | apply set_not_OutOfFuel
    | apply for_range_not_OutOfFuel; intros ? ?
    | apply bind_not_OutOfFuel; [|intros ? _]
    | match goal with
      | |- (if ?c then _ else _) <> OutOfFuel => destruct c
      end
    | discriminate ].

Lemma get2_not_OutOfFuel m i j : get2 m i j <> OutOfFuel.
Proof. unfold get2. no_oof. Qed.

Lemma set2_not_OutOfFuel m i j v : set2 m i j v <> OutOfFuel.
Proof. unfold set2. no_oof. Qed.

Lemma slack_not_OutOfFuel h w j : slack h w j <> OutOfFuel.
Proof. unfold slack. no_oof; apply get2_not_OutOfFuel. Qed.

Lemma match_not_OutOfFuel w j h : match_ w j h <> OutOfFuel.
Proof. unfold match_. no_oof. Qed.

Ltac no_oof' :=
  repeat first
    [ apply get2_not_OutOfFuel | apply set2_not_OutOfFuel
    | apply slack_not_OutOfFuel | apply match_not_OutOfFuel
    | progress no_oof ].

Lemma Hungarian_ctor_not_OutOfFuel u m : Hungarian_ctor u m <> OutOfFuel.
Proof. unfold Hungarian_ctor. no_oof'. Qed.

Lemma reduce_not_OutOfFuel u h : reduce u h <> OutOfFuel.
Proof. unfold reduce. no_oof'. Qed.

Lemma compute_initial_feasible_solution_not_OutOfFuel h :
  compute_initial_feasible_solution h <> OutOfFuel.
Proof. unfold compute_initial_feasible_solution. no_oof'. Qed.

Lemma greedy_match_not_OutOfFuel h : greedy_match h <> OutOfFuel.
Proof. unfold greedy_match. no_oof'. Qed.

Lemma fetch_unmatched_worker_not_OutOfFuel h :
  fetch_unmatched_worker h <> OutOfFuel.
Proof.
  unfold fetch_unmatched_worker. generalize 0. generalize (N.to_nat (dim_ h)).
  induction n as [|n IH]; intros w; cbn [fetch_from]; [discriminate|].
  no_oof. apply IH.
Qed.

Lemma initialize_phase_not_OutOfFuel w h : initialize_phase w h <> OutOfFuel.
Proof. unfold initialize_phase. no_oof'. Qed.

Lemma update_labeling_not_OutOfFuel d h : update_labeling d h <> OutOfFuel.
Proof. unfold update_labeling. no_oof'. Qed.

Lemma select_min_slack_not_OutOfFuel h : select_min_slack h <> OutOfFuel.
Proof. unfold select_min_slack. no_oof'. Qed.

Lemma update_slack_not_OutOfFuel w h : update_slack w h <> OutOfFuel.
Proof. unfold update_slack. no_oof'. Qed.

Lemma commit_min_slack_job_not_OutOfFuel h :
  commit_min_slack_job h <> OutOfFuel.
Proof.
  unfold commit_min_slack_job. no_oof';
    auto using select_min_slack_not_OutOfFuel, update_labeling_not_OutOfFuel.
Qed.

Lemma project_result_not_OutOfFuel h : project_result h <> OutOfFuel.
Proof. unfold project_result. no_oof'. Qed.

Lemma execute_phase_step_inv wf h b h' :
  execute_phase_step wf h = Done (b, h') ->
  exists j h2 m,
    commit_min_slack_job h = Done (j, h2) /\
    get (match_worker_by_job_ h2) j = Done m /\
    ((m = UNASSIGNED /\ b = true /\
      exists p, get (parent_worker_by_committed_job_ h2) j = Done p /\
                augment wf j p h2 = Done h') \/
     (m <> UNASSIGNED /\ b = false /\
      exists cw, set (committed_workers_ h2) m true = Done cw /\
                 update_slack m (with_committed_workers h2 cw) = Done h')).
Proof.
  unfold execute_phase_step. intros H.
  apply bind_Done in H as ([j h2] & C & H). cbn [fst snd] in H.
  apply bind_Done in H as (m & G & H).
  exists j, h2, m. split; auto. split; auto.
  destruct (N.eqb_spec m UNASSIGNED) as [->|Hne].
  - apply bind_Done in H as (p & Gp & H).
    apply bind_Done in H as (h3 & A & H). inv_Done H.
    left. eauto 6.
  - apply bind_Done in H as (cw & Sc & H).
    apply bind_Done in H as (h4 & Us & H). inv_Done H.
    right. eauto 6.
Qed.

Lemma filter_length_le {T : Type} (f : T -> bool) (l : list T) :
  (length (filter f l) <= length l)%nat.
Proof.
  induction l as [|x l IH]; simpl; auto. destruct (f x); simpl; lia.
Qed.

Section Fuel.
Variable u : Indeterminate.
Variable m : MultiArray2.
Hypothesis WF : well_formed m.

Lemma execute_phase_step_fuel h L :
  reaches u m InPhase h -> phase_inv h L ->
  execute_phase_step (loop_fuel h) h <> OutOfFuel.
Proof.
  intros R PI.
  destruct (reaches_matching _ _ _ _ WF R) as [V MI]. simpl in MI.
  unfold execute_phase_step.
  apply bind_not_OutOfFuel; [apply commit_min_slack_job_not_OutOfFuel|].
  intros [j h2] C. cbn [fst snd].
  apply bind_not_OutOfFuel; [apply get_not_OutOfFuel|].
  intros w G.
  destruct (N.eqb_spec w UNASSIGNED) as [->|Hne];
    [|no_oof'; apply update_slack_not_OutOfFuel].
  apply bind_not_OutOfFuel; [apply get_not_OutOfFuel|].
  intros p Gp.
  pose proof (commit_min_slack_job_kept _ _ _ C) as [K _].
  assert (V2 : vectors_ok h2) by (eapply vectors_ok_kept; eauto).
  assert (F : flip_inv h2 j p L) by (apply (commit_path h h2 j L V PI C p Gp)).
  destruct (augment_total (loop_fuel h) h2 j p L) as (h3 & ->); auto.
  - apply walk_inv_start; auto.
    eapply mutual_inverse_same; [|exact MI].
    apply (kept_matching _ _ _ _ _ _ _ _ K eq_refl).
  - destruct F as [T _]. apply tree_bound in T; auto.
    rewrite (kept_dim _ _ _ _ _ _ _ _ K) in T.
    unfold loop_fuel. simpl in T. lia.
  - discriminate.
Qed.

Lemma execute_phase_loop_fuel fuel : forall h L,
  reaches u m InPhase h -> phase_inv h L ->
  (N.to_nat (dim_ h) < fuel + length L)%nat ->
  execute_phase_loop fuel (loop_fuel h) h <> OutOfFuel.
Proof.
  induction fuel as [|fuel IH]; intros h L R PI Hf.
  - exfalso. destruct (reaches_matching _ _ _ _ WF R) as [V _].
    destruct PI as [T _]. apply tree_bound in T; auto. simpl in Hf. lia.
  - cbn [execute_phase_loop].
    apply bind_not_OutOfFuel; [eapply execute_phase_step_fuel; eauto|].
    intros [b h'] St. cbn [fst snd].
    destruct (reaches_matching _ _ _ _ WF R) as [V MI]. simpl in MI.
    apply execute_phase_step_inv in St
      as (j & h2 & w & C & G & [(-> & -> & _)|(Hw & -> & cw & Sc & Us)]).
    + discriminate.
    + pose proof (commit_min_slack_job_kept _ _ _ C) as [K _].
      pose proof (update_slack_kept _ _ _ Us) as K4.
      assert (D : dim_ h' = dim_ h).
      { rewrite (kept_dim _ _ _ _ _ _ _ _ K4). simpl.
        apply (kept_dim _ _ _ _ _ _ _ _ K). }
      replace (loop_fuel h) with (loop_fuel h')
        by (unfold loop_fuel; rewrite D; reflexivity).
      apply (IH h' (j :: L)).
      * eapply reaches_commit; eauto.
      * apply (commit_grow h h2 j L V MI PI C w cw h' G Hw Sc Us).
      * rewrite D. simpl. lia.
Qed.

Lemma phases_fuel fuel : forall w h,
  reaches u m BetweenPhases h ->
  fetch_unmatched_worker h = Done w ->
  (N.to_nat (dim_ h) < fuel + matching_size h)%nat ->
  phases fuel w h <> OutOfFuel.
Proof.
  induction fuel as [|fuel IH]; intros w h R F Hf.
  - exfalso. destruct (reaches_matching _ _ _ _ WF R) as [V _]. lens V.
    pose proof (filter_length_le assigned (match_job_by_worker_ h)).
    unfold matching_size in Hf. simpl in Hf. lia.
  - cbn [phases]. destruct (N.ltb_spec w (dim_ h)) as [Hw|Hw]; [|discriminate].
    destruct (reaches_matching _ _ _ _ WF R) as [V MI]. simpl in MI.
    pose proof (fetch_unmatched_worker_spec _ _ F) as (_ & _ & Un).
    apply bind_not_OutOfFuel; [apply initialize_phase_not_OutOfFuel|].
    intros h1 I.
    assert (R1 : reaches u m InPhase h1) by (eapply reaches_init; eauto).
    pose proof (initialize_phase_kept _ _ _ I) as K1.
    pose proof (kept_dim _ _ _ _ _ _ _ _ K1) as D1.
    apply bind_not_OutOfFuel.
    { unfold execute_phase. apply (execute_phase_loop_fuel _ h1 []); auto.
      - eapply phase_inv_init; eauto.
      - unfold loop_fuel. simpl. lia. }
    intros h2 P.
    apply bind_not_OutOfFuel; [apply fetch_unmatched_worker_not_OutOfFuel|].
    intros w' F'.
    assert (R2 : reaches u m BetweenPhases h2)
      by (eapply execute_phase_loop_reaches; eauto).
    assert (D2 : dim_ h2 = dim_ h).
    { destruct (reaches_dims _ _ _ _ R2) as (_ & _ & ->).
      destruct (reaches_dims _ _ _ _ R) as (_ & _ & ->). reflexivity. }
    apply IH; auto.
    lens V.
    destruct (execute_phase_loop_matching _ _ _ _ P) as [Sz _].
    { destruct K1 as [Sh _ _ _ _ _ _]. unfold same_shape in Sh.
      unfold uint32. lia. }
    pose proof (kept_matching _ _ _ _ _ _ _ _ K1 eq_refl) as [M1 _].
    unfold matching_size in *. rewrite M1 in Sz. rewrite D2. lia.
Qed.

Lemma execute_fuel h :
  reaches u m Constructed h -> execute u h <> OutOfFuel.
Proof.
  intros R. unfold execute.
  apply bind_not_OutOfFuel; [apply reduce_not_OutOfFuel|]. intros h1 H1.
  apply bind_not_OutOfFuel;
    [apply compute_initial_feasible_solution_not_OutOfFuel|]. intros h2 H2.
  apply bind_not_OutOfFuel; [apply greedy_match_not_OutOfFuel|]. intros h3 H3.
  apply bind_not_OutOfFuel; [apply fetch_unmatched_worker_not_OutOfFuel|].
  intros w F.
  apply bind_not_OutOfFuel; [|intros; apply project_result_not_OutOfFuel].
  apply phases_fuel; auto.
  - eapply reaches_greedy; [eapply reaches_labels;
      [eapply reaches_reduce|]|]; eauto.
  - unfold loop_fuel. lia.
Qed.

Lemma solve_fuel : solve u m <> OutOfFuel.
Proof.
  unfold solve.
  apply bind_not_OutOfFuel; [apply Hungarian_ctor_not_OutOfFuel|].
  intros h H. apply execute_fuel. apply reaches_ctor. exact H.
Qed.
End Fuel.

(** * Magnitudes along a run *)

Lemma injective_vector (a b : list N) :
  (forall i x, nth_error a i = Some x -> get b x = Done (N.of_nat i)) ->
  NoDup a /\ forall x, In x a -> x < N.of_nat (length b).
Proof.
  intros Back. split.
  - apply NoDup_nth_error. intros i k Hi E.
    destruct (nth_error a i) as [x|] eqn:Ei.
    + symmetry in E. apply Back in Ei. apply Back in E.
      rewrite Ei in E. inv_Done E. lia.
    + apply nth_error_None in Ei. lia.
  - intros x Hx. apply In_nth_error in Hx as (i & Hi).
    apply Back in Hi. apply get_lt in Hi. exact Hi.
Qed.

(** A worker without a job leaves a job without a worker. *)
Lemma unmatched_job_exists h r :
  vectors_ok h -> mutual_inverse h ->
  get (match_job_by_worker_ h) r = Done UNASSIGNED ->
  exists j, j < dim_ h /\ get (match_worker_by_job_ h) j = Done UNASSIGNED.
Proof.
  intros V MI Gr. lens V.
  destruct (in_dec N.eq_dec UNASSIGNED (match_worker_by_job_ h)) as [Hin|Hnin].
  - apply In_nth_error in Hin as (i & Hi). exists (N.of_nat i). split.
    + assert (i < length (match_worker_by_job_ h))%nat
        by (apply nth_error_Some; congruence). lia.
    + unfold get. rewrite Nat2N.id, Hi. reflexivity.
  - exfalso.
    destruct (injective_vector (match_worker_by_job_ h) (match_job_by_worker_ h))
      as [ND B].
    { intros i x Hi. apply MI. split.
      - unfold get. rewrite Nat2N.id, Hi. reflexivity.
      - intros ->. apply Hnin. eapply nth_error_In; eauto. }
    assert (P : Permutation (match_worker_by_job_ h) (iota (dim_ h))).
    { apply full_vector_Permutation; auto. intros x Hx. apply B in Hx. lia. }
    assert (Hr : In r (match_worker_by_job_ h)).
    { eapply Permutation_in; [symmetry; exact P|].
      apply In_iota. apply get_lt in Gr. lia. }
    apply In_nth_error in Hr as (i & Hi).
    assert (G : get (match_job_by_worker_ h) r = Done (N.of_nat i)).
    { apply MI. split.
      - unfold get. rewrite Nat2N.id, Hi. reflexivity.
      - apply get_lt in Gr. lia. }
    rewrite Gr in G. inv_Done G.
    assert (i < length (match_worker_by_job_ h))%nat
      by (apply nth_error_Some; congruence). lia.
Qed.

Lemma match_jobs_stay w j h h' :
  vectors_ok h -> match_ w j h = Done h' ->
  forall k, get (match_worker_by_job_ h') k = Done UNASSIGNED ->
            get (match_worker_by_job_ h) k = Done UNASSIGNED.
Proof.
  intros V M k. lens V.
  pose proof (match_get _ _ _ _ M) as (_ & Gw & Hw & _).
  rewrite Gw. destruct (k =? j); auto. intros E. inv_Done E. lia.
Qed.

Lemma greedy_match_jobs_stay h h' :
  vectors_ok h -> greedy_match h = Done h' ->
  forall k, get (match_worker_by_job_ h') k = Done UNASSIGNED ->
            get (match_worker_by_job_ h) k = Done UNASSIGNED.
Proof.
  intros V H.
  cut (vectors_ok h ->
       vectors_ok h' /\
       forall k, get (match_worker_by_job_ h') k = Done UNASSIGNED ->
                 get (match_worker_by_job_ h) k = Done UNASSIGNED);
    [tauto|].
  revert H. unfold greedy_match.
  set (R := fun a b : Hungarian =>
         vectors_ok a ->
         vectors_ok b /\
         forall k, get (match_worker_by_job_ b) k = Done UNASSIGNED ->
                   get (match_worker_by_job_ a) k = Done UNASSIGNED).
  assert (Rrefl : forall s, R s s) by (intros s Vs; auto).
  assert (Rtrans : forall a b c, R a b -> R b c -> R a c).
  { intros a b c Hab Hbc Va. destruct (Hab Va) as [Vb Sb].
    destruct (Hbc Vb) as [Vc Sc]. auto. }
  apply (for_range_rel R); auto.
  intros w s s'. apply (for_range_rel R); auto.
  intros j t t' H Vt. inv_run; auto.
  split.
  - eapply vectors_ok_kept; [eapply match_kept|]; eauto.
  - eapply match_jobs_stay; eauto.
Qed.

Lemma labels_inv_step u h h' :
  dim_ h' = dim_ h -> cost_matrix_ h' = cost_matrix_ h ->
  (forall w, w < dim_ h ->
     (qsel (label_by_worker_ h) w <= qsel (label_by_worker_ h') w)%Q) ->
  (forall j, j < dim_ h ->
     get (match_worker_by_job_ h') j = Done UNASSIGNED ->
     get (match_worker_by_job_ h) j = Done UNASSIGNED /\
     qsel (label_by_job_ h') j = qsel (label_by_job_ h) j) ->
  labels_inv u h -> labels_inv u h'.
Proof.
  intros D C LW LJ (B & W & J). unfold labels_inv. rewrite D, C.
  split; [exact B|]. split.
  - intros w Hw. specialize (W w Hw). specialize (LW w Hw). lra.
  - intros j Hj G. destruct (LJ j Hj G) as [G' ->]. auto.
Qed.

(** A call that only touches the matching, and never unmatches a job. *)
Lemma labels_inv_matching u h h' c p w s :
  kept c true false p w s h h' -> cost_matrix_ h' = cost_matrix_ h ->
  (forall k, get (match_worker_by_job_ h') k = Done UNASSIGNED ->
             get (match_worker_by_job_ h) k = Done UNASSIGNED) ->
  labels_inv u h -> labels_inv u h'.
Proof.
  intros K C S.
  pose proof (kept_labels _ _ _ _ _ _ _ _ K eq_refl) as [LW LJ].
  apply labels_inv_step; auto.
  - eapply kept_dim; eauto.
  - intros. rewrite LW. apply Qle_refl.
  - intros j Hj G. rewrite LJ. auto.
Qed.

Lemma uncommitted_of_unmatched h L j :
  vectors_ok h -> phase_inv h L -> j < dim_ h ->
  get (match_worker_by_job_ h) j = Done UNASSIGNED ->
  nsel (parent_worker_by_committed_job_ h) j = UNASSIGNED.
Proof.
  intros V (_ & Com & _ & Mat) Hj G. lens V.
  destruct (N.eq_dec (nsel (parent_worker_by_committed_job_ h) j) UNASSIGNED)
    as [E|E]; auto.
  exfalso.
  assert (C : job_committed h j).
  { exists (nsel (parent_worker_by_committed_job_ h) j). split; auto.
    apply get_nsel. lia. }
  apply Com, Mat in C as (x & Gx & Hx). congruence.
Qed.

Section CommitNumbers.
Variables (u : Indeterminate) (h : Hungarian) (r : N) (L : list N).
Hypothesis OK : state_ok h.
Hypothesis LI : labels_inv u h.
Hypothesis RI : root_inv h r.
Hypothesis PI : phase_inv h L.

(** The optional call of [update_labeling] in a turn of the phase. *)
Lemma relabel_numbers v h1 :
  (forall j, j < dim_ h ->
     nsel (parent_worker_by_committed_job_ h) j = UNASSIGNED ->
     (v <= qsel (min_slack_by_job_ h) j)%Q) ->
  (if Qltb 0 v then update_labeling v h else Done h) = Done h1 ->
  state_ok h1 /\ labels_inv u h1 /\ root_inv h1 r /\
  dim_ h1 = dim_ h /\
  parent_worker_by_committed_job_ h1 = parent_worker_by_committed_job_ h /\
  match_worker_by_job_ h1 = match_worker_by_job_ h /\
  match_job_by_worker_ h1 = match_job_by_worker_ h /\
  min_slack_worker_by_job_ h1 = min_slack_worker_by_job_ h.
Proof.
  intros Hmin H. destruct (Qltb 0 v) eqn:Q.
  2:{ inv_Done H. repeat split; auto; try apply OK; try apply LI; apply RI. }
  apply Qltb_true in Q. destruct OK as [V MO].
  destruct (update_labeling_total v h V) as (h1' & H' & ELW & ELJ & EMS).
  rewrite H' in H. inv_Done H.
  pose proof (update_labeling_kept _ _ _ H') as [K Kw].
  pose proof (kept_dim _ _ _ _ _ _ _ _ K) as D.
  pose proof (kept_cost _ _ _ _ _ _ _ _ K eq_refl) as C.
  pose proof (kept_matching _ _ _ _ _ _ _ _ K eq_refl) as [Mj Mw].
  pose proof (kept_parents _ _ _ _ _ _ _ _ K eq_refl) as Pa.
  pose proof (kept_committed _ _ _ _ _ _ _ _ K eq_refl) as Cw.
  unfold same_cost, same_parents, same_committed in *.
  destruct RI as (Hr & Br & Gr & Sl).
  split; [eapply state_ok_kept; eauto; split; auto|].
  split; [|split; [|repeat split; auto]].
  - apply labels_inv_step with (h := h); auto.
    + intros w Hw. rewrite ELW by auto.
      destruct (bsel (committed_workers_ h) w); lra.
    + intros j Hj G. rewrite Mw in G. split; auto.
      rewrite ELJ by auto.
      rewrite (uncommitted_of_unmatched h L j V PI Hj G), N.eqb_refl.
      reflexivity.
  - unfold root_inv. rewrite D, Cw, Mj, Pa. repeat split; auto.
    intros j Hj Pj. unfold slack_value. rewrite C.
    rewrite EMS, ELW, ELJ by auto. rewrite Br, Pj, N.eqb_refl.
    specialize (Sl j Hj Pj). unfold slack_value in Sl. lra.
Qed.

Lemma commit_numbers j h2 :
  commit_min_slack_job h = Done (j, h2) ->
  state_ok h2 /\ labels_inv u h2 /\ root_inv h2 r.
Proof.
  intros H. unfold commit_min_slack_job in H.
  destruct OK as [V MO].
  destruct (select_min_slack_total h V) as (w & j0 & v & Sel & _ & Hmin & Spec).
  rewrite Sel in H. cbn [bind fst snd] in H.
  apply bind_Done in H as (h1 & U1 & H).
  apply bind_Done in H as (pw & Sp & H). inv_Done H.
  destruct (relabel_numbers v h1 Hmin U1)
    as ([V1 MO1] & LI1 & (Hr & Br & Gr & Sl) & D & Pa & Mw & Mj & _).
  pose proof (set_Done _ _ _ _ Sp) as [Hlt Ep].
  lens V1.
  assert (Pj : nsel (parent_worker_by_committed_job_ h) j = UNASSIGNED).
  { destruct Spec as [(-> & _)|(_ & Pj & _)]; auto. lia. }
  split; [|split].
  - split; [|exact MO1].
    unfold vectors_ok in *. simpl. rewrite (set_length _ _ _ _ Sp). exact V1.
  - exact LI1.
  - unfold root_inv. simpl. repeat split; auto.
    intros k Hk Pk. apply Sl; auto.
    rewrite Ep, nsel_update in Pk by lia.
    destruct (N.eqb_spec k j) as [->|Hne]; [|exact Pk]. congruence.
Qed.

(** The choice of [min_slack_job] succeeds: a job without a worker is
    uncommitted and its recorded slack is below [POSITIVE_INFINITY]. *)
Lemma commit_total :
  vectors_ok h -> mutual_inverse h ->
  exists w j v h2,
    select_min_slack h = Done (w, j, v) /\
    j < dim_ h /\ w < dim_ h /\ (v < POSITIVE_INFINITY)%Q /\
    get (parent_worker_by_committed_job_ h) j = Done UNASSIGNED /\
    commit_min_slack_job h = Done (j, h2).
Proof.
  intros V MI. lens V.
  destruct (select_min_slack_total h V) as (w & j & v & Sel & _ & Hmin & Spec).
  destruct RI as (Hr & Br & Gr & Sl). destruct LI as (B & W & J).
  destruct (unmatched_job_exists h r V MI Gr) as (ju & Hju & Gju).
  pose proof (uncommitted_of_unmatched h L ju V PI Hju Gju) as Pju.
  assert (Hv : (v < POSITIVE_INFINITY)%Q).
  { specialize (Hmin ju Hju Pju). specialize (Sl ju Hju Pju).
    specialize (B r ju Hr Hju). specialize (W r Hr). specialize (J ju Hju Gju).
    unfold slack_value in Sl. lra. }
  destruct Spec as [(_ & _ & ->)|(Hj & Pj & Ev & _ & Ew)].
  { exfalso. lra. }
  assert (Hw : w < dim_ h).
  { destruct PI as (_ & _ & Wk & _).
    destruct (Wk j w) as [Hw _]; auto. subst w. apply get_nsel. lia. }
  unfold commit_min_slack_job. rewrite Sel. cbn [bind fst snd].
  assert (exists h1, (if Qltb 0 v then update_labeling v h else Done h) = Done h1)
    as (h1 & U1).
  { destruct (Qltb 0 v); eauto.
    destruct (update_labeling_total v h V) as (h1 & -> & _). eauto. }
  rewrite U1. cbn [bind].
  destruct (relabel_numbers v h1 Hmin U1) as ([V1 _] & _ & _ & D & _).
  lens V1. rewrite set_total by lia. cbn [bind].
  exists w, j, v. eexists. repeat split; auto.
  rewrite get_nsel by lia. congruence.
Qed.
End CommitNumbers.

Lemma grow_numbers u h2 r m cw h4 :
  state_ok h2 -> labels_inv u h2 -> root_inv h2 r ->
  set (committed_workers_ h2) m true = Done cw ->
  update_slack m (with_committed_workers h2 cw) = Done h4 ->
  state_ok h4 /\ labels_inv u h4 /\ root_inv h4 r.
Proof.
  intros [V MO] LI (Hr & Br & Gr & Sl) Sc Us. lens V.
  pose proof (set_Done _ _ _ _ Sc) as [Hm Ec].
  set (h3 := with_committed_workers h2 cw) in *.
  assert (OK3 : state_ok h3).
  { split; [|exact MO]. unfold vectors_ok in *. simpl.
    rewrite (set_length _ _ _ _ Sc). exact V. }
  destruct (update_slack_total m h3 OK3) as (h4' & Us' & E); [simpl; lia|].
  assert (h4' = h4) by congruence. subst h4'. clear Us'.
  pose proof (update_slack_kept _ _ _ Us) as K.
  pose proof (kept_dim _ _ _ _ _ _ _ _ K) as D.
  pose proof (kept_cost _ _ _ _ _ _ _ _ K eq_refl) as C.
  pose proof (kept_labels _ _ _ _ _ _ _ _ K eq_refl) as [LW LJ].
  pose proof (kept_matching _ _ _ _ _ _ _ _ K eq_refl) as [Mj Mw].
  pose proof (kept_parents _ _ _ _ _ _ _ _ K eq_refl) as Pa.
  pose proof (kept_committed _ _ _ _ _ _ _ _ K eq_refl) as Cw.
  unfold same_cost, same_parents, same_committed in *. simpl in *.
  split; [eapply state_ok_kept; eauto|]. split.
  - apply labels_inv_step with (h := h2); auto.
    + intros w Hw. rewrite LW. apply Qle_refl.
    + intros j Hj G. rewrite Mw in G. rewrite LJ. auto.
  - unfold root_inv. rewrite D, Cw, Mj, Pa. repeat split; auto.
    + rewrite Ec, bsel_update by lia. destruct (r =? m); auto.
    + intros j Hj Pj. specialize (E j Hj). simpl in E. rewrite Pj, N.eqb_refl in E.
      specialize (Sl j Hj Pj).
      unfold slack_value in *. simpl in *. rewrite C, LW, LJ.
      destruct E as [(-> & _ & _)|(-> & _ & Lt)]; lra.
Qed.

(** * The magnitudes at every point of a run, and its success *)

Section Numbers.
Variable u : Indeterminate.
Variable m : MultiArray2.
Hypothesis WF : well_formed m.
Hypothesis NW : no_wrap (N.max (extent0 m) (extent1 m)).
Hypothesis BD : bounded u m.

Lemma ctor_numbers h :
  Hungarian_ctor u m = Done h -> numbers u m Constructed h.
Proof.
  intros H.
  destruct (Hungarian_ctor_total u m WF NW) as (h' & H' & MO & E).
  assert (h' = h) by congruence. subst h'.
  destruct (Hungarian_ctor_inverse u m h WF H) as [V _].
  pose proof (Hungarian_ctor_shape u m h H)
    as (_ & _ & _ & _ & _ & _ & _ & _ & _ & _ & _ & _ & _ & G).
  split; [split; auto|]. split; auto.
  intros w Hw. apply (get_Done_nth 0%Q). apply G. exact Hw.
Qed.

Lemma reduce_numbers h h' :
  dim_ h = N.max (extent0 m) (extent1 m) ->
  numbers u m Constructed h -> reduce u h = Done h' ->
  numbers u m Reduced h'.
Proof.
  intros D ([V MO] & E & LW) H.
  destruct (reduce_total u h MO) as (cm & H' & MO' & E').
  assert (h' = with_cost_matrix h cm) by congruence. subst h'. simpl.
  split; [split; auto|]. split; auto.
  intros w j Hw Hj. simpl in Hw, Hj. rewrite E' by auto. split.
  - apply reduced_nonneg; auto.
  - pose proof (reduced_le_row_reduced (cost_matrix_ h) (dim_ h) w j Hj) as Le.
    unfold row_reduced, row_min in Le.
    destruct (min_upto_is_min (entry (cost_matrix_ h) w) (N.to_nat (dim_ h))
                (N.to_nat j)) as (k & Hk & Ek); try lia.
    { rewrite N2Nat.id, E by auto. destruct (BD w j j) as [B1 _]; try lia. exact B1. }
    rewrite Ek in Le. rewrite !E in Le by lia.
    destruct (BD w j (N.of_nat k)) as [_ B]; try lia. lra.
Qed.

Lemma labels_numbers h h' :
  numbers u m Reduced h -> compute_initial_feasible_solution h = Done h' ->
  numbers u m Labelled h'.
Proof.
  intros ([V MO] & E & LW) H. lens V.
  destruct (compute_initial_feasible_solution_total h MO) as (lj & H' & L & El);
    auto.
  assert (h' = with_label_by_job h lj) by congruence. subst h'. simpl.
  split.
  - split; [|exact MO]. unfold vectors_ok in *. simpl. rewrite L. tauto.
  - unfold labels_inv. simpl. split; [|split].
    + intros w j Hw Hj. apply E; auto.
    + intros w Hw. rewrite LW by auto. apply Qle_refl.
    + intros j Hj _. simpl in Hj. rewrite El by auto.
      destruct (min_upto_attained (fun w => entry (cost_matrix_ h) w j)
                  (N.to_nat (dim_ h))) as [Ei|(i & Hi & Ei)]; rewrite Ei.
      * pose proof POSITIVE_INFINITY_pos. lra.
      * apply E; lia.
Qed.

Lemma reaches_numbers st h : reaches u m st h -> numbers u m st h.
Proof.
  intros R. induction R.
  - apply ctor_numbers. exact H.
  - eapply reduce_numbers; eauto.
    destruct (reaches_dims _ _ _ _ R) as (_ & _ & D). exact D.
  - eapply labels_numbers; eauto.
  - (* greedy_match *)
    destruct IHR as ([V MO] & LI).
    pose proof (greedy_match_kept _ _ H) as K.
    split; [eapply state_ok_kept; eauto; split; auto|].
    simpl. eapply labels_inv_matching; eauto.
    + apply (kept_cost _ _ _ _ _ _ _ _ K eq_refl).
    + eapply greedy_match_jobs_stay; eauto.
  - (* initialize_phase *)
    destruct IHR as ([V MO] & LI). simpl in LI.
    pose proof (initialize_phase_kept _ _ _ H1) as K.
    pose proof (kept_dim _ _ _ _ _ _ _ _ K) as D.
    pose proof (kept_cost _ _ _ _ _ _ _ _ K eq_refl) as C.
    pose proof (kept_labels _ _ _ _ _ _ _ _ K eq_refl) as [LW LJ].
    pose proof (kept_matching _ _ _ _ _ _ _ _ K eq_refl) as [Mj Mw].
    unfold same_cost in C.
    destruct (initialize_phase_total w h (conj V MO) H0)
      as (h'' & H'' & Gp & Bc & Ems & _).
    assert (h'' = h') by congruence. subst h''.
    split; [eapply state_ok_kept; eauto; split; auto|]. split.
    + apply labels_inv_step with (h := h); auto.
      * intros x Hx. rewrite LW. apply Qle_refl.
      * intros j Hj G. rewrite Mw in G. rewrite LJ. auto.
    + exists w. unfold root_inv. rewrite D, Mj. repeat split; auto.
      * rewrite Bc by auto. apply N.eqb_refl.
      * apply fetch_unmatched_worker_spec in H. apply H. exact H0.
      * intros j Hj _. rewrite Ems by auto.
        unfold slack_value. rewrite C, LW, LJ. apply Qle_refl.
  - (* a matched job is committed *)
    destruct IHR as (OK & LI & r & RI).
    destruct (reaches_structure _ _ _ _ WF R) as (L & PI).
    destruct (commit_numbers u h r L OK LI RI PI j h2 H) as (OK2 & LI2 & RI2).
    destruct (grow_numbers u h2 r m0 cw h4 OK2 LI2 RI2 H2 H3)
      as (OK4 & LI4 & RI4).
    split; auto. split; auto. exists r. exact RI4.
  - (* an unmatched job is committed *)
    destruct IHR as (OK & LI & r & RI).
    destruct (reaches_structure _ _ _ _ WF R) as (L & PI).
    destruct (commit_numbers u h r L OK LI RI PI j h2 H) as (OK2 & LI2 & RI2).
    split; auto.
  - (* one edge of the path is flipped *)
    destruct IHR as ([V MO] & LI). simpl in LI.
    pose proof (augment_step_kept _ _ _ _ _ H) as K.
    split; [eapply state_ok_kept; eauto; split; auto|].
    simpl. eapply labels_inv_matching; eauto.
    + apply (kept_cost _ _ _ _ _ _ _ _ K eq_refl).
    + unfold augment_step in H.
      apply bind_Done in H as (temp & _ & H).
      apply bind_Done in H as (hm & M & H).
      assert (hm = h1) by (destruct (temp =? UNASSIGNED); inv_run; auto).
      subst hm. eapply match_jobs_stay; eauto.
  - destruct IHR as ([V MO] & LI). simpl in LI.
    pose proof (augment_step_kept _ _ _ _ _ H) as K.
    split; [eapply state_ok_kept; eauto; split; auto|].
    simpl. eapply labels_inv_matching; eauto.
    + apply (kept_cost _ _ _ _ _ _ _ _ K eq_refl).
    + unfold augment_step in H.
      apply bind_Done in H as (temp & _ & H).
      apply bind_Done in H as (hm & M & H).
      assert (hm = h1) by (destruct (temp =? UNASSIGNED); inv_run; auto).
      subst hm. eapply match_jobs_stay; eauto.
Qed.

(** ** No step of a run faults *)

Lemma execute_phase_step_total h :
  reaches u m InPhase h ->
  exists b h', execute_phase_step (loop_fuel h) h = Done (b, h').
Proof.
  intros R.
  destruct (reaches_matching _ _ _ _ WF R) as [V MI]. simpl in MI.
  destruct (reaches_structure _ _ _ _ WF R) as (L & PI).
  destruct (reaches_numbers _ _ R) as (OK & LI & r & RI).
  destruct (commit_total u h r L OK LI RI PI V MI)
    as (w & j & v & h2 & _ & Hj & _ & _ & _ & C).
  destruct (commit_numbers u h r L OK LI RI PI j h2 C) as ([V2 MO2] & _ & _).
  pose proof (commit_min_slack_job_kept _ _ _ C) as [K _].
  pose proof (kept_dim _ _ _ _ _ _ _ _ K) as D.
  assert (MI2 : mutual_inverse h2).
  { eapply mutual_inverse_same; [|exact MI].
    apply (kept_matching _ _ _ _ _ _ _ _ K eq_refl). }
  lens V2.
  unfold execute_phase_step. rewrite C. cbn [bind fst snd].
  rewrite (get_nsel (match_worker_by_job_ h2) j) by lia. cbn [bind].
  destruct (N.eqb_spec (nsel (match_worker_by_job_ h2) j) UNASSIGNED)
    as [E|E].
  - rewrite (get_nsel (parent_worker_by_committed_job_ h2) j) by lia.
    cbn [bind].
    destruct (augment_total (loop_fuel h) h2 j
                (nsel (parent_worker_by_committed_job_ h2) j) L)
      as (h3 & ->); auto.
    + apply walk_inv_start; auto. rewrite <- E. apply get_nsel. lia.
    + apply (commit_path h h2 j L V PI C). apply get_nsel. lia.
    + destruct PI as [T _]. apply tree_bound in T; auto.
      unfold loop_fuel. lia.
    + cbn [bind]. eauto.
  - assert (Hm : nsel (match_worker_by_job_ h2) j < dim_ h2).
    { assert (G : get (match_job_by_worker_ h2)
                    (nsel (match_worker_by_job_ h2) j) = Done j).
      { apply MI2. split; auto. apply get_nsel. lia. }
      apply get_lt in G. lia. }
    rewrite set_total by lia. cbn [bind].
    destruct (update_slack_total (nsel (match_worker_by_job_ h2) j)
                (with_committed_workers h2
                   (update (committed_workers_ h2)
                      (N.to_nat (nsel (match_worker_by_job_ h2) j)) true)))
      as (h4 & -> & _); simpl; auto.
    + split; [|exact MO2]. unfold vectors_ok in *. simpl.
      rewrite length_update. exact V2.
    + cbn [bind]. eauto.
Qed.

Lemma execute_phase_loop_total fuel : forall h,
  reaches u m InPhase h ->
  execute_phase_loop fuel (loop_fuel h) h = OutOfFuel \/
  exists h', execute_phase_loop fuel (loop_fuel h) h = Done h'.
Proof.
  induction fuel as [|fuel IH]; intros h R; cbn [execute_phase_loop]; auto.
  destruct (execute_phase_step_total h R) as (b & h' & St).
  rewrite St. cbn [bind fst snd]. destruct b; eauto.
  apply execute_phase_step_inv in St
    as (j & h2 & w & C & G & [(_ & Hb & _)|(Hw & _ & cw & Sc & Us)]);
    [discriminate|].
  assert (R' : reaches u m InPhase h') by (eapply reaches_commit; eauto).
  replace (loop_fuel h) with (loop_fuel h'); [apply IH; exact R'|].
  unfold loop_fuel.
  destruct (reaches_dims _ _ _ _ R') as (_ & _ & ->).
  destruct (reaches_dims _ _ _ _ R) as (_ & _ & ->). reflexivity.
Qed.

Lemma execute_phase_total h :
  reaches u m InPhase h -> phase_inv h [] ->
  exists h', execute_phase h = Done h'.
Proof.
  intros R PI. unfold execute_phase.
  destruct (execute_phase_loop_total (loop_fuel h) h R) as [E|E]; auto.
  exfalso. revert E. apply (execute_phase_loop_fuel u m WF _ h []); auto.
  unfold loop_fuel. simpl. lia.
Qed.

Lemma phases_total fuel : forall w h,
  reaches u m BetweenPhases h ->
  fetch_unmatched_worker h = Done w ->
  phases fuel w h = OutOfFuel \/ exists h', phases fuel w h = Done h'.
Proof.
  induction fuel as [|fuel IH]; intros w h R F; cbn [phases]; auto.
  destruct (N.ltb_spec w (dim_ h)) as [Hw|Hw]; eauto.
  destruct (reaches_matching _ _ _ _ WF R) as [V MI]. simpl in MI.
  destruct (reaches_numbers _ _ R) as (OK & _).
  destruct (initialize_phase_total w h OK Hw) as (h1 & I & _).
  rewrite I. cbn [bind].
  assert (R1 : reaches u m InPhase h1) by (eapply reaches_init; eauto).
  destruct (execute_phase_total h1 R1) as (h2 & P).
  { eapply phase_inv_init; eauto.
    apply fetch_unmatched_worker_spec in F. apply F. exact Hw. }
  rewrite P. cbn [bind].
  assert (R2 : reaches u m BetweenPhases h2)
    by (eapply execute_phase_loop_reaches; eauto).
  destruct (reaches_matching _ _ _ _ WF R2) as [V2 _].
  destruct (fetch_unmatched_worker_total h2 V2) as (w' & F').
  rewrite F'. cbn [bind]. apply IH; auto.
Qed.

Lemma execute_total h :
  reaches u m Constructed h -> exists r, execute u h = Done r.
Proof.
  intros R. unfold execute.
  destruct (reaches_numbers _ _ R) as ([V MO] & _).
  destruct (reduce_total u h MO) as (cm & Run1 & _). rewrite Run1. cbn [bind].
  pose proof (reaches_reduce _ _ _ _ R Run1) as R1.
  destruct (reaches_numbers _ _ R1) as ([V1 MO1] & _). lens V1.
  destruct (compute_initial_feasible_solution_total _ MO1) as (lj & Run2 & _);
    auto.
  rewrite Run2. cbn [bind].
  pose proof (reaches_labels _ _ _ _ R1 Run2) as R2.
  destruct (reaches_numbers _ _ R2) as (OK2 & _).
  destruct (greedy_match_total _ OK2) as (h3 & Run3). rewrite Run3. cbn [bind].
  pose proof (reaches_greedy _ _ _ _ R2 Run3) as R3.
  destruct (reaches_matching _ _ _ _ WF R3) as [V3 _].
  destruct (fetch_unmatched_worker_total h3 V3) as (w & F).
  rewrite F. cbn [bind].
  destruct (phases_total (loop_fuel h3) w h3 R3 F) as [E|(h4 & P)].
  { exfalso. revert E. apply (phases_fuel u m WF); auto.
    unfold loop_fuel. lia. }
  rewrite P. cbn [bind].
  destruct (phases_reaches u m _ _ _ _ R3 F P) as (R4 & _).
  destruct (reaches_matching _ _ _ _ WF R4) as [V4 _].
  apply project_result_total; auto.
  destruct (reaches_dims _ _ _ _ R4) as (-> & _ & ->). lia.
Qed.

Lemma solve_total : exists r, solve u m = Done r.
Proof.
  unfold solve.
  destruct (Hungarian_ctor_total u m WF NW) as (h & H & _).
  rewrite H. cbn [bind]. apply execute_total. apply reaches_ctor. exact H.
Qed.
End Numbers.

(** * The runs of the test suite *)

Example test1_result : solve zeroed test1 = Done [1; 0; 2].
Proof. vm_compute. reflexivity. Qed.

Example test2_result : solve zeroed test2 = Done [0; 2; 1].
Proof. vm_compute. reflexivity. Qed.

Example test3_result : solve zeroed test3 = Done [1; 0; 2; 3].
Proof. vm_compute. reflexivity. Qed.

Example test_unassigned_job_result :
  solve zeroed test_unassigned_job = Done [1; 0; 3; 4].
Proof. vm_compute. reflexivity. Qed.

Example test_unassigned_worker_result :
  solve zeroed test_unassigned_worker = Done [1; UNASSIGNED; 2; 3; 0].
Proof. vm_compute. reflexivity. Qed.

(** * Worked runs *)

Ltac run := vm_compute; reflexivity.

Lemma square2_reaches_seeded : reaches zeroed square2 BetweenPhases square2_seeded.
Proof.
  apply reaches_greedy with (h := square2_labelled); [|run].
  apply reaches_labels with (h := square2_reduced); [|run].
  apply reaches_reduce with (h := square2_ctor); [|run].
  apply reaches_ctor. run.
Qed.

Lemma square2_reaches_phase : reaches zeroed square2 InPhase square2_phase.
Proof.
  apply reaches_init with (h := square2_seeded) (w := 1).
  - exact square2_reaches_seeded.
  - run.
  - reflexivity.
  - run.
Qed.

Lemma square2_reaches_grown : reaches zeroed square2 InPhase square2_grown.
Proof.
  apply reaches_commit with (h := square2_phase) (j := 0) (h2 := square2_commit0)
    (m := 0) (cw := [true; true]).
  - exact square2_reaches_phase.
  - run.
  - run.
  - discriminate.
  - run.
  - run.
Qed.

Lemma square2_reaches_flipped :
  reaches zeroed square2 (Flipping 0 1) square2_flipped.
Proof.
  apply reaches_flip with (h := square2_commit1) (j := 1) (p := 0); [|run].
  apply reaches_path with (h := square2_grown); [|run|run|run].
  exact square2_reaches_grown.
Qed.

Lemma collide_reaches_grown : reaches zeroed collide InPhase collide_grown.
Proof.
  apply reaches_commit with (h := collide_phase) (j := 0) (h2 := collide_commit0)
    (m := 0) (cw := [true; true; false]); [|run|run|discriminate|run|run].
  apply reaches_init with (h := collide_seeded) (w := 1); [|run|reflexivity|run].
  apply reaches_greedy with (h := collide_labelled); [|run].
  apply reaches_labels with (h := collide_reduced); [|run].
  apply reaches_reduce with (h := collide_ctor); [|run].
  apply reaches_ctor. run.
Qed.

Lemma single_reaches_labelled :
  reaches (stale [1%Q]) single Labelled single_labelled.
Proof.
  eapply reaches_labels; [eapply reaches_reduce; [apply reaches_ctor|]|];
    vm_compute; reflexivity.
Qed.

(** * Checking the magnitudes of a given matrix *)

Lemma cost_at_cases m w j : cost_at m w j = 0%Q \/ In (cost_at m w j) (array m).
Proof.
  unfold cost_at. destruct (_ && _); auto.
  destruct (nth_in_or_default (N.to_nat (w * extent1 m + j)) (array m) 0%Q); auto.
Qed.

Lemma cost_at_between m lo hi w j :
  Forall (fun x => lo <= x /\ x <= hi)%Q (array m) ->
  (lo <= 0)%Q -> (0 <= hi)%Q ->
  (lo <= cost_at m w j /\ cost_at m w j <= hi)%Q.
Proof.
  intros F L H. destruct (cost_at_cases m w j) as [->|Hin]; auto.
  rewrite Forall_forall in F. apply F. exact Hin.
Qed.

Lemma bounded_cells u m lo hi :
  Forall (fun x => lo <= x /\ x <= hi)%Q (array m) ->
  (lo <= 0)%Q -> (0 <= hi)%Q -> (hi <= POSITIVE_INFINITY)%Q ->
  (forall w, hi - lo - initial_label u w < POSITIVE_INFINITY)%Q ->
  bounded u m.
Proof.
  intros F L H Hi B w j j' _ _ _.
  pose proof (cost_at_between m lo hi w j F L H) as [A1 A2].
  pose proof (cost_at_between m lo hi w j' F L H) as [B1 B2].
  specialize (B w). split; lra.
Qed.

Lemma in_range_cells m lo hi :
  Forall (fun x => lo <= x /\ x <= hi)%Q (array m) ->
  (lo <= 0)%Q -> (0 <= hi)%Q -> (hi <= POSITIVE_INFINITY)%Q ->
  (hi - lo <= POSITIVE_INFINITY)%Q ->
  in_range m.
Proof.
  intros F L H Hi B w j j' _ _ _.
  pose proof (cost_at_between m lo hi w j F L H) as [A1 A2].
  pose proof (cost_at_between m lo hi w j' F L H) as [B1 B2].
  split; lra.
Qed.

Lemma bounded_in_range u m :
  bounded u m -> (forall w, initial_label u w <= 0)%Q -> in_range m.
Proof.
  intros B Z w j j' Hw Hj Hj'. destruct (B w j j') as [B1 B2]; auto.
  specialize (Z w). split; [exact B1|lra].
Qed.

(** The worker labels are what the allocation held, from the constructor to
    the first phase. *)
Lemma worker_labels_untouched u m h :
  reaches u m Labelled h ->
  forall w, w < dim_ h ->
    get (label_by_worker_ h) w = Done (initial_label u w).
Proof.
  intros R. inversion R as [| |h1 h' R1 H1| | | | | |]; subst.
  inversion R1 as [|h0 h1' R0 H0| | | | | | |]; subst.
  inversion R0 as [h' H| | | | | | | |]; subst.
  apply compute_initial_feasible_solution_kept in H1 as [K1 E1].
  apply reduce_kept in H0.
  pose proof (kept_labels _ _ _ _ _ _ _ _ H0 eq_refl) as [E0 _].
  pose proof (kept_dim _ _ _ _ _ _ _ _ K1) as D1.
  pose proof (kept_dim _ _ _ _ _ _ _ _ H0) as D0.
  apply Hungarian_ctor_shape in H
    as (_ & _ & _ & _ & _ & _ & _ & _ & _ & _ & _ & _ & _ & G).
  intros w Hw. rewrite E1, E0. apply G. congruence.
Qed.

(** * The labels as a dual solution *)

Lemma slack_value_ext h h' w j :
  cost_matrix_ h' = cost_matrix_ h ->
  label_by_worker_ h' = label_by_worker_ h ->
  label_by_job_ h' = label_by_job_ h ->
  slack_value h' w j = slack_value h w j.
Proof. intros C LW LJ. unfold slack_value. rewrite C, LW, LJ. reflexivity. Qed.

Lemma reaches_state_ok u m st h :
  well_formed m -> no_wrap (N.max (extent0 m) (extent1 m)) ->
  reaches u m st h -> state_ok h.
Proof.
  intros WF NW R.
  destruct (reaches_matching _ _ _ _ WF R) as [V _]. split; [exact V|]. clear V.
  induction R.
  - destruct (Hungarian_ctor_total u m WF NW) as (h' & H' & MO & _).
    congruence.
  - destruct (reduce_total u h IHR) as (cm & H' & MO' & _).
    assert (h' = with_cost_matrix h cm) by congruence. subst h'. exact MO'.
  - apply compute_initial_feasible_solution_kept in H as [K _].
    rewrite (kept_dim _ _ _ _ _ _ _ _ K), (kept_cost _ _ _ _ _ _ _ _ K eq_refl).
    exact IHR.
  - apply greedy_match_kept in H.
    rewrite (kept_dim _ _ _ _ _ _ _ _ H), (kept_cost _ _ _ _ _ _ _ _ H eq_refl).
    exact IHR.
  - apply initialize_phase_kept in H1.
    rewrite (kept_dim _ _ _ _ _ _ _ _ H1), (kept_cost _ _ _ _ _ _ _ _ H1 eq_refl).
    exact IHR.
  - apply commit_min_slack_job_kept in H as [K _].
    apply update_slack_kept in H3.
    rewrite (kept_dim _ _ _ _ _ _ _ _ H3), (kept_cost _ _ _ _ _ _ _ _ H3 eq_refl).
    simpl.
    rewrite (kept_dim _ _ _ _ _ _ _ _ K), (kept_cost _ _ _ _ _ _ _ _ K eq_refl).
    exact IHR.
  - apply commit_min_slack_job_kept in H as [K _].
    rewrite (kept_dim _ _ _ _ _ _ _ _ K), (kept_cost _ _ _ _ _ _ _ _ K eq_refl).
    exact IHR.
  - apply augment_step_kept in H.
    rewrite (kept_dim _ _ _ _ _ _ _ _ H), (kept_cost _ _ _ _ _ _ _ _ H eq_refl).
    exact IHR.
  - apply augment_step_kept in H.
    rewrite (kept_dim _ _ _ _ _ _ _ _ H), (kept_cost _ _ _ _ _ _ _ _ H eq_refl).
    exact IHR.
Qed.

(** The initial labelling is feasible when no worker label starts above
    zero, and nothing is matched yet. *)
Lemma labelled_duals u m h :
  well_formed m -> no_wrap (N.max (extent0 m) (extent1 m)) ->
  (forall w, (initial_label u w <= 0)%Q) ->
  reaches u m Labelled h ->
  feasible h /\ tight h.
Proof.
  intros WF NW Z R.
  pose proof (worker_labels_untouched u m h R) as LW.
  inversion R as [| |h1 h' R1 H1| | | | | |]; subst.
  pose proof (reaches_state_ok _ _ _ _ WF NW R1) as [V1 MO1]. lens V1.
  destruct (compute_initial_feasible_solution_total h1 MO1) as (lj & H' & L & El);
    auto.
  assert (h = with_label_by_job h1 lj) by congruence. subst h.
  split.
  - intros w j Hw Hj. simpl in Hw, Hj. unfold slack_value. simpl.
    rewrite El by auto.
    specialize (LW w Hw). simpl in LW.
    apply (get_Done_nth 0%Q) in LW. unfold qsel. rewrite LW.
    pose proof (min_upto_le (fun w => entry (cost_matrix_ h1) w j)
                  (N.to_nat (dim_ h1)) (N.to_nat w)) as Le.
    rewrite N2Nat.id in Le. specialize (Z w).
    assert (Lt : (N.to_nat w < N.to_nat (dim_ h1))%nat) by lia.
    specialize (Le Lt). simpl in Le. lra.
  - intros w j G Hj. exfalso. simpl in G.
    inversion R1 as [|h0 h1' R0 Hred| | | | | | |]; subst.
    inversion R0 as [h' Hc| | | | | | | |]; subst.
    pose proof (Hungarian_ctor_shape u m h0 Hc)
      as (_ & _ & _ & _ & _ & _ & _ & _ & _ & _ & _ & Gj & _).
    apply reduce_kept in Hred.
    pose proof (kept_matching _ _ _ _ _ _ _ _ Hred eq_refl) as [Mj _].
    pose proof (kept_dim _ _ _ _ _ _ _ _ Hred) as D.
    rewrite Mj in G. pose proof (get_lt _ _ _ G) as Lt.
    rewrite Gj in G.
    + inv_Done G. congruence.
    + rewrite <- Mj in Lt. lia.
Qed.

Lemma match_tight w j h h' :
  tight h -> (slack_value h w j == 0)%Q ->
  match_ w j h = Done h' -> tight h'.
Proof.
  intros T Z M. pose proof (match_get _ _ _ _ M) as (Gj & _).
  pose proof (match_kept _ _ _ _ M) as K.
  pose proof (kept_cost _ _ _ _ _ _ _ _ K eq_refl) as C.
  pose proof (kept_labels _ _ _ _ _ _ _ _ K eq_refl) as [LW LJ].
  intros k x G Hx. rewrite (slack_value_ext h h') by assumption.
  rewrite Gj in G. destruct (N.eqb_spec k w) as [->|Hne].
  - inv_Done G. exact Z.
  - apply T; assumption.
Qed.

Lemma feasible_ext h h' :
  dim_ h' = dim_ h -> cost_matrix_ h' = cost_matrix_ h ->
  label_by_worker_ h' = label_by_worker_ h ->
  label_by_job_ h' = label_by_job_ h ->
  feasible h -> feasible h'.
Proof.
  intros D C LW LJ F w j Hw Hj. rewrite (slack_value_ext h h') by assumption.
  apply F; congruence.
Qed.

Lemma tight_ext h h' :
  cost_matrix_ h' = cost_matrix_ h ->
  label_by_worker_ h' = label_by_worker_ h ->
  label_by_job_ h' = label_by_job_ h ->
  match_job_by_worker_ h' = match_job_by_worker_ h ->
  tight h -> tight h'.
Proof.
  intros C LW LJ M T w j G Hj. rewrite (slack_value_ext h h') by assumption.
  apply T; congruence.
Qed.

Lemma greedy_match_duals h h' :
  state_ok h -> feasible h -> tight h ->
  greedy_match h = Done h' ->
  feasible h' /\ tight h'.
Proof.
  intros OK F T H. split.
  - apply greedy_match_kept in H.
    pose proof (kept_labels _ _ _ _ _ _ _ _ H eq_refl) as [LW LJ].
    apply (feasible_ext h h'); auto.
    + apply (kept_dim _ _ _ _ _ _ _ _ H).
    + apply (kept_cost _ _ _ _ _ _ _ _ H eq_refl).
  - cut (state_ok h -> tight h -> state_ok h' /\ tight h'); [tauto|].
    revert H. unfold greedy_match.
    set (R := fun a b : Hungarian =>
           state_ok a -> tight a -> state_ok b /\ tight b).
    assert (Rrefl : forall s, R s s) by (intros s ? ?; auto).
    assert (Rtrans : forall a b c, R a b -> R b c -> R a c).
    { intros a b c Hab Hbc Oa Ta. destruct (Hab Oa Ta) as [Ob Tb]. auto. }
    apply (for_range_rel R); auto.
    intros w s s'. apply (for_range_rel R); auto.
    intros j t t' Hb Ot Tt.
    apply bind_Done in Hb as (mj & Gmj & Hb).
    destruct (mj =? UNASSIGNED); [|inv_Done Hb; auto].
    apply bind_Done in Hb as (mw & Gmw & Hb).
    destruct (mw =? UNASSIGNED); [|inv_Done Hb; auto].
    apply bind_Done in Hb as (sl & Gsl & Hb).
    destruct (Qeq_bool sl 0) eqn:Z; [|inv_Done Hb; auto].
    apply Qeq_bool_iff in Z.
    pose proof Ot as [Vt MOt]. lens Vt.
    apply get_lt in Gmj, Gmw.
    rewrite slack_total in Gsl by (auto; lia). inv_Done Gsl.
    split.
    + eapply state_ok_kept; [eapply match_kept|]; eauto.
    + eapply match_tight; eauto.
Qed.

Lemma initialize_phase_duals w h h' :
  state_ok h -> mutual_inverse h ->
  w < dim_ h -> get (match_job_by_worker_ h) w = Done UNASSIGNED ->
  feasible h -> tight h ->
  initialize_phase w h = Done h' ->
  feasible h' /\ tight h' /\ tree_tight h' /\ slack_rec h' /\
  balanced h' UNASSIGNED.
Proof.
  intros OK MI Hw Gw F T H. pose proof OK as [V MO]. lens V.
  pose proof (initialize_phase_kept _ _ _ H) as K.
  pose proof (kept_dim _ _ _ _ _ _ _ _ K) as D.
  pose proof (kept_cost _ _ _ _ _ _ _ _ K eq_refl) as C.
  pose proof (kept_labels _ _ _ _ _ _ _ _ K eq_refl) as [LW LJ].
  pose proof (kept_matching _ _ _ _ _ _ _ _ K eq_refl) as [Mj Mw].
  pose proof (vectors_ok_kept _ _ _ _ _ _ _ _ K V) as V'.
  unfold same_cost in C.
  destruct (initialize_phase_total w h OK Hw) as (h'' & H'' & Gp & Bc & Ems & Emw).
  assert (h'' = h') by congruence. subst h''. clear H''.
  split; [apply (feasible_ext h h'); auto|].
  split; [apply (tight_ext h h'); auto|].
  split; [|split].
  - intros j p G Hp. exfalso. pose proof (get_lt _ _ _ G) as Lt.
    lens V'. rewrite Gp in G by lia. inv_Done G. congruence.
  - intros j Hj _. rewrite D in Hj. rewrite D.
    rewrite (get_Done_nth UNASSIGNED _ _ _ (Emw j Hj) : nsel _ j = w).
    rewrite Ems by auto. rewrite Bc by auto.
    split; [|split].
    + intros x Hx Cx. rewrite Bc in Cx by auto. apply N.eqb_eq in Cx. subst x.
      rewrite (slack_value_ext h h') by assumption. apply Qle_refl.
    + apply N.eqb_refl.
    + rewrite (slack_value_ext h h') by assumption. reflexivity.
  - intros x j G Hj _. rewrite Mj in G.
    pose proof (get_lt _ _ _ G) as Lx.
    assert (Gb : get (match_worker_by_job_ h) j = Done x).
    { apply MI. split; auto. }
    pose proof (get_lt _ _ _ Gb) as Lj.
    rewrite Bc by lia.
    rewrite (get_Done_nth UNASSIGNED _ _ _ (Gp j ltac:(lia)) : nsel _ j = _).
    destruct (N.eqb_spec x w) as [->|Hne].
    + rewrite Gw in G. inv_Done G. congruence.
    + split; [discriminate|congruence].
Qed.

Lemma bsel_true_lt a i : bsel a i = true -> i < N.of_nat (length a).
Proof.
  unfold bsel. intros E.
  destruct (Nat.lt_ge_cases (N.to_nat i) (length a)) as [Lt|Ge]; [lia|].
  rewrite nth_overflow in E by exact Ge. discriminate E.
Qed.

Section CommitDuals.
Variable h : Hungarian.
Hypothesis OK : state_ok h.
Hypothesis MI : mutual_inverse h.
Hypothesis F : feasible h.
Hypothesis T : tight h.
Hypothesis TT : tree_tight h.
Hypothesis SR : slack_rec h.
Hypothesis B : balanced h UNASSIGNED.

(** [update_labeling] moves the slack of an edge by the amount it adds to
    the label of a committed worker and takes off that of a committed job. *)
Lemma update_labeling_slack v h1 :
  update_labeling v h = Done h1 ->
  forall w j, w < dim_ h -> j < dim_ h ->
    (slack_value h1 w j ==
     slack_value h w j
     - (if bsel (committed_workers_ h) w then v else 0)
     + (if nsel (parent_worker_by_committed_job_ h) j =? UNASSIGNED
        then 0 else v))%Q.
Proof.
  intros H w j Hw Hj. destruct OK as [V MO].
  destruct (update_labeling_total v h V) as (h1' & H' & ELW & ELJ & _).
  assert (h1' = h1) by congruence. subst h1'.
  pose proof (update_labeling_kept _ _ _ H) as [K _].
  pose proof (kept_cost _ _ _ _ _ _ _ _ K eq_refl) as C.
  unfold same_cost in C. unfold slack_value. rewrite C, ELW, ELJ by auto.
  destruct (bsel (committed_workers_ h) w);
    destruct (nsel (parent_worker_by_committed_job_ h) j =? UNASSIGNED); lra.
Qed.

Lemma relabel_duals v h1 :
  (forall j, j < dim_ h ->
     nsel (parent_worker_by_committed_job_ h) j = UNASSIGNED ->
     (v <= qsel (min_slack_by_job_ h) j)%Q) ->
  (if Qltb 0 v then update_labeling v h else Done h) = Done h1 ->
  state_ok h1 /\ feasible h1 /\ tight h1 /\ tree_tight h1 /\ slack_rec h1 /\
  balanced h1 UNASSIGNED /\
  dim_ h1 = dim_ h /\
  parent_worker_by_committed_job_ h1 = parent_worker_by_committed_job_ h /\
  match_job_by_worker_ h1 = match_job_by_worker_ h /\
  min_slack_worker_by_job_ h1 = min_slack_worker_by_job_ h /\
  (forall j, j < dim_ h ->
     nsel (parent_worker_by_committed_job_ h) j = UNASSIGNED ->
     qsel (min_slack_by_job_ h1) j =
     if Qltb 0 v then (qsel (min_slack_by_job_ h) j - v)%Q
     else qsel (min_slack_by_job_ h) j).
Proof.
  intros Hmin H. destruct (Qltb 0 v) eqn:Q.
  2:{ inv_Done H. do 6 (split; [assumption|]). repeat split; auto. }
  apply Qltb_true in Q. pose proof OK as [V MO]. lens V.
  pose proof (update_labeling_slack v h1 H) as SV.
  destruct (update_labeling_total v h V) as (h1' & H' & _ & _ & EMS).
  assert (h1' = h1) by congruence. subst h1'. clear H'.
  pose proof (update_labeling_kept _ _ _ H) as [K Kw].
  pose proof (kept_dim _ _ _ _ _ _ _ _ K) as D.
  pose proof (kept_matching _ _ _ _ _ _ _ _ K eq_refl) as [Mj Mw].
  pose proof (kept_parents _ _ _ _ _ _ _ _ K eq_refl) as Pa.
  pose proof (kept_committed _ _ _ _ _ _ _ _ K eq_refl) as Cw.
  unfold same_parents, same_committed in *.
  split; [eapply state_ok_kept; eauto|].
  split; [|split; [|split; [|split; [|split]]]].
  - (* feasible *)
    intros w j Hw Hj. rewrite D in Hw, Hj. rewrite SV by auto.
    specialize (F w j Hw Hj).
    destruct (bsel (committed_workers_ h) w) eqn:Cb;
      destruct (N.eqb_spec (nsel (parent_worker_by_committed_job_ h) j)
                           UNASSIGNED) as [Pj|Pj]; try lra.
    destruct (SR j Hj Pj) as (Le & _). specialize (Le w Hw Cb).
    specialize (Hmin j Hj Pj). lra.
  - (* tight *)
    intros w j G Hj. rewrite Mj in G.
    pose proof (get_lt _ _ _ G) as Lw.
    assert (Gb : get (match_worker_by_job_ h) j = Done w).
    { apply MI. split; auto. }
    pose proof (get_lt _ _ _ Gb) as Lj.
    rewrite SV by lia. specialize (T w j G Hj).
    pose proof (B w j G Hj Hj) as Bal.
    destruct (bsel (committed_workers_ h) w) eqn:Cb;
      destruct (N.eqb_spec (nsel (parent_worker_by_committed_job_ h) j)
                           UNASSIGNED) as [Pj|Pj]; try lra.
    + exfalso. apply Bal; auto.
    + exfalso. apply Bal in Pj. discriminate Pj.
  - (* tree_tight *)
    intros j p G Hp. rewrite Pa in G. rewrite Cw.
    destruct (TT j p G Hp) as [Cp Z]. split; [exact Cp|].
    pose proof (get_lt _ _ _ G) as Lj.
    pose proof (bsel_true_lt _ _ Cp) as Lp.
    rewrite SV by lia. rewrite Cp.
    rewrite (get_Done_nth UNASSIGNED _ _ _ G : nsel _ j = p).
    destruct (N.eqb_spec p UNASSIGNED); [contradiction|]. lra.
  - (* slack_rec *)
    intros j Hj Pj. rewrite D in Hj. rewrite Pa in Pj. rewrite D, Cw, Kw.
    destruct (SR j Hj Pj) as (Le & C0 & E0).
    rewrite EMS by auto. rewrite Pj, N.eqb_refl.
    split; [|split; [exact C0|]].
    + intros w Hw Cb. rewrite SV by auto. rewrite Cb, Pj, N.eqb_refl.
      specialize (Le w Hw Cb). lra.
    + pose proof (bsel_true_lt _ _ C0) as L0.
      rewrite SV by lia. rewrite C0, Pj, N.eqb_refl. lra.
  - (* balanced *)
    intros w j G Hj Hj'. rewrite Mj in G. rewrite Cw, Pa. apply B; auto.
  - repeat split; auto.
    intros j Hj Pj. rewrite EMS by auto. rewrite Pj, N.eqb_refl. reflexivity.
Qed.
End CommitDuals.

Lemma commit_duals h j h2 :
  state_ok h -> mutual_inverse h ->
  feasible h -> tight h -> tree_tight h -> slack_rec h ->
  balanced h UNASSIGNED ->
  commit_min_slack_job h = Done (j, h2) ->
  state_ok h2 /\ feasible h2 /\ tight h2 /\ tree_tight h2 /\ slack_rec h2 /\
  balanced h2 j /\
  nsel (parent_worker_by_committed_job_ h2) j <> UNASSIGNED.
Proof.
  intros OK MI F T TT SR B H. unfold commit_min_slack_job in H.
  pose proof OK as [V MO].
  destruct (select_min_slack_total h V) as (w & j0 & v & Sel & _ & Hmin & Spec).
  rewrite Sel in H. cbn [bind fst snd] in H.
  apply bind_Done in H as (h1 & U1 & H).
  apply bind_Done in H as (pw & Sp & H). inv_Done H.
  destruct (relabel_duals h OK MI F T TT SR B v h1 Hmin U1)
    as (OK1 & F1 & T1 & TT1 & SR1 & B1 & D & Pa & Mj & Kw & EMS).
  pose proof (set_Done _ _ _ _ Sp) as [Hlt Ep].
  pose proof OK1 as [V1 MO1]. lens V1.
  destruct Spec as [(-> & _)|(Hj & Pj & Ev & _ & Ew)]; [lia|].
  assert (Pj1 : nsel (parent_worker_by_committed_job_ h1) j = UNASSIGNED)
    by (rewrite Pa; exact Pj).
  assert (Hj1 : j < dim_ h1) by lia.
  destruct (SR1 j Hj1 Pj1) as (_ & C1 & E1). rewrite Kw, <- Ew in C1, E1.
  assert (Z : (qsel (min_slack_by_job_ h1) j == 0)%Q).
  { rewrite EMS by auto. destruct (SR j Hj Pj) as (_ & C0 & E0).
    pose proof (bsel_true_lt _ _ C0) as L0. lens V.
    assert (L0' : nsel (min_slack_worker_by_job_ h) j < dim_ h) by lia.
    pose proof (F _ j L0' Hj) as F0.
    destruct (Qltb 0 v) eqn:Q.
    - subst v. ring.
    - apply Qltb_false in Q. subst v. lra. }
  split; [|split; [|split; [|split; [|split; [|split]]]]].
  - split; [|exact MO1].
    unfold vectors_ok in *. simpl. rewrite (set_length _ _ _ _ Sp). exact V1.
  - apply (feasible_ext h1); auto.
  - apply (tight_ext h1); auto.
  - intros k p G Hp. simpl in G. rewrite (get_set _ _ _ _ _ Sp) in G.
    destruct (N.eqb_spec k j) as [->|Hne].
    + inv_Done G. split; [exact C1|].
      rewrite (slack_value_ext h1) by reflexivity. rewrite <- E1. exact Z.
    + destruct (TT1 k p G Hp) as [Cp Zp]. split; [exact Cp|].
      rewrite (slack_value_ext h1) by reflexivity. exact Zp.
  - intros k Hk Pk. simpl in Hk, Pk. rewrite Ep, nsel_update in Pk by lia.
    destruct (N.eqb_spec k j) as [->|Hne].
    + exfalso. apply bsel_true_lt in C1. lia.
    + exact (SR1 k Hk Pk).
  - intros x k G Hk Hkj. simpl in G. simpl. rewrite Ep, nsel_update by lia.
    destruct (N.eqb_spec k j) as [->|Hne]; [contradiction|].
    apply B1; auto.
  - simpl. rewrite Ep, nsel_update, N.eqb_refl by lia.
    apply bsel_true_lt in C1. lia.
Qed.

Lemma grow_duals h2 j m cw h4 :
  state_ok h2 -> mutual_inverse h2 ->
  feasible h2 -> tight h2 -> tree_tight h2 -> slack_rec h2 -> balanced h2 j ->
  nsel (parent_worker_by_committed_job_ h2) j <> UNASSIGNED ->
  get (match_worker_by_job_ h2) j = Done m -> m <> UNASSIGNED ->
  set (committed_workers_ h2) m true = Done cw ->
  update_slack m (with_committed_workers h2 cw) = Done h4 ->
  feasible h4 /\ tight h4 /\ tree_tight h4 /\ slack_rec h4 /\
  balanced h4 UNASSIGNED.
Proof.
  intros [V MO] MI F T TT SR B Pj Gm Hm Sc Us. lens V.
  pose proof (set_Done _ _ _ _ Sc) as [Lm Ec].
  set (h3 := with_committed_workers h2 cw) in *.
  assert (OK3 : state_ok h3).
  { split; [|exact MO]. unfold vectors_ok in *. simpl.
    rewrite (set_length _ _ _ _ Sc). exact V. }
  destruct (update_slack_total m h3 OK3) as (h4' & Us' & E); [simpl; lia|].
  assert (h4' = h4) by congruence. subst h4'. clear Us'.
  pose proof (update_slack_kept _ _ _ Us) as K.
  pose proof (kept_dim _ _ _ _ _ _ _ _ K) as D.
  pose proof (kept_cost _ _ _ _ _ _ _ _ K eq_refl) as C.
  pose proof (kept_labels _ _ _ _ _ _ _ _ K eq_refl) as [LW LJ].
  pose proof (kept_matching _ _ _ _ _ _ _ _ K eq_refl) as [Mj Mw].
  pose proof (kept_parents _ _ _ _ _ _ _ _ K eq_refl) as Pa.
  pose proof (kept_committed _ _ _ _ _ _ _ _ K eq_refl) as Cw.
  unfold same_cost, same_parents, same_committed in *. simpl in *.
  assert (SV : forall w k, slack_value h4 w k = slack_value h2 w k).
  { intros. apply slack_value_ext; assumption. }
  assert (Cb : forall w, bsel (committed_workers_ h4) w =
                         if w =? m then true else bsel (committed_workers_ h2) w).
  { intros w. rewrite Cw, Ec. apply bsel_update. exact Lm. }
  split; [apply (feasible_ext h2); auto|].
  split; [apply (tight_ext h2); auto|].
  split; [|split].
  - intros k p G Hp. rewrite Pa in G. destruct (TT k p G Hp) as [Cp Z].
    rewrite Cb, SV. rewrite Cp. split; [destruct (p =? m); reflexivity|exact Z].
  - intros k Hk Pk. rewrite D in Hk. rewrite Pa in Pk. rewrite D.
    destruct (SR k Hk Pk) as (Le & C0 & E0).
    specialize (E k Hk). rewrite Pk, N.eqb_refl in E.
    change (slack_value h3 m k) with (slack_value h2 m k) in E.
    destruct E as [(E1 & E2 & E3)|(E1 & E2 & E3)]; rewrite E1, E2.
    + split; [|split].
      * intros w Hw Cw4. rewrite Cb in Cw4. rewrite SV.
        destruct (N.eqb_spec w m) as [->|Hne]; auto.
      * rewrite Cb, C0. destruct (_ =? m); reflexivity.
      * rewrite SV. exact E0.
    + split; [|split].
      * intros w Hw Cw4. rewrite Cb in Cw4. rewrite SV.
        destruct (N.eqb_spec w m) as [->|Hne]; [apply Qle_refl|].
        specialize (Le w Hw Cw4). lra.
      * rewrite Cb, N.eqb_refl. reflexivity.
      * rewrite SV. reflexivity.
  - intros x k G Hk _. rewrite Mj in G. rewrite Cb, Pa.
    assert (Gj : get (match_job_by_worker_ h2) m = Done j).
    { apply MI. split; auto. }
    destruct (N.eq_dec k j) as [->|Hkj].
    + assert (Gx : get (match_worker_by_job_ h2) j = Done x).
      { apply MI. split; auto. }
      assert (x = m) by congruence. subst x. rewrite N.eqb_refl. tauto.
    + destruct (N.eqb_spec x m) as [->|Hne].
      * exfalso. congruence.
      * apply B; auto.
Qed.

Lemma flip_duals h j p h1 next :
  feasible h -> tight h -> tree_tight h ->
  get (parent_worker_by_committed_job_ h) j = Done p -> p <> UNASSIGNED ->
  augment_step j p h = Done (h1, next) ->
  feasible h1 /\ tight h1 /\ tree_tight h1.
Proof.
  intros F T TT G Hp H.
  pose proof (augment_step_kept _ _ _ _ _ H) as K.
  pose proof (kept_dim _ _ _ _ _ _ _ _ K) as D.
  pose proof (kept_cost _ _ _ _ _ _ _ _ K eq_refl) as C.
  pose proof (kept_labels _ _ _ _ _ _ _ _ K eq_refl) as [LW LJ].
  pose proof (kept_parents _ _ _ _ _ _ _ _ K eq_refl) as Pa.
  pose proof (kept_committed _ _ _ _ _ _ _ _ K eq_refl) as Cw.
  unfold same_cost, same_parents, same_committed in *.
  destruct (TT j p G Hp) as [_ Z].
  split; [apply (feasible_ext h); auto|]. split.
  - unfold augment_step in H.
    apply bind_Done in H as (temp & _ & H).
    apply bind_Done in H as (hm & M & H).
    assert (hm = h1) by (destruct (temp =? UNASSIGNED); inv_run; auto).
    subst hm. eapply match_tight; eauto.
  - intros k q Gk Hq. rewrite Pa in Gk. rewrite Cw.
    rewrite (slack_value_ext h) by assumption. apply TT; auto.
Qed.

Lemma flip_inv_parent h j p L :
  vectors_ok h -> flip_inv h j p L ->
  get (parent_worker_by_committed_job_ h) j = Done p /\ p <> UNASSIGNED.
Proof.
  intros V [[_ Tr] G]. split; [exact G|].
  destruct (Tr [] j L eq_refl) as (p' & G' & Hp' & _).
  assert (p' = p) by congruence. subst p'. lens V. lia.
Qed.

(** The labels stay a feasible dual solution, and the matched edges tight,
    along every run whose worker labels start out non-positive. *)
Lemma reaches_duals u m st h :
  well_formed m -> no_wrap (N.max (extent0 m) (extent1 m)) ->
  (forall w, (initial_label u w <= 0)%Q) ->
  reaches u m st h -> duals st h.
Proof.
  intros WF NW Z R. induction R; simpl; auto.
  - apply (labelled_duals u m); auto.
    eapply reaches_labels; eauto.
  - destruct IHR as [F T].
    apply (greedy_match_duals h); auto.
    apply (reaches_state_ok _ _ _ _ WF NW R).
  - destruct IHR as [F T].
    destruct (reaches_matching _ _ _ _ WF R) as [_ MI]. simpl in MI.
    apply (initialize_phase_duals w h); auto.
    + apply (reaches_state_ok _ _ _ _ WF NW R).
    + apply fetch_unmatched_worker_spec in H. apply H. exact H0.
  - destruct IHR as (F & T & TT & SR & B).
    destruct (reaches_matching _ _ _ _ WF R) as [_ MI]. simpl in MI.
    pose proof (reaches_state_ok _ _ _ _ WF NW R) as OK.
    destruct (commit_duals h j h2 OK MI F T TT SR B H)
      as (OK2 & F2 & T2 & TT2 & SR2 & B2 & Pj).
    pose proof (commit_min_slack_job_kept _ _ _ H) as [K _].
    assert (MI2 : mutual_inverse h2).
    { eapply mutual_inverse_same; [|exact MI].
      apply (kept_matching _ _ _ _ _ _ _ _ K eq_refl). }
    apply (grow_duals h2 j m0 cw h4); auto.
  - destruct IHR as (F & T & TT & SR & B).
    destruct (reaches_matching _ _ _ _ WF R) as [_ MI]. simpl in MI.
    pose proof (reaches_state_ok _ _ _ _ WF NW R) as OK.
    destruct (commit_duals h j h2 OK MI F T TT SR B H)
      as (OK2 & F2 & T2 & TT2 & SR2 & B2 & Pj).
    auto.
  - destruct IHR as (F & T & TT).
    destruct (reaches_matching _ _ _ _ WF R) as [V _].
    destruct (reaches_structure _ _ _ _ WF R) as (L & FI).
    destruct (flip_inv_parent h j p L V FI) as [G Hp].
    apply (flip_duals h j p h1 (Some (j', p'))); auto.
  - destruct IHR as (F & T & TT).
    destruct (reaches_matching _ _ _ _ WF R) as [V _].
    destruct (reaches_structure _ _ _ _ WF R) as (L & FI).
    destruct (flip_inv_parent h j p L V FI) as [G Hp].
    destruct (flip_duals h j p h1 None F T TT G Hp H) as (F1 & T1 & _).
    auto.
Qed.

(** Dual feasibility from [compute_initial_feasible_solution] on, for a run
    whose worker labels start out non-positive. *)
Lemma reaches_dual_feasible u m st h :
  well_formed m -> no_wrap (N.max (extent0 m) (extent1 m)) ->
  (forall w, (initial_label u w <= 0)%Q) ->
  reaches u m st h ->
  st <> Constructed -> st <> Reduced ->
  dual_feasible h.
Proof.
  intros WF NW Z R N1 N2.
  pose proof (reaches_state_ok _ _ _ _ WF NW R) as OK.
  pose proof (reaches_duals _ _ _ _ WF NW Z R) as D.
  assert (F : feasible h).
  { destruct st; simpl in D; try tauto; congruence. }
  intros w j v Hw Hj S. rewrite slack_total in S by auto. inv_Done S.
  apply F; auto.
Qed.

(** * Sums over index lists *)

Lemma qsum_app f l1 l2 : (qsum f (l1 ++ l2) == qsum f l1 + qsum f l2)%Q.
Proof.
  induction l1 as [|x l1 IH]; simpl; [ring|]. rewrite IH. ring.
Qed.

Lemma qsum_Permutation f l l' :
  Permutation l l' -> (qsum f l == qsum f l')%Q.
Proof.
  induction 1; simpl.
  - reflexivity.
  - rewrite IHPermutation. reflexivity.
  - ring.
  - rewrite IHPermutation1. exact IHPermutation2.
Qed.

Lemma qsum_le f g l :
  (forall x, In x l -> (f x <= g x)%Q) -> (qsum f l <= qsum g l)%Q.
Proof.
  induction l as [|x l IH]; simpl; intros H; [apply Qle_refl|].
  assert (f x <= g x)%Q by (apply H; auto).
  assert (qsum f l <= qsum g l)%Q by (apply IH; intros; apply H; auto).
  lra.
Qed.

Lemma qsum_ext f g l :
  (forall x, In x l -> (f x == g x)%Q) -> (qsum f l == qsum g l)%Q.
Proof.
  intros H. apply Qle_antisym; apply qsum_le; intros x Hx;
    rewrite (H x Hx); apply Qle_refl.
Qed.

Lemma qsum_zero f l :
  (forall x, In x l -> (f x == 0)%Q) -> (qsum f l == 0)%Q.
Proof.
  induction l as [|x l IH]; simpl; intros H; [reflexivity|].
  rewrite (H x) by auto. rewrite IH by (intros; apply H; auto). ring.
Qed.

Lemma qsum_plus f g l :
  (qsum (fun x => f x + g x) l == qsum f l + qsum g l)%Q.
Proof.
  induction l as [|x l IH]; simpl; [ring|]. rewrite IH. ring.
Qed.

Lemma qsum_map f (g : N -> N) l :
  qsum f (map g l) = qsum (fun x => f (g x)) l.
Proof.
  induction l as [|x l IH]; simpl; [reflexivity|]. rewrite IH. reflexivity.
Qed.

Lemma qsum_filter f (p : N -> bool) l :
  (qsum f l ==
   qsum f (filter p l) + qsum f (filter (fun x => negb (p x)) l))%Q.
Proof.
  induction l as [|x l IH]; simpl; [ring|].
  destruct (p x); simpl; rewrite IH; ring.
Qed.

(** Two lists of the same length whose every pair is bounded. *)
Lemma qsum_pairs f g l1 : forall l2,
  length l1 = length l2 ->
  (forall x y, In x l1 -> In y l2 -> (f x + g y <= 0)%Q) ->
  (qsum f l1 + qsum g l2 <= 0)%Q.
Proof.
  induction l1 as [|x l1 IH]; intros [|y l2] L H; simpl in *; try discriminate.
  assert (f x + g y <= 0)%Q by (apply H; auto).
  assert (qsum f l1 + qsum g l2 <= 0)%Q.
  { apply IH; [lia|]. intros; apply H; auto. }
  lra.
Qed.

(** ** The complement of a list of indices *)

Lemma outside_spec l x : outside l x = true <-> ~ In x l.
Proof.
  unfold outside. rewrite negb_true_iff. split.
  - intros E Hin. assert (existsb (N.eqb x) l = true); [|congruence].
    apply existsb_exists. exists x. split; [exact Hin|apply N.eqb_refl].
  - intros Hn. destruct (existsb (N.eqb x) l) eqn:E; [|reflexivity].
    apply existsb_exists in E as (y & Hy & Ey). apply N.eqb_eq in Ey. subst y.
    contradiction.
Qed.

Lemma complement_Permutation l n :
  NoDup l -> (forall x, In x l -> x < n) ->
  Permutation (l ++ filter (outside l) (iota n)) (iota n).
Proof.
  intros ND B. apply NoDup_Permutation.
  - apply NoDup_app; auto.
    + apply NoDup_filter, NoDup_iota.
    + intros x Hx Hf. apply filter_In in Hf as [_ O].
      apply outside_spec in O. contradiction.
  - apply NoDup_iota.
  - intros x. rewrite in_app_iff, filter_In, In_iota, outside_spec. split.
    + intros [Hx|[Hx _]]; auto.
    + intros Hx. destruct (in_dec N.eq_dec x l); auto.
Qed.

Lemma complement_length l n :
  NoDup l -> (forall x, In x l -> x < n) ->
  (length l + length (filter (outside l) (iota n)) = N.to_nat n)%nat.
Proof.
  intros ND B. rewrite <- length_app, <- (length_iota n).
  apply Permutation_length, complement_Permutation; auto.
Qed.

Lemma qsum_complement f l n :
  NoDup l -> (forall x, In x l -> x < n) ->
  (qsum f l + qsum f (filter (outside l) (iota n)) == qsum f (iota n))%Q.
Proof.
  intros ND B. rewrite <- qsum_app.
  apply qsum_Permutation, complement_Permutation; auto.
Qed.

(** ** The cost of an assignment as a sum over the workers *)

Lemma cost_from_qsum m : forall r w0,
  (cost_from m w0 r ==
   qsum (fun w =>
           if nth (N.to_nat w - N.to_nat w0) r UNASSIGNED =? UNASSIGNED
           then 0
           else cost_at m w (nth (N.to_nat w - N.to_nat w0) r UNASSIGNED))
        (map N.of_nat (seq (N.to_nat w0) (length r))))%Q.
Proof.
  induction r as [|j r IH]; intros w0; simpl; [reflexivity|].
  rewrite N2Nat.id, Nat.sub_diag. simpl.
  apply Qplus_comp; [reflexivity|].
  rewrite IH. rewrite N2Nat.inj_succ.
  apply qsum_ext. intros w Hw.
  apply in_map_iff in Hw as (k & <- & Hk). apply in_seq in Hk.
  rewrite Nat2N.id.
  replace (k - N.to_nat w0)%nat with (S (k - S (N.to_nat w0))) by lia.
  reflexivity.
Qed.

Lemma total_cost_qsum m r :
  (total_cost m r == qsum (cost_of m r) (iota (N.of_nat (length r))))%Q.
Proof.
  unfold total_cost. rewrite cost_from_qsum. unfold iota, cost_of, nsel.
  rewrite Nat2N.id. change (N.to_nat 0) with 0%nat.
  apply qsum_ext. intros w _. rewrite Nat.sub_0_r. reflexivity.
Qed.

Lemma map_nsel_iota r : map (nsel r) (iota (N.of_nat (length r))) = r.
Proof.
  unfold iota. rewrite Nat2N.id, map_map.
  apply (nth_ext _ _ UNASSIGNED UNASSIGNED).
  - rewrite length_map, length_seq. reflexivity.
  - intros k Hk. rewrite length_map, length_seq in Hk.
    rewrite (nth_indep _ UNASSIGNED (nsel r (N.of_nat 0))) by
      (rewrite length_map, length_seq; exact Hk).
    rewrite (map_nth (fun x => nsel r (N.of_nat x))), seq_nth by exact Hk.
    unfold nsel. rewrite Nat2N.id. reflexivity.
Qed.

(** * Optimality from a feasible dual solution *)

Section Duality.
Variable m : MultiArray2.
Variable n : N.
Variables a b : N -> Q.
Hypothesis Hn : n = N.max (extent0 m) (extent1 m).
Hypothesis feas :
  forall w j, w < n -> j < n -> (a w + b j <= cost_at m w j)%Q.

(** No assignment costs less than the dual value. *)
Lemma weak_duality r :
  assignment m r ->
  (qsum a (iota n) + qsum b (iota n) <= total_cost m r)%Q.
Proof.
  intros (L & Rg & ND & Cnt).
  rewrite total_cost_qsum, L, N2Nat.id.
  set (p := fun w => assigned (nsel r w)).
  rewrite (qsum_filter (cost_of m r) p (iota (extent0 m))).
  set (A := filter p (iota (extent0 m))).
  set (J := filter assigned r) in *.
  assert (EJ : map (nsel r) A = J).
  { unfold A, J, p.
    rewrite <- (filter_map_swap assigned (nsel r) (iota (extent0 m))).
    rewrite <- (N2Nat.id (extent0 m)), <- L, map_nsel_iota. reflexivity. }
  assert (NA : NoDup A) by apply NoDup_filter, NoDup_iota.
  assert (BA : forall x, In x A -> x < extent0 m /\ p x = true).
  { intros x Hx. apply filter_In in Hx as [Hx Px]. apply In_iota in Hx. auto. }
  assert (BJ : forall j, In j J -> j < extent1 m).
  { intros j Hj. apply filter_In in Hj as [Hj Aj]. apply assigned_true in Aj.
    destruct (Rg j Hj); [contradiction|assumption]. }
  assert (LA : length A = length J) by (rewrite <- EJ, length_map; reflexivity).
  assert (Z : (qsum (cost_of m r)
                 (filter (fun x => negb (p x)) (iota (extent0 m))) == 0)%Q).
  { apply qsum_zero. intros x Hx. apply filter_In in Hx as [_ Px].
    unfold p, assigned in Px. rewrite negb_involutive in Px.
    unfold cost_of. rewrite Px. reflexivity. }
  assert (Hr : forall w, In w A -> nsel r w < extent1 m /\ nsel r w <> UNASSIGNED).
  { intros w Hw. destruct (BA w Hw) as [Lt Pw]. unfold p in Pw.
    split; [|apply assigned_true; exact Pw].
    apply BJ. apply filter_In. split; [|exact Pw].
    unfold nsel. apply nth_In. lia. }
  assert (Main : (qsum a A + qsum b J <= qsum (cost_of m r) A)%Q).
  { rewrite <- EJ, qsum_map, <- qsum_plus. apply qsum_le. intros w Hw.
    destruct (Hr w Hw) as [Lj Nj]. destruct (BA w Hw) as [Lw _].
    unfold cost_of. destruct (N.eqb_spec (nsel r w) UNASSIGNED); [contradiction|].
    apply feas; lia. }
  assert (BA' : forall x, In x A -> x < n) by (intros x Hx; apply BA in Hx; lia).
  assert (BJ' : forall x, In x J -> x < n) by (intros x Hx; apply BJ in Hx; lia).
  pose proof (qsum_complement a A n NA BA') as Sa.
  pose proof (qsum_complement b J n ND BJ') as Sb.
  pose proof (complement_length A n NA BA') as La.
  pose proof (complement_length J n ND BJ') as Lb.
  assert (Pairs : (qsum a (filter (outside A) (iota n)) +
                   qsum b (filter (outside J) (iota n)) <= 0)%Q).
  { apply qsum_pairs; [lia|]. intros w j Hw Hj.
    apply filter_In in Hw as [Hw Ow]. apply filter_In in Hj as [Hj Oj].
    apply In_iota in Hw, Hj. apply outside_spec in Ow, Oj.
    rewrite <- (cost_at_outside m w j); [apply feas; auto|].
    destruct (N.le_gt_cases (extent0 m) (extent1 m)) as [Le|Gt].
    - left. destruct (N.le_gt_cases (extent0 m) w) as [|Lt]; [assumption|].
      exfalso. apply Ow.
      assert (EA : A = iota (extent0 m)).
      { unfold A. apply forallb_filter_id, filter_length_forallb.
        fold A. rewrite LA, Cnt, length_iota. f_equal. lia. }
      rewrite EA. apply In_iota. exact Lt.
    - right. destruct (N.le_gt_cases (extent1 m) j) as [|Lt]; [assumption|].
      exfalso. apply Oj.
      assert (PJ : Permutation J (iota (extent1 m))).
      { apply full_vector_Permutation; auto. rewrite Cnt. f_equal. lia. }
      eapply Permutation_in; [symmetry; exact PJ|]. apply In_iota. exact Lt. }
  lra.
Qed.

(** A complete matching of the padded matrix whose edges are all tight costs
    the dual value, once projected to the caller's matrix. *)
Lemma strong_duality sigma :
  n <= UNASSIGNED ->
  length sigma = N.to_nat n -> NoDup sigma ->
  (forall x, In x sigma -> x < n) ->
  (forall w, w < n ->
     (cost_at m w (nsel sigma w) == a w + b (nsel sigma w))%Q) ->
  (total_cost m (map (project (extent1 m))
                   (firstn (N.to_nat (extent0 m)) sigma)) ==
   qsum a (iota n) + qsum b (iota n))%Q.
Proof.
  intros Un L ND Bd Tight.
  set (r := map (project (extent1 m)) (firstn (N.to_nat (extent0 m)) sigma)).
  assert (Lr : length r = N.to_nat (extent0 m)).
  { unfold r. rewrite length_map, firstn_length_le; lia. }
  set (g := fun w => cost_at m w (nsel sigma w)).
  assert (PU : project (extent1 m) UNASSIGNED = UNASSIGNED).
  { unfold project. destruct (N.leb_spec (extent1 m) UNASSIGNED); auto. }
  assert (E1 : (total_cost m r == qsum g (iota (extent0 m)))%Q).
  { rewrite total_cost_qsum, Lr, N2Nat.id. apply qsum_ext. intros w Hw.
    apply In_iota in Hw. unfold cost_of, g.
    assert (Er : nsel r w = project (extent1 m) (nsel sigma w)).
    { unfold nsel, r. rewrite <- PU at 1. rewrite map_nth, nth_firstn.
      destruct (Nat.ltb_spec (N.to_nat w) (N.to_nat (extent0 m))); [|lia].
      reflexivity. }
    rewrite Er. unfold project.
    destruct (N.leb_spec (extent1 m) (nsel sigma w)) as [Ge|Lt].
    - rewrite N.eqb_refl. rewrite cost_at_outside by auto. reflexivity.
    - destruct (N.eqb_spec (nsel sigma w) UNASSIGNED); [lia|reflexivity]. }
  assert (E2 : (qsum g (iota (extent0 m)) == qsum g (iota n))%Q).
  { rewrite <- (qsum_complement g (iota (extent0 m)) n).
    - rewrite (qsum_zero g (filter _ _)); [ring|].
      intros w Hw. apply filter_In in Hw as [_ Ow]. apply outside_spec in Ow.
      rewrite In_iota in Ow. unfold g. rewrite cost_at_outside; [reflexivity|].
      left. lia.
    - apply NoDup_iota.
    - intros x Hx. apply In_iota in Hx. lia. }
  assert (E3 : (qsum g (iota n) ==
                qsum a (iota n) + qsum b (iota n))%Q).
  { rewrite (qsum_ext g (fun w => a w + b (nsel sigma w))%Q).
    - rewrite (qsum_plus a (fun w => b (nsel sigma w))).
      apply Qplus_comp; [reflexivity|].
      rewrite <- (qsum_map b (nsel sigma)).
      rewrite <- (N2Nat.id n), <- L, map_nsel_iota. rewrite L, N2Nat.id.
      apply qsum_Permutation, full_vector_Permutation; auto.
    - intros w Hw. apply In_iota in Hw. apply Tight. exact Hw. }
  rewrite E1, E2, E3. reflexivity.
Qed.
End Duality.

(** ** The run *)

Lemma reaches_shifted u m st h :
  well_formed m -> no_wrap (N.max (extent0 m) (extent1 m)) ->
  reaches u m st h -> exists R C, shifted m h R C.
Proof.
  intros WF NW R.
  assert (Ext : forall h h' : Hungarian,
            dim_ h' = dim_ h -> cost_matrix_ h' = cost_matrix_ h ->
            (exists R C, shifted m h R C) -> exists R C, shifted m h' R C).
  { intros a b D C (Rw & Cj & S). exists Rw, Cj. unfold shifted.
    rewrite D, C. exact S. }
  induction R.
  - destruct (Hungarian_ctor_total u m WF NW) as (h' & H' & _ & E).
    assert (h' = h) by congruence. subst h'.
    exists (fun _ => 0%Q), (fun _ => 0%Q). intros w j Hw Hj.
    rewrite E by auto. ring.
  - destruct IHR as (Rw & Cj & S).
    pose proof (reaches_state_ok _ _ _ _ WF NW R) as [_ MO].
    destruct (reduce_total u h MO) as (cm & H' & _ & E).
    assert (h' = with_cost_matrix h cm) by congruence. subst h'.
    exists (fun w => Rw w + row_min (cost_matrix_ h) (dim_ h) w)%Q,
           (fun j => Cj j + col_min (cost_matrix_ h) (dim_ h) j)%Q.
    intros w j Hw Hj. simpl in *. rewrite E by auto.
    unfold reduced, row_reduced. rewrite (S w j Hw Hj). ring.
  - apply compute_initial_feasible_solution_kept in H as [K _].
    apply (Ext h); auto; [apply (kept_dim _ _ _ _ _ _ _ _ K)|].
    apply (kept_cost _ _ _ _ _ _ _ _ K eq_refl).
  - apply greedy_match_kept in H.
    apply (Ext h); auto; [apply (kept_dim _ _ _ _ _ _ _ _ H)|].
    apply (kept_cost _ _ _ _ _ _ _ _ H eq_refl).
  - apply initialize_phase_kept in H1.
    apply (Ext h); auto; [apply (kept_dim _ _ _ _ _ _ _ _ H1)|].
    apply (kept_cost _ _ _ _ _ _ _ _ H1 eq_refl).
  - apply commit_min_slack_job_kept in H as [K _].
    apply update_slack_kept in H3.
    apply (Ext (with_committed_workers h2 cw));
      [apply (kept_dim _ _ _ _ _ _ _ _ H3)
      |apply (kept_cost _ _ _ _ _ _ _ _ H3 eq_refl)|].
    apply (Ext h); auto; [apply (kept_dim _ _ _ _ _ _ _ _ K)|].
    apply (kept_cost _ _ _ _ _ _ _ _ K eq_refl).
  - apply commit_min_slack_job_kept in H as [K _].
    apply (Ext h); auto; [apply (kept_dim _ _ _ _ _ _ _ _ K)|].
    apply (kept_cost _ _ _ _ _ _ _ _ K eq_refl).
  - apply augment_step_kept in H.
    apply (Ext h); auto; [apply (kept_dim _ _ _ _ _ _ _ _ H)|].
    apply (kept_cost _ _ _ _ _ _ _ _ H eq_refl).
  - apply augment_step_kept in H.
    apply (Ext h); auto; [apply (kept_dim _ _ _ _ _ _ _ _ H)|].
    apply (kept_cost _ _ _ _ _ _ _ _ H eq_refl).
Qed.

Lemma no_unassigned_count r :
  ~ In UNASSIGNED r -> unassigned_count r = 0%nat.
Proof.
  intros Hn. unfold unassigned_count.
  rewrite (filter_ext_in _ (fun _ => false)), filter_false; [reflexivity|].
  intros x Hx. apply N.eqb_neq. intros ->. contradiction.
Qed.

Lemma result_shape_assignment m r :
  well_formed m ->
  result_shape (extent0 m) (extent1 m) r -> assignment m r.
Proof.
  intros (U0 & U1 & _) (L & Rg & ND & Gt & Lt & Eq). unfold uint32 in *.
  split; [exact L|]. split; [exact Rg|]. split; [exact ND|].
  pose proof (filter_length assigned r) as Sum.
  assert (EU : length (filter (fun x => negb (assigned x)) r) =
               unassigned_count r).
  { unfold unassigned_count. f_equal. apply filter_ext. intros x.
    unfold assigned. apply negb_involutive. }
  rewrite EU, L in Sum.
  destruct (N.lt_trichotomy (extent0 m) (extent1 m)) as [C|[C|C]].
  - rewrite (no_unassigned_count r (Lt C)) in Sum. lia.
  - assert (Hn : ~ In UNASSIGNED r).
    { intros Hin. apply (Permutation_in _ (Eq C)) in Hin.
      apply In_iota in Hin. lia. }
    rewrite (no_unassigned_count r Hn) in Sum. lia.
  - rewrite (Gt C) in Sum. lia.
Qed.

(** The result of a run whose worker labels start out non-positive is an
    assignment of least cost. *)
Lemma solve_optimal u m r :
  well_formed m -> no_wrap (N.max (extent0 m) (extent1 m)) ->
  (forall w, (initial_label u w <= 0)%Q) ->
  solve u m = Done r -> optimal m r.
Proof.
  intros WF NW Z H. unfold solve in H.
  apply bind_Done in H as (h0 & C0 & H).
  destruct (execute_reaches u m h0 r (reaches_ctor _ _ _ C0) H)
    as (h & w & R & Fw & Hw & P).
  destruct (reaches_matching _ _ _ _ WF R) as [V MI]. simpl in MI.
  destruct (reaches_dims _ _ _ _ R) as (Er & Ec & Ed).
  pose proof (fetch_unmatched_worker_spec _ _ Fw) as (_ & All & _).
  assert (All' : forall v, v < dim_ h -> worker_matched h v)
    by (intros v Hv; apply All; lia).
  destruct (reaches_duals u m _ _ WF NW Z R) as [F T].
  destruct (reaches_shifted u m _ _ WF NW R) as (Rw & Cj & S).
  destruct (complete_matching h V MI All') as [ND Bd].
  pose proof (project_result_spec _ _ P) as Spec. rewrite Er, Ec in Spec.
  lens V.
  set (a := fun w => (qsel (label_by_worker_ h) w + Rw w)%Q).
  set (b := fun j => (qsel (label_by_job_ h) j + Cj j)%Q).
  assert (feas : forall w j, w < dim_ h -> j < dim_ h ->
                   (a w + b j <= cost_at m w j)%Q).
  { intros x j Hx Hj. specialize (F x j Hx Hj). specialize (S x j Hx Hj).
    unfold slack_value in F. unfold a, b. lra. }
  assert (Tight : forall x, x < dim_ h ->
            (cost_at m x (nsel (match_job_by_worker_ h) x) ==
             a x + b (nsel (match_job_by_worker_ h) x))%Q).
  { intros x Hx. destruct (All' x Hx) as (j & G & Hj).
    rewrite (get_Done_nth UNASSIGNED _ _ _ G : nsel _ x = j).
    assert (Lj : j < dim_ h).
    { apply Bd. unfold get in G.
      destruct (nth_error (match_job_by_worker_ h) (N.to_nat x)) eqn:En;
        [|discriminate]. inv_Done G. eapply nth_error_In; eauto. }
    specialize (T x j G Hj). specialize (S x j Hx Lj).
    unfold slack_value in T. unfold a, b. lra. }
  split.
  - apply result_shape_assignment; auto.
    unfold result_shape. rewrite <- Er, <- Ec.
    apply project_result_shape; auto. congruence.
  - intros a' Ha'.
    pose proof (weak_duality m (dim_ h) a b Ed feas a' Ha') as W.
    pose proof (strong_duality m (dim_ h) a b Ed (match_job_by_worker_ h))
      as St.
    rewrite <- Spec in St. rewrite St; auto.
Qed.

(** * [greedy_match] leaves no edge without slack between two free ends *)

Lemma match_job_matched w j h h' v :
  match_ w j h = Done h' ->
  uint32 (N.of_nat (length (match_job_by_worker_ h))) ->
  job_matched h v -> job_matched h' v.
Proof.
  intros H U (k & G & Hk). apply match_get in H as (_ & Hw & Hlt & _).
  unfold job_matched. rewrite Hw.
  destruct (v =? j); eauto.
  exists w. split; auto. unfold uint32 in U. lia.
Qed.

Lemma greedy_step w j t t' :
  state_ok t -> mutual_inverse t -> w < dim_ t -> j < dim_ t ->
  (mj <- get (match_job_by_worker_ t) w ;;
   if (mj =? UNASSIGNED)%N then
     mw <- get (match_worker_by_job_ t) j ;;
     if (mw =? UNASSIGNED)%N then
       sl <- slack t w j ;;
       if Qeq_bool sl 0 then match_ w j t else Done t
     else Done t
   else Done t) = Done t' ->
  state_ok t' /\ mutual_inverse t' /\
  kept true true false true true true t t' /\
  (forall k, worker_matched t k -> worker_matched t' k) /\
  (forall k, job_matched t k -> job_matched t' k) /\
  (tight t -> tight t') /\
  ((slack_value t' w j == 0)%Q -> worker_matched t' w \/ job_matched t' j).
Proof.
  intros OK MI Hw Hj H. pose proof OK as [V MO]. lens V.
  assert (Same : state_ok t /\ mutual_inverse t /\
                 kept true true false true true true t t /\
                 (forall k, worker_matched t k -> worker_matched t k) /\
                 (forall k, job_matched t k -> job_matched t k) /\
                 (tight t -> tight t)).
  { split; [exact OK|]. split; [exact MI|]. split; [apply kept_refl|].
    split; auto. }
  apply bind_Done in H as (mj & Gmj & H).
  destruct (N.eqb_spec mj UNASSIGNED) as [->|Nmj].
  2:{ inv_Done H. destruct Same as (A & B & C & D & E & G).
      do 6 (split; [assumption|]). intros _. left. exists mj. auto. }
  apply bind_Done in H as (mw & Gmw & H).
  destruct (N.eqb_spec mw UNASSIGNED) as [->|Nmw].
  2:{ inv_Done H. destruct Same as (A & B & C & D & E & G).
      do 6 (split; [assumption|]). intros _. right. exists mw. auto. }
  rewrite slack_total in H by auto. cbn [bind] in H.
  destruct (Qeq_bool (slack_value t w j) 0) eqn:Z.
  2:{ inv_Done H. destruct Same as (A & B & C & D & E & G).
      do 6 (split; [assumption|]).
      intros E0. apply Qeq_bool_iff in E0. congruence. }
  pose proof (match_kept _ _ _ _ H) as K.
  split; [eapply state_ok_kept; eauto|].
  split; [eapply match_unmatched; eauto|].
  split; [exact K|].
  split; [intros k; apply (match_worker_matched _ _ _ _ _ H); unfold uint32; lia|].
  split; [intros k; apply (match_job_matched _ _ _ _ _ H); unfold uint32; lia|].
  split; [intros T; apply Qeq_bool_iff in Z; eapply match_tight; eauto|].
  intros _. left. apply match_get in H as (Gj & _). exists j.
  rewrite Gj, N.eqb_refl. split; [reflexivity|lia].
Qed.

Lemma greedy_match_maximal h h' :
  state_ok h -> mutual_inverse h ->
  greedy_match h = Done h' ->
  state_ok h' /\ mutual_inverse h' /\
  kept true true false true true true h h' /\
  (forall k, worker_matched h k -> worker_matched h' k) /\
  (forall k, job_matched h k -> job_matched h' k) /\
  (tight h -> tight h') /\
  forall w j, w < dim_ h -> j < dim_ h ->
    (slack_value h' w j == 0)%Q -> worker_matched h' w \/ job_matched h' j.
Proof.
  intros OK MI H. unfold greedy_match in H.
  set (dim := dim_ h) in *.
  set (Inv := fun s : Hungarian =>
         state_ok s /\ mutual_inverse s /\
         kept true true false true true true h s /\
         (forall k, worker_matched h k -> worker_matched s k) /\
         (forall k, job_matched h k -> job_matched s k) /\
         (tight h -> tight s)).
  set (edge := fun (s : Hungarian) (w j : N) =>
         (slack_value s w j == 0)%Q -> worker_matched s w \/ job_matched s j).
  assert (Mono : forall s s' w j,
            kept true true false true true true s s' ->
            (forall k, worker_matched s k -> worker_matched s' k) ->
            (forall k, job_matched s k -> job_matched s' k) ->
            edge s w j -> edge s' w j).
  { intros s s' w j K Mw Mj E Z.
    pose proof (kept_cost _ _ _ _ _ _ _ _ K eq_refl) as C.
    pose proof (kept_labels _ _ _ _ _ _ _ _ K eq_refl) as [LW LJ].
    rewrite (slack_value_ext s s') in Z by assumption.
    destruct (E Z); auto. }
  match type of H with
  | for_range 0 dim ?b h = Done h' => set (outer := b) in *
  end.
  cut (Inv h' /\ forall w j, w < dim -> j < dim -> edge h' w j).
  { intros ((A & B & C & D & E & G) & M). do 6 (split; [assumption|]).
    exact M. }
  apply (for_range_inv outer
           (fun w0 s => Inv s /\ forall w j, w < w0 -> j < dim -> edge s w j)
           0 dim h h'); auto.
  - lia.
  - split; [|intros; lia].
    unfold Inv. split; [exact OK|]. split; [exact MI|].
    split; [apply kept_refl|]. split; auto.
  - intros w0 s s' Hw0 [Is Es] Hb. unfold outer in Hb.
    match type of Hb with
    | for_range 0 dim ?b s = Done s' => set (inner := b) in *
    end.
    cut (Inv s' /\ (forall w j, w < w0 -> j < dim -> edge s' w j) /\
         forall j, j < dim -> edge s' w0 j).
    { intros (A & B & C). split; auto. intros w j Hw Hj.
      destruct (N.eq_dec w w0) as [->|Hne]; [auto|apply B; auto; lia]. }
    apply (for_range_inv inner
             (fun j0 t => Inv t /\
                (forall w j, w < w0 -> j < dim -> edge t w j) /\
                forall j, j < j0 -> edge t w0 j)
             0 dim s s'); auto.
    + lia.
    + split; auto. split; auto. intros; lia.
    + intros j0 t t' Hj0 ((Ot & Mt & Kt & Wt & Jt & Tt) & Et & Ej) Hs.
      unfold inner in Hs.
      pose proof (kept_dim _ _ _ _ _ _ _ _ Kt) as Dt. fold dim in Dt.
      destruct (greedy_step w0 j0 t t' Ot Mt)
        as (O' & M' & K' & W' & J' & T' & E');
        auto; try lia.
      split; [|split].
      * unfold Inv. split; auto. split; auto.
        split; [eapply kept_trans; eauto|]. split; auto.
      * intros w j Hw Hj. apply (Mono t t'); auto.
      * intros j Hj. destruct (N.eq_dec j j0) as [->|Hne]; [exact E'|].
        apply (Mono t t'); auto. apply Ej. lia.
Qed.

(** * [MultiArray<T, 2>]: what an access reaches *)

Lemma rectangular_index r c m i j :
  rectangular r c m -> i < r -> j < c ->
  flat_index m i j = i * c + j /\ i * c + j < N.of_nat (length (array m)).
Proof.
  intros (E0 & E1 & L & NW) Hi Hj.
  destruct (flat_index_small m r c i j E1 Hi Hj NW) as [F B].
  split; [exact F|lia].
Qed.

Lemma rectangular_get2 r c m i j :
  rectangular r c m -> i < r -> j < c ->
  get2 m i j = Done (qsel (array m) (i * c + j)).
Proof.
  intros R Hi Hj. destruct (rectangular_index r c m i j R Hi Hj) as [F B].
  unfold get2. rewrite F. apply get_qsel. exact B.
Qed.

Lemma rectangular_cells_apart c i j i' j' :
  j < c -> j' < c -> i * c + j = i' * c + j' -> i = i' /\ j = j'.
Proof.
  intros Hj Hj' E.
  assert (i = i').
  { destruct (N.lt_trichotomy i i') as [L|[L|L]]; auto; exfalso; nia. }
  subst. split; [reflexivity|lia].
Qed.

(** * [reduce] moves the cost of every complete assignment by one amount *)

Lemma qsum_minus3 f g k l :
  (qsum (fun x => f x - g x - k x) l == qsum f l - qsum g l - qsum k l)%Q.
Proof.
  induction l as [|x l IH]; simpl; [ring|]. rewrite IH. ring.
Qed.

Lemma Permutation_iota_nsel sigma n w :
  Permutation sigma (iota n) -> w < n -> nsel sigma w < n.
Proof.
  intros P Hw. apply In_iota. eapply Permutation_in; [exact P|].
  unfold nsel. apply nth_In.
  rewrite (Permutation_length P), length_iota. lia.
Qed.

Lemma reduce_shifts u h :
  matrix_ok (dim_ h) (cost_matrix_ h) ->
  exists cm,
    reduce u h = Done (with_cost_matrix h cm) /\
    matrix_ok (dim_ h) cm /\
    forall sigma, Permutation sigma (iota (dim_ h)) ->
      (assignment_cost cm sigma ==
       assignment_cost (cost_matrix_ h) sigma
       - qsum (row_min (cost_matrix_ h) (dim_ h)) (iota (dim_ h))
       - qsum (col_min (cost_matrix_ h) (dim_ h)) (iota (dim_ h)))%Q.
Proof.
  intros MO. destruct (reduce_total u h MO) as (cm & H & MO' & E).
  exists cm. split; [exact H|]. split; [exact MO'|].
  intros sigma P. unfold assignment_cost.
  pose proof (Permutation_length P) as L. rewrite length_iota in L.
  rewrite L, N2Nat.id.
  rewrite (qsum_ext _ (fun w =>
             entry (cost_matrix_ h) w (nsel sigma w)
             - row_min (cost_matrix_ h) (dim_ h) w
             - col_min (cost_matrix_ h) (dim_ h) (nsel sigma w))%Q).
  - rewrite (qsum_minus3 (fun w => entry (cost_matrix_ h) w (nsel sigma w))
               (row_min (cost_matrix_ h) (dim_ h))
               (fun w => col_min (cost_matrix_ h) (dim_ h) (nsel sigma w))).
    rewrite <- (qsum_map (col_min (cost_matrix_ h) (dim_ h)) (nsel sigma)).
    assert (M : map (nsel sigma) (iota (dim_ h)) = sigma).
    { rewrite <- (map_nsel_iota sigma) at 2. rewrite L, N2Nat.id. reflexivity. }
    rewrite M, (qsum_Permutation _ _ _ P). reflexivity.
  - intros w Hw. apply In_iota in Hw.
    rewrite E; auto; [|apply Permutation_iota_nsel; auto].
    unfold reduced, row_reduced. reflexivity.
Qed.

(** * [DamerauLevenshtein::execute] *)

(** ** Machine arithmetic without wrap-around *)

Lemma add32_small (a b : Z) :
  (0 <= a + b <= 2147483647)%Z -> add32 a b = Done (a + b)%Z.
Proof.
  intros H. unfold add32, in_int32.
  destruct (Z.leb_spec (-2147483648) (a + b)); [|lia].
  destruct (Z.leb_spec (a + b) 2147483647); [|lia]. reflexivity.
Qed.

Lemma to_int32_small (z : Z) :
  (0 <= z <= 2147483647)%Z -> to_int32 z = z.
Proof.
  intros H. unfold to_int32. rewrite Z.mod_small; lia.
Qed.

Lemma to_uint32_small (z : Z) :
  (0 <= z <= 2147483647)%Z -> to_uint32 z = Z.to_N z.
Proof.
  intros H. unfold to_uint32. rewrite Z.mod_small; lia.
Qed.

Lemma to_uint32_of_N (x : N) :
  x <= 2147483647 -> to_uint32 (Z.of_N x) = x.
Proof.
  intros H. rewrite to_uint32_small by lia. lia.
Qed.

Lemma uadd_small (a b : N) : a + b < 4294967296 -> uadd a b = a + b.
Proof. intros H. unfold uadd. apply wrap32_small. exact H. Qed.

Lemma umul_small (a b : N) : a * b < 4294967296 -> umul a b = a * b.
Proof. intros H. unfold umul. apply wrap32_small. exact H. Qed.

Lemma usub_small (a b : N) : b <= a -> a < 4294967296 -> usub a b = a - b.
Proof.
  intros H L. unfold usub. rewrite (wrap32_small b) by lia.
  unfold wrap32.
  replace (a + 4294967296 - b) with (a - b + 1 * 4294967296) by lia.
  rewrite N.Div0.mod_add. apply N.mod_small. lia.
Qed.

(** ** Cells of a table *)

Lemma shape_index {T : Type} (r c : N) (a : Array2 T) (i j : N) :
  shape r c a -> i < r -> j < c ->
  index2 a i j = i * c + j /\ (N.to_nat (i * c + j) < length (cells a))%nat.
Proof.
  intros (E0 & E1 & L & NW) Hi Hj. unfold index2. rewrite E1.
  assert (i * c + j < r * c) by nia.
  rewrite (wrap32_small (i * c)) by nia. rewrite wrap32_small by lia.
  split; [reflexivity|lia].
Qed.

Lemma read2_cell (r c : N) (a : Array2 Z) (i j : N) :
  shape r c a -> i < r -> j < c -> read2 a i j = Done (cell a i j).
Proof.
  intros Sh Hi Hj. destruct (shape_index r c a i j Sh Hi Hj) as [E B].
  unfold read2, cell, get. rewrite E. destruct Sh as (_ & -> & _).
  rewrite (nth_error_nth' _ 0%Z B). reflexivity.
Qed.

Lemma write2_cell (r c : N) (a : Array2 Z) (i j : N) (v : Z) :
  shape r c a -> i < r -> j < c ->
  exists a',
    write2 a i j v = Done a' /\ shape r c a' /\
    forall i' j', i' < r -> j' < c ->
      cell a' i' j' = if (i' =? i) && (j' =? j) then v else cell a i' j'.
Proof.
  intros Sh Hi Hj. destruct (shape_index r c a i j Sh Hi Hj) as [E B].
  pose proof Sh as (E0 & E1 & L & NW).
  unfold write2. rewrite E, set_total by lia. cbn [bind].
  eexists. split; [reflexivity|]. split.
  { unfold shape. cbn [ext0 ext1 cells]. rewrite length_update. auto. }
  intros i' j' Hi' Hj'. unfold cell. cbn [ext1 cells]. rewrite E1.
  rewrite nth_update by lia.
  destruct (Nat.eqb_spec (N.to_nat (i' * c + j')) (N.to_nat (i * c + j)))
    as [Q|Q].
  - apply N2Nat.inj in Q. apply rectangular_cells_apart in Q as [-> ->]; auto.
    rewrite !N.eqb_refl. reflexivity.
  - destruct (N.eqb_spec i' i) as [->|]; [|reflexivity].
    destruct (N.eqb_spec j' j) as [->|]; [contradiction|reflexivity].
Qed.

Lemma new_table_shape (n m : N) :
  n * m < 4294967296 -> 0 < n -> 0 < m ->
  shape n m (new_table n m) /\ forall i j, cell (new_table n m) i j = 0%Z.
Proof.
  intros H Hn Hm. assert (n < 4294967296 /\ m < 4294967296) as [Ln Lm] by nia.
  unfold new_table. rewrite !wrap32_small by assumption. split.
  - unfold shape. cbn [ext0 ext1 cells]. rewrite repeat_length.
    repeat split; try lia.
  - intros i j. unfold cell. cbn [ext1 cells].
    destruct (Nat.lt_ge_cases (N.to_nat (i * m + j)) (N.to_nat (m * n))) as [A|A].
    + apply nth_repeat_lt. exact A.
    + apply nth_overflow. rewrite repeat_length. exact A.
Qed.

Lemma ulinear (x a b : N) :
  a <= 2147483647 -> x * a + b <= 2147483647 ->
  to_int32 (Z.of_N (uadd (umul x (to_uint32 (Z.of_N a)))
                         (to_uint32 (Z.of_N b)))) = Z.of_N (x * a + b).
Proof.
  intros A H. rewrite !to_uint32_of_N by lia.
  rewrite umul_small by lia. rewrite uadd_small by lia.
  apply to_int32_small. lia.
Qed.

(** ** The bound on a cell *)

Section Bound.
Variables cI cD cR cS : N.

Local Abbreviation U := (cell_bound cI cD cR).

Lemma U_lt i j : j < i -> U i j = (j + 1) * N.min cR (cI + cD) + (i - j) * cD.
Proof.
  intros H. unfold cell_bound. rewrite N.min_r by lia.
  replace (j - i) with 0 by lia. lia.
Qed.

Lemma U_gt i j : i < j -> U i j = (i + 1) * N.min cR (cI + cD) + (j - i) * cI.
Proof.
  intros H. unfold cell_bound. rewrite N.min_l by lia.
  replace (i - j) with 0 by lia. lia.
Qed.

Lemma U_eq i : U i i = (i + 1) * N.min cR (cI + cD).
Proof. unfold cell_bound. rewrite N.min_id, N.sub_diag. lia. Qed.

Lemma U_le_V i j : U i j <= (i + 1) * cD + (j + 1) * cI.
Proof.
  assert (C : N.min cR (cI + cD) <= cI + cD) by apply N.le_min_r.
  destruct (N.lt_trichotomy i j) as [L|[->|L]].
  - rewrite U_gt by exact L. nia.
  - rewrite U_eq. nia.
  - rewrite U_lt by exact L. nia.
Qed.

Lemma U_column i : 1 <= i ->
  N.min ((i + 1) * cD + cI) (i * cD + cR) <= U i 0.
Proof.
  intros H. rewrite U_lt by lia. rewrite N.sub_0_r.
  destruct (N.min_spec cR (cI + cD)) as [[? ->]|[? ->]];
    destruct (N.min_spec ((i + 1) * cD + cI) (i * cD + cR)) as [[? ->]|[? ->]];
    lia.
Qed.

Lemma U_row j : 1 <= j ->
  N.min ((j + 1) * cI + cD) (j * cI + cR) <= U 0 j.
Proof.
  intros H. rewrite U_gt by lia. rewrite N.sub_0_r.
  destruct (N.min_spec cR (cI + cD)) as [[? ->]|[? ->]];
    destruct (N.min_spec ((j + 1) * cI + cD) (j * cI + cR)) as [[? ->]|[? ->]];
    lia.
Qed.

Lemma U_step i j : 1 <= i -> 1 <= j ->
  N.min (U (i - 1) j + cD) (N.min (U i (j - 1) + cI) (U (i - 1) (j - 1) + cR))
  <= U i j.
Proof.
  intros Hi Hj.
  destruct (N.lt_trichotomy i j) as [L|[E|L]].
  - etransitivity; [apply N.le_min_r|]. etransitivity; [apply N.le_min_l|].
    rewrite (U_gt i j) by exact L.
    destruct (N.eq_dec i (j - 1)) as [->|Q].
    + rewrite U_eq. nia.
    + rewrite U_gt by lia. nia.
  - subst j. rewrite U_eq, U_eq. rewrite (U_gt (i - 1) i) by lia.
    replace (i - 1 + 1) with i by lia. replace (i - (i - 1)) with 1 by lia.
    destruct (N.min_spec cR (cI + cD)) as [[? ->]|[? ->]].
    + etransitivity; [apply N.le_min_r|]. etransitivity; [apply N.le_min_r|].
      lia.
    + etransitivity; [apply N.le_min_l|]. lia.
  - etransitivity; [apply N.le_min_l|].
    rewrite (U_lt i j) by exact L.
    destruct (N.eq_dec j (i - 1)) as [->|Q].
    + rewrite U_eq. nia.
    + rewrite U_lt by lia. nia.
Qed.

Lemma rewrite_cost_U i j :
  rewrite_cost {| insert_cost := Z.of_N cI; delete_cost := Z.of_N cD;
                  replace_cost := Z.of_N cR; swap_cost := Z.of_N cS |}
               (i + 1) (j + 1) = Z.of_N (U i j).
Proof.
  unfold rewrite_cost, cell_bound. cbn [insert_cost delete_cost replace_cost].
  replace (i + 1 - (j + 1)) with (i - j) by lia.
  replace (j + 1 - (i + 1)) with (j - i) by lia.
  replace (Z.min (Z.of_N cR) (Z.of_N cI + Z.of_N cD))
    with (Z.of_N (N.min cR (cI + cD))) by lia.
  lia.
Qed.
End Bound.

(** ** Loops over the characters of a string *)

Lemma written_pair {Q : Type} (r c : N) (a : Array2 Z) (i j : N) (v : Z)
  (q : Q) (res : outcome (Array2 Z * Q)) :
  shape r c a -> i < r -> j < c ->
  res = (a' <- write2 a i j v ;; Done (a', q)) ->
  exists a',
    res = Done (a', q) /\
    forall i' j', i' < r -> j' < c ->
      cell a' i' j' = if (i' =? i) && (j' =? j) then v else cell a i' j'.
Proof.
  intros Sh Hi Hj ->.
  destruct (write2_cell r c a i j v Sh Hi Hj) as (a' & W & _ & C).
  exists a'. rewrite W. split; [reflexivity|exact C].
Qed.

Lemma for_size_small {S : Type} (lo hi : N) (body : N -> S -> outcome S) s :
  hi < 4294967296 -> for_size lo hi body s = for_range lo hi body s.
Proof.
  intros H. unfold for_size. destruct (N.ltb_spec hi 4294967296); [|lia].
  reflexivity.
Qed.

Lemma for_size_step {S : Type} (lo hi : N) (body : N -> S -> outcome S) s :
  hi < 4294967296 -> lo < hi ->
  for_size lo hi body s = (s' <- body lo s ;; for_size (N.succ lo) hi body s').
Proof.
  intros H L. rewrite for_size_small by exact H. unfold for_range.
  replace (N.to_nat (hi - lo)) with (Datatypes.S (N.to_nat (hi - N.succ lo)))
    by lia.
  cbn [for_loop]. destruct (body lo s); cbn [bind]; try reflexivity.
  rewrite for_size_small by exact H. reflexivity.
Qed.

Lemma for_size_done {S : Type} (lo : N) (body : N -> S -> outcome S) s :
  lo < 4294967296 -> for_size lo lo body s = Done s.
Proof.
  intros H. rewrite for_size_small by exact H. unfold for_range.
  rewrite N.sub_diag. reflexivity.
Qed.

(** ** The loops keep the table in order *)

Section Table.
Variables cI cD cR cS : N.
Variables source target : list Ascii.ascii.

Local Abbreviation dl :=
  {| insert_cost := Z.of_N cI; delete_cost := Z.of_N cD;
     replace_cost := Z.of_N cR; swap_cost := Z.of_N cS |}.
Local Abbreviation n := (size source).
Local Abbreviation m := (size target).
Local Abbreviation U := (cell_bound cI cD cR).

Hypothesis Hc : n * cD + m * cI + cR + cS <= 2147483647.
Hypothesis Hnm : n * m < 4294967296.
Hypothesis Hn : 0 < n.
Hypothesis Hm : 0 < m.

Lemma costs_small :
  cI <= 2147483647 /\ cD <= 2147483647 /\ cR <= 2147483647 /\
  cS <= 2147483647.
Proof. repeat split; nia. Qed.

Lemma sizes_small : n < 4294967296 /\ m < 4294967296.
Proof. split; nia. Qed.

Lemma V_small i j : i < n -> j < m ->
  (i + 1) * cD + (j + 1) * cI + cR + cS <= 2147483647.
Proof. intros Hi Hj. nia. Qed.

Lemma U_small i j : i < n -> j < m -> U i j + cR + cS <= 2147483647.
Proof.
  intros Hi Hj. pose proof (U_le_V cI cD cR i j).
  pose proof (V_small i j Hi Hj). lia.
Qed.

Lemma cell_small a i j :
  table_ok dl source target a -> i < n -> j < m ->
  (0 <= cell a i j <= Z.of_N (U i j))%Z.
Proof.
  intros (_ & B & _) Hi Hj. rewrite <- (rewrite_cost_U cI cD cR cS).
  apply B; assumption.
Qed.

Lemma store_ok a i j v :
  table_ok dl source target a -> i < n -> j < m ->
  (0 <= v <= Z.of_N (U i j))%Z ->
  (i = j ->
   (v <= Z.of_N cR * Z.of_N (mismatches source target (S (N.to_nat i))))%Z) ->
  exists a',
    write2 a i j v = Done a' /\ table_ok dl source target a' /\
    forall i' j', i' < n -> j' < m ->
      cell a' i' j' = if (i' =? i) && (j' =? j) then v else cell a i' j'.
Proof.
  intros (Sh & B & Dg) Hi Hj Hv Hd.
  destruct (write2_cell n m a i j v Sh Hi Hj) as (a' & W & Sh' & C).
  exists a'. split; [exact W|]. split; [|exact C]. split; [exact Sh'|]. split.
  - intros i' j' Hi' Hj'. rewrite C by assumption.
    destruct ((i' =? i) && (j' =? j)) eqn:E.
    + apply andb_prop in E as [E1 E2].
      apply N.eqb_eq in E1, E2. subst i' j'.
      rewrite (rewrite_cost_U cI cD cR cS). exact Hv.
    + apply B; assumption.
  - intros k Hk Hk'. rewrite C by assumption.
    destruct ((k =? i) && (k =? j)) eqn:E.
    + apply andb_prop in E as [E1 E2].
      apply N.eqb_eq in E1, E2. subst i j. apply Hd; auto.
    + apply Dg; assumption.
Qed.

Lemma low_store (P : N -> N -> Prop) a a' i j v :
  low dl source target P a ->
  (forall i' j', i' < n -> j' < m ->
     cell a' i' j' = if (i' =? i) && (j' =? j) then v else cell a i' j') ->
  (i = j /\ agree source target i) \/ (least_cost dl <= v)%Z ->
  low dl source target (fun i' j' => P i' j' \/ (i' = i /\ j' = j)) a'.
Proof.
  intros L C Hv i' j' Hi' Hj' HP. unfold apart. rewrite C by assumption.
  destruct (N.eqb_spec i' i) as [->|Q1]; cbn [andb].
  - destruct (N.eqb_spec j' j) as [->|Q2]; [exact Hv|].
    destruct HP as [HP|[_ HP]]; [|contradiction]. apply L; assumption.
  - destruct HP as [HP|[HP _]]; [|contradiction]. apply L; assumption.
Qed.

Lemma low_mono (P Q : N -> N -> Prop) a :
  (forall i j, i < n -> j < m -> Q i j -> P i j) ->
  low dl source target P a -> low dl source target Q a.
Proof. intros M L i j Hi Hj HQ. apply L; auto. Qed.

Ltac low_from H :=
  eapply low_mono; cycle 1; [exact H|cbv beta; intros; lia].

Lemma least_cost_le :
  (least_cost dl <= Z.of_N cI /\ least_cost dl <= Z.of_N cD /\
   least_cost dl <= Z.of_N cR /\ least_cost dl <= Z.of_N cS)%Z.
Proof.
  unfold least_cost. cbn [insert_cost delete_cost replace_cost swap_cost].
  lia.
Qed.

Lemma first_column_eq a i :
  table_ok dl source target a -> 1 <= i < n ->
  first_column dl source target i a =
  write2 a i 0
    (Z.min (cell a (i - 1) 0 + Z.of_N cD)
       (Z.min (Z.of_N ((i + 1) * cD + cI))
              (Z.of_N (i * cD +
                 (if Ascii.eqb (char_at source i) (char_at target 0)
                  then 0 else cR))))).
Proof.
  intros T Hi. pose proof T as (Sh & _).
  pose proof costs_small as (SI & SD & SR & SS).
  pose proof sizes_small as (Sn & Sm).
  pose proof (cell_small a (i - 1) 0 T ltac:(lia) Hm) as Ca.
  pose proof (U_small (i - 1) 0 ltac:(lia) Hm) as Ua.
  pose proof (U_le_V cI cD cR (i - 1) 0) as Va.
  replace (i - 1 + 1) with i in Va by lia.
  pose proof (V_small i 0 ltac:(lia) Hm) as Vi.
  unfold first_column. cbn [insert_cost delete_cost replace_cost].
  rewrite (read2_cell n m) by (assumption || lia). cbn [bind].
  rewrite add32_small by lia. cbn [bind].
  rewrite (uadd_small i 1) by lia.
  rewrite ulinear by lia.
  replace (if Ascii.eqb (char_at source i) (char_at target 0)
           then 0%Z else Z.of_N cR)
    with (Z.of_N (if Ascii.eqb (char_at source i) (char_at target 0)
                  then 0 else cR))
    by (destruct (Ascii.eqb _ _); reflexivity).
  rewrite ulinear
    by (try assumption; destruct (Ascii.eqb _ _); lia).
  reflexivity.
Qed.

Lemma first_column_ok a i :
  table_ok dl source target a -> 1 <= i < n ->
  exists a',
    first_column dl source target i a = Done a' /\
    table_ok dl source target a' /\
    forall P, low dl source target P a ->
      low dl source target (fun i' j' => P i' j' \/ (i' = i /\ j' = 0)) a'.
Proof.
  intros T Hi. rewrite first_column_eq by assumption.
  pose proof (cell_small a (i - 1) 0 T ltac:(lia) Hm) as Ca.
  pose proof (U_column cI cD cR i ltac:(lia)).
  destruct (store_ok a i 0
    (Z.min (cell a (i - 1) 0 + Z.of_N cD)
       (Z.min (Z.of_N ((i + 1) * cD + cI))
              (Z.of_N (i * cD +
                 (if Ascii.eqb (char_at source i) (char_at target 0)
                  then 0 else cR))))) T ltac:(lia) Hm)
    as (a' & W & T' & C).
  - destruct (Ascii.eqb _ _); lia.
  - lia.
  - exists a'. split; [exact W|]. split; [exact T'|].
    intros P L. apply (low_store P a a' i 0 _ L C). right.
    pose proof least_cost_le as (LI & LD & _).
    assert (cD <= i * cD)
      by (rewrite <- (N.mul_1_l cD) at 1; apply N.mul_le_mono_r; lia). lia.
Qed.

Lemma first_row_eq a j :
  table_ok dl source target a -> 1 <= j < m ->
  first_row dl source target j a =
  write2 a 0 j
    (Z.min (cell a 0 (j - 1) + Z.of_N cI)
       (Z.min (Z.of_N ((j + 1) * cI + cD))
              (Z.of_N (j * cI +
                 (if Ascii.eqb (char_at source 0) (char_at target j)
                  then 0 else cR))))).
Proof.
  intros T Hj. pose proof T as (Sh & _).
  pose proof costs_small as (SI & SD & SR & SS).
  pose proof sizes_small as (Sn & Sm).
  pose proof (cell_small a 0 (j - 1) T Hn ltac:(lia)) as Ca.
  pose proof (U_small 0 (j - 1) Hn ltac:(lia)) as Ua.
  pose proof (U_le_V cI cD cR 0 (j - 1)) as Va.
  replace (j - 1 + 1) with j in Va by lia.
  pose proof (V_small 0 j Hn ltac:(lia)) as Vi.
  unfold first_row. cbn [insert_cost delete_cost replace_cost].
  rewrite (read2_cell n m) by (assumption || lia). cbn [bind].
  rewrite add32_small by lia. cbn [bind].
  rewrite (uadd_small j 1) by lia.
  rewrite ulinear by lia.
  replace (if Ascii.eqb (char_at source 0) (char_at target j)
           then 0%Z else Z.of_N cR)
    with (Z.of_N (if Ascii.eqb (char_at source 0) (char_at target j)
                  then 0 else cR))
    by (destruct (Ascii.eqb _ _); reflexivity).
  rewrite ulinear
    by (try assumption; destruct (Ascii.eqb _ _); lia).
  reflexivity.
Qed.

Lemma first_row_ok a j :
  table_ok dl source target a -> 1 <= j < m ->
  exists a',
    first_row dl source target j a = Done a' /\
    table_ok dl source target a' /\
    forall P, low dl source target P a ->
      low dl source target (fun i' j' => P i' j' \/ (i' = 0 /\ j' = j)) a'.
Proof.
  intros T Hj. rewrite first_row_eq by assumption.
  pose proof (cell_small a 0 (j - 1) T Hn ltac:(lia)) as Ca.
  pose proof (U_row cI cD cR j ltac:(lia)).
  destruct (store_ok a 0 j
    (Z.min (cell a 0 (j - 1) + Z.of_N cI)
       (Z.min (Z.of_N ((j + 1) * cI + cD))
              (Z.of_N (j * cI +
                 (if Ascii.eqb (char_at source 0) (char_at target j)
                  then 0 else cR))))) T Hn ltac:(lia))
    as (a' & W & T' & C).
  - destruct (Ascii.eqb _ _); lia.
  - lia.
  - exists a'. split; [exact W|]. split; [exact T'|].
    intros P L. apply (low_store P a a' 0 j _ L C). right.
    pose proof least_cost_le as (LI & LD & _).
    assert (cI <= j * cI)
      by (rewrite <- (N.mul_1_l cI) at 1; apply N.mul_le_mono_r; lia). lia.
Qed.

Lemma swap_sum (pre i k j q : N) :
  k < i -> q < j -> i < 4294967296 -> j < 4294967296 ->
  pre + (i - k - 1) * cD + (j - q - 1) * cI + cS <= 2147483647 ->
  to_int32 (Z.of_N
    (uadd (uadd (uadd pre (umul (usub (usub i k) 1) (to_uint32 (Z.of_N cD))))
                (umul (usub (usub j q) 1) (to_uint32 (Z.of_N cI))))
          (to_uint32 (Z.of_N cS))))
  = Z.of_N (pre + (i - k - 1) * cD + (j - q - 1) * cI + cS).
Proof.
  intros Hk Hq Li Lj H. pose proof costs_small as (SI & SD & SR & SS).
  rewrite !to_uint32_of_N by assumption.
  rewrite (usub_small i k) by lia. rewrite (usub_small (i - k) 1) by lia.
  rewrite (usub_small j q) by lia. rewrite (usub_small (j - q) 1) by lia.
  revert H. generalize (i - k - 1) (j - q - 1). intros x y H.
  rewrite !umul_small by lia.
  rewrite (uadd_small pre) by lia.
  rewrite (uadd_small (pre + _)) by lia.
  rewrite uadd_small by lia.
  apply to_int32_small. lia.
Qed.

Lemma swap_candidate_eq a found i j msl :
  table_ok dl source target a -> 1 <= i < n -> 1 <= j < m ->
  (forall k, found = Some k -> k < i) ->
  msl = uint32_MAX \/ msl < j ->
  swap_candidate dl a found i j msl =
  Done (swap_value cI cD cS a found i j msl) /\
  (Z.of_N cS <= swap_value cI cD cS a found i j msl)%Z.
Proof.
  intros T Hi Hj Hf Hq. pose proof T as (Sh & _).
  pose proof sizes_small as (Sn & Sm).
  pose proof costs_small as (_ & _ & _ & SS).
  unfold swap_candidate, swap_value. cbn [insert_cost delete_cost swap_cost].
  destruct found as [k|]; [|split; [reflexivity|unfold int32_MAX; lia]].
  specialize (Hf k eq_refl).
  destruct (N.eqb_spec msl uint32_MAX) as [E|E]; cbn [negb];
    [split; [reflexivity|unfold int32_MAX; lia]|].
  destruct Hq as [Hq|Hq]; [contradiction|].
  pose proof (V_small i j ltac:(lia) ltac:(lia)) as Vij.
  set (pre := if (k =? 0) && (msl =? 0) then 0
              else Z.to_N (cell a (if k =? 0 then 0 else k - 1)
                                  (if msl =? 0 then 0 else msl - 1))).
  assert ((if (k =? 0) && (msl =? 0) then Done 0
           else v <- read2 a (if k =? 0 then 0 else k - 1)
                             (if msl =? 0 then 0 else msl - 1) ;;
                Done (to_uint32 v)) = Done pre /\
          pre <= (k + 1) * cD + (msl + 1) * cI) as (-> & Hpre).
  { unfold pre. destruct ((k =? 0) && (msl =? 0)).
    - split; [reflexivity|lia].
    - set (i0 := if k =? 0 then 0 else k - 1).
      set (j0 := if msl =? 0 then 0 else msl - 1).
      assert (Hi0 : i0 + 1 <= k + 1)
        by (unfold i0; destruct (N.eqb_spec k 0); lia).
      assert (Hj0 : j0 + 1 <= msl + 1)
        by (unfold j0; destruct (N.eqb_spec msl 0); lia).
      pose proof (cell_small a i0 j0 T ltac:(lia) ltac:(lia)) as Ca.
      pose proof (U_small i0 j0 ltac:(lia) ltac:(lia)) as Ua.
      pose proof (U_le_V cI cD cR i0 j0) as Va.
      rewrite (read2_cell n m) by (assumption || lia). cbn [bind].
      rewrite to_uint32_small by lia. split; [reflexivity|].
      pose proof (N.mul_le_mono_r _ _ cD Hi0).
      pose proof (N.mul_le_mono_r _ _ cI Hj0). lia. }
  cbn [bind].
  assert ((k + 1) * cD + (i - k - 1) * cD = i * cD) as Q1
    by (rewrite <- N.mul_add_distr_r; f_equal; lia).
  assert ((msl + 1) * cI + (j - msl - 1) * cI = j * cI) as Q2
    by (rewrite <- N.mul_add_distr_r; f_equal; lia).
  rewrite swap_sum by lia.
  split; [reflexivity|].
  generalize (pre + (i - k - 1) * cD + (j - msl - 1) * cI). lia.
Qed.

Lemma inner_body_eq a msl map i j :
  table_ok dl source target a -> 1 <= i < n -> 1 <= j < m ->
  (forall c k, map c = Some k -> k < i) ->
  msl = uint32_MAX \/ msl < j ->
  inner_body dl source target map i j (a, msl) =
  (a' <- write2 a i j
     (Z.min (swap_value cI cD cS a (map (char_at target j)) i j msl)
        (Z.min (cell a (i - 1) j + Z.of_N cD)
           (Z.min (cell a i (j - 1) + Z.of_N cI)
                  (cell a (i - 1) (j - 1) +
                   Z.of_N (if Ascii.eqb (char_at source i) (char_at target j)
                           then 0 else cR))))) ;;
   Done (a', if Ascii.eqb (char_at source i) (char_at target j)
             then j else msl)).
Proof.
  intros T Hi Hj Hmap Hq. pose proof T as (Sh & _ & Dg).
  pose proof (cell_small a (i - 1) j T ltac:(lia) ltac:(lia)) as C1.
  pose proof (cell_small a i (j - 1) T ltac:(lia) ltac:(lia)) as C2.
  pose proof (cell_small a (i - 1) (j - 1) T ltac:(lia) ltac:(lia)) as C3.
  pose proof (U_small (i - 1) (j - 1) ltac:(lia) ltac:(lia)) as U3.
  pose proof (V_small i j ltac:(lia) ltac:(lia)) as Vij.
  pose proof (U_le_V cI cD cR (i - 1) j) as V1.
  replace (i - 1 + 1) with i in V1 by lia.
  pose proof (U_le_V cI cD cR i (j - 1)) as V2.
  replace (j - 1 + 1) with j in V2 by lia.
  destruct (swap_candidate_eq a (map (char_at target j)) i j msl T Hi Hj
              (Hmap _) Hq) as (Hsw & _).
  unfold inner_body. cbn [fst snd insert_cost delete_cost replace_cost].
  rewrite !(read2_cell n m) by (assumption || lia). cbn [bind].
  rewrite (add32_small (cell a (i - 1) j)) by lia. cbn [bind].
  rewrite (add32_small (cell a i (j - 1))) by lia. cbn [bind].
  destruct (Ascii.eqb (char_at source i) (char_at target j)) eqn:E;
    cbn [negb].
  - cbn [bind fst snd]. rewrite Hsw. cbn [bind].
    rewrite Z.add_0_r. reflexivity.
  - rewrite (add32_small (cell a (i - 1) (j - 1))) by lia.
    cbn [bind fst snd]. rewrite Hsw. cbn [bind]. reflexivity.
Qed.

Lemma inner_body_ok a msl map i j :
  table_ok dl source target a -> 1 <= i < n -> 1 <= j < m ->
  (forall c k, map c = Some k -> k < i) ->
  msl = uint32_MAX \/ msl < j ->
  exists a' msl',
    inner_body dl source target map i j (a, msl) = Done (a', msl') /\
    table_ok dl source target a' /\
    (msl' = uint32_MAX \/ msl' < N.succ j) /\
    forall P, low dl source target P a -> P (i - 1) (j - 1) ->
      low dl source target (fun i' j' => P i' j' \/ (i' = i /\ j' = j)) a'.
Proof.
  intros T Hi Hj Hmap Hq. pose proof T as (Sh & _ & Dg).
  rewrite inner_body_eq by assumption.
  pose proof (cell_small a (i - 1) j T ltac:(lia) ltac:(lia)) as C1.
  pose proof (cell_small a i (j - 1) T ltac:(lia) ltac:(lia)) as C2.
  pose proof (cell_small a (i - 1) (j - 1) T ltac:(lia) ltac:(lia)) as C3.
  pose proof (U_step cI cD cR i j ltac:(lia) ltac:(lia)) as St.
  destruct (swap_candidate_eq a (map (char_at target j)) i j msl T Hi Hj
              (Hmap _) Hq) as (_ & Psw).
  destruct (store_ok a i j
     (Z.min (swap_value cI cD cS a (map (char_at target j)) i j msl)
        (Z.min (cell a (i - 1) j + Z.of_N cD)
           (Z.min (cell a i (j - 1) + Z.of_N cI)
                  (cell a (i - 1) (j - 1) +
                   Z.of_N (if Ascii.eqb (char_at source i) (char_at target j)
                           then 0 else cR)))))
      T ltac:(lia) ltac:(lia)) as (a' & W & T' & C).
  - destruct (Ascii.eqb _ _); lia.
  - intros <-. pose proof (Dg (i - 1) ltac:(lia) ltac:(lia)) as D.
    cbn [replace_cost] in D.
    replace (S (N.to_nat (i - 1))) with (N.to_nat i) in D by lia.
    cbn [mismatches]. rewrite N2Nat.id.
    destruct (Ascii.eqb (char_at source i) (char_at target i)); lia.
  - rewrite W. cbn [bind]. eexists _, _. split; [reflexivity|].
    split; [exact T'|]. split; [destruct (Ascii.eqb _ _); lia|].
    intros P L HP. apply (low_store P a a' i j _ L C).
    pose proof least_cost_le as (LI & LD & LR & LS).
    destruct (Ascii.eqb (char_at source i) (char_at target j)) eqn:E.
    + apply Ascii.eqb_eq in E.
      destruct (L (i - 1) (j - 1) ltac:(lia) ltac:(lia) HP) as [[Q A]|Q].
      * left. split; [lia|]. intros k' Hk'.
        destruct (N.eq_dec k' i) as [->|D].
        -- rewrite E. f_equal. lia.
        -- apply A. lia.
      * right. lia.
    + right. lia.
Qed.

Lemma inner_loop_ok a map i msl :
  table_ok dl source target a -> 1 <= i < n ->
  (forall c k, map c = Some k -> k < i) ->
  msl = uint32_MAX \/ msl < 1 ->
  low dl source target (fun i' j' => j' = 0 \/ i' < i) a ->
  exists r,
    for_size 1 m (inner_body dl source target map i) (a, msl) = Done r /\
    table_ok dl source target (fst r) /\
    low dl source target (fun i' j' => j' = 0 \/ i' < N.succ i) (fst r).
Proof.
  intros T Hi Hmap Hq L. pose proof sizes_small as (Sn & Sm).
  rewrite for_size_small by exact Sm.
  destruct (for_range_total (inner_body dl source target map i)
    (fun k st => table_ok dl source target (fst st) /\
                 (snd st = uint32_MAX \/ snd st < k) /\
                 low dl source target
                   (fun i' j' => j' = 0 \/ i' < i \/ (i' = i /\ j' < k))
                   (fst st)) 1 m (a, msl))
    as (r & Hr & Pr & _ & Lr).
  - lia.
  - split; [assumption|]. split; [assumption|].
    low_from L.
  - intros k [a1 q1] Hk [T1 [Q1 L1]]. cbn [fst snd] in *.
    destruct (inner_body_ok a1 q1 map i k T1 Hi ltac:(lia) Hmap Q1)
      as (a' & q' & E & T' & Q' & L').
    exists (a', q'). split; [exact E|]. split; [exact T'|].
    split; [exact Q'|]. cbn [fst].
    specialize (L' _ L1). cbv beta in L'.
    assert (HP : k - 1 = 0 \/ i - 1 < i \/ i - 1 = i /\ k - 1 < k)
      by (right; left; lia).
    low_from (L' HP).
  - exists r. split; [exact Hr|]. split; [exact Pr|].
    low_from Lr.
Qed.

Lemma outer_body_ok a map i :
  table_ok dl source target a -> 1 <= i < n ->
  (forall c k, map c = Some k -> k < i) ->
  low dl source target (fun i' j' => j' = 0 \/ i' < i) a ->
  exists a' map',
    outer_body dl source target i (a, map) = Done (a', map') /\
    table_ok dl source target a' /\
    (forall c k, map' c = Some k -> k < N.succ i) /\
    low dl source target (fun i' j' => j' = 0 \/ i' < N.succ i) a'.
Proof.
  intros T Hi Hmap L. unfold outer_body. cbn [fst snd].
  destruct (inner_loop_ok a map i
    (if Ascii.eqb (char_at source i) (char_at target 0) then 0
     else uint32_MAX) T Hi Hmap) as (r & -> & T' & L'); [|exact L|].
  { destruct (Ascii.eqb _ _); [right; lia|left; reflexivity]. }
  cbn [bind]. eexists _, _. split; [reflexivity|]. split; [exact T'|].
  split; [|exact L'].
  intros c k. unfold remember. destruct (Ascii.eqb c (char_at source i)).
  - intros [= <-]. lia.
  - intros H. apply Hmap in H. lia.
Qed.

Lemma new_table_ok : table_ok dl source target (new_table n m).
Proof.
  destruct (new_table_shape n m Hnm Hn Hm) as (Sh0 & Z0).
  split; [exact Sh0|]. split.
  - intros i j _ _. rewrite Z0, (rewrite_cost_U cI cD cR cS). lia.
  - intros k _ _. rewrite Z0. cbn [replace_cost]. lia.
Qed.

(** [execute] on two strings that are not empty. *)
Lemma execute_table :
  exists v,
    DamerauLevenshtein_execute dl source target = Done v /\
    (0 <= v <= Z.of_N (U (n - 1) (m - 1)))%Z /\
    (n = m -> (v <= Z.of_N cR * Z.of_N (differing source target))%Z) /\
    ((n = m /\ agree source target (n - 1)) \/ (least_cost dl <= v)%Z).
Proof.
  pose proof sizes_small as (Sn & Sm).
  pose proof costs_small as (SI & SD & SR & SS).
  pose proof (V_small 0 0 Hn Hm) as V00.
  pose proof new_table_ok as T0.
  unfold DamerauLevenshtein_execute.
  destruct (N.eqb_spec n 0) as [|_]; [lia|].
  destruct (N.eqb_spec m 0) as [|_]; [lia|].
  cbn [insert_cost delete_cost replace_cost].
  assert (exists first,
    (if Ascii.eqb (char_at source 0) (char_at target 0) then Done 0%Z
     else both <- add32 (Z.of_N cI) (Z.of_N cD) ;;
          Done (Z.min both (Z.of_N cR))) = Done first /\
    (0 <= first <= Z.of_N (U 0 0))%Z /\
    (first <= Z.of_N cR * Z.of_N (mismatches source target 1))%Z /\
    ((0 = 0 /\ agree source target 0) \/ (least_cost dl <= first)%Z))
    as (first & -> & Bf & Df & Lf).
  { rewrite U_eq. cbn [mismatches N.of_nat].
    pose proof least_cost_le as (LI & LD & LR & LS).
    destruct (Ascii.eqb _ _) eqn:E.
    - exists 0%Z. split; [reflexivity|]. split; [lia|]. split; [lia|].
      left. split; [reflexivity|]. intros k' Hk'.
      assert (k' = 0) as -> by lia. apply Ascii.eqb_eq. exact E.
    - rewrite add32_small by lia. cbn [bind].
      eexists. split; [reflexivity|]. split; [lia|]. split; [lia|].
      right. lia. }
  cbn [bind].
  destruct (store_ok (new_table n m) 0 0 first T0 Hn Hm Bf)
    as (a1 & -> & T1 & C1).
  { intros _. exact Df. }
  assert (L1 : low dl source target (fun i' j' => j' = 0 /\ i' < 1) a1).
  { apply (low_mono (fun i' j' => False \/ (i' = 0 /\ j' = 0))).
    - intros i j _ _ [-> Hi]. right. split; [lia|reflexivity].
    - apply (low_store (fun _ _ => False) (new_table n m) a1 0 0 first);
        [|exact C1|exact Lf].
      intros i j _ _ []. }
  cbn [bind].
  rewrite (for_size_small 1 n) by exact Sn.
  destruct (for_range_total (first_column dl source target)
    (fun i a => table_ok dl source target a /\
                low dl source target (fun i' j' => j' = 0 /\ i' < i) a)
    1 n a1) as (a2 & -> & T2 & L2); [lia|split; assumption| |].
  { intros k a Hk [T L].
    destruct (first_column_ok a k T Hk) as (a' & E & T' & L').
    exists a'. split; [exact E|]. split; [exact T'|].
    low_from (L' _ L). }
  cbn [bind].
  rewrite (for_size_small 1 m) by exact Sm.
  destruct (for_range_total (first_row dl source target)
    (fun j a => table_ok dl source target a /\
                low dl source target
                  (fun i' j' => j' = 0 \/ (i' = 0 /\ j' < j)) a)
    1 m a2) as (a3 & -> & T3 & L3); [lia| | |].
  { split; [exact T2|]. low_from L2. }
  { intros k a Hk [T L].
    destruct (first_row_ok a k T Hk) as (a' & E & T' & L').
    exists a'. split; [exact E|]. split; [exact T'|].
    low_from (L' _ L). }
  cbn [bind].
  rewrite (for_size_small 1 n) by exact Sn.
  destruct (for_range_total (outer_body dl source target)
    (fun i st => table_ok dl source target (fst st) /\
                 (forall c k, snd st c = Some k -> k < i) /\
                 low dl source target (fun i' j' => j' = 0 \/ i' < i)
                     (fst st))
    1 n (a3, remember no_index (char_at source 0) 0))
    as (r & -> & T4 & _ & L4).
  - lia.
  - split; [exact T3|]. split.
    + intros c k. cbn [snd]. unfold remember, no_index.
      destruct (Ascii.eqb _ _); [intros [= <-]; lia|discriminate].
    + low_from L3.
  - intros i [a map] Hi [T [M L]]. cbn [fst snd] in *.
    destruct (outer_body_ok a map i T Hi M L)
      as (a' & map' & E & T' & M' & L').
    exists (a', map'). split; [exact E|]. split; [exact T'|].
    split; assumption.
  - cbn [bind]. rewrite !wrap32_small by lia.
    pose proof T4 as (Sh4 & _ & D4).
    rewrite (read2_cell n m) by (assumption || lia).
    eexists. split; [reflexivity|]. split; [|split].
    + apply cell_small; [exact T4|lia|lia].
    + intros E. rewrite <- E.
      pose proof (D4 (n - 1) ltac:(lia) ltac:(lia)) as D.
      cbn [replace_cost] in D. unfold differing.
      replace (length source) with (S (N.to_nat (n - 1)))
        by (unfold size in *; lia).
      exact D.
    + destruct (L4 (n - 1) (m - 1) ltac:(lia) ltac:(lia) ltac:(right; lia))
        as [[Q A]|Q]; [left|right; exact Q].
      split; [lia|exact A].
Qed.
End Table.

(** Costs that are not negative, as natural numbers. *)
Lemma modest_costs dl n m :
  modest dl n m ->
  exists cI cD cR cS,
    dl = {| insert_cost := Z.of_N cI; delete_cost := Z.of_N cD;
            replace_cost := Z.of_N cR; swap_cost := Z.of_N cS |} /\
    n * cD + m * cI + cR + cS <= 2147483647 /\ n * m < 4294967296.
Proof.
  destruct dl as [I D R S]. unfold modest, int32_MAX.
  cbn [insert_cost delete_cost replace_cost swap_cost].
  intros [(HI & HD & HR & HS & Hc) Hnm].
  exists (Z.to_N I), (Z.to_N D), (Z.to_N R), (Z.to_N S).
  split; [f_equal; lia|]. split; [|exact Hnm].
  assert (EI : I = Z.of_N (Z.to_N I)) by lia.
  assert (ED : D = Z.of_N (Z.to_N D)) by lia.
  assert (ER : R = Z.of_N (Z.to_N R)) by lia.
  assert (ES : S = Z.of_N (Z.to_N S)) by lia.
  revert EI ED ER ES.
  generalize (Z.to_N I) (Z.to_N D) (Z.to_N R) (Z.to_N S).
  intros cI cD cR cS -> -> -> ->. lia.
Qed.

Lemma rewrite_cost_sizes cI cD cR cS n m :
  0 < n -> 0 < m ->
  rewrite_cost {| insert_cost := Z.of_N cI; delete_cost := Z.of_N cD;
                  replace_cost := Z.of_N cR; swap_cost := Z.of_N cS |} n m
  = Z.of_N (cell_bound cI cD cR (n - 1) (m - 1)).
Proof.
  intros Hn Hm. rewrite <- (rewrite_cost_U cI cD cR cS).
  f_equal; lia.
Qed.

(** [execute] with an empty string on either side. *)
Lemma execute_empty cI cD cR cS source target :
  size source * cD + size target * cI <= 2147483647 ->
  size source = 0 \/ size target = 0 ->
  DamerauLevenshtein_execute
    {| insert_cost := Z.of_N cI; delete_cost := Z.of_N cD;
       replace_cost := Z.of_N cR; swap_cost := Z.of_N cS |} source target
  = Done (Z.of_N (size source * cD + size target * cI)).
Proof.
  intros Hc E. unfold DamerauLevenshtein_execute, to_size_t, wrap64.
  cbn [insert_cost delete_cost].
  destruct (N.eqb_spec (size source) 0) as [E0|N0].
  - rewrite E0 in *. f_equal.
    destruct (N.eq_dec (size target) 0) as [Q|Q].
    + rewrite Q. reflexivity.
    + assert (cI <= 2147483647) by nia.
      rewrite Z.mod_small by lia. rewrite N.mod_small by lia.
      rewrite to_int32_small by lia. lia.
  - destruct E as [E|E]; [contradiction|]. rewrite E in *. cbn [N.eqb].
    f_equal. assert (cD <= 2147483647) by nia.
    rewrite Z.mod_small by lia. rewrite N.mod_small by lia.
    rewrite to_int32_small by lia. lia.
Qed.

(** ** A swap that is not there

    The source [ab] and the target [aba]: the table, cell by cell. *)

Lemma written cI cD cR cS source target a i j v (r : outcome (Array2 Z)) :
  table_ok {| insert_cost := Z.of_N cI; delete_cost := Z.of_N cD;
              replace_cost := Z.of_N cR; swap_cost := Z.of_N cS |}
           source target a ->
  i < size source -> j < size target ->
  r = write2 a i j v ->
  exists a',
    r = Done a' /\
    forall i' j', i' < size source -> j' < size target ->
      cell a' i' j' = if (i' =? i) && (j' =? j) then v else cell a i' j'.
Proof.
  intros (Sh & _) Hi Hj ->.
  destruct (write2_cell _ _ a i j v Sh Hi Hj) as (a' & W & _ & C).
  exists a'. split; assumption.
Qed.

(** ** A swap that is not there

    The source [ab] and the target [aba]: the table, cell by cell. *)

Section Appended.
Variables cI cD cR cS : N.
Variables a b : Ascii.ascii.

Local Abbreviation dl :=
  {| insert_cost := Z.of_N cI; delete_cost := Z.of_N cD;
     replace_cost := Z.of_N cR; swap_cost := Z.of_N cS |}.
Local Abbreviation source := [a; b].
Local Abbreviation target := [a; b; a].

Hypothesis Hab : a <> b.
Hypothesis Hc : size source * cD + size target * cI + cR + cS <= 2147483647.

Lemma execute_ab_aba :
  DamerauLevenshtein_execute dl source target = Done (Z.of_N (N.min cS cI)).
Proof.
  assert (Eab : Ascii.eqb a b = false) by (apply Ascii.eqb_neq; exact Hab).
  assert (Eba : Ascii.eqb b a = false) by (apply Ascii.eqb_neq; congruence).
  assert (Hnm : size source * size target < 4294967296) by reflexivity.
  assert (Hn : 0 < size source) by reflexivity.
  assert (Hm : 0 < size target) by reflexivity.
  assert (En : size source = 2) by reflexivity.
  assert (Em : size target = 3) by reflexivity.
  pose proof (new_table_ok cI cD cR cS source target Hc Hnm Hn Hm) as T0.
  destruct (new_table_shape _ _ Hnm Hn Hm) as (_ & Z0).
  unfold DamerauLevenshtein_execute.
  change (size source =? 0) with false. change (size target =? 0) with false.
  cbv iota.
  change (char_at source 0) with a. change (char_at target 0) with a.
  rewrite Ascii.eqb_refl. cbn [bind].
  (* table[0][0] *)
  destruct (written cI cD cR cS source target _ 0 0 0%Z _ T0 Hn Hm eq_refl)
    as (a1 & E1 & C1).
  destruct (store_ok cI cD cR cS source target _ 0 0 0%Z T0 Hn Hm)
    as (a1' & E1' & T1 & _); [lia|lia|].
  rewrite E1 in E1'. injection E1' as <-. rewrite E1. cbn [bind].
  assert (A00 : cell a1 0 0 = 0%Z) by (rewrite C1 by lia; reflexivity).
  (* table[1][0] *)
  rewrite (for_size_step 1) by (rewrite ?En; lia).
  assert (H1 : 1 <= 1 < size source) by lia.
  destruct (written cI cD cR cS source target a1 1 0 _ _ T1 ltac:(lia) Hm
              (first_column_eq cI cD cR cS source target Hc Hnm Hn Hm a1 1
                 T1 H1)) as (a2 & E2 & C2).
  destruct (first_column_ok cI cD cR cS source target Hc Hnm Hn Hm a1 1 T1 H1)
    as (a2' & E2' & T2 & _).
  rewrite E2 in E2'. injection E2' as <-. rewrite E2. cbn [bind].
  change (N.succ 1) with 2. rewrite <- En at 1.
  rewrite for_size_done by (rewrite En; lia). cbn [bind].
  change (1 - 1) with 0 in C2.
  assert (B00 : cell a2 0 0 = 0%Z) by (rewrite C2 by lia; exact A00).
  assert (B10 : (0 <= cell a2 1 0)%Z)
    by (rewrite C2 by lia; cbn [N.eqb Pos.eqb andb]; rewrite A00; lia).
  (* table[0][1] *)
  rewrite (for_size_step 1) by (rewrite ?Em; lia).
  assert (H2 : 1 <= 1 < size target) by lia.
  destruct (written cI cD cR cS source target a2 0 1 _ _ T2 Hn ltac:(lia)
              (first_row_eq cI cD cR cS source target Hc Hnm Hn Hm a2 1
                 T2 H2)) as (a3 & E3 & C3).
  destruct (first_row_ok cI cD cR cS source target Hc Hnm Hn Hm a2 1 T2 H2)
    as (a3' & E3' & T3 & _).
  rewrite E3 in E3'. injection E3' as <-. rewrite E3. cbn [bind].
  change (char_at source 0) with a in C3. change (char_at target 1) with b in C3.
  rewrite Eab in C3. change (1 - 1) with 0 in C3.
  assert (D00 : cell a3 0 0 = 0%Z) by (rewrite C3 by lia; exact B00).
  assert (D10 : (0 <= cell a3 1 0)%Z) by (rewrite C3 by lia; exact B10).
  assert (D01 : cell a3 0 1 = Z.of_N cI)
    by (rewrite C3 by lia; cbn [N.eqb Pos.eqb andb]; rewrite B00; lia).
  (* table[0][2] *)
  change (N.succ 1) with 2.
  rewrite (for_size_step 2) by (rewrite ?Em; lia).
  assert (H3 : 1 <= 2 < size target) by lia.
  destruct (written cI cD cR cS source target a3 0 2 _ _ T3 Hn ltac:(lia)
              (first_row_eq cI cD cR cS source target Hc Hnm Hn Hm a3 2
                 T3 H3)) as (a4 & E4 & C4).
  destruct (first_row_ok cI cD cR cS source target Hc Hnm Hn Hm a3 2 T3 H3)
    as (a4' & E4' & T4 & _).
  rewrite E4 in E4'. injection E4' as <-. rewrite E4. cbn [bind].
  change (char_at source 0) with a in C4. change (char_at target 2) with a in C4.
  rewrite Ascii.eqb_refl in C4. change (2 - 1) with 1 in C4.
  assert (F00 : cell a4 0 0 = 0%Z) by (rewrite C4 by lia; exact D00).
  assert (F10 : (0 <= cell a4 1 0)%Z) by (rewrite C4 by lia; exact D10).
  assert (F01 : cell a4 0 1 = Z.of_N cI) by (rewrite C4 by lia; exact D01).
  assert (F02 : cell a4 0 2 = Z.of_N (2 * cI))
    by (rewrite C4 by lia; cbn [N.eqb Pos.eqb andb]; rewrite D01; lia).
  change (N.succ 2) with 3. rewrite <- Em at 1.
  rewrite for_size_done by (rewrite Em; lia). cbn [bind].
  (* row 1 *)
  rewrite (for_size_step 1) by (rewrite ?En; lia).
  unfold outer_body at 1. cbn [fst snd].
  change (char_at source 1) with b. change (char_at target 0) with a.
  rewrite Eba.
  assert (Hmap : forall c k, remember no_index a 0 c = Some k -> k < 1).
  { intros c k. unfold remember, no_index.
    destruct (Ascii.eqb c a); [intros [= <-]; lia|discriminate]. }
  (* table[1][1] *)
  rewrite (for_size_step 1) by (rewrite ?Em; lia).
  pose proof T4 as (Sh4 & _).
  destruct (written_pair _ _ a4 1 1 _ _ _ Sh4 ltac:(lia) ltac:(lia)
              (inner_body_eq cI cD cR cS source target Hc Hnm Hn Hm a4
                 uint32_MAX (remember no_index a 0) 1 1 T4 H1 H2 Hmap
                 (or_introl eq_refl))) as (a5 & E5 & C5).
  destruct (inner_body_ok cI cD cR cS source target Hc Hnm Hn Hm a4
              uint32_MAX (remember no_index a 0) 1 1 T4 H1 H2 Hmap
              (or_introl eq_refl)) as (a5' & q5 & E5' & T5 & _ & _).
  rewrite E5 in E5'. injection E5' as <- _. rewrite E5. cbn [bind].
  change (char_at source 1) with b in *. change (char_at target 1) with b in *.
  rewrite Ascii.eqb_refl in *. change (1 - 1) with 0 in C5.
  assert (G00 : cell a5 0 0 = 0%Z) by (rewrite C5 by lia; exact F00).
  assert (G01 : cell a5 0 1 = Z.of_N cI) by (rewrite C5 by lia; exact F01).
  assert (G02 : cell a5 0 2 = Z.of_N (2 * cI))
    by (rewrite C5 by lia; exact F02).
  assert (G11 : cell a5 1 1 = 0%Z).
  { rewrite C5 by lia. cbn [N.eqb Pos.eqb andb].
    unfold swap_value, remember, no_index. rewrite Eba, F00, F01.
    unfold int32_MAX. lia. }
  (* table[1][2] *)
  change (N.succ 1) with 2.
  rewrite (for_size_step 2) by (rewrite ?Em; lia).
  pose proof T5 as (Sh5 & _).
  assert (Hq : 1 = uint32_MAX \/ 1 < 2) by (right; lia).
  destruct (written_pair _ _ a5 1 2 _ _ _ Sh5 ltac:(lia) ltac:(lia)
              (inner_body_eq cI cD cR cS source target Hc Hnm Hn Hm a5
                 1 (remember no_index a 0) 1 2 T5 H1 H3 Hmap
                 Hq)) as (a6 & E6 & C6).
  rewrite E6. cbn [bind].
  change (N.succ 2) with 3. rewrite <- Em at 1.
  rewrite for_size_done by (rewrite Em; lia). cbn [bind fst].
  change (N.succ 1) with 2. rewrite <- En at 1.
  rewrite for_size_done by (rewrite En; lia). cbn [bind fst].
  change (wrap32 (size source - 1)) with 1.
  change (wrap32 (size target - 1)) with 2.
  assert (Sh6 : shape (size source) (size target) a6).
  { destruct (inner_body_ok cI cD cR cS source target Hc Hnm Hn Hm a5
                1 (remember no_index a 0) 1 2 T5 H1 H3 Hmap Hq)
      as (a6' & q6 & E6' & (Sh6 & _) & _ & _).
    rewrite E6 in E6'. injection E6' as <- _. exact Sh6. }
  rewrite (read2_cell _ _ a6 1 2 Sh6) by lia. f_equal.
  rewrite C6 by lia. cbn [N.eqb Pos.eqb andb].
  change (char_at source 1) with b. change (char_at target 2) with a.
  rewrite Eba. change (1 - 1) with 0. change (2 - 1) with 1.
  unfold swap_value, remember, no_index. rewrite Ascii.eqb_refl.
  change (1 =? uint32_MAX) with false. cbn [N.eqb Pos.eqb andb]. cbv iota.
  change (1 - 1) with 0.
  rewrite G00, G01, G02, G11. change (1 - 0 - 1) with 0.
  change (2 - 1 - 1) with 0. change (Z.to_N 0) with 0. lia.
Qed.
End Appended.

Lemma mismatches_same (source : list Ascii.ascii) (k : nat) :
  mismatches source source k = 0.
Proof.
  induction k as [|k IH]; [reflexivity|].
  cbn [mismatches]. rewrite IH, Ascii.eqb_refl. reflexivity.
Qed.

Lemma agree_same (source target : list Ascii.ascii) :
  size source = size target -> 0 < size source ->
  agree source target (size source - 1) -> source = target.
Proof.
  unfold size, agree, char_at. intros E Hn A.
  apply (nth_ext _ _ Ascii.zero Ascii.zero); [lia|].
  intros k Hk. specialize (A (N.of_nat k) ltac:(lia)).
  rewrite Nat2N.id in A. exact A.
Qed.

(** * Matched pairs have no slack, at every point of a run *)

Lemma reaches_nothing_matched u m st h :
  reaches u m st h -> st = Constructed \/ st = Reduced ->
  forall w j, get (match_job_by_worker_ h) w = Done j -> j = UNASSIGNED.
Proof.
  intros R St.
  assert (C : forall h0, Hungarian_ctor u m = Done h0 ->
            forall w j, get (match_job_by_worker_ h0) w = Done j ->
                        j = UNASSIGNED).
  { intros h0 Hc w j G.
    pose proof (Hungarian_ctor_shape u m h0 Hc)
      as (_ & _ & _ & _ & _ & _ & _ & Lj & _ & _ & _ & Gj & _).
    pose proof (get_lt _ _ _ G) as Lt.
    rewrite Gj in G by lia. congruence. }
  inversion R as [h0 Hc|h0 h1 R0 Hr| | | | | | |]; subst;
    try (destruct St; discriminate).
  - apply C; auto.
  - inversion R0 as [h' Hc| | | | | | | |]; subst.
    apply reduce_kept in Hr.
    pose proof (kept_matching _ _ _ _ _ _ _ _ Hr eq_refl) as [Mj _].
    intros w j G. rewrite Mj in G. eapply C; eauto.
Qed.

Lemma reaches_tight u m st h :
  well_formed m -> no_wrap (N.max (extent0 m) (extent1 m)) ->
  (forall w, (initial_label u w <= 0)%Q) ->
  reaches u m st h -> tight h.
Proof.
  intros WF NW Z R.
  pose proof (reaches_duals u m st h WF NW Z R) as D.
  destruct st; simpl in D; try tauto.
  - intros w j G Hj. exfalso. apply Hj.
    eapply (reaches_nothing_matched u m Constructed); eauto.
  - intros w j G Hj. exfalso. apply Hj.
    eapply (reaches_nothing_matched u m Reduced); eauto.
Qed.

Lemma reaches_matched_in_range u m st h w j :
  well_formed m -> reaches u m st h ->
  get (match_job_by_worker_ h) w = Done j -> j <> UNASSIGNED ->
  w < dim_ h /\ j < dim_ h.
Proof.
  intros WF R G Hj.
  destruct (reaches_matching _ _ _ _ WF R) as [V MS]. lens V.
  pose proof (get_lt _ _ _ G) as Lw. split; [lia|].
  assert (Gb : get (match_worker_by_job_ h) j = Done w).
  { destruct st; simpl in MS; try (apply MS; split; assumption).
    destruct MS as (A & _). apply A; assumption. }
  apply get_lt in Gb. lia.
Qed.

Lemma square2_reaches_labelled :
  reaches zeroed square2 Labelled square2_labelled.
Proof.
  apply reaches_labels with (h := square2_reduced); [|run].
  apply reaches_reduce with (h := square2_ctor); [|run].
  apply reaches_ctor. run.
Qed.

(** * The [MultiArray] built from an initializer list *)

Lemma populate_row_nth {T : Type} (d : T) (row : list T) : forall a p,
  (N.to_nat p + length row <= length a)%nat ->
  exists a',
    populate_row row (a, p) = Done (a', p + N.of_nat (length row)) /\
    length a' = length a /\
    forall k, nth k a' d =
              if (N.to_nat p <=? k)%nat && (k <? N.to_nat p + length row)%nat
              then nth (k - N.to_nat p) row d else nth k a d.
Proof.
  unfold populate_row.
  induction row as [|x row IH]; intros a p L; simpl in *.
  - exists a. split; [f_equal; f_equal; lia|]. split; [reflexivity|].
    intros k. destruct (N.to_nat p <=? k)%nat eqn:A;
      destruct (k <? N.to_nat p + 0)%nat eqn:B; try reflexivity.
    apply Nat.leb_le in A. apply Nat.ltb_lt in B. lia.
  - rewrite set_total by lia. cbn [bind].
    destruct (IH (update a (N.to_nat p) x) (N.succ p)) as (a' & H & La & Hn).
    { rewrite length_update. lia. }
    exists a'. split; [rewrite H; f_equal; f_equal; lia|].
    split; [rewrite La; apply length_update|].
    intros k. rewrite Hn. rewrite N2Nat.inj_succ.
    rewrite nth_update by lia.
    destruct (Nat.leb_spec (S (N.to_nat p)) k);
      destruct (Nat.ltb_spec k (S (N.to_nat p) + length row));
      destruct (Nat.leb_spec (N.to_nat p) k);
      destruct (Nat.ltb_spec k (N.to_nat p + S (length row)));
      destruct (Nat.eqb_spec k (N.to_nat p)); cbn [andb]; try lia;
      try reflexivity.
    + replace (k - N.to_nat p)%nat with (S (k - S (N.to_nat p))) by lia.
      reflexivity.
    + subst k. rewrite Nat.sub_diag. reflexivity.
Qed.

Lemma populate_elements_nth {T : Type} (d : T) (rows : list (list T)) :
  forall a p,
  (N.to_nat p + length (concat rows) <= length a)%nat ->
  exists a',
    populate_elements rows (a, p) =
      Done (a', p + N.of_nat (length (concat rows))) /\
    length a' = length a /\
    forall k, nth k a' d =
              if (N.to_nat p <=? k)%nat &&
                 (k <? N.to_nat p + length (concat rows))%nat
              then nth (k - N.to_nat p) (concat rows) d else nth k a d.
Proof.
  unfold populate_elements.
  induction rows as [|row rows IH]; intros a p L; simpl in *.
  - exists a. split; [f_equal; f_equal; lia|]. split; [reflexivity|].
    intros k. destruct (N.to_nat p <=? k)%nat eqn:A;
      destruct (k <? N.to_nat p + 0)%nat eqn:B; try reflexivity.
    apply Nat.leb_le in A. apply Nat.ltb_lt in B. lia.
  - rewrite length_app in L.
    destruct (populate_row_nth d row a p) as (a1 & H1 & L1 & N1); [lia|].
    rewrite H1.
    destruct (IH a1 (p + N.of_nat (length row))) as (a' & H & La & Hn).
    { rewrite L1. lia. }
    exists a'. split.
    { rewrite H. f_equal. f_equal. rewrite length_app. lia. }
    split; [congruence|].
    intros k. rewrite Hn, N1. rewrite length_app.
    replace (N.to_nat (p + N.of_nat (length row)))
      with (N.to_nat p + length row)%nat by lia.
    destruct (Nat.leb_spec (N.to_nat p + length row) k);
      destruct (Nat.ltb_spec k (N.to_nat p + length row + length (concat rows)));
      destruct (Nat.leb_spec (N.to_nat p) k);
      destruct (Nat.ltb_spec k (N.to_nat p + length row));
      destruct (Nat.ltb_spec k (N.to_nat p + (length row + length (concat rows))));
      cbn [andb]; try lia; try reflexivity.
    + rewrite app_nth2 by lia. f_equal. lia.
    + rewrite app_nth1 by lia. reflexivity.
Qed.

(** Element [j] of row [i] of equally long rows, in their concatenation. *)
Lemma nth_concat_rows {T : Type} (d : T) (c : nat) (rows : list (list T)) :
  Forall (fun row => length row = c) rows ->
  forall i j, (i < length rows)%nat -> (j < c)%nat ->
    nth (i * c + j) (concat rows) d = nth j (nth i rows []) d.
Proof.
  induction 1 as [|row rows Hr _ IH]; intros i j Hi Hj; simpl in *; [lia|].
  destruct i as [|i]; simpl.
  - rewrite app_nth1 by lia. reflexivity.
  - rewrite app_nth2 by lia. rewrite Hr.
    replace (c + i * c + j - c)%nat with (i * c + j)%nat by lia.
    apply IH; lia.
Qed.

Lemma length_concat_rows {T : Type} (c : nat) (rows : list (list T)) :
  Forall (fun row => length row = c) rows ->
  length (concat rows) = (length rows * c)%nat.
Proof.
  induction 1 as [|row rows Hr _ IH]; simpl; [reflexivity|].
  rewrite length_app, Hr, IH. reflexivity.
Qed.

(** The array the constructor builds from rows that fit. *)
Lemma from_rows_cells {T : Type} (fresh : N -> T) (d : T)
  (first : list T) (rest : list (list T)) :
  let rows := first :: rest in
  let r := N.of_nat (length rows) in
  let c := N.of_nat (length first) in
  r < 4294967296 -> c < 4294967296 ->
  N.of_nat (length (concat rows)) <= r * c ->
  exists a,
    from_rows fresh rows = Done a /\
    ext0 a = r /\ ext1 a = c /\
    length (cells a) = N.to_nat (r * c) /\
    forall k, (k < length (concat rows))%nat ->
              nth k (cells a) d = nth k (concat rows) d.
Proof.
  intros rows r c Hr Hc Fit. unfold from_rows. fold rows.
  cbn [rows]. fold rows. fold r c.
  rewrite (wrap32_small r), (wrap32_small c) by assumption.
  destruct (populate_elements_nth d rows (new_array fresh (r * c)) 0)
    as (a' & H & La & Hn).
  { rewrite length_new_array. lia. }
  rewrite H. cbn [bind fst].
  eexists. split; [reflexivity|]. cbn [ext0 ext1 cells].
  split; [reflexivity|]. split; [reflexivity|].
  split; [rewrite La; apply length_new_array|].
  intros k Hk. rewrite Hn. change (N.to_nat 0) with 0%nat.
  destruct (Nat.leb_spec 0 k); [|lia].
  destruct (Nat.ltb_spec k (0 + length (concat rows))); [|lia].
  cbn [andb]. rewrite Nat.sub_0_r. reflexivity.
Qed.

Lemma populate_row_stuck {T : Type} (row : list T) :
  fold_left (fun acc x =>
               st <- acc ;;
               a <- set (fst st) (snd st) x ;;
               Done (a, N.succ (snd st)))
            row (@Fault (list T * N)) = Fault.
Proof. induction row as [|x row IH]; [reflexivity|exact IH]. Qed.

(** A row that does not fit into what is left of the array is written past
    its end. *)
Lemma populate_row_fault {T : Type} (row : list T) : forall (a : list T) p,
  (N.to_nat p <= length a < N.to_nat p + length row)%nat ->
  populate_row row (a, p) = Fault.
Proof.
  unfold populate_row.
  induction row as [|x row IH]; intros a p [L H]; simpl in *; [lia|].
  destruct (Nat.eq_dec (N.to_nat p) (length a)) as [E|E].
  - unfold set. destruct (N.ltb_spec p (N.of_nat (length a))); [lia|].
    cbn [bind]. apply populate_row_stuck.
  - rewrite set_total by lia. cbn [bind]. apply IH.
    rewrite length_update. lia.
Qed.

Lemma populate_elements_stuck {T : Type} (rows : list (list T)) :
  fold_left (fun acc row => st <- acc ;; populate_row row st)
            rows (@Fault (list T * N)) = Fault.
Proof. induction rows as [|row rows IH]; [reflexivity|exact IH]. Qed.

Lemma populate_elements_fault {T : Type} (rows : list (list T)) :
  forall (a : list T) p,
  (N.to_nat p <= length a < N.to_nat p + length (concat rows))%nat ->
  populate_elements rows (a, p) = Fault.
Proof.
  unfold populate_elements.
  induction rows as [|row rows IH]; intros a p [L H]; simpl in *; [lia|].
  rewrite length_app in H.
  destruct (Nat.le_gt_cases (N.to_nat p + length row) (length a)) as [F|F].
  - destruct row as [|x row'] eqn:Er.
    + cbn [populate_row fold_left]. apply IH. simpl in *. lia.
    + rewrite <- Er in *.
      assert (d : T) by (subst row; exact x).
      destruct (populate_row_nth d row a p F) as (a1 & -> & L1 & _).
      apply IH. rewrite L1. lia.
  - rewrite populate_row_fault by lia. apply populate_elements_stuck.
Qed.

Lemma from_rows_fault {T : Type} (fresh : N -> T)
  (first : list T) (rest : list (list T)) :
  let rows := first :: rest in
  let r := N.of_nat (length rows) in
  let c := N.of_nat (length first) in
  r < 4294967296 -> c < 4294967296 ->
  r * c < N.of_nat (length (concat rows)) ->
  from_rows fresh rows = Fault.
Proof.
  intros rows r c Hr Hc Over. unfold from_rows. fold rows.
  cbn [rows]. fold rows. fold r c.
  rewrite (wrap32_small r), (wrap32_small c) by assumption.
  rewrite populate_elements_fault; [reflexivity|].
  rewrite length_new_array. change (N.to_nat 0) with 0%nat. lia.
Qed.

(** What [a[i][j]] gives on an array whose extents do not wrap. *)
Lemma at2_cells {T : Type} (d : T) (a : Array2 T) (i j : N) :
  ext0 a * ext1 a <= 4294967296 ->
  length (cells a) = N.to_nat (ext0 a * ext1 a) ->
  at2 a i j = if (i <? ext0 a) && (j <? ext1 a)
              then Done (Returns (nth (N.to_nat (i * ext1 a + j)) (cells a) d))
              else Done (Throws out_of_range).
Proof.
  intros NW L. unfold at2.
  destruct (N.leb_spec (ext0 a) i) as [Hi|Hi];
    destruct (N.ltb_spec i (ext0 a)); try lia; cbn [andb]; [reflexivity|].
  destruct (N.leb_spec (ext1 a) j) as [Hj|Hj];
    destruct (N.ltb_spec j (ext1 a)); try lia; [reflexivity|].
  destruct (shape_index (ext0 a) (ext1 a) a i j) as [E B]; auto.
  { unfold shape. auto. }
  unfold get. rewrite E, (nth_error_nth' _ d B). reflexivity.
Qed.

(** * [KnuthMorrisPratt] *)

Lemma char_of_in (s : list Ascii.ascii) (i : N) :
  i <= size s -> char_of s i = Done (char_at s i).
Proof.
  intros H. unfold char_of. destruct (N.leb_spec i (size s)); [reflexivity|lia].
Qed.

Lemma border_zero needle i : border needle 0 i.
Proof. split; [lia|]. intros j Hj. lia. Qed.

Lemma border_succ needle s i :
  border needle s i -> char_at needle s = char_at needle i ->
  border needle (s + 1) (i + 1).
Proof.
  intros [L B] E. split; [lia|]. intros j Hj.
  destruct (N.eq_dec j s) as [->|Q].
  - rewrite E. f_equal. lia.
  - rewrite B by lia. f_equal. lia.
Qed.

Lemma border_trans needle a s i :
  border needle a s -> border needle s i -> border needle a i.
Proof.
  intros [L1 B1] [L2 B2]. split; [lia|]. intros j Hj.
  rewrite B1 by exact Hj. rewrite B2 by lia. f_equal. lia.
Qed.

(** The index that [execute] returns: [i - needle_.length() + 1], computed
    in [size_t] and returned as a [uint32_t]. *)
Lemma found_index (i len : N) :
  0 < len <= i + 1 -> i < 4294967296 ->
  wrap32 (wrap64 (wrap64 (i + 18446744073709551616 - len) + 1)) = i + 1 - len.
Proof.
  intros L Hi. unfold wrap64.
  destruct (N.lt_ge_cases i len) as [C|C].
  - assert (len = i + 1) as -> by lia.
    replace (i + 18446744073709551616 - (i + 1)) with 18446744073709551615
      by lia.
    replace (i + 1 - (i + 1)) with 0 by lia. reflexivity.
  - replace (i + 18446744073709551616 - len)
      with (i - len + 1 * 18446744073709551616) by lia.
    rewrite N.Div0.mod_add. rewrite (N.mod_small (i - len)) by lia.
    rewrite N.mod_small by lia. rewrite wrap32_small by lia. lia.
Qed.

(** ** The constructor *)

Section Needle.
Variable u : Indeterminate.
Variable needle : list Ascii.ascii.

Local Abbreviation m := (size needle).

Hypothesis Hm : 0 < m.
Hypothesis Sm : m < 4294967296.

(** What the loop of the constructor keeps true before round [i]. *)
Local Abbreviation building i st :=
  (length (fst st) = N.to_nat m /\
   snd st < i /\ border needle (snd st) i /\
   falls_back needle (fst st) i).

Lemma table_step_ok i st :
  1 <= i < m -> building i st ->
  exists st', table_step needle i st = Done st' /\ building (N.succ i) st'.
Proof.
  intros Hi (L & Hs & B & F). destruct st as [t s]. cbn [fst snd] in *.
  unfold table_step. cbn [fst snd].
  rewrite !char_of_in by lia. cbn [bind].
  assert (exists tr,
    (if Ascii.eqb (char_at needle s) (char_at needle i) then get t s
     else Done s) = Done tr /\
    (tr = NOT_FOUND \/ (tr < i /\ border needle tr i))) as (tr & -> & Htr).
  { destruct (Ascii.eqb _ _).
    - destruct (F s Hs) as (x & Hx & Px). exists x. split.
      + unfold get. rewrite Hx. reflexivity.
      + destruct Px as [->|[P1 P2]]; [left; reflexivity|right].
        split; [lia|]. apply border_trans with s; assumption.
    - exists s. split; [reflexivity|]. right. split; assumption. }
  cbn [bind]. rewrite set_total by lia. cbn [bind].
  eexists. split; [reflexivity|]. cbn [fst snd].
  split; [rewrite length_update; exact L|].
  rewrite uadd_small by lia.
  destruct (Ascii.eqb (char_at needle s) (char_at needle i)) eqn:E.
  - rewrite Ascii.eqb_sym, E. apply Ascii.eqb_eq in E.
    split; [lia|]. split.
    + rewrite <- !N.add_1_r. apply border_succ; assumption.
    + intros q Hq. destruct (N.eq_dec q i) as [->|Q].
      * exists tr. split; [|exact Htr].
        rewrite nth_error_update_eq by lia. reflexivity.
      * destruct (F q ltac:(lia)) as (x & Hx & Px). exists x.
        split; [|exact Px].
        rewrite nth_error_update_neq by lia. exact Hx.
  - rewrite Ascii.eqb_sym, E.
    split; [lia|]. split; [apply border_zero|].
    intros q Hq. destruct (N.eq_dec q i) as [->|Q].
    + exists tr. split; [|exact Htr].
      rewrite nth_error_update_eq by lia. reflexivity.
    + destruct (F q ltac:(lia)) as (x & Hx & Px). exists x.
      split; [|exact Px].
      rewrite nth_error_update_neq by lia. exact Hx.
Qed.

Lemma ctor_ok :
  exists k,
    KnuthMorrisPratt_ctor u needle = Done k /\
    needle_ k = needle /\
    length (state_transition_table_ k) = N.to_nat m /\
    falls_back needle (state_transition_table_ k) m.
Proof.
  unfold KnuthMorrisPratt_ctor.
  rewrite set_total by (rewrite length_new_array; lia). cbn [bind].
  rewrite for_size_small by exact Sm.
  destruct (for_range_total (table_step needle)
    (fun i st => building i st) 1 m
    (update (new_array (ind_uint32 u 0) m) (N.to_nat 0) NOT_FOUND, 0))
    as (r & -> & L & _ & _ & F).
  - lia.
  - cbn [fst snd]. split; [rewrite length_update; apply length_new_array|].
    split; [lia|]. split; [apply border_zero|].
    intros q Hq. assert (q = 0) as -> by lia. exists NOT_FOUND.
    split; [|left; reflexivity].
    apply nth_error_update_eq. rewrite length_new_array. lia.
  - intros i st Hi B. apply table_step_ok; assumption.
  - cbn [bind]. eexists. split; [reflexivity|].
    cbn [needle_ state_transition_table_]. auto.
Qed.

(** ** The search *)

Variable k : KnuthMorrisPratt.
Hypothesis Kn : needle_ k = needle.
Hypothesis Kt : falls_back needle (state_transition_table_ k) m.

Lemma fall_back_ok (c : Ascii.ascii) : forall fuel s,
  s < m -> (N.to_nat s < fuel)%nat ->
  exists s',
    fall_back fuel k c s = Done s' /\
    (s' = NOT_FOUND \/
     (s' < s /\ border needle s' s /\ c = char_at needle s')).
Proof.
  induction fuel as [|fuel IH]; intros s Hs Hf; [lia|].
  cbn [fall_back]. destruct (Kt s Hs) as (t & Ht & Pt).
  unfold get. rewrite Ht. cbn [bind].
  destruct (N.eqb_spec t NOT_FOUND) as [E|E].
  - exists t. split; [reflexivity|left; exact E].
  - destruct Pt as [Pt|[P1 P2]]; [contradiction|].
    rewrite Kn, char_of_in by lia. cbn [bind].
    destruct (Ascii.eqb c (char_at needle t)) eqn:Q; cbn [negb].
    + exists t. split; [reflexivity|]. right.
      apply Ascii.eqb_eq in Q. auto.
    + destruct (IH t ltac:(lia) ltac:(lia)) as (s' & -> & [->|(A & B & C)]).
      * exists NOT_FOUND. split; [reflexivity|left; reflexivity].
      * exists s'. split; [reflexivity|]. right.
        split; [lia|]. split; [|exact C].
        apply border_trans with t; assumption.
Qed.

Variable haystack : list Ascii.ascii.
Variable index : N.
Hypothesis Sh : size haystack < 4294967296.

Lemma scan_ok : forall n i s,
  s < m -> index + s <= i -> N.of_nat n <= size haystack - i ->
  (forall j, j < s -> char_at needle j = char_at haystack (i - s + j)) ->
  exists r,
    scan n k haystack i s = Done r /\
    forall found, r = Some found ->
      index <= found /\ occurs_at needle haystack found.
Proof.
  induction n as [|n IH]; intros i s Hs Hi Hn M.
  - exists None. split; [reflexivity|discriminate].
  - cbn [scan]. rewrite Kn. rewrite !char_of_in by lia. cbn [bind].
    rewrite (uadd_small i 1) by lia.
    destruct (Ascii.eqb (char_at haystack i) (char_at needle s)) eqn:E.
    + apply Ascii.eqb_eq in E. rewrite uadd_small by lia.
      destruct (N.eqb_spec (s + 1) m) as [Q|Q].
      * eexists. split; [reflexivity|]. intros found [= <-].
        rewrite found_index by lia.
        replace (i + 1 - m) with (i - s) by lia.
        split; [lia|]. split; [lia|]. intros j Hj.
        destruct (N.eq_dec j s) as [->|D].
        -- rewrite <- E. f_equal. lia.
        -- symmetry. apply M. lia.
      * apply IH; try lia. intros j Hj.
        destruct (N.eq_dec j s) as [->|D].
        -- rewrite <- E. f_equal. lia.
        -- rewrite M by lia. f_equal. lia.
    + destruct (fall_back_ok (char_at haystack i) (S (N.to_nat s)) s Hs
                  ltac:(lia)) as (s' & -> & [->|(A & B & C)]); cbn [bind].
      * change (uadd NOT_FOUND 1) with 0. apply IH; lia.
      * rewrite uadd_small by lia. apply IH; try lia.
        intros j Hj. destruct (N.eq_dec j s') as [->|D].
        -- rewrite <- C. f_equal. lia.
        -- destruct B as [_ B]. rewrite B by lia. rewrite M by lia.
           f_equal. lia.
Qed.

Lemma execute_sound :
  exists r,
    KnuthMorrisPratt_execute k haystack index = Done r /\
    (r <> NOT_FOUND -> index <= r /\ occurs_at needle haystack r).
Proof.
  unfold KnuthMorrisPratt_execute.
  destruct (N.ltb_spec (size haystack) 4294967296); [|lia].
  destruct (scan_ok (N.to_nat (size haystack - index)) index 0)
    as (r & -> & P); try lia.
  cbn [bind]. destruct r as [found|].
  - exists found. split; [reflexivity|]. intros _. apply P. reflexivity.
  - exists NOT_FOUND. split; [reflexivity|]. intros Q. contradiction.
Qed.

(** The needle at the very position where the search starts. *)
Lemma scan_at_start : forall n s,
  occurs_at needle haystack index ->
  s < m -> m <= N.of_nat n + s ->
  scan n k haystack (index + s) s = Done (Some index).
Proof.
  induction n as [|n IH]; intros s [L O] Hs Hn; [lia|].
  cbn [scan]. rewrite Kn. rewrite !char_of_in by lia. cbn [bind].
  rewrite (O s Hs), Ascii.eqb_refl. rewrite !uadd_small by lia.
  destruct (N.eqb_spec (s + 1) m) as [Q|Q].
  - rewrite found_index by lia. do 2 f_equal. lia.
  - replace (index + s + 1) with (index + (s + 1)) by lia.
    apply IH; [split; assumption|lia|lia].
Qed.

Lemma execute_at_start :
  occurs_at needle haystack index ->
  KnuthMorrisPratt_execute k haystack index = Done index.
Proof.
  intros O. pose proof O as [L _]. unfold KnuthMorrisPratt_execute.
  destruct (N.ltb_spec (size haystack) 4294967296); [|lia].
  pose proof (scan_at_start (N.to_nat (size haystack - index)) 0 O Hm
                ltac:(lia)) as E.
  rewrite N.add_0_r in E. rewrite E. reflexivity.
Qed.
End Needle.

(** * [KnuthMorrisPratt] on the needles whose table is the right one *)

Lemma border_of_border needle b s i :
  border needle b i -> border needle s i -> b <= s -> border needle b s.
Proof.
  intros [L1 B1] [L2 B2] L. split; [exact L|]. intros j Hj.
  rewrite B1 by exact Hj. rewrite (B2 (s - b + j)) by lia. f_equal. lia.
Qed.

Lemma matched_zero needle haystack index i :
  index <= i -> matched needle haystack index 0 i.
Proof. intros L. split; [lia|]. intros j Hj. lia. Qed.

Lemma matched_border needle haystack index b x i :
  matched needle haystack index b i -> matched needle haystack index x i ->
  b <= x -> border needle b x.
Proof.
  intros [L1 M1] [L2 M2] L. split; [exact L|]. intros j Hj.
  rewrite M1 by exact Hj. rewrite (M2 (x - b + j)) by lia. f_equal. lia.
Qed.

Lemma matched_shorter needle haystack index t x i :
  border needle t x -> matched needle haystack index x i ->
  matched needle haystack index t i.
Proof.
  intros [L B] [L2 M]. split; [lia|]. intros j Hj.
  rewrite B by exact Hj. rewrite M by lia. f_equal. lia.
Qed.

Lemma matched_longer needle haystack index s i :
  matched needle haystack index s i ->
  char_at needle s = char_at haystack i ->
  matched needle haystack index (s + 1) (i + 1).
Proof.
  intros [L M] E. split; [lia|]. intros j Hj.
  destruct (N.eq_dec j s) as [->|D].
  - rewrite E. f_equal. lia.
  - rewrite M by lia. f_equal. lia.
Qed.

Lemma matched_before needle haystack index b i :
  matched needle haystack index (b + 1) (i + 1) ->
  matched needle haystack index b i /\
  char_at needle b = char_at haystack i.
Proof.
  intros [L M]. split; [split; [lia|]|].
  - intros j Hj. rewrite M by lia. f_equal. lia.
  - rewrite M by lia. f_equal. lia.
Qed.

Lemma occurs_matched needle haystack index p :
  index <= p -> occurs_at needle haystack p ->
  matched needle haystack index (size needle) (p + size needle).
Proof.
  intros L [B O]. split; [lia|]. intros j Hj.
  rewrite <- O by exact Hj. f_equal. lia.
Qed.

Section Exact.
Variable u : Indeterminate.
Variable needle : list Ascii.ascii.

Local Abbreviation m := (size needle).

Hypothesis Hm : 0 < m.
Hypothesis Sm : m < 4294967296.
Hypothesis Hr : regular needle.

(** What the loop of the constructor keeps true before round [i], on a
    regular needle. *)
Local Abbreviation exact_building i st :=
  (length (fst st) = N.to_nat m /\
   snd st = state_after needle (N.to_nat i - 1) /\
   snd st < i /\ border needle (snd st) i /\
   exact_table needle (fst st) i).

Lemma exact_step i st :
  1 <= i < m -> exact_building i st ->
  exists st', table_step needle i st = Done st' /\
              exact_building (N.succ i) st'.
Proof.
  intros Hi (L & St & Hs & B & F). destruct st as [t s]. cbn [fst snd] in *.
  assert (forall b, b < i -> border needle b i -> b <= s) as Longest.
  { intros b Hb Bb. pose proof (Hr (N.to_nat i - 1)%nat b) as R.
    replace (N.of_nat (N.to_nat i - 1) + 1) with i in R by lia.
    rewrite St. apply R; [lia|exact Hb|exact Bb]. }
  assert (state_after needle (N.to_nat (N.succ i) - 1) =
          if Ascii.eqb (char_at needle i) (char_at needle s)
          then s + 1 else 0) as Next.
  { replace (N.to_nat (N.succ i) - 1)%nat with (S (N.to_nat i - 1)) by lia.
    cbn [state_after].
    replace (N.of_nat (N.to_nat i - 1) + 1) with i by lia.
    rewrite <- St. reflexivity. }
  destruct (F s Hs) as (x & Hx & Px).
  unfold table_step. cbn [fst snd].
  rewrite !char_of_in by lia. cbn [bind].
  assert (exists tr,
    (if Ascii.eqb (char_at needle s) (char_at needle i) then get t s
     else Done s) = Done tr /\ strict needle i tr) as (tr & -> & Htr).
  { destruct (Ascii.eqb (char_at needle s) (char_at needle i)) eqn:E.
    - apply Ascii.eqb_eq in E. exists x. split.
      + unfold get. rewrite Hx. reflexivity.
      + destruct Px as [[-> A]|(P1 & P2 & P3 & P4)].
        * left. split; [reflexivity|]. intros b Hb Bb.
          pose proof (Longest b Hb Bb) as Le.
          destruct (N.eq_dec b s) as [->|D]; [exact E|].
          rewrite <- E. apply A; [lia|].
          apply border_of_border with i; assumption.
        * right. split; [lia|].
          split; [apply border_trans with s; assumption|].
          split; [rewrite <- E; exact P3|].
          intros b Hb1 Hb2 Bb. pose proof (Longest b Hb2 Bb) as Le.
          destruct (N.eq_dec b s) as [->|D]; [exact E|].
          rewrite <- E. apply P4; [exact Hb1|lia|].
          apply border_of_border with i; assumption.
    - apply Ascii.eqb_neq in E. exists s. split; [reflexivity|].
      right. split; [exact Hs|]. split; [exact B|]. split; [exact E|].
      intros b Hb1 Hb2 Bb. pose proof (Longest b Hb2 Bb). lia. }
  cbn [bind]. rewrite set_total by lia. cbn [bind].
  eexists. split; [reflexivity|]. cbn [fst snd].
  split; [rewrite length_update; exact L|].
  rewrite uadd_small by lia. rewrite Next.
  split; [reflexivity|].
  assert (exact_table needle (update t (N.to_nat i) tr) (N.succ i)) as T.
  { intros q Hq. destruct (N.eq_dec q i) as [->|Q].
    - exists tr. split; [|exact Htr].
      rewrite nth_error_update_eq by lia. reflexivity.
    - destruct (F q ltac:(lia)) as (y & Hy & Py). exists y.
      split; [|exact Py].
      rewrite nth_error_update_neq by lia. exact Hy. }
  destruct (Ascii.eqb (char_at needle i) (char_at needle s)) eqn:E.
  - apply Ascii.eqb_eq in E. split; [lia|]. split; [|exact T].
    rewrite <- !N.add_1_r. apply border_succ; [exact B|]. symmetry. exact E.
  - split; [lia|]. split; [apply border_zero|exact T].
Qed.

Lemma ctor_exact :
  exists k,
    KnuthMorrisPratt_ctor u needle = Done k /\
    needle_ k = needle /\
    exact_table needle (state_transition_table_ k) m.
Proof.
  unfold KnuthMorrisPratt_ctor.
  rewrite set_total by (rewrite length_new_array; lia). cbn [bind].
  rewrite for_size_small by exact Sm.
  destruct (for_range_total (table_step needle)
    (fun i st => exact_building i st) 1 m
    (update (new_array (ind_uint32 u 0) m) (N.to_nat 0) NOT_FOUND, 0))
    as (r & -> & L & _ & _ & _ & F).
  - lia.
  - cbn [fst snd]. split; [rewrite length_update; apply length_new_array|].
    split; [reflexivity|]. split; [lia|]. split; [apply border_zero|].
    intros q Hq. assert (q = 0) as -> by lia. exists NOT_FOUND.
    split; [apply nth_error_update_eq; rewrite length_new_array; lia|].
    left. split; [reflexivity|]. intros b Hb. lia.
  - intros i st Hi B. apply exact_step; assumption.
  - cbn [bind]. eexists. split; [reflexivity|].
    cbn [needle_ state_transition_table_]. auto.
Qed.

(** ** The search *)

Variable k : KnuthMorrisPratt.
Hypothesis Kn : needle_ k = needle.
Hypothesis Ke : exact_table needle (state_transition_table_ k) m.

Variable haystack : list Ascii.ascii.
Variable index : N.
Hypothesis Sh : size haystack < 4294967296.

Local Abbreviation matches s i := (matched needle haystack index s i).

(** The [do ... while] loop ends in the longest prefix of the needle that
    stands before position [i + 1]. *)
Lemma fall_back_exact i : i < size haystack -> forall fuel x,
  x < m -> (N.to_nat x < fuel)%nat -> matches x i ->
  char_at needle x <> char_at haystack i ->
  (forall b, b < m -> matches b i ->
             char_at needle b = char_at haystack i -> b < x) ->
  exists s',
    fall_back fuel k (char_at haystack i) x = Done s' /\
    uadd s' 1 < m /\ matches (uadd s' 1) (i + 1) /\
    forall b, b <= m -> matches b (i + 1) -> b <= uadd s' 1.
Proof.
  intros Hi. induction fuel as [|fuel IH]; intros x Hx Hf Mx Dx Cx; [lia|].
  cbn [fall_back]. destruct (Ke x Hx) as (t & Ht & Pt).
  unfold get. rewrite Ht. cbn [bind].
  assert (index <= i) as Li by (destruct Mx; lia).
  destruct Pt as [[-> A]|(P1 & P2 & P3 & P4)].
  - change (NOT_FOUND =? NOT_FOUND) with true. cbv iota.
    exists NOT_FOUND. split; [reflexivity|].
    change (uadd NOT_FOUND 1) with 0.
    split; [exact Hm|]. split; [apply matched_zero; lia|].
    intros b Hb Mb. destruct (N.eq_dec b 0) as [->|Nz]; [lia|]. exfalso.
    replace b with (b - 1 + 1) in Mb by lia.
    apply matched_before in Mb as [Mb Eb].
    pose proof (Cx (b - 1) ltac:(lia) Mb Eb) as Lt.
    apply Dx. rewrite <- Eb. symmetry. apply A; [exact Lt|].
    apply matched_border with haystack index i; [assumption|assumption|lia].
  - destruct (N.eqb_spec t NOT_FOUND) as [Q|_];
      [unfold NOT_FOUND in Q; lia|].
    rewrite Kn, char_of_in by lia. cbn [bind].
    assert (matches t i) as Mt by (apply matched_shorter with x; assumption).
    destruct (Ascii.eqb (char_at haystack i) (char_at needle t)) eqn:Q;
      cbn [negb].
    + apply Ascii.eqb_eq in Q. exists t. split; [reflexivity|].
      rewrite uadd_small by lia. split; [lia|].
      split; [apply matched_longer; [exact Mt|symmetry; exact Q]|].
      intros b Hb Mb. destruct (N.eq_dec b 0) as [->|Nz]; [lia|].
      replace b with (b - 1 + 1) in Mb by lia.
      apply matched_before in Mb as [Mb Eb].
      pose proof (Cx (b - 1) ltac:(lia) Mb Eb) as Lt.
      destruct (N.le_gt_cases (b - 1) t) as [Le|Gt]; [lia|]. exfalso.
      apply Dx. rewrite <- Eb. symmetry. apply P4; [exact Gt|exact Lt|].
      apply matched_border with haystack index i; [assumption|assumption|lia].
    + apply Ascii.eqb_neq in Q. apply IH; [lia|lia|exact Mt|congruence|].
      intros b Hb Mb Eb. pose proof (Cx b Hb Mb Eb) as Lt.
      destruct (N.lt_trichotomy b t) as [Lb|[->|Gb]];
        [exact Lb|congruence|]. exfalso.
      apply Dx. rewrite <- Eb. symmetry. apply P4; [exact Gb|exact Lt|].
      apply matched_border with haystack index i; [assumption|assumption|lia].
Qed.

Lemma scan_exact : forall n i s,
  s < m -> matches s i ->
  (forall b, b <= m -> matches b i -> b <= s) ->
  (forall p, index <= p -> p + m <= i -> ~ occurs_at needle haystack p) ->
  N.of_nat n = size haystack - i ->
  exists r,
    scan n k haystack i s = Done r /\
    match r with
    | Some found =>
        index <= found /\ occurs_at needle haystack found /\
        forall p, index <= p -> p < found -> ~ occurs_at needle haystack p
    | None => forall p, index <= p -> ~ occurs_at needle haystack p
    end.
Proof.
  induction n as [|n IH]; intros i s Hs Ms Longest Before Hn.
  - exists None. split; [reflexivity|]. intros p Hp O.
    apply (Before p Hp); [|exact O]. destruct O as [B _]. lia.
  - assert (index + s <= i) as Li by (destruct Ms; lia).
    assert (forall s', s' < m ->
              (forall b, b <= m -> matches b (i + 1) -> b <= s') ->
              forall p, index <= p -> p + m <= i + 1 ->
                        ~ occurs_at needle haystack p) as Before'.
    { intros s' Hs' L' p Hp Hpm O.
      destruct (N.le_gt_cases (p + m) i) as [Le|Gt];
        [exact (Before p Hp Le O)|].
      pose proof (occurs_matched needle haystack index p Hp O) as Mm.
      replace (p + m) with (i + 1) in Mm by lia.
      pose proof (L' m ltac:(lia) Mm). lia. }
    cbn [scan]. rewrite Kn. rewrite !char_of_in by lia. cbn [bind].
    rewrite (uadd_small i 1) by lia.
    destruct (Ascii.eqb (char_at haystack i) (char_at needle s)) eqn:E.
    + apply Ascii.eqb_eq in E. rewrite uadd_small by lia.
      assert (matches (s + 1) (i + 1)) as M1
        by (apply matched_longer; [exact Ms|symmetry; exact E]).
      destruct (N.eqb_spec (s + 1) m) as [Q|Q].
      * eexists. split; [reflexivity|]. cbv beta iota.
        rewrite found_index by lia.
        replace (i + 1 - m) with (i - s) by lia.
        split; [lia|]. split.
        -- split; [lia|]. intros j Hj. destruct M1 as [_ M1].
           rewrite M1 by lia. f_equal. lia.
        -- intros p Hp Lt. apply (Before p Hp). lia.
      * apply IH; [lia|exact M1| |apply (Before' (s + 1)) |lia].
        -- intros b Hb Mb. destruct (N.eq_dec b 0) as [->|Nz]; [lia|].
           replace b with (b - 1 + 1) in Mb by lia.
           apply matched_before in Mb as [Mb _].
           pose proof (Longest (b - 1) ltac:(lia) Mb). lia.
        -- lia.
        -- intros b Hb Mb. destruct (N.eq_dec b 0) as [->|Nz]; [lia|].
           replace b with (b - 1 + 1) in Mb by lia.
           apply matched_before in Mb as [Mb _].
           pose proof (Longest (b - 1) ltac:(lia) Mb). lia.
    + apply Ascii.eqb_neq in E.
      destruct (fall_back_exact i ltac:(lia) (S (N.to_nat s)) s Hs
                  ltac:(lia) Ms ltac:(congruence))
        as (s' & -> & A & B & C); cbn [bind].
      * intros b Hb Mb Eb. pose proof (Longest b ltac:(lia) Mb) as Le.
        destruct (N.eq_dec b s) as [->|D]; [congruence|lia].
      * apply IH; [exact A|exact B|exact C|exact (Before' _ A C)|lia].
Qed.

Lemma execute_exact :
  exists r,
    KnuthMorrisPratt_execute k haystack index = Done r /\
    ((r = NOT_FOUND /\
      forall p, index <= p -> ~ occurs_at needle haystack p) \/
     (index <= r /\ occurs_at needle haystack r /\
      forall p, index <= p -> p < r -> ~ occurs_at needle haystack p)).
Proof.
  unfold KnuthMorrisPratt_execute.
  destruct (N.ltb_spec (size haystack) 4294967296); [|lia].
  destruct (scan_exact (N.to_nat (size haystack - index)) index 0)
    as (r & -> & P).
  - exact Hm.
  - apply matched_zero. lia.
  - intros b Hb [L _]. lia.
  - intros p Hp L. lia.
  - lia.
  - cbn [bind]. destruct r as [found|].
    + exists found. split; [reflexivity|]. right. exact P.
    + exists NOT_FOUND. split; [reflexivity|]. left.
      split; [reflexivity|exact P].
Qed.
End Exact.

(** * The claims *)

(** ** C1: the result is an assignment of least cost *)




(** The slip that C2 and C5 record also breaks C1: when the cells that
    [label_by_worker_] is allocated over hold [0; 5], [execute] returns
    [[0; 1]] for the matrix [[0, 0], [0, 5]], an assignment of cost 5, although
    [[1; 0]] is an assignment of cost 0. *)
Lemma execute_not_optimal_on_stale_labels :
  solve (stale [0; 5]%Q) square2 = Done [0; 1] /\
  (total_cost square2 [0; 1]%N == 5)%Q /\
  assignment square2 [1; 0] /\
  (total_cost square2 [1; 0]%N == 0)%Q.
Proof.
  split; [run|]. split; [reflexivity|]. split; [|reflexivity].
  unfold assignment. simpl. repeat split.
  - intros j [<-|[<-|[]]]; right; reflexivity.
  - repeat constructor; simpl; intuition discriminate.
Qed.

(** ** C2: dual feasibility on storage that is not zero *)


(** ** C3: a phase adds one pair *)

(** C3.  A completed phase, [initialize_phase] on a worker followed by
    [execute_phase], increases the number of matched pairs by exactly one, and
    every worker that had a job before it has one after it. *)
Theorem phase_adds_one_pair (h : Hungarian) (w : N) (h1 h2 : Hungarian) :
  vectors_ok h ->
  initialize_phase w h = Done h1 ->
  execute_phase h1 = Done h2 ->
  matching_size h2 = S (matching_size h) /\
  forall v, worker_matched h v -> worker_matched h2 v.
Proof.
  intros V I P. lens V.
  pose proof (initialize_phase_kept _ _ _ I) as K.
  pose proof (kept_matching _ _ _ _ _ _ _ _ K eq_refl) as [Mj Mw].
  unfold execute_phase in P.
  apply execute_phase_loop_matching in P.
  - unfold matching_size, worker_matched in *. rewrite Mj in P. exact P.
  - rewrite Mw. unfold uint32. lia.
Qed.

Lemma phase_adds_one_pair_witness :
  matching_size square2_done = S (matching_size square2_seeded) /\
  forall v, worker_matched square2_seeded v -> worker_matched square2_done v.
Proof.
  apply (phase_adds_one_pair square2_seeded 1 square2_phase square2_done).
  - repeat split; vm_compute; solve [reflexivity | discriminate].
  - vm_compute. reflexivity.
  - vm_compute. reflexivity.
Defined.

(** ** C4: the shape of the result *)



(** ** C5: the worker labels after the initial solution *)


(** ** C6: construction *)




(** ** C7: termination *)



(** ** C8: the matching vectors are mutual inverses *)

(** C8, as stated, fails: while the augmenting path of [square2] is flipped,
    job 0 still names worker 0, whose job is 1 already. *)
Lemma inverse_broken_during_flip :
  exists j p h,
    reaches zeroed square2 (Flipping j p) h /\ ~ mutual_inverse h.
Proof.
  exists 0, 1, square2_flipped. split; [exact square2_reaches_flipped|].
  intros MI.
  assert (G : get (match_job_by_worker_ square2_flipped) 0 = Done 0).
  { apply MI. split; [reflexivity|discriminate]. }
  discriminate G.
Qed.

(** C8, amended.  After construction, after each of [reduce],
    [compute_initial_feasible_solution] and [greedy_match], at the head of
    every turn of the outer loop of [execute_phase] and after every phase,
    the two matching vectors are mutual inverses on their entries other than
    [UNASSIGNED]; the turns of the loop that flips the augmenting path are
    the points of a run where they need not be. *)
Theorem inverse_outside_flip (u : Indeterminate) (m : MultiArray2)
  (st : stage) (h : Hungarian) :
  well_formed m ->
  reaches u m st h ->
  flipping st = false ->
  mutual_inverse h.
Proof.
  intros WF R F. destruct (reaches_matching u m st h WF R) as [_ MS].
  destruct st; try exact MS. discriminate F.
Qed.

Lemma inverse_outside_flip_witness : mutual_inverse square2_grown.
Proof.
  apply (inverse_outside_flip zeroed square2 InPhase square2_grown).
  - repeat split; vm_compute; solve [reflexivity | discriminate].
  - exact square2_reaches_grown.
  - reflexivity.
Defined.

(** ** C9: the matrix [reduce] leaves *)

(** C9, as stated, fails: in [wide] both rows spread over twice
    [POSITIVE_INFINITY]; the minimum search of column 0 starts from
    [POSITIVE_INFINITY], finds nothing below it, and the column is left
    without a zero. *)
Lemma reduce_leaves_column_without_zero :
  reduce zeroed wide_ctor = Done wide_reduced /\
  Hungarian_ctor zeroed wide = Done wide_ctor /\
  forall w, w < 2 ->
    exists x, get2 (cost_matrix_ wide_reduced) w 0 = Done x /\ ~ (x == 0)%Q.
Proof.
  split; [run|]. split; [run|].
  intros w Hw.
  assert (C : w = 0 \/ w = 1) by lia.
  destruct C as [->| ->]; eexists; (split; [vm_compute; reflexivity|]);
    intros E; vm_compute in E; discriminate E.
Qed.

(** C9, amended.  [reduce] returns and leaves every entry of the working
    matrix non-negative; when no entry of the padded matrix exceeds
    [POSITIVE_INFINITY] and no row of it spreads over more than
    [POSITIVE_INFINITY], every row and every column of the working matrix has
    an entry equal to zero afterwards. *)
Theorem reduce_leaves_zeros (u : Indeterminate) (m : MultiArray2)
  (h : Hungarian) :
  well_formed m ->
  no_wrap (N.max (extent0 m) (extent1 m)) ->
  Hungarian_ctor u m = Done h ->
  exists cm,
    reduce u h = Done (with_cost_matrix h cm) /\
    (forall w j, w < dim_ h -> j < dim_ h ->
       exists x, get2 cm w j = Done x /\ (0 <= x)%Q) /\
    (in_range m ->
     (forall w, w < dim_ h ->
        exists j x, j < dim_ h /\ get2 cm w j = Done x /\ (x == 0)%Q) /\
     (forall j, j < dim_ h ->
        exists w x, w < dim_ h /\ get2 cm w j = Done x /\ (x == 0)%Q)).
Proof.
  intros WF NW H.
  destruct (Hungarian_ctor_total u m WF NW) as (h' & H' & MO & E).
  assert (h' = h) by congruence. subst h'.
  pose proof (Hungarian_ctor_shape u m h H) as (_ & _ & D & _).
  destruct (reduce_total u h MO) as (cm & Hr & MO' & E').
  exists cm. split; [exact Hr|]. split; [|intros IR; split].
  - intros w j Hw Hj. exists (entry cm w j).
    split; [apply (get2_entry (dim_ h)); auto|].
    rewrite E' by auto. apply reduced_nonneg; auto.
  - intros w Hw.
    destruct (reduced_row_zero (cost_matrix_ h) (dim_ h) w w) as (j & Hj & Z);
      auto.
    { rewrite E by auto. destruct (IR w w w) as [B _]; try lia. exact B. }
    exists j, (entry cm w j). split; [exact Hj|].
    split; [apply (get2_entry (dim_ h)); auto|].
    rewrite E' by auto. exact Z.
  - intros j Hj.
    destruct (reduced_column_zero (cost_matrix_ h) (dim_ h) j j) as (w & Hw & Z);
      auto.
    { unfold row_reduced, row_min.
      destruct (min_upto_is_min (entry (cost_matrix_ h) j) (N.to_nat (dim_ h))
                  (N.to_nat j)) as (k & Hk & Ek); try lia.
      { rewrite N2Nat.id, E by auto. destruct (IR j j j) as [B _]; try lia.
        exact B. }
      rewrite Ek. rewrite !E by lia.
      destruct (IR j j (N.of_nat k)) as [_ B]; try lia. exact B. }
    exists w, (entry cm w j). split; [exact Hw|].
    split; [apply (get2_entry (dim_ h)); auto|].
    rewrite E' by auto. exact Z.
Qed.

Lemma reduce_leaves_zeros_witness :
  exists cm,
    reduce zeroed square2_ctor = Done (with_cost_matrix square2_ctor cm) /\
    (forall w, w < 2 ->
       exists j x, j < 2 /\ get2 cm w j = Done x /\ (x == 0)%Q).
Proof.
  destruct (reduce_leaves_zeros zeroed square2 square2_ctor)
    as (cm & R & _ & Z).
  - repeat split; vm_compute; solve [reflexivity | discriminate].
  - vm_compute. discriminate.
  - vm_compute. reflexivity.
  - exists cm. split; [exact R|]. apply Z.
    apply (in_range_cells square2 0 5); try (vm_compute; discriminate).
    repeat constructor; vm_compute; discriminate.
Defined.

(** ** C10: the sentinel is never an index *)




(** * Further properties of the code *)

(** ** [fetch_unmatched_worker] *)

(** X1.  On an object whose vectors have [dim_] cells,
    [fetch_unmatched_worker] returns the least index of a worker without a
    job, and [dim_] when every worker has one; it reads no cell out of
    range. *)
Theorem fetch_unmatched_worker_first (h : Hungarian) :
  vectors_ok h ->
  exists w,
    fetch_unmatched_worker h = Done w /\
    w <= dim_ h /\
    (forall k, k < w -> worker_matched h k) /\
    (w < dim_ h -> get (match_job_by_worker_ h) w = Done UNASSIGNED).
Proof.
  intros V. destruct (fetch_unmatched_worker_total h V) as (w & F).
  exists w. split; [exact F|]. apply fetch_unmatched_worker_spec. exact F.
Qed.

Lemma fetch_unmatched_worker_first_witness :
  exists w,
    fetch_unmatched_worker square2_seeded = Done w /\ w <= 2 /\
    (forall k, k < w -> worker_matched square2_seeded k) /\
    (w < 2 -> get (match_job_by_worker_ square2_seeded) w = Done UNASSIGNED).
Proof.
  apply (fetch_unmatched_worker_first square2_seeded).
  repeat split; vm_compute; solve [reflexivity | discriminate].
Defined.

(** ** [greedy_match] *)

(** X2.  [greedy_match] returns; it keeps the two matching vectors mutual
    inverses and every matched worker and job matched, the pairs it adds
    have no slack, and afterwards no edge without slack joins a worker
    without a job to a job without a worker. *)
Theorem greedy_match_is_maximal (h : Hungarian) :
  state_ok h -> mutual_inverse h ->
  exists h',
    greedy_match h = Done h' /\
    mutual_inverse h' /\
    (forall k, worker_matched h k -> worker_matched h' k) /\
    (forall k, job_matched h k -> job_matched h' k) /\
    (tight h -> tight h') /\
    forall w j v, w < dim_ h -> j < dim_ h ->
      slack h' w j = Done v -> (v == 0)%Q ->
      worker_matched h' w \/ job_matched h' j.
Proof.
  intros OK MI. destruct (greedy_match_total h OK) as (h' & H).
  destruct (greedy_match_maximal h h' OK MI H)
    as (OK' & MI' & K & W & J & T & E).
  exists h'. do 5 (split; [assumption|]).
  intros w j v Hw Hj S Z.
  pose proof (kept_dim _ _ _ _ _ _ _ _ K) as D.
  rewrite slack_total in S by (auto; lia). inv_Done S. apply E; auto.
Qed.

Lemma greedy_match_is_maximal_witness :
  exists h',
    greedy_match square2_labelled = Done h' /\ mutual_inverse h' /\
    forall w j v, w < 2 -> j < 2 ->
      slack h' w j = Done v -> (v == 0)%Q ->
      worker_matched h' w \/ job_matched h' j.
Proof.
  destruct (greedy_match_is_maximal square2_labelled)
    as (h' & H & MI & _ & _ & _ & E).
  - apply (reaches_state_ok zeroed square2 Labelled).
    + repeat split; vm_compute; solve [reflexivity | discriminate].
    + vm_compute. discriminate.
    + exact square2_reaches_labelled.
  - apply (reaches_matching zeroed square2 Labelled).
    + repeat split; vm_compute; solve [reflexivity | discriminate].
    + exact square2_reaches_labelled.
  - exists h'. split; [exact H|]. split; [exact MI|exact E].
Defined.

(** ** [initialize_phase] *)

(** X3.  [initialize_phase(w)] returns for every worker [w] below [dim_]:
    afterwards [w] is the only committed worker, no job is committed,
    [min_slack_by_job_[j]] is the slack of the edge from [w] to [j] and
    [min_slack_worker_by_job_[j]] is [w] for every job [j]; the cost matrix,
    the labels and the matching are as before. *)
Theorem initialize_phase_roots_at (w : N) (h : Hungarian) :
  state_ok h -> w < dim_ h ->
  exists h',
    initialize_phase w h = Done h' /\
    (forall k, k < dim_ h ->
       get (committed_workers_ h') k = Done (k =? w)) /\
    (forall j, j < dim_ h ->
       get (parent_worker_by_committed_job_ h') j = Done UNASSIGNED /\
       slack h w j = get (min_slack_by_job_ h') j /\
       get (min_slack_worker_by_job_ h') j = Done w) /\
    cost_matrix_ h' = cost_matrix_ h /\
    label_by_worker_ h' = label_by_worker_ h /\
    label_by_job_ h' = label_by_job_ h /\
    match_job_by_worker_ h' = match_job_by_worker_ h /\
    match_worker_by_job_ h' = match_worker_by_job_ h.
Proof.
  intros OK Hw.
  destruct (initialize_phase_total w h OK Hw) as (h' & H & Gp & Bc & Ems & Emw).
  pose proof (initialize_phase_kept _ _ _ H) as K.
  pose proof (kept_dim _ _ _ _ _ _ _ _ K) as D.
  pose proof (kept_labels _ _ _ _ _ _ _ _ K eq_refl) as [LW LJ].
  pose proof (kept_matching _ _ _ _ _ _ _ _ K eq_refl) as [Mj Mw].
  destruct OK as [V MO].
  pose proof (vectors_ok_kept _ _ _ _ _ _ _ _ K V) as V'. lens V'.
  exists h'. split; [exact H|]. split; [|split].
  - intros k Hk. rewrite get_bsel by lia. rewrite Bc by exact Hk. reflexivity.
  - intros j Hj. split; [apply Gp; exact Hj|]. split; [|apply Emw; exact Hj].
    rewrite slack_total by (auto; split; auto).
    rewrite get_qsel by lia. rewrite Ems by exact Hj. reflexivity.
  - split; [apply (kept_cost _ _ _ _ _ _ _ _ K eq_refl)|]. auto.
Qed.

Lemma initialize_phase_roots_at_witness :
  exists h',
    initialize_phase 1 square2_seeded = Done h' /\
    forall k, k < 2 -> get (committed_workers_ h') k = Done (k =? 1).
Proof.
  destruct (initialize_phase_roots_at 1 square2_seeded) as (h' & H & C & _).
  - apply (reaches_state_ok zeroed square2 BetweenPhases).
    + repeat split; vm_compute; solve [reflexivity | discriminate].
    + vm_compute. discriminate.
    + exact square2_reaches_seeded.
  - reflexivity.
  - exists h'. split; [exact H|exact C].
Defined.

(** ** [compute_initial_feasible_solution] *)

(** X4.  [compute_initial_feasible_solution] returns and changes only
    [label_by_job_]: the label of job [j] is then no larger than any entry
    of column [j] of [cost_matrix_], and it is one of these entries unless
    none of them is below [POSITIVE_INFINITY]. *)
Theorem compute_initial_feasible_solution_column_minima (h : Hungarian) :
  state_ok h ->
  exists lj,
    compute_initial_feasible_solution h = Done (with_label_by_job h lj) /\
    forall j, j < dim_ h ->
      (forall w c, w < dim_ h -> get2 (cost_matrix_ h) w j = Done c ->
                   (qsel lj j <= c)%Q) /\
      (qsel lj j = POSITIVE_INFINITY \/
       exists w, w < dim_ h /\ get2 (cost_matrix_ h) w j = Done (qsel lj j)).
Proof.
  intros [V MO]. pose proof V as (_ & _ & L & _).
  destruct (compute_initial_feasible_solution_total h MO L)
    as (lj & H & _ & E).
  exists lj. split; [exact H|]. intros j Hj. rewrite (E j Hj). split.
  - intros w c Hw G. rewrite (get2_entry (dim_ h)) in G by (auto; lia).
    inv_Done G.
    pose proof (min_upto_le (fun w => entry (cost_matrix_ h) w j)
                  (N.to_nat (dim_ h)) (N.to_nat w) ltac:(lia)) as M.
    rewrite N2Nat.id in M. exact M.
  - destruct (min_upto_attained (fun w => entry (cost_matrix_ h) w j)
                (N.to_nat (dim_ h))) as [I|(i & Hi & I)]; [left; exact I|].
    right. exists (N.of_nat i). split; [lia|].
    rewrite (get2_entry (dim_ h)) by (auto; lia). rewrite I. reflexivity.
Qed.

Lemma compute_initial_feasible_solution_column_minima_witness :
  exists lj,
    compute_initial_feasible_solution square2_seeded
    = Done (with_label_by_job square2_seeded lj) /\
    forall j, j < 2 ->
      (forall w c, w < 2 -> get2 (cost_matrix_ square2_seeded) w j = Done c ->
                   (qsel lj j <= c)%Q) /\
      (qsel lj j = POSITIVE_INFINITY \/
       exists w, w < 2 /\
         get2 (cost_matrix_ square2_seeded) w j = Done (qsel lj j)).
Proof.
  apply (compute_initial_feasible_solution_column_minima square2_seeded).
  repeat split; vm_compute; solve [reflexivity | discriminate].
Defined.

(** ** [update_labeling] *)



(** ** The matched pairs along a run *)



(** ** [reduce] *)



(** ** [MultiArray<T, 2>] *)

(** X8.  In a rank 2 array whose extents multiply to at most [2^32], a
    write to [a[i][j]] with both indices below their extents succeeds,
    [a[i][j]] then reads the value written, and every other cell reads what
    it read before. *)
Theorem multiarray_write_then_read (r c : N) (m : MultiArray2) (i j : N)
  (v : Q) :
  rectangular r c m -> i < r -> j < c ->
  exists m',
    set2 m i j v = Done m' /\
    rectangular r c m' /\
    forall i' j', i' < r -> j' < c ->
      get2 m' i' j' = if (i' =? i) && (j' =? j) then Done v else get2 m i' j'.
Proof.
  intros R Hi Hj. destruct (rectangular_index r c m i j R Hi Hj) as [F B].
  pose proof R as (E0 & E1 & L & NW).
  unfold set2. rewrite F, set_total by exact B. cbn [bind].
  eexists. split; [reflexivity|].
  assert (R' : rectangular r c
                 {| extent0 := extent0 m; extent1 := extent1 m;
                    array := update (array m) (N.to_nat (i * c + j)) v |}).
  { unfold rectangular. simpl. rewrite length_update. auto. }
  split; [exact R'|].
  intros i' j' Hi' Hj'.
  rewrite (rectangular_get2 r c _ i' j' R' Hi' Hj').
  rewrite (rectangular_get2 r c m i' j' R Hi' Hj'). simpl.
  rewrite qsel_update by exact B.
  destruct (N.eqb_spec (i' * c + j') (i * c + j)) as [E|E].
  - apply rectangular_cells_apart in E as [-> ->]; auto.
    rewrite !N.eqb_refl. reflexivity.
  - destruct (N.eqb_spec i' i) as [->|]; [|reflexivity].
    destruct (N.eqb_spec j' j) as [->|]; [contradiction|reflexivity].
Qed.

Lemma multiarray_write_then_read_witness :
  exists m',
    set2 square2 1 0 7 = Done m' /\ rectangular 2 2 m' /\
    forall i' j', i' < 2 -> j' < 2 ->
      get2 m' i' j' =
      if (i' =? 1) && (j' =? 0) then Done 7%Q else get2 square2 i' j'.
Proof.
  apply (multiarray_write_then_read 2 2 square2 1 0 7).
  - repeat split; vm_compute; solve [reflexivity | discriminate].
  - reflexivity.
  - reflexivity.
Defined.

(** X9.  The rank 2 access checks no index against its extent: a column
    index that runs past the end of row [i] by [j] reads cell [j] of row
    [i + 1], and past the end of the last row it reads outside the array. *)
Theorem multiarray_column_overflow (r c : N) (m : MultiArray2) (i j : N) :
  rectangular r c m -> (r + 1) * c <= 4294967296 -> i < r -> j < c ->
  get2 m i (c + j) = if i + 1 <? r then get2 m (i + 1) j else Fault.
Proof.
  intros R NW Hi Hj. pose proof R as (E0 & E1 & L & _).
  assert (F : flat_index m i (c + j) = (i + 1) * c + j).
  { unfold flat_index. rewrite E1.
    rewrite (wrap32_small (i * c)) by nia. rewrite wrap32_small by nia. lia. }
  destruct (N.ltb_spec (i + 1) r) as [Lt|Ge].
  - destruct (rectangular_index r c m (i + 1) j R Lt Hj) as [F' _].
    unfold get2. rewrite F, F'. reflexivity.
  - unfold get2, get. rewrite F.
    destruct (nth_error (array m) (N.to_nat ((i + 1) * c + j))) eqn:E;
      [|reflexivity].
    exfalso. assert (Some q <> None) as Hn by discriminate.
    rewrite <- E in Hn. apply nth_error_Some in Hn. nia.
Qed.

Lemma multiarray_column_overflow_witness :
  get2 square2 0 (2 + 1) = if 0 + 1 <? 2 then get2 square2 (0 + 1) 1 else Fault.
Proof.
  apply (multiarray_column_overflow 2 2 square2 0 1).
  - repeat split; vm_compute; solve [reflexivity | discriminate].
  - vm_compute. discriminate.
  - reflexivity.
  - reflexivity.
Defined.

(** ** [MultiArray<T, 2>] with initializer lists and checked indices *)

(** X10.  An array built from a list of equally long rows gives back, at
    [a[i][j]], element [j] of row [i], and throws [std::out_of_range] as
    soon as [i] is not below the number of rows or [j] not below their
    length. *)
Theorem initializer_list_round_trip {T : Type} (fresh : N -> T) (d : T)
  (first : list T) (rest : list (list T)) :
  let rows := first :: rest in
  let r := N.of_nat (length rows) in
  let c := N.of_nat (length first) in
  Forall (fun row => length row = length first) rest ->
  r < 4294967296 -> c < 4294967296 -> r * c <= 4294967296 ->
  exists a,
    from_rows fresh rows = Done a /\
    forall i j,
      at2 a i j = if (i <? r) && (j <? c)
                  then Done (Returns (nth (N.to_nat j)
                                          (nth (N.to_nat i) rows []) d))
                  else Done (Throws out_of_range).
Proof.
  intros rows r c Rect Hr Hc NW. subst r c rows.
  assert (All : Forall (fun row => length row = length first) (first :: rest))
    by (constructor; [reflexivity|exact Rect]).
  pose proof (length_concat_rows (length first) _ All) as Len.
  destruct (from_rows_cells fresh d first rest Hr Hc)
    as (a & F & E0 & E1 & L & C).
  { rewrite Len. lia. }
  exists a. split; [exact F|]. intros i j.
  rewrite (at2_cells d) by (rewrite ?E0, ?E1; assumption).
  rewrite E0, E1.
  destruct (N.ltb_spec i (N.of_nat (length (first :: rest)))) as [Hi|Hi];
    [|reflexivity].
  destruct (N.ltb_spec j (N.of_nat (length first))) as [Hj|Hj];
    [|reflexivity].
  cbn [andb]. do 2 f_equal.
  rewrite C by (rewrite Len; nia).
  replace (N.to_nat (i * N.of_nat (length first) + j))
    with (N.to_nat i * length first + N.to_nat j)%nat by lia.
  apply nth_concat_rows; [exact All|lia|lia].
Qed.

Lemma initializer_list_round_trip_witness :
  exists a,
    from_rows (fun _ => 0%Z) [[1; 2]; [3; 4]]%Z = Done a /\
    forall i j,
      at2 a i j = if (i <? 2) && (j <? 2)
                  then Done (Returns (nth (N.to_nat j)
                         (nth (N.to_nat i) [[1; 2]; [3; 4]]%Z []) 0%Z))
                  else Done (Throws out_of_range).
Proof.
  apply (initializer_list_round_trip (fun _ => 0%Z) 0%Z [1; 2]%Z [[3; 4]%Z]).
  - repeat constructor.
  - reflexivity.
  - reflexivity.
  - vm_compute. discriminate.
Defined.

(** X11.  The constructor takes the length of every row from the first
    one and copies the elements one after the other: rows of other lengths
    are not refused; as long as the elements fit, [a[i][j]] is element
    [i * c + j] of the rows laid end to end, [c] being the length of the
    first row, and when there are more elements than [r * c] the copy runs
    past the end of the array. *)
Theorem initializer_list_cut_by_first_row {T : Type} (fresh : N -> T) (d : T)
  (first : list T) (rest : list (list T)) :
  let rows := first :: rest in
  let r := N.of_nat (length rows) in
  let c := N.of_nat (length first) in
  let total := N.of_nat (length (concat rows)) in
  r < 4294967296 -> c < 4294967296 -> r * c <= 4294967296 ->
  if total <=? r * c then
    exists a,
      from_rows fresh rows = Done a /\
      forall i j, i < r -> j < c -> i * c + j < total ->
        at2 a i j = Done (Returns (nth (N.to_nat (i * c + j)) (concat rows) d))
  else from_rows fresh rows = Fault.
Proof.
  intros rows r c total Hr Hc NW. subst r c total rows.
  destruct (N.leb_spec (N.of_nat (length (concat (first :: rest))))
              (N.of_nat (length (first :: rest)) * N.of_nat (length first)))
    as [Fit|Over].
  - destruct (from_rows_cells fresh d first rest Hr Hc Fit)
      as (a & F & E0 & E1 & L & C).
    exists a. split; [exact F|]. intros i j Hi Hj Hij.
    rewrite (at2_cells d) by (rewrite ?E0, ?E1; assumption).
    rewrite E0, E1.
    destruct (N.ltb_spec i (N.of_nat (length (first :: rest)))); [|lia].
    destruct (N.ltb_spec j (N.of_nat (length first))); [|lia].
    cbn [andb]. do 2 f_equal. apply C. lia.
  - apply from_rows_fault; assumption.
Qed.

Lemma initializer_list_cut_by_first_row_witness :
  exists a,
    from_rows (fun _ => 0%Z) [[1; 2; 3]; [4]; [5; 6]]%Z = Done a /\
    forall i j, i < 3 -> j < 3 -> i * 3 + j < 6 ->
      at2 a i j = Done (Returns (nth (N.to_nat (i * 3 + j))
                                     [1; 2; 3; 4; 5; 6]%Z 0%Z)).
Proof.
  apply (initializer_list_cut_by_first_row (fun _ => 0%Z) 0%Z
           [1; 2; 3]%Z [[4]; [5; 6]]%Z).
  - reflexivity.
  - reflexivity.
  - vm_compute. discriminate.
Defined.

(** ** [DamerauLevenshtein::execute] *)

(** X12.  With costs that are not negative and small enough for the
    lengths, [execute] returns a distance, and that distance is at most the
    cost of rewriting the source blindly: replacing the common length
    (or deleting and inserting it, if that is cheaper) and deleting or
    inserting the rest. *)
Theorem distance_within_rewrite_cost (dl : DamerauLevenshtein)
  (source target : list Ascii.ascii) :
  modest dl (size source) (size target) ->
  exists v,
    DamerauLevenshtein_execute dl source target = Done v /\
    (0 <= v <= rewrite_cost dl (size source) (size target))%Z.
Proof.
  intros M.
  destruct (modest_costs dl _ _ M) as (cI & cD & cR & cS & -> & Hc & Hnm).
  destruct (N.eq_dec (size source) 0) as [En|En];
    [|destruct (N.eq_dec (size target) 0) as [Em|Em]].
  - rewrite execute_empty by (auto; lia). eexists. split; [reflexivity|].
    unfold rewrite_cost. cbn [insert_cost delete_cost replace_cost].
    rewrite En. rewrite N.min_0_l, N.sub_0_r. cbn [N.sub]. lia.
  - rewrite execute_empty by (auto; lia). eexists. split; [reflexivity|].
    unfold rewrite_cost. cbn [insert_cost delete_cost replace_cost].
    rewrite Em. rewrite N.min_0_r, N.sub_0_r. cbn [N.sub]. lia.
  - destruct (execute_table cI cD cR cS source target Hc Hnm)
      as (v & E & B & _); try lia.
    exists v. split; [exact E|].
    rewrite rewrite_cost_sizes by lia. exact B.
Qed.

Lemma distance_within_rewrite_cost_witness :
  exists v,
    DamerauLevenshtein_execute
      {| insert_cost := 3; delete_cost := 1; replace_cost := 10;
         swap_cost := 2 |}
      [Ascii.ascii_of_nat 97; Ascii.ascii_of_nat 98; Ascii.ascii_of_nat 99]
      [Ascii.ascii_of_nat 99; Ascii.ascii_of_nat 97] = Done v /\
    (0 <= v <= 9)%Z.
Proof.
  apply (distance_within_rewrite_cost
           {| insert_cost := 3; delete_cost := 1; replace_cost := 10;
              swap_cost := 2 |}
           [Ascii.ascii_of_nat 97; Ascii.ascii_of_nat 98; Ascii.ascii_of_nat 99]
           [Ascii.ascii_of_nat 99; Ascii.ascii_of_nat 97]).
  repeat split; vm_compute; solve [reflexivity | discriminate].
Defined.

(** X13.  The distance from a string to itself is 0, for all costs that
    are not negative and small enough for its length. *)
Theorem distance_of_same_string (dl : DamerauLevenshtein)
  (source : list Ascii.ascii) :
  modest dl (size source) (size source) ->
  DamerauLevenshtein_execute dl source source = Done 0%Z.
Proof.
  intros M.
  destruct (modest_costs dl _ _ M) as (cI & cD & cR & cS & -> & Hc & Hnm).
  destruct (N.eq_dec (size source) 0) as [En|En].
  - rewrite execute_empty by (auto; lia). rewrite En. reflexivity.
  - destruct (execute_table cI cD cR cS source source Hc Hnm)
      as (v & E & [B _] & Z0 & _); try lia.
    specialize (Z0 eq_refl). unfold differing in Z0.
    rewrite mismatches_same in Z0. rewrite E. f_equal. lia.
Qed.

Lemma distance_of_same_string_witness :
  DamerauLevenshtein_execute
    {| insert_cost := 3; delete_cost := 1; replace_cost := 10;
       swap_cost := 2 |}
    [Ascii.ascii_of_nat 97; Ascii.ascii_of_nat 98; Ascii.ascii_of_nat 97]
    [Ascii.ascii_of_nat 97; Ascii.ascii_of_nat 98; Ascii.ascii_of_nat 97]
  = Done 0%Z.
Proof.
  apply (distance_of_same_string
           {| insert_cost := 3; delete_cost := 1; replace_cost := 10;
              swap_cost := 2 |}
           [Ascii.ascii_of_nat 97; Ascii.ascii_of_nat 98;
            Ascii.ascii_of_nat 97]).
  repeat split; vm_compute; solve [reflexivity | discriminate].
Defined.

(** X14.  For two strings of the same length, and costs that are not
    negative and small enough for it, the distance is at most one
    replacement for each position at which the strings differ. *)
Theorem distance_within_replacements (dl : DamerauLevenshtein)
  (source target : list Ascii.ascii) :
  size source = size target ->
  modest dl (size source) (size target) ->
  exists v,
    DamerauLevenshtein_execute dl source target = Done v /\
    (0 <= v <= replace_cost dl * Z.of_N (differing source target))%Z.
Proof.
  intros En M.
  destruct (modest_costs dl _ _ M) as (cI & cD & cR & cS & -> & Hc & Hnm).
  cbn [replace_cost].
  destruct (N.eq_dec (size source) 0) as [E0|E0].
  - rewrite execute_empty by (auto; lia). rewrite <- En, E0.
    eexists. split; [reflexivity|]. cbn [N.mul N.add Z.of_N]. lia.
  - destruct (execute_table cI cD cR cS source target Hc Hnm)
      as (v & E & [B _] & D & _); try lia.
    exists v. split; [exact E|]. split; [exact B|]. apply D. exact En.
Qed.

Lemma distance_within_replacements_witness :
  exists v,
    DamerauLevenshtein_execute
      {| insert_cost := 3; delete_cost := 1; replace_cost := 10;
         swap_cost := 2 |}
      [Ascii.ascii_of_nat 97; Ascii.ascii_of_nat 98; Ascii.ascii_of_nat 99]
      [Ascii.ascii_of_nat 97; Ascii.ascii_of_nat 100; Ascii.ascii_of_nat 99]
    = Done v /\
    (0 <= v <= 10 * 1)%Z.
Proof.
  apply (distance_within_replacements
           {| insert_cost := 3; delete_cost := 1; replace_cost := 10;
              swap_cost := 2 |}
           [Ascii.ascii_of_nat 97; Ascii.ascii_of_nat 98;
            Ascii.ascii_of_nat 99]
           [Ascii.ascii_of_nat 97; Ascii.ascii_of_nat 100;
            Ascii.ascii_of_nat 99]).
  - reflexivity.
  - repeat split; vm_compute; solve [reflexivity | discriminate].
Defined.



(** X16.  For a source [ab] of two different characters and the target
    [aba], [execute] returns the smaller of the swap cost and the insert
    cost: where a swap is cheaper than an insertion, the distance it
    reports is below the cost of the one insertion that the longer target
    requires, although no two neighbours change places between [ab] and
    [aba]. *)
Theorem distance_counts_a_swap_for_an_appended_character
  (dl : DamerauLevenshtein) (a b : Ascii.ascii) :
  a <> b -> modest dl 2 3 ->
  DamerauLevenshtein_execute dl [a; b] [a; b; a]
  = Done (Z.min (swap_cost dl) (insert_cost dl)).
Proof.
  intros Hab M.
  destruct (modest_costs dl _ _ M) as (cI & cD & cR & cS & -> & Hc & _).
  rewrite (execute_ab_aba cI cD cR cS a b Hab Hc).
  cbn [swap_cost insert_cost]. f_equal. lia.
Qed.

Lemma distance_counts_a_swap_for_an_appended_character_witness :
  DamerauLevenshtein_ctor 3 1 10 2
  = Done (Returns {| insert_cost := 3; delete_cost := 1; replace_cost := 10;
                     swap_cost := 2 |}) /\
  DamerauLevenshtein_execute
    {| insert_cost := 3; delete_cost := 1; replace_cost := 10;
       swap_cost := 2 |}
    [Ascii.ascii_of_nat 97; Ascii.ascii_of_nat 98]
    [Ascii.ascii_of_nat 97; Ascii.ascii_of_nat 98; Ascii.ascii_of_nat 97]
  = Done 2%Z.
Proof.
  split; [reflexivity|].
  apply (distance_counts_a_swap_for_an_appended_character
           {| insert_cost := 3; delete_cost := 1; replace_cost := 10;
              swap_cost := 2 |}
           (Ascii.ascii_of_nat 97) (Ascii.ascii_of_nat 98)).
  - discriminate.
  - repeat split; vm_compute; solve [reflexivity | discriminate].
Defined.

(** ** [KnuthMorrisPratt] *)

(** X17.  For a needle that is not empty, the constructor builds its
    table and [execute] returns, from every starting index, without
    reading outside the table or the strings.  What it returns is
    [NOT_FOUND] or a position, not before the starting index, at which the
    needle stands in the haystack. *)
Theorem search_returns_an_occurrence (u : Indeterminate)
  (needle haystack : list Ascii.ascii) (index : N) :
  0 < size needle -> size needle < 4294967296 ->
  size haystack < 4294967296 ->
  exists k r,
    KnuthMorrisPratt_ctor u needle = Done k /\
    KnuthMorrisPratt_execute k haystack index = Done r /\
    (r <> NOT_FOUND -> index <= r /\ occurs_at needle haystack r).
Proof.
  intros Hm Sm Sh.
  destruct (ctor_ok u needle Hm Sm) as (k & C & Kn & _ & Kt).
  destruct (execute_sound needle Hm Sm k Kn Kt haystack index Sh)
    as (r & E & P).
  exists k, r. auto.
Qed.

Lemma search_returns_an_occurrence_witness :
  exists k r,
    KnuthMorrisPratt_ctor zeroed
      [Ascii.ascii_of_nat 97; Ascii.ascii_of_nat 98] = Done k /\
    KnuthMorrisPratt_execute k
      [Ascii.ascii_of_nat 98; Ascii.ascii_of_nat 97; Ascii.ascii_of_nat 98]
      0 = Done r /\
    (r <> NOT_FOUND ->
     0 <= r /\
     occurs_at [Ascii.ascii_of_nat 97; Ascii.ascii_of_nat 98]
       [Ascii.ascii_of_nat 98; Ascii.ascii_of_nat 97; Ascii.ascii_of_nat 98]
       r).
Proof.
  apply (search_returns_an_occurrence zeroed
           [Ascii.ascii_of_nat 97; Ascii.ascii_of_nat 98]
           [Ascii.ascii_of_nat 98; Ascii.ascii_of_nat 97;
            Ascii.ascii_of_nat 98] 0); reflexivity.
Defined.

(** X18.  Where the needle stands in the haystack right at the starting
    index, [execute] returns that index. *)
Theorem search_finds_the_needle_at_the_index (u : Indeterminate)
  (needle haystack : list Ascii.ascii) (index : N) :
  0 < size needle -> size needle < 4294967296 ->
  size haystack < 4294967296 ->
  occurs_at needle haystack index ->
  exists k,
    KnuthMorrisPratt_ctor u needle = Done k /\
    KnuthMorrisPratt_execute k haystack index = Done index.
Proof.
  intros Hm Sm Sh O.
  destruct (ctor_ok u needle Hm Sm) as (k & C & Kn & _ & Kt).
  exists k. split; [exact C|].
  apply (execute_at_start needle Hm Sm k Kn haystack index Sh O).
Qed.

Lemma search_finds_the_needle_at_the_index_witness :
  exists k,
    KnuthMorrisPratt_ctor zeroed
      [Ascii.ascii_of_nat 97; Ascii.ascii_of_nat 98] = Done k /\
    KnuthMorrisPratt_execute k
      [Ascii.ascii_of_nat 98; Ascii.ascii_of_nat 97; Ascii.ascii_of_nat 98]
      1 = Done 1.
Proof.
  apply (search_finds_the_needle_at_the_index zeroed
           [Ascii.ascii_of_nat 97; Ascii.ascii_of_nat 98]
           [Ascii.ascii_of_nat 98; Ascii.ascii_of_nat 97;
            Ascii.ascii_of_nat 98] 1); try reflexivity.
  split; [vm_compute; discriminate|].
  intros j Hj. change (j < 2) in Hj.
  assert (j = 0 \/ j = 1) as [->| ->] by lia; reflexivity.
Defined.

(** X19.  [execute] does not find every occurrence: the needle [aabaaab]
    stands at position 5 of [aabaaaabaaab], and the search from 0 returns
    [NOT_FOUND], whatever the table held when it was allocated. *)
Theorem search_misses_an_occurrence (u : Indeterminate) :
  let a := Ascii.ascii_of_nat 97 in
  let b := Ascii.ascii_of_nat 98 in
  let needle := [a; a; b; a; a; a; b] in
  let haystack := [a; a; b; a; a; a; a; b; a; a; a; b] in
  occurs_at needle haystack 5 /\
  exists k,
    KnuthMorrisPratt_ctor u needle = Done k /\
    KnuthMorrisPratt_execute k haystack 0 = Done NOT_FOUND.
Proof.
  intros a b needle haystack. split.
  - split; [vm_compute; discriminate|]. intros j Hj. change (j < 7) in Hj.
    assert (j = 0 \/ j = 1 \/ j = 2 \/ j = 3 \/ j = 4 \/ j = 5 \/ j = 6)
      as [->|[->|[->|[->|[->|[->| ->]]]]]] by lia; reflexivity.
  - eexists. split; [vm_compute; reflexivity|]. vm_compute. reflexivity.
Qed.

(** X20.  The constructor writes the first entry of its table before it
    looks at the length of the needle: for the empty needle that write is
    outside the table, which then has no cell. *)
Theorem constructor_writes_outside_for_the_empty_needle (u : Indeterminate) :
  KnuthMorrisPratt_ctor u [] = Fault.
Proof. reflexivity. Qed.

(** X21.  On a regular needle, one for which the [state] of the
    constructor's loop is in every round the length of the longest border
    of the characters before the loop counter, [execute] finds the first
    occurrence at or after the starting index: it returns [NOT_FOUND] only
    when the needle stands nowhere from the index on, and otherwise the
    least position, not before the index, at which the needle stands. *)
Theorem search_finds_the_first_occurrence (u : Indeterminate)
  (needle haystack : list Ascii.ascii) (index : N) :
  0 < size needle -> size needle < 4294967296 ->
  size haystack < 4294967296 ->
  regular needle ->
  exists k r,
    KnuthMorrisPratt_ctor u needle = Done k /\
    KnuthMorrisPratt_execute k haystack index = Done r /\
    ((r = NOT_FOUND /\
      forall p, index <= p -> ~ occurs_at needle haystack p) \/
     (index <= r /\ occurs_at needle haystack r /\
      forall p, index <= p -> p < r -> ~ occurs_at needle haystack p)).
Proof.
  intros Hm Sm Sh Hr.
  destruct (ctor_exact u needle Hm Sm Hr) as (k & C & Kn & Ke).
  destruct (execute_exact needle Hm Sm k Kn Ke haystack index Sh)
    as (r & E & P).
  exists k, r. auto.
Qed.

Lemma search_finds_the_first_occurrence_witness :
  exists k r,
    KnuthMorrisPratt_ctor zeroed
      [Ascii.ascii_of_nat 97; Ascii.ascii_of_nat 97; Ascii.ascii_of_nat 98]
      = Done k /\
    KnuthMorrisPratt_execute k
      [Ascii.ascii_of_nat 97; Ascii.ascii_of_nat 97; Ascii.ascii_of_nat 97;
       Ascii.ascii_of_nat 98] 0 = Done r /\
    ((r = NOT_FOUND /\
      forall p, 0 <= p ->
        ~ occurs_at
            [Ascii.ascii_of_nat 97; Ascii.ascii_of_nat 97;
             Ascii.ascii_of_nat 98]
            [Ascii.ascii_of_nat 97; Ascii.ascii_of_nat 97;
             Ascii.ascii_of_nat 97; Ascii.ascii_of_nat 98] p) \/
     (0 <= r /\
      occurs_at
        [Ascii.ascii_of_nat 97; Ascii.ascii_of_nat 97; Ascii.ascii_of_nat 98]
        [Ascii.ascii_of_nat 97; Ascii.ascii_of_nat 97;
         Ascii.ascii_of_nat 97; Ascii.ascii_of_nat 98] r /\
      forall p, 0 <= p -> p < r ->
        ~ occurs_at
            [Ascii.ascii_of_nat 97; Ascii.ascii_of_nat 97;
             Ascii.ascii_of_nat 98]
            [Ascii.ascii_of_nat 97; Ascii.ascii_of_nat 97;
             Ascii.ascii_of_nat 97; Ascii.ascii_of_nat 98] p)).
Proof.
  apply (search_finds_the_first_occurrence zeroed
           [Ascii.ascii_of_nat 97; Ascii.ascii_of_nat 97;
            Ascii.ascii_of_nat 98]
           [Ascii.ascii_of_nat 97; Ascii.ascii_of_nat 97;
            Ascii.ascii_of_nat 97; Ascii.ascii_of_nat 98] 0);
    try reflexivity.
  intros k b Hk Hb _.
  change (size [Ascii.ascii_of_nat 97; Ascii.ascii_of_nat 97;
                Ascii.ascii_of_nat 98]) with 3 in Hk.
  destruct k as [|[|k]]; [| |lia].
  - change (state_after _ 0) with 0. lia.
  - change (state_after _ 1) with 1. lia.
Defined.
